(** * migpt-next: the command queue, the TTS registry and the voice interpreter

    A shallow embedding of [apps/example/lib/api-server.js] (classes
    [APIServer] and [MessageHandler]), [apps/example/lib/tts-service.js]
    (class [TTSService]) and the TTS checks of
    [apps/example/lib/config-loader.js].

    - JavaScript strings are sequences of UTF-16 code units: [list N].
    - Asynchronous methods are programs of a small free monad ([prog]) whose
      calls are the awaits on the speaker, the AI backend, the synthesis
      backend and the timer; [run] interprets a program against an
      environment and records every call in a history.
    - The promise chain of [enqueueTask] is a store of promises with
      [then]-reactions, driven by a step relation. *)

From Stdlib Require Import String Ascii.
From stdpp Require Import base numbers list option gmap.

Open Scope N_scope.

(** ** JavaScript strings *)

Abbreviation jsstring := (list N).

(** Literals are written as Rocq strings (UTF-8 bytes) and decoded to the
    UTF-16 code units a JavaScript engine holds. *)
Fixpoint utf16_of_utf8 (bs : list N) : jsstring :=
  match bs with
  | [] => []
  | b1 :: r1 =>
    if b1 <? 0x80 then b1 :: utf16_of_utf8 r1
    else
      match r1 with
      | [] => [0xFFFD]
      | b2 :: r2 =>
        if b1 <? 0xE0 then
          N.lor (N.shiftl (N.land b1 0x1F) 6) (N.land b2 0x3F) :: utf16_of_utf8 r2
        else
          match r2 with
          | [] => [0xFFFD]
          | b3 :: r3 =>
            if b1 <? 0xF0 then
              N.lor (N.shiftl (N.land b1 0x0F) 12)
                (N.lor (N.shiftl (N.land b2 0x3F) 6) (N.land b3 0x3F))
                :: utf16_of_utf8 r3
            else
              match r3 with
              | [] => [0xFFFD]
              | b4 :: r4 =>
                let cp :=
                  N.lor (N.shiftl (N.land b1 0x07) 18)
                    (N.lor (N.shiftl (N.land b2 0x3F) 12)
                       (N.lor (N.shiftl (N.land b3 0x3F) 6) (N.land b4 0x3F))) in
                let v := cp - 0x10000 in
                (0xD800 + N.shiftr v 10) :: (0xDC00 + N.land v 0x3FF)
                  :: utf16_of_utf8 r4
              end
          end
      end
  end.

Definition js (s : string) : jsstring :=
  utf16_of_utf8 (map N_of_ascii (list_ascii_of_string s)).

(** [!s] for a string: only the empty string is falsy. *)
Definition is_empty (s : jsstring) : bool :=
  match s with [] => true | _ :: _ => false end.

(** [a || b] on strings. *)
Definition or_else (a b : jsstring) : jsstring :=
  if is_empty a then b else a.

(** WhiteSpace and LineTerminator code units: what [trim] strips and what
    the regular-expression class [\s] matches. *)
Definition is_space (c : N) : bool :=
  ((0x09 <=? c) && (c <=? 0x0D)) || (c =? 0x20) || (c =? 0xA0) || (c =? 0x1680)
  || ((0x2000 <=? c) && (c <=? 0x200A)) || (c =? 0x2028) || (c =? 0x2029)
  || (c =? 0x202F) || (c =? 0x205F) || (c =? 0x3000) || (c =? 0xFEFF).

Fixpoint drop_while (p : N -> bool) (s : jsstring) : jsstring :=
  match s with
  | [] => []
  | c :: r => if p c then drop_while p r else s
  end.

(** [s.trim()] *)
Definition trim (s : jsstring) : jsstring :=
  rev (drop_while is_space (rev (drop_while is_space s))).

(** [s.split(/[...]/)] for a class of single code units. *)
Fixpoint split_on (p : N -> bool) (s : jsstring) : list jsstring :=
  match s with
  | [] => [[]]
  | c :: r =>
    match split_on p r with
    | [] => [[]]
    | seg :: segs => if p c then [] :: seg :: segs else (c :: seg) :: segs
    end
  end.

Fixpoint starts_with (pre s : jsstring) : bool :=
  match pre, s with
  | [], _ => true
  | _ :: _, [] => false
  | a :: pre', b :: s' => (a =? b) && starts_with pre' s'
  end.

(** [s.indexOf(sub)]; [None] stands for -1. *)
Fixpoint indexOf (sub s : jsstring) : option nat :=
  if starts_with sub s then Some 0%nat
  else
    match s with
    | [] => None
    | _ :: r => S <$> indexOf sub r
    end.

(** [s.includes(sub)] *)
Definition includes (sub s : jsstring) : bool :=
  match indexOf sub s with Some _ => true | None => false end.

(** [a === b] on strings. *)
Definition str_eqb (a b : jsstring) : bool := bool_decide (a = b).

(** ** tts-service.js *)

Inductive result (A : Type) : Type :=
| Ok (a : A)
| Err (msg : jsstring).
Arguments Ok {A} a.
Arguments Err {A} msg.

Definition DEFAULT_PROVIDER : jsstring := js "xiaomi".

(** A provider entry: all the registry looks at is whether [synthesize] is
    a function. *)
Record provider_impl := { has_synthesize : bool }.

Record TTSService := {
  config_provider : jsstring;                (* this.config.provider, empty when unset *)
  providers : gmap jsstring provider_impl;   (* this.providers *)
  aliases : gmap jsstring jsstring;          (* this.aliases *)
}.

Section Registry.

(** [String.prototype.toLowerCase] is the engine's Unicode case mapping; the
    registry is modelled for any such function. *)
Variable toLowerCase : jsstring -> jsstring.

(** [String(x || dflt).trim().toLowerCase()] *)
Definition normalize_key (x dflt : jsstring) : jsstring :=
  toLowerCase (trim (or_else x dflt)).

Definition registerProvider (name : jsstring) (provider : provider_impl)
    (s : TTSService) : result TTSService :=
  let key := normalize_key name [] in
  if is_empty key then Err (js "TTS provider name is required")
  else Ok {| config_provider := config_provider s;
             providers := <[key := provider]> (providers s);
             aliases := aliases s |}.

Definition registerAlias (alias target : jsstring) (s : TTSService)
    : result TTSService :=
  let aliasKey := normalize_key alias [] in
  let targetKey := normalize_key target [] in
  if is_empty aliasKey || is_empty targetKey
  then Err (js "TTS alias and target are required")
  else Ok {| config_provider := config_provider s;
             providers := providers s;
             aliases := <[aliasKey := targetKey]> (aliases s) |}.

(** [this.aliases.get(raw) || raw] *)
Definition normalizeProvider (s : TTSService) (provider : jsstring) : jsstring :=
  let raw := normalize_key provider DEFAULT_PROVIDER in
  match aliases s !! raw with
  | Some target => or_else target raw
  | None => raw
  end.

Definition getProvider (s : TTSService) : jsstring :=
  normalizeProvider s (or_else (config_provider s) DEFAULT_PROVIDER).

Definition unsupported_provider (provider : jsstring) : jsstring :=
  js "不支持的 TTS 提供商: " ++ provider.

Definition getProviderImpl (s : TTSService) : result provider_impl :=
  let provider := getProvider s in
  match providers s !! provider with
  | Some impl => Ok impl
  | None => Err (unsupported_provider provider)
  end.

Definition canSynthesize (s : TTSService) : result bool :=
  match getProviderImpl s with
  | Ok impl => Ok (has_synthesize impl)
  | Err e => Err e
  end.

(** The constructor: the alias table starts from [PROVIDER_ALIASES], then
    [registerBuiltins] adds the two built-in providers. *)
Definition registerBuiltins (s : TTSService) : result TTSService :=
  match registerProvider (js "xiaomi") {| has_synthesize := false |} s with
  | Ok s1 => registerProvider (js "volcano") {| has_synthesize := true |} s1
  | Err e => Err e
  end.

Definition new_TTSService (provider : jsstring) : result TTSService :=
  registerBuiltins
    {| config_provider := provider;
       providers := ∅;
       aliases := {[ js "doubao" := js "volcano" ]} |}.

End Registry.

(** A case mapping for the ASCII range, used to run the registry on
    concrete names. *)
Definition ascii_toLowerCase (s : jsstring) : jsstring :=
  map (fun c => if (0x41 <=? c) && (c <=? 0x5A) then c + 0x20 else c) s.

(** ** api-server.js: story chunking *)

Definition is_sentence_end (c : N) : bool :=
  (c =? 0x3002) || (c =? 0xFF01) || (c =? 0xFF1F).   (* 。 ！ ？ *)

Definition full_stop : jsstring := [0x3002].

Definition str_length (s : jsstring) : Z := Z.of_nat (length s).

(** The body of the [for ... of sentences] loop, on the pair
    ([chunks], [current]). *)
Definition story_step (firstChunkMaxChars normalChunkMaxChars : Z)
    (st : list jsstring * jsstring) (sentence : jsstring)
    : list jsstring * jsstring :=
  let '(chunks, current) := st in
  let cleanSentence := trim sentence in
  if is_empty cleanSentence then st
  else
    let limit := if (length chunks =? 0)%nat then firstChunkMaxChars
                 else normalChunkMaxChars in
    let candidate := current ++ cleanSentence ++ full_stop in
    if negb (is_empty current) && (limit <? str_length candidate)%Z
    then (chunks ++ [current], cleanSentence ++ full_stop)
    else (chunks, candidate).

Definition splitTextForStory (text : jsstring)
    (firstChunkMaxChars normalChunkMaxChars : Z) : list jsstring :=
  let sentences := split_on is_sentence_end text in
  let '(chunks, current) :=
    foldl (story_step firstChunkMaxChars normalChunkMaxChars) ([], []) sentences in
  if is_empty current then chunks else chunks ++ [current].

(** ** The awaited collaborators *)

(** What [getEngineOrThrow] inspects of the engine object. *)
Record engine_caps := { MiNA : bool; MiOT : bool }.

(** Every awaited call that leaves the process. *)
Inductive call : Type :=
| AbortXiaoAI                                        (* engine.speaker.abortXiaoAI() *)
| PlayText (text : jsstring)                         (* engine.speaker.play({ text }) *)
| PlayUrl (url : jsstring) (blocking : option bool)  (* engine.speaker.play({ url [, blocking] }) *)
| GetPlayingStatus                                   (* engine.speaker.getPlayingStatus() *)
| AskAI (text : jsstring)                            (* engine.askAI({ ..., text }) *)
| MiNAStop                                           (* engine.MiNA.stop() *)
| Synthesize (provider text : jsstring)              (* impl.synthesize(text) *)
| Sleep (ms : Z).                                    (* new Promise(r => setTimeout(r, ms)) *)

(** The type of what a call resolves to: [status.is_playing] for the
    status poll, [aiResponse.text || ''] for the AI, the audio URL for a
    synthesis. *)
Definition answer (c : call) : Type :=
  match c with
  | GetPlayingStatus => bool
  | AskAI _ => jsstring
  | Synthesize _ _ => jsstring
  | _ => unit
  end.

Inductive event : Type :=
| Ev (c : call) (r : result (answer c)).

Definition ev_call (e : event) : call := match e with Ev c _ => c end.

Definition ev_failed (e : event) : bool :=
  match e with Ev _ (Err _) => true | Ev _ (Ok _) => false end.

(** The environment answers each call from the history of earlier calls,
    tells whether the engine is there, and says how long a call takes. *)
Record env := {
  respond : list event -> forall c : call, result (answer c);
  engine_at : list event -> option engine_caps;
  latency : list event -> call -> N;
}.

(** ** Mutable fields of [APIServer] *)

Record task_error := { te_type : jsstring; te_message : jsstring; te_at : Z }.

Record server := {
  queueDepth : Z;
  lastTaskType : option jsstring;
  lastTaskError : option task_error;
  lastTaskFinishedAt : option Z;
  lastSpeakMode : option jsstring;
  lastSpeakAt : option Z;
  aiConversationMode : bool;
}.

Definition new_server : server :=
  {| queueDepth := 0; lastTaskType := None; lastTaskError := None;
     lastTaskFinishedAt := None; lastSpeakMode := None; lastSpeakAt := None;
     aiConversationMode := false |}.

Definition set_queueDepth (d : Z) (s : server) : server :=
  {| queueDepth := d; lastTaskType := lastTaskType s;
     lastTaskError := lastTaskError s; lastTaskFinishedAt := lastTaskFinishedAt s;
     lastSpeakMode := lastSpeakMode s; lastSpeakAt := lastSpeakAt s;
     aiConversationMode := aiConversationMode s |}.

Definition set_lastTaskType (t : option jsstring) (s : server) : server :=
  {| queueDepth := queueDepth s; lastTaskType := t;
     lastTaskError := lastTaskError s; lastTaskFinishedAt := lastTaskFinishedAt s;
     lastSpeakMode := lastSpeakMode s; lastSpeakAt := lastSpeakAt s;
     aiConversationMode := aiConversationMode s |}.

Definition set_lastTaskError (e : option task_error) (s : server) : server :=
  {| queueDepth := queueDepth s; lastTaskType := lastTaskType s;
     lastTaskError := e; lastTaskFinishedAt := lastTaskFinishedAt s;
     lastSpeakMode := lastSpeakMode s; lastSpeakAt := lastSpeakAt s;
     aiConversationMode := aiConversationMode s |}.

Definition set_lastTaskFinishedAt (t : option Z) (s : server) : server :=
  {| queueDepth := queueDepth s; lastTaskType := lastTaskType s;
     lastTaskError := lastTaskError s; lastTaskFinishedAt := t;
     lastSpeakMode := lastSpeakMode s; lastSpeakAt := lastSpeakAt s;
     aiConversationMode := aiConversationMode s |}.

Definition set_lastSpeakMode (m : option jsstring) (s : server) : server :=
  {| queueDepth := queueDepth s; lastTaskType := lastTaskType s;
     lastTaskError := lastTaskError s; lastTaskFinishedAt := lastTaskFinishedAt s;
     lastSpeakMode := m; lastSpeakAt := lastSpeakAt s;
     aiConversationMode := aiConversationMode s |}.

Definition set_lastSpeakAt (t : option Z) (s : server) : server :=
  {| queueDepth := queueDepth s; lastTaskType := lastTaskType s;
     lastTaskError := lastTaskError s; lastTaskFinishedAt := lastTaskFinishedAt s;
     lastSpeakMode := lastSpeakMode s; lastSpeakAt := t;
     aiConversationMode := aiConversationMode s |}.

Definition set_aiConversationMode (b : bool) (s : server) : server :=
  {| queueDepth := queueDepth s; lastTaskType := lastTaskType s;
     lastTaskError := lastTaskError s; lastTaskFinishedAt := lastTaskFinishedAt s;
     lastSpeakMode := lastSpeakMode s; lastSpeakAt := lastSpeakAt s;
     aiConversationMode := b |}.

(** ** Asynchronous code as programs *)

(** A program is a tree of awaited calls and of reads and writes of the
    server's fields; [Throw] is a thrown [Error] with its message.
    [OutOfFuel] marks where a model of a [while] loop has used up its
    iteration budget. *)
Inductive prog (A : Type) : Type :=
| Ret (a : A)
| Throw (msg : jsstring)
| OutOfFuel
| Call (c : call) (k : result (answer c) -> prog A)
| Now (k : Z -> prog A)                           (* Date.now() *)
| GetEngine (k : option engine_caps -> prog A)    (* this.engine?.get?.() *)
| GetState (k : server -> prog A)
| SetState (f : server -> server) (k : prog A).
Arguments Ret {A} a.
Arguments Throw {A} msg.
Arguments OutOfFuel {A}.
Arguments Call {A} c k.
Arguments Now {A} k.
Arguments GetEngine {A} k.
Arguments GetState {A} k.
Arguments SetState {A} f k.

Fixpoint bind {A B : Type} (p : prog A) (f : A -> prog B) : prog B :=
  match p with
  | Ret a => f a
  | Throw e => Throw e
  | OutOfFuel => OutOfFuel
  | Call c k => Call c (fun r => bind (k r) f)
  | Now k => Now (fun t => bind (k t) f)
  | GetEngine k => GetEngine (fun e => bind (k e) f)
  | GetState k => GetState (fun s => bind (k s) f)
  | SetState g k => SetState g (bind k f)
  end.

Notation "'let*' x ':=' p 'in' q" := (bind p (fun x => q))
  (at level 10, x name, p at level 100, q at level 200, only parsing).

(** [try { p } catch (e) { h e }] *)
Fixpoint try_catch {A : Type} (p : prog A) (h : jsstring -> prog A) : prog A :=
  match p with
  | Ret a => Ret a
  | Throw e => h e
  | OutOfFuel => OutOfFuel
  | Call c k => Call c (fun r => try_catch (k r) h)
  | Now k => Now (fun t => try_catch (k t) h)
  | GetEngine k => GetEngine (fun e => try_catch (k e) h)
  | GetState k => GetState (fun s => try_catch (k s) h)
  | SetState g k => SetState g (try_catch k h)
  end.

(** [try { p } finally { fin }] *)
Fixpoint try_finally {A : Type} (p : prog A) (fin : prog unit) : prog A :=
  match p with
  | Ret a => let* _ := fin in Ret a
  | Throw e => let* _ := fin in Throw e
  | OutOfFuel => OutOfFuel
  | Call c k => Call c (fun r => try_finally (k r) fin)
  | Now k => Now (fun t => try_finally (k t) fin)
  | GetEngine k => GetEngine (fun e => try_finally (k e) fin)
  | GetState k => GetState (fun s => try_finally (k s) fin)
  | SetState g k => SetState g (try_finally k fin)
  end.

(** [await c]: a rejected call throws. *)
Definition await (c : call) : prog (answer c) :=
  Call c (fun r => match r with Ok a => Ret a | Err e => Throw e end).

Definition modify (f : server -> server) : prog unit := SetState f (Ret tt).

(** ** Running a program *)

Record world := {
  history : list event;   (* the calls made so far, oldest first *)
  clock : Z;              (* what Date.now() returns *)
  fields : server;
}.

(** Node sets a timer delay below 1 or above 2^31-1 to 1. *)
Definition timer_delay (ms : Z) : Z :=
  if (ms <? 1)%Z || (2147483647 <? ms)%Z then 1%Z else ms.

(** The time a call takes: what the environment says, and for a timer at
    least its delay, so that [Date.now()] never goes back and has moved on
    by the delay when a timer fires. *)
Definition elapsed (E : env) (h : list event) (c : call) : Z :=
  (match c with Sleep ms => timer_delay ms | _ => 0 end + Z.of_N (latency E h c))%Z.

Definition after_call (E : env) (w : world) (c : call) (r : result (answer c))
    : world :=
  {| history := history w ++ [Ev c r];
     clock := (clock w + elapsed E (history w) c)%Z;
     fields := fields w |}.

Definition with_fields (f : server -> server) (w : world) : world :=
  {| history := history w; clock := clock w; fields := f (fields w) |}.

Inductive outcome (A : Type) : Type :=
| Settled (r : result A)
| Diverged.
Arguments Settled {A} r.
Arguments Diverged {A}.

Fixpoint run {A : Type} (E : env) (p : prog A) (w : world) : outcome A * world :=
  match p with
  | Ret a => (Settled (Ok a), w)
  | Throw e => (Settled (Err e), w)
  | OutOfFuel => (Diverged, w)
  | Call c k =>
    let r := respond E (history w) c in
    run E (k r) (after_call E w c r)
  | Now k => run E (k (clock w)) w
  | GetEngine k => run E (k (engine_at E (history w))) w
  | GetState k => run E (k (fields w)) w
  | SetState f k => run E k (with_fields f w)
  end.

(** One step of a program, for interleaving with the event loop. *)
Definition step_prog {A : Type} (E : env) (p : prog A) (w : world)
    : option (prog A * world) :=
  match p with
  | Ret _ | Throw _ | OutOfFuel => None
  | Call c k =>
    let r := respond E (history w) c in Some (k r, after_call E w c r)
  | Now k => Some (k (clock w), w)
  | GetEngine k => Some (k (engine_at E (history w)), w)
  | GetState k => Some (k (fields w), w)
  | SetState f k => Some (k, with_fields f w)
  end.

(** ** api-server.js: the speaker operations *)

Record story_config := {
  systemPrompt : jsstring;
  firstChunkMaxChars : Z;
  normalChunkMaxChars : Z;
  pollIntervalMs : Z;
  waitTimeoutMs : Z;
  triggerPattern : jsstring -> bool;   (* new RegExp(triggerPattern).test *)
}.

(** What a queued task resolves to. *)
Inductive value : Type :=
| VUndefined
| VStr (s : jsstring)
| VChat (mode : option jsstring) (replyText : jsstring).

Definition engine_not_ready : jsstring := js "Engine not ready".
Definition wait_timeout : jsstring := js "等待音频播放超时".
Definition xiaomi : jsstring := js "xiaomi".

Section APIServer.

Variable toLowerCase : jsstring -> jsstring.
Variable ttsService : option TTSService.   (* this.ttsService *)
Variable storyConfig : story_config.       (* this.storyConfig *)
Variable fuel : nat.                       (* iteration budget of the polling loop *)

Definition getEngineOrThrow : prog engine_caps :=
  GetEngine (fun engine =>
    match engine with
    | Some e => if MiNA e && MiOT e then Ret e else Throw engine_not_ready
    | None => Throw engine_not_ready
    end).

(** [if (interrupt) { await engine.speaker.abortXiaoAI(); }] *)
Definition abort_if (interrupt : bool) : prog unit :=
  if interrupt then await AbortXiaoAI else Ret tt.

(** [this.ttsService?.getProvider?.() || 'xiaomi'] *)
Definition current_provider : jsstring :=
  match ttsService with
  | Some tts => or_else (getProvider toLowerCase tts) xiaomi
  | None => xiaomi
  end.

(** [this.ttsService?.canSynthesize?.()], which throws for a provider that
    was never registered. *)
Definition can_synthesize : result bool :=
  match ttsService with
  | Some tts => canSynthesize toLowerCase tts
  | None => Ok false
  end.

Definition not_external (provider : jsstring) : jsstring :=
  js "当前 provider 为 " ++ provider ++ js "，不走外部 TTS 合成".

(** [TTSService.synthesize] *)
Definition synthesize (text : jsstring) : prog jsstring :=
  match ttsService with
  | None => Throw (js "Cannot read properties of undefined (reading 'synthesize')")
  | Some tts =>
    let provider := getProvider toLowerCase tts in
    match getProviderImpl toLowerCase tts with
    | Err e => Throw e
    | Ok impl =>
      if has_synthesize impl then await (Synthesize provider text)
      else Throw (not_external provider)
    end
  end.

(** The [while] loop of [waitForAudioComplete]. *)
Fixpoint wait_loop (n : nat) (startTime : Z) : prog unit :=
  match n with
  | O => OutOfFuel
  | S n' =>
    Now (fun t =>
      if (t - startTime <? waitTimeoutMs storyConfig)%Z then
        let* is_playing := await GetPlayingStatus in
        if is_playing : bool then
          let* _ := await (Sleep (pollIntervalMs storyConfig)) in
          wait_loop n' startTime
        else Ret tt
      else Throw wait_timeout)
  end.

Definition waitForAudioComplete : prog unit :=
  let* _ := getEngineOrThrow in
  Now (fun startTime => wait_loop fuel startTime).

(** The [if (i === 0) ... else ...] of the loop in [speakStoryMode]. *)
Definition play_chunk (i : nat) (audioUrl : jsstring) : prog unit :=
  if (i =? 0)%nat then await (PlayUrl audioUrl None)
  else (let* _ := waitForAudioComplete in await (PlayUrl audioUrl None)).

(** The [for] loop of [speakStoryMode], from index [i] on. *)
Fixpoint story_loop (i : nat) (chunks : list jsstring) : prog unit :=
  match chunks with
  | [] => Ret tt
  | chunk :: rest =>
    let* audioUrl := synthesize chunk in
    let* _ := play_chunk i audioUrl in
    story_loop (S i) rest
  end.

Definition story_chunks (text : jsstring) : list jsstring :=
  let first := firstChunkMaxChars storyConfig in
  let normal := if (normalChunkMaxChars storyConfig =? 0)%Z then first
                else normalChunkMaxChars storyConfig in
  splitTextForStory text first normal.

Definition speakStoryMode (text : jsstring) : prog jsstring :=
  let* _ := getEngineOrThrow in
  let* _ := story_loop 0 (story_chunks text) in
  Ret (js "story").

Definition record_speak (mode : jsstring) : prog jsstring :=
  let* _ := modify (set_lastSpeakMode (Some mode)) in
  Now (fun t =>
    let* _ := modify (set_lastSpeakAt (Some t)) in
    Ret mode).

(** The last lines of [speakByText]: the speaker's own voice. *)
Definition default_voice (text : jsstring) : prog jsstring :=
  let* _ := await (PlayText text) in
  let* _ := modify (set_lastSpeakMode (Some xiaomi)) in
  Now (fun t =>
    let* _ := modify (set_lastSpeakAt (Some t)) in
    Ret xiaomi).

(** The body of the [try] in [speakByText]: the external TTS. *)
Definition speak_external (ttsProvider text : jsstring) (storyMode : bool)
    : prog jsstring :=
  if storyMode then
    let* _ := speakStoryMode text in
    record_speak (js "tts:" ++ ttsProvider ++ js ":story")
  else
    let* audioUrl := synthesize text in
    let* _ := await (PlayUrl audioUrl None) in
    record_speak (js "tts:" ++ ttsProvider).

(** The [try] returns the mode from inside; after the [catch], which only
    logs a warning, control falls through to the default voice. *)
Definition speakByText (text : jsstring) (interrupt storyMode : bool)
    : prog jsstring :=
  let* _ := getEngineOrThrow in
  let* _ := abort_if interrupt in
  let ttsProvider := current_provider in
  match can_synthesize with
  | Err e => Throw e
  | Ok can =>
    let* returned :=
      if can then
        try_catch
          (let* mode := speak_external ttsProvider text storyMode in
           Ret (Some mode))
          (fun _ => Ret None)
      else Ret None in
    match returned with
    | Some mode => Ret mode
    | None => default_voice text
    end
  end.

Definition askAndSpeak (text : jsstring) (interrupt storyMode : bool)
    : prog value :=
  let* _ := getEngineOrThrow in
  let* _ := abort_if interrupt in
  let* replyText := await (AskAI text) in
  if is_empty replyText then Ret (VChat None [])
  else
    let* mode := speakByText replyText false storyMode in
    Ret (VChat (Some mode) replyText).

Definition playByUrl (url : jsstring) (interrupt blocking : bool) : prog jsstring :=
  let* _ := getEngineOrThrow in
  let* _ := abort_if interrupt in
  let* _ := await (PlayUrl url (Some blocking)) in
  Ret (js "url").

(** *** The task queue *)

(** [error?.message || String(error)] *)
Definition error_message (e : jsstring) : jsstring := or_else e (js "Error").

(** The closure [wrappedTask] that [enqueueTask] chains on the queue. *)
Definition wrappedTask (taskType : jsstring) (task : prog value) : prog value :=
  try_finally
    (try_catch
       (let* result := task in
        let* _ := modify (set_lastTaskError None) in
        Ret result)
       (fun error =>
          Now (fun t =>
            let* _ := modify (set_lastTaskError
                        (Some {| te_type := taskType;
                                 te_message := error_message error;
                                 te_at := t |})) in
            Throw error)))
    (let* _ := modify (fun s => set_queueDepth (Z.max 0 (queueDepth s - 1)) s) in
     let* _ := modify (set_lastTaskType (Some taskType)) in
     Now (fun t => modify (set_lastTaskFinishedAt (Some t)))).

(** What a caller hands to [enqueueTask]: the task and [meta.type]. *)
Record submission := { sub_type : jsstring; sub_task : prog value }.

(** *** The HTTP handlers, up to their call of [enqueueTask] *)

Record request_body := {
  b_text : jsstring;             (* String(body?.text || '') *)
  b_url : jsstring;              (* String(body?.url || '') *)
  b_interrupt : option bool;
  b_storyMode : option bool;
  b_blocking : option bool;
}.

(** [x !== false] and [x === true] *)
Definition not_false (x : option bool) : bool :=
  match x with Some false => false | _ => true end.
Definition is_true (x : option bool) : bool :=
  match x with Some true => true | _ => false end.

Definition handleSpeak (body : request_body) : result submission :=
  let text := trim (b_text body) in
  if is_empty text then Err (js "text is required")
  else
    let interrupt := not_false (b_interrupt body) in
    let storyMode := is_true (b_storyMode body) in
    Ok {| sub_type := js "api:speak";
          sub_task := let* mode := speakByText text interrupt storyMode in
                      Ret (VStr mode) |}.

Definition handleChat (body : request_body) : result submission :=
  let text := trim (b_text body) in
  if is_empty text then Err (js "text is required")
  else
    let interrupt := not_false (b_interrupt body) in
    let storyMode := is_true (b_storyMode body) in
    Ok {| sub_type := js "api:chat";
          sub_task := askAndSpeak text interrupt storyMode |}.

Definition handlePlay (body : request_body) : result submission :=
  let url := trim (b_url body) in
  if is_empty url then Err (js "url is required")
  else
    let interrupt := not_false (b_interrupt body) in
    let blocking := is_true (b_blocking body) in
    Ok {| sub_type := js "api:play";
          sub_task := let* mode := playByUrl url interrupt blocking in
                      Ret (VStr mode) |}.

End APIServer.

(** ** message-handler: the voice interpreter *)

Record wakeup_config := {
  keywords : list jsstring;
  enterAIMode : list jsstring;
  exitAIMode : list jsstring;
  stopKeywords : list jsstring;
  enterMessage : jsstring;
  exitMessage : jsstring;
}.

(** The class [，。,.!?！？] *)
Definition is_punct (c : N) : bool :=
  (c =? 0xFF0C) || (c =? 0x3002) || (c =? 0x2C) || (c =? 0x2E) || (c =? 0x21)
  || (c =? 0x3F) || (c =? 0xFF01) || (c =? 0xFF1F).

(** The class [，。,.!?！？:\s] *)
Definition is_intent_lead (c : N) : bool :=
  is_punct c || (c =? 0x3A) || is_space c.

Definition remove_all (p : N -> bool) (s : jsstring) : jsstring :=
  filter (fun c => p c = false) s.

Definition normalizeText (text : jsstring) : jsstring :=
  remove_all is_punct (remove_all is_space (trim text)).

(** [fullText.slice(fullText.indexOf(keyword) + keyword.length)], with -1
    for a keyword that does not occur. *)
Definition after_keyword (fullText keyword : jsstring) : jsstring :=
  match indexOf keyword fullText with
  | Some i => drop (i + length keyword) fullText
  | None => drop (length keyword - 1) fullText
  end.

Definition extractUserIntent (fullText keyword : jsstring) : jsstring :=
  drop_while is_intent_lead (trim (after_keyword fullText keyword)).

(** What [handle] does with an utterance. *)
Inductive decision : Type :=
| Skipped                          (* engine missing: returns undefined *)
| Ignored                          (* returns undefined: the speaker answers itself *)
| HandledOnly                      (* returns { handled: true }, nothing queued *)
| Awaited (sub : submission)       (* await enqueueTask(...), then { handled: true } *)
| Background (sub : submission).   (* enqueueTask(...).catch(...), { handled: true } at once *)

Section MessageHandler.

Variable toLowerCase : jsstring -> jsstring.
Variable ttsService : option TTSService.
Variable storyConfig : story_config.
Variable wakeupConfig : wakeup_config.
Variable fuel : nat.

Definition isStopCommand (normalizedText : jsstring) : bool :=
  existsb (fun keyword => includes (normalizeText keyword) normalizedText)
    (stopKeywords wakeupConfig).

Definition isEnterAIModeCommand (normalizedText : jsstring) : bool :=
  existsb (fun keyword => str_eqb normalizedText (normalizeText keyword))
    (enterAIMode wakeupConfig).

Definition isExitAIModeCommand (normalizedText : jsstring) : bool :=
  existsb (fun keyword => str_eqb normalizedText (normalizeText keyword))
    (exitAIMode wakeupConfig).

Definition findMatchedKeyword (text : jsstring) : option jsstring :=
  find (fun keyword => includes keyword text) (keywords wakeupConfig).

Definition isStoryRequest (text : jsstring) : bool :=
  triggerPattern storyConfig text.

(** The task of a stop command.  [engine] is the object that [handle]
    got from [this.engine.get()], of which it only knows that it is there:
    without [engine.MiNA] the call [engine.MiNA.stop()] throws a TypeError
    before anything is called, inside the second [try]. *)
Definition stop_task (engine : engine_caps) : prog value :=
  let* _ := try_catch (await AbortXiaoAI) (fun _ => Ret tt) in
  let* _ := try_catch
              (if MiNA engine then await MiNAStop
               else Throw (js "Cannot read properties of undefined (reading 'stop')"))
              (fun _ => Ret tt) in
  Ret VUndefined.

Definition chat_task (userText : jsstring) : prog value :=
  try_catch
    (let* _ := await AbortXiaoAI in
     let storyMode := isStoryRequest userText in
     let aiText := if storyMode then userText ++ [0x0A] ++ systemPrompt storyConfig
                   else userText in
     let* replyText := await (AskAI aiText) in
     if is_empty replyText then Ret VUndefined
     else
       let* _ := speakByText toLowerCase ttsService storyConfig fuel
                   replyText false storyMode in
       Ret VUndefined)
    (fun _ => Ret VUndefined).

Definition speak_task (message : jsstring) : prog value :=
  let* mode := speakByText toLowerCase ttsService storyConfig fuel
                 message true false in
  Ret (VStr mode).

(** [handle(msg)] on [msg.text || ''], given what [this.engine.get()]
    returns and the conversation flag; the result is the flag afterwards
    and what is done with the utterance. *)
Definition handle (engine : option engine_caps) (aiMode : bool)
    (text : jsstring) : bool * decision :=
  match engine with
  | None => (aiMode, Skipped)
  | Some engine =>
    let normalizedText := normalizeText text in
    if isStopCommand normalizedText then
      (aiMode, Awaited {| sub_type := js "voice:stop"; sub_task := stop_task engine |})
    else if isEnterAIModeCommand normalizedText then
      (true, Awaited {| sub_type := js "voice:enter-ai-mode";
                        sub_task := speak_task (enterMessage wakeupConfig) |})
    else if isExitAIModeCommand normalizedText then
      (false, Awaited {| sub_type := js "voice:exit-ai-mode";
                         sub_task := speak_task (exitMessage wakeupConfig) |})
    else
      let matchedKeyword := findMatchedKeyword text in
      let keywordHit :=
        match matchedKeyword with
        | Some k => negb (is_empty k)
        | None => false
        end in
      if negb (aiMode || keywordHit) then (aiMode, Ignored)
      else
        let userText :=
          match matchedKeyword with
          | Some k => if is_empty k then text else extractUserIntent text k
          | None => text
          end in
        if is_empty userText then (aiMode, HandledOnly)
        else (aiMode, Background {| sub_type := js "voice:chat";
                                    sub_task := chat_task userText |})
  end.

End MessageHandler.

(** ** The promise chain of [enqueueTask] *)

Inductive pstate : Type :=
| Pending
| Resolved (r : result value).   (* fulfilled with a value or rejected with an error *)

(** A reaction registered by [source.then(onFulfilled, onRejected)]; a
    handler is the [wrappedTask] closure of a submitted task, named by the
    task's index. *)
Record reaction := {
  r_source : nat;
  r_onFulfilled : option nat;
  r_onRejected : option nat;
  r_derived : nat;
}.

(** An invocation of [wrappedTask] in flight. *)
Record activation := { a_task : nat; a_promise : nat; a_code : prog value }.

Inductive qevent : Type :=
| Started (task : nat)
| Stepped (task : nat)
| Finished (task : nat) (r : result value).

Record loop := {
  promises : list pstate;        (* promise 0 is the initial Promise.resolve() *)
  taskQueue : nat;               (* this.taskQueue *)
  reactions : list reaction;
  submitted : list submission;
  running : list activation;
  lworld : world;
  qlog : list qevent;
}.

Definition new_loop (w : world) : loop :=
  {| promises := [Resolved (Ok VUndefined)]; taskQueue := 0%nat; reactions := [];
     submitted := []; running := []; lworld := w; qlog := [] |}.

(** The synchronous part of [enqueueTask(task, { type })]; the promise it
    returns is the new [taskQueue]. *)
Definition enqueueTask (sub : submission) (s : loop) : loop :=
  let taskType := or_else (sub_type sub) (js "task") in
  let task := length (submitted s) in
  let derived := length (promises s) in
  {| promises := promises s ++ [Pending];
     taskQueue := derived;
     reactions := reactions s ++
       [{| r_source := taskQueue s; r_onFulfilled := Some task;
           r_onRejected := Some task; r_derived := derived |}];
     submitted := submitted s ++ [{| sub_type := taskType; sub_task := sub_task sub |}];
     running := running s;
     lworld := with_fields (fun f => set_queueDepth (queueDepth f + 1) f) (lworld s);
     qlog := qlog s |}.

Definition handler_for (r : reaction) (res : result value) : option nat :=
  match res with Ok _ => r_onFulfilled r | Err _ => r_onRejected r end.

Definition settled (p : prog value) : option (result value) :=
  match p with
  | Ret v => Some (Ok v)
  | Throw e => Some (Err e)
  | _ => None
  end.

(** What the event loop may do next. *)
Inductive lstep (E : env) : loop -> loop -> Prop :=
| step_fire s rs1 r rs2 res task sub :
    reactions s = rs1 ++ r :: rs2 ->
    promises s !! r_source r = Some (Resolved res) ->
    handler_for r res = Some task ->
    submitted s !! task = Some sub ->
    lstep E s
      {| promises := promises s; taskQueue := taskQueue s;
         reactions := rs1 ++ rs2; submitted := submitted s;
         running := running s ++
           [{| a_task := task; a_promise := r_derived r;
               a_code := wrappedTask (sub_type sub) (sub_task sub) |}];
         lworld := lworld s; qlog := qlog s ++ [Started task] |}
| step_pass s rs1 r rs2 res :
    reactions s = rs1 ++ r :: rs2 ->
    promises s !! r_source r = Some (Resolved res) ->
    handler_for r res = None ->
    lstep E s
      {| promises := <[r_derived r := Resolved res]> (promises s);
         taskQueue := taskQueue s; reactions := rs1 ++ rs2;
         submitted := submitted s; running := running s;
         lworld := lworld s; qlog := qlog s |}
| step_run s as1 a as2 p' w' :
    running s = as1 ++ a :: as2 ->
    step_prog E (a_code a) (lworld s) = Some (p', w') ->
    lstep E s
      {| promises := promises s; taskQueue := taskQueue s;
         reactions := reactions s; submitted := submitted s;
         running := as1 ++ {| a_task := a_task a; a_promise := a_promise a;
                              a_code := p' |} :: as2;
         lworld := w'; qlog := qlog s ++ [Stepped (a_task a)] |}
| step_settle s as1 a as2 res :
    running s = as1 ++ a :: as2 ->
    settled (a_code a) = Some res ->
    lstep E s
      {| promises := <[a_promise a := Resolved res]> (promises s);
         taskQueue := taskQueue s; reactions := reactions s;
         submitted := submitted s; running := as1 ++ as2;
         lworld := lworld s; qlog := qlog s ++ [Finished (a_task a) res] |}.

(** One deterministic schedule, to run the loop on concrete inputs: the
    task in flight goes on; otherwise the oldest reaction fires if its
    source has settled. *)
Definition next_step (E : env) (s : loop) : option loop :=
  match running s with
  | a :: rest =>
    match settled (a_code a) with
    | Some res =>
      Some {| promises := <[a_promise a := Resolved res]> (promises s);
              taskQueue := taskQueue s; reactions := reactions s;
              submitted := submitted s; running := rest;
              lworld := lworld s; qlog := qlog s ++ [Finished (a_task a) res] |}
    | None =>
      match step_prog E (a_code a) (lworld s) with
      | Some (p', w') =>
        Some {| promises := promises s; taskQueue := taskQueue s;
                reactions := reactions s; submitted := submitted s;
                running := {| a_task := a_task a; a_promise := a_promise a;
                              a_code := p' |} :: rest;
                lworld := w'; qlog := qlog s ++ [Stepped (a_task a)] |}
      | None => None
      end
    end
  | [] =>
    match reactions s with
    | r :: rest =>
      match promises s !! r_source r with
      | Some (Resolved res) =>
        match handler_for r res with
        | Some task =>
          match submitted s !! task with
          | Some sub =>
            Some {| promises := promises s; taskQueue := taskQueue s;
                    reactions := rest; submitted := submitted s;
                    running :=
                      running s ++
                      [{| a_task := task; a_promise := r_derived r;
                          a_code := wrappedTask (sub_type sub) (sub_task sub) |}];
                    lworld := lworld s; qlog := qlog s ++ [Started task] |}
          | None => None
          end
        | None =>
          Some {| promises := <[r_derived r := Resolved res]> (promises s);
                  taskQueue := taskQueue s; reactions := rest;
                  submitted := submitted s; running := running s;
                  lworld := lworld s; qlog := qlog s |}
        end
      | _ => None
      end
    | [] => None
    end
  end.

Fixpoint drain (E : env) (n : nat) (s : loop) : loop :=
  match n with
  | O => s
  | S n' =>
    match next_step E s with
    | Some s' => drain E n' s'
    | None => s
    end
  end.

(** A task body that settles when run from history [h] at time [t]:
    it does not end out of fuel, whatever the server's fields are when it
    reads them (other callers may enqueue in between). *)
Fixpoint settles {A : Type} (E : env) (p : prog A) (h : list event) (t : Z)
    : Prop :=
  match p with
  | Ret _ | Throw _ => True
  | OutOfFuel => False
  | Call c k =>
    settles E (k (respond E h c)) (h ++ [Ev c (respond E h c)]) (t + elapsed E h c)
  | Now k => settles E (k t) h t
  | GetEngine k => settles E (k (engine_at E h)) h t
  | GetState k => forall f, settles E (k f) h t
  | SetState _ k => settles E k h t
  end.

(** A task body that settles wherever it is started. *)
Definition always_settles {A : Type} (E : env) (p : prog A) : Prop :=
  forall h t, settles E p h t.

(** The states the server can be in: tasks are submitted at any moment
    between the steps of the event loop. *)
Inductive reachable (E : env) : loop -> Prop :=
| reach_new w : reachable E (new_loop w)
| reach_enqueue s sub :
    reachable E s -> always_settles E (sub_task sub) ->
    reachable E (enqueueTask sub s)
| reach_step s s' : reachable E s -> lstep E s s' -> reachable E s'.

(** Reading the log from the left: [(n, cur)] says tasks [0..n-1] have been
    started, in this order, and [cur] is the one still executing.  A task
    starting while another executes, or out of order, has no reading. *)
Definition scan_event (st : nat * option nat) (e : qevent)
    : option (nat * option nat) :=
  match e, st with
  | Started k, (n, None) => if (k =? n)%nat then Some (S n, Some k) else None
  | Stepped k, (n, Some c) => if (k =? c)%nat then Some (n, Some c) else None
  | Finished k _, (n, Some c) => if (k =? c)%nat then Some (n, None) else None
  | _, _ => None
  end.

Definition scan (l : list qevent) : option (nat * option nat) :=
  foldl (fun acc e => acc ≫= fun st => scan_event st e) (Some (0%nat, None)) l.

(** Along every run of the event loop, [P] comes to hold. *)
Inductive eventually (E : env) (P : loop -> Prop) (s : loop) : Prop :=
| ev_now : P s -> eventually E P s
| ev_later :
    (exists s', lstep E s s') ->
    (forall s', lstep E s s' -> eventually E P s') ->
    eventually E P s.

(** Every submitted task has run to its end and the tail of the chain has
    settled. *)
Definition drained (s0 s : loop) : Prop :=
  submitted s = submitted s0
  /\ running s = [] /\ reactions s = []
  /\ scan (qlog s) = Some (length (submitted s0), None)
  /\ (forall k, (k < length (submitted s0))%nat -> exists r, Finished k r ∈ qlog s)
  /\ (exists r, promises s !! taskQueue s = Some (Resolved r)).

(** Service states that the constructor and the two registration methods
    can build. *)
Inductive built (toLowerCase : jsstring -> jsstring) : TTSService -> Prop :=
| built_new provider s :
    new_TTSService toLowerCase provider = Ok s -> built toLowerCase s
| built_provider s name impl s' :
    built toLowerCase s ->
    registerProvider toLowerCase name impl s = Ok s' -> built toLowerCase s'
| built_alias s alias target s' :
    built toLowerCase s ->
    registerAlias toLowerCase alias target s = Ok s' -> built toLowerCase s'.

(** The sentences [splitTextForStory] works on, a sentence with its
    closing full stop, the text of a chunk made of whole sentences, and
    the limit that applies to chunk [i]. *)
Definition clean_sentences (text : jsstring) : list jsstring :=
  filter (fun s => s ≠ []) (map trim (split_on is_sentence_end text)).

Definition closed (sentence : jsstring) : jsstring := sentence ++ full_stop.

Definition join (group : list jsstring) : jsstring := concat (map closed group).

Definition chunk_limit (firstChunkMaxChars normalChunkMaxChars : Z) (i : nat) : Z :=
  if (i =? 0)%nat then firstChunkMaxChars else normalChunkMaxChars.

(** The loop invariant: the chunks pushed so far and the chunk being
    accumulated are whole sentences, grouped in order. *)
Definition story_inv (first normal : Z) (pre : list jsstring)
    (st : list jsstring * jsstring) : Prop :=
  exists (gs : list (list jsstring)) (cur : list jsstring),
    concat gs ++ cur = filter (fun s => s ≠ []) (map trim pre)
    /\ Forall (fun g => g ≠ []) gs
    /\ st = (map join gs, join cur)
    /\ (cur = [] -> gs = [])
    /\ (forall i g, gs !! i = Some g ->
          length g = 1%nat \/ (str_length (join g) <= chunk_limit first normal i)%Z)
    /\ ((length cur <= 1)%nat
        \/ (str_length (join cur) <= chunk_limit first normal (length gs))%Z)
    /\ (forall i g s g', gs !! i = Some g -> (gs ++ [cur]) !! S i = Some (s :: g') ->
          (chunk_limit first normal i < str_length (join g ++ closed s))%Z).

(** The calls a program makes when run from [w]. *)
Definition emitted {A : Type} (E : env) (p : prog A) (w : world) : list event :=
  drop (length (history w)) (history (snd (run E p w))).

Definition engine_ready (E : env) (w : world) : Prop :=
  exists e, engine_at E (history w) = Some e /\ MiNA e = true /\ MiOT e = true.

Definition is_synthesize (e : event) : bool :=
  match ev_call e with Synthesize _ _ => true | _ => false end.

Definition is_play_url (e : event) : bool :=
  match ev_call e with PlayUrl _ _ => true | _ => false end.

Definition is_abort (e : event) : bool :=
  match ev_call e with AbortXiaoAI => true | _ => false end.

Definition is_ask (e : event) : bool :=
  match ev_call e with AskAI _ => true | _ => false end.

(** A status poll or a pause between two polls. *)
Definition is_wait (e : event) : bool :=
  match ev_call e with GetPlayingStatus | Sleep _ => true | _ => false end.

Definition poll_idle : event := Ev GetPlayingStatus (Ok false).

Definition ev_error (e : event) : option jsstring :=
  match e with Ev _ (Err m) => Some m | Ev _ (Ok _) => None end.

(** A status poll that found the speaker still playing. *)
Definition is_busy_poll (e : event) : bool :=
  match e with
  | Ev c r =>
    match c return result (answer c) -> bool with
    | GetPlayingStatus => fun r => match r with Ok b => b | Err _ => false end
    | _ => fun _ => false
    end r
  end.

(** Every play of a URL in [l] comes straight after an idle poll; [prev]
    is the event before [l]. *)
Fixpoint gated (prev : option event) (l : list event) : Prop :=
  match l with
  | [] => True
  | e :: l' => (is_play_url e = true -> prev = Some poll_idle) /\ gated (Some e) l'
  end.

(** Every busy poll in [l] is followed by a pause of [interval]. *)
Fixpoint paced (interval : Z) (l : list event) : Prop :=
  match l with
  | [] => True
  | e :: l' =>
    (is_busy_poll e = true ->
     exists e', head l' = Some e' /\ ev_call e' = Sleep interval)
    /\ paced interval l'
  end.

Definition last_or (prev : option event) (l : list event) : option event :=
  match last l with Some e => Some e | None => prev end.

(** Environments in which the engine stays ready, the speaker keeps
    reporting that it is playing, and timers fire. *)
Definition always_ready (E : env) : Prop :=
  forall h, exists e, engine_at E h = Some e /\ MiNA e = true /\ MiOT e = true.

Definition always_busy (E : env) : Prop :=
  forall h, respond E h GetPlayingStatus = Ok true.

Definition timers_fire (E : env) : Prop :=
  forall h ms, respond E h (Sleep ms) = Ok tt.

(** The engine is missing, or lacks MiNA or MiOT. *)
Definition engine_unavailable (E : env) (w : world) : Prop :=
  match engine_at E (history w) with
  | Some e => MiNA e && MiOT e = false
  | None => True
  end.

(** The reaction that [enqueueTask] registers for task [k]: on promise
    [k], with [wrappedTask] of task [k] as both handlers, settling promise
    [k + 1]. *)
Definition chain_reaction (k : nat) : reaction :=
  {| r_source := k; r_onFulfilled := Some k; r_onRejected := Some k;
     r_derived := S k |}.

(** The shape of the chain when [started] tasks have been started and
    [finished] of them have settled. *)
Definition chain_inv (E : env) (s : loop) (started finished : nat) : Prop :=
  length (promises s) = S (length (submitted s))
  /\ taskQueue s = length (submitted s)
  /\ (started <= length (submitted s))%nat
  /\ reactions s = chain_reaction <$> seq started (length (submitted s) - started)
  /\ Forall (fun sub => always_settles E (sub_task sub)) (submitted s)
  /\ (forall i, (i <= finished)%nat -> exists r, promises s !! i = Some (Resolved r))
  /\ (forall i, (finished < i)%nat -> (i <= length (submitted s))%nat ->
        promises s !! i = Some Pending)
  /\ (forall k, (k < finished)%nat -> exists r, Finished k r ∈ qlog s).

(** No task is executing; tasks [0..n-1] have run. *)
Definition idle_at (E : env) (s : loop) (n : nat) : Prop :=
  chain_inv E s n n /\ running s = [] /\ scan (qlog s) = Some (n, None).

(** Task [n] is executing, with [p] left to run; tasks [0..n-1] have run. *)
Definition busy_at (E : env) (s : loop) (n : nat) (p : prog value) : Prop :=
  chain_inv E s (S n) n
  /\ running s = [{| a_task := n; a_promise := S n; a_code := p |}]
  /\ settles E p (history (lworld s)) (clock (lworld s))
  /\ scan (qlog s) = Some (S n, Some n).

(** ** Concrete inputs *)

Definition ready_caps : engine_caps := {| MiNA := true; MiOT := true |}.

(** Every call succeeds; the speaker is idle when polled. *)
Definition answers_ok (c : call) : result (answer c) :=
  match c with
  | GetPlayingStatus => Ok false
  | AskAI _ => Ok (js "reply")
  | Synthesize _ text => Ok (js "http://host/api/audio/" ++ text)
  | _ => Ok tt
  end.

(** The synthesis backend is down. *)
Definition answers_no_synthesis (c : call) : result (answer c) :=
  match c with
  | Synthesize _ _ => Err (js "TTS HTTP 请求失败: 500")
  | c' => answers_ok c'
  end.

(** The speaker never stops playing. *)
Definition answers_busy (c : call) : result (answer c) :=
  match c with
  | GetPlayingStatus => Ok true
  | c' => answers_ok c'
  end.

Definition env_of (answers : forall c : call, result (answer c))
    (engine : option engine_caps) : env :=
  {| respond := fun _ => answers; engine_at := fun _ => engine;
     latency := fun _ _ => 0 |}.

(** The synthesis backend is down and the speaker refuses to play a
    text. *)
Definition answers_mute (c : call) : result (answer c) :=
  match c with
  | PlayText _ => Err (js "speaker offline")
  | c' => answers_no_synthesis c'
  end.

Definition env_ok : env := env_of answers_ok (Some ready_caps).
Definition env_mute : env := env_of answers_mute (Some ready_caps).
Definition env_no_synthesis : env := env_of answers_no_synthesis (Some ready_caps).
Definition env_busy : env := env_of answers_busy (Some ready_caps).
Definition env_no_engine : env := env_of answers_ok None.

Definition world0 : world :=
  {| history := []; clock := 1000; fields := new_server |}.

Definition service_for (provider : jsstring) : TTSService :=
  match new_TTSService ascii_toLowerCase provider with
  | Ok s => s
  | Err _ => {| config_provider := provider; providers := ∅; aliases := ∅ |}
  end.

Definition xiaomi_service : TTSService := service_for [].
Definition volcano_service : TTSService := service_for (js "Doubao").

Definition story_example : story_config :=
  {| systemPrompt := js "【讲故事模式要求】";
     firstChunkMaxChars := 5; normalChunkMaxChars := 10;
     pollIntervalMs := 700; waitTimeoutMs := 2000;
     triggerPattern := includes (js "故事") |}.

Definition wakeup_example : wakeup_config :=
  {| keywords := [js "请"];
     enterAIMode := [js "我要玩豆包"; js "进入豆包模式"];
     exitAIMode := [js "退出豆包"; js "关闭豆包模式"];
     stopKeywords := [js "闭嘴"; js "别说了"; js "停下"];
     enterMessage := js "好的，已经进入豆包模式";
     exitMessage := js "好的，已退出豆包模式。" |}.

(** A configuration whose stop keyword occurs inside an exit phrase. *)
Definition wakeup_overlap : wakeup_config :=
  {| keywords := [js "请"];
     enterAIMode := [js "进入豆包模式"];
     exitAIMode := [js "退出豆包"];
     stopKeywords := [js "退出"];
     enterMessage := js "好的";
     exitMessage := js "好的，已退出豆包模式。" |}.

(** A configuration with an empty wake keyword before the others. *)
Definition wakeup_blank : wakeup_config :=
  {| keywords := [[]; js "请"];
     enterAIMode := [js "我要玩豆包"; js "进入豆包模式"];
     exitAIMode := [js "退出豆包"; js "关闭豆包模式"];
     stopKeywords := [js "闭嘴"; js "别说了"; js "停下"];
     enterMessage := js "好的，已经进入豆包模式";
     exitMessage := js "好的，已退出豆包模式。" |}.

Definition speak_request (text : jsstring) (interrupt storyMode : option bool)
    : request_body :=
  {| b_text := text; b_url := []; b_interrupt := interrupt;
     b_storyMode := storyMode; b_blocking := None |}.

(** A speak request as [handleSpeak] submits it. *)
Definition hello_speak : submission :=
  {| sub_type := js "api:speak";
     sub_task :=
       let* mode := speakByText ascii_toLowerCase (Some volcano_service)
                      story_example 4 (js "你好") true false in
       Ret (VStr mode) |}.

(** A task that throws, followed by a speak request; the story
    configuration has a timeout that the fuel covers. *)
Definition failing_task : submission :=
  {| sub_type := js "voice:chat"; sub_task := Throw (js "boom") |}.

Definition quick_story : story_config :=
  {| systemPrompt := []; firstChunkMaxChars := 5; normalChunkMaxChars := 10;
     pollIntervalMs := 1; waitTimeoutMs := 3; triggerPattern := fun _ => false |}.

Definition quick_speak : submission :=
  {| sub_type := js "api:speak";
     sub_task :=
       let* mode := speakByText ascii_toLowerCase (Some volcano_service)
                      quick_story 4 (js "你好") true true in
       Ret (VStr mode) |}.

Definition two_submitted : loop :=
  enqueueTask quick_speak (enqueueTask failing_task (new_loop world0)).

(** ** tts-service.js and config-loader.js: the settings of the volcano backend *)

(** The keys of [config.tts] that the two validations read.  A field holds
    the configured string, empty when the key is absent; an absent [tts] or
    [tts.volcano] section reads as all of its keys absent. *)
Record volcano_config := {
  endpoint : jsstring;
  authMode : jsstring;
  apiKey : jsstring;
  appId : jsstring;
  token : jsstring;
}.

Record tts_config := {
  tts_provider : jsstring;
  publicBaseURL : jsstring;
  volcano : volcano_config;
}.

Section VolcanoConfig.

Variable toLowerCase : jsstring -> jsstring.

(** [String(volcano.authMode || 'api_key').toLowerCase()] *)
Definition auth_mode (v : volcano_config) : jsstring :=
  toLowerCase (or_else (authMode v) (js "api_key")).

(** [TTSService.validateVolcanoConfig], run by [synthesizeByVolcano] before
    anything else. *)
Definition validateVolcanoConfig (c : tts_config) : result unit :=
  if is_empty (publicBaseURL c)
  then Err (js "缺少 tts.publicBaseURL，无法让音箱访问合成音频")
  else if is_empty (endpoint (volcano c))
  then Err (js "缺少 tts.volcano.endpoint")
  else
    let authMode := auth_mode (volcano c) in
    if str_eqb authMode (js "api_key") && is_empty (apiKey (volcano c))
    then Err (js "authMode=api_key 时缺少 tts.volcano.apiKey")
    else if str_eqb authMode (js "token")
            && (is_empty (appId (volcano c)) || is_empty (token (volcano c)))
    then Err (js "authMode=token 时缺少 tts.volcano.appId 或 tts.volcano.token")
    else Ok tt.

(** config-loader.js: [normalizeTTSProvider] *)
Definition normalizeTTSProvider (provider : jsstring) : jsstring :=
  let raw := toLowerCase (trim (or_else provider (js "xiaomi"))) in
  if str_eqb raw (js "doubao") then js "volcano" else raw.

(** config-loader.js: [validateTTSConfig], run when the configuration is
    loaded; for a provider that is neither built-in it only logs a
    warning. *)
Definition validateTTSConfig (c : tts_config) : result unit :=
  let provider := normalizeTTSProvider (or_else (tts_provider c) (js "xiaomi")) in
  if str_eqb provider (js "volcano") then
    if is_empty (publicBaseURL c)
    then Err (js "tts.provider=volcano 时必须配置 tts.publicBaseURL")
    else
      let authMode := auth_mode (volcano c) in
      if str_eqb authMode (js "api_key") && is_empty (apiKey (volcano c))
      then Err (js "tts.provider=volcano 且 authMode=api_key 时必须配置 tts.volcano.apiKey")
      else if str_eqb authMode (js "token")
              && (is_empty (appId (volcano c)) || is_empty (token (volcano c)))
      then Err (js "tts.provider=volcano 且 authMode=token 时必须配置 tts.volcano.appId 和 tts.volcano.token")
      else Ok tt
  else Ok tt.

End VolcanoConfig.

(** A volcano configuration as the README gives it, without an endpoint. *)
Definition volcano_example : tts_config :=
  {| tts_provider := js "Doubao";
     publicBaseURL := js "http://192.168.1.100:18082/api/audio";
     volcano := {| endpoint := []; authMode := js "api_key";
                   apiKey := js "key"; appId := []; token := [] |} |}.

Definition volcano_complete : tts_config :=
  {| tts_provider := js "Doubao";
     publicBaseURL := js "http://192.168.1.100:18082/api/audio";
     volcano := {| endpoint := js "https://openspeech.bytedance.com/api/v1/tts";
                   authMode := js "api_key";
                   apiKey := js "key"; appId := []; token := [] |} |}.

(** ** api-server.js: the HTTP front end *)

Record api_paths := {
  p_health : jsstring;
  p_speak : jsstring;
  p_chat : jsstring;
  p_play : jsstring;
  p_audioInfo : jsstring;
}.

(** [config.api]: the token is a string, empty when none is configured;
    the five paths are configured. *)
Record api_config := {
  api_token : jsstring;
  maxBodyBytes : Z;
  paths : api_paths;
}.

(** An ASCII letter of a pattern under the [i] flag: the letter itself or
    its capital. *)
Definition letter_ci (lower c : N) : bool := (c =? lower) || (c =? lower - 0x20).

(** [auth.replace(/^Bearer\s+/i, '')] *)
Definition strip_bearer (auth : jsstring) : jsstring :=
  match auth with
  | b :: e :: a :: r :: e' :: r' :: sp :: rest =>
    if letter_ci 0x62 b && letter_ci 0x65 e && letter_ci 0x61 a
       && letter_ci 0x72 r && letter_ci 0x65 e' && letter_ci 0x72 r'
       && is_space sp
    then drop_while is_space rest
    else auth
  | _ => auth
  end.

(** The strings that [/^Bearer/i] matches. *)
Definition bearer_word (scheme : jsstring) : Prop :=
  Forall2 (fun lower c => letter_ci lower c = true) (js "bearer") scheme.

(** [validateAuth(req)] on [req.headers.authorization || '']. *)
Definition validateAuth (config : api_config) (authorization : jsstring) : bool :=
  if is_empty (api_token config) then true
  else str_eqb (strip_bearer authorization) (api_token config).

(** How the request stream ends: with [end], or with an [error] event. *)
Inductive stream_end : Type :=
| Ended
| Failed (message : jsstring).

(** The body a handler sees when the request has none: [{}]. *)
Definition empty_body : request_body :=
  {| b_text := []; b_url := []; b_interrupt := None; b_storyMode := None;
     b_blocking := None |}.

(** What [handleRequest] reads of a request.  [req_pathname] is the
    [pathname] of [new URL(req.url, `http://${req.headers.host}`)], and
    [None] when the constructor throws, as it does for the request target
    [//] or for a [Host] header that is no host. *)
Record request := {
  req_method : jsstring;
  req_pathname : option jsstring;
  req_authorization : jsstring;    (* req.headers.authorization || '' *)
  req_chunks : list (list N);
  req_end : stream_end;
}.

(** What [handleRequest] does with a request: it throws on its first
    line, outside of every [try], so that nothing is written to the
    response; it answers at once; it hands the request to
    [handleAudioStream]; or it enqueues a task, whose result it then answers
    with status 200 and whose error with status 500. *)
Inductive http_action : Type :=
| Unanswered                                 (* new URL(...) threw *)
| HealthReport                               (* 200 with the status report *)
| AudioStream (pathname : jsstring)
| Reply (status : Z) (error : jsstring)      (* { ok: false, error } *)
| Enqueue (sub : submission).

Section ReadBody.

(** [Buffer.concat(chunks).toString('utf8')] decodes the bytes received;
    [JSON.parse] gives what the handlers read of the body, or throws. *)
Variable toString_utf8 : list N -> jsstring.
Variable JSON_parse : jsstring -> option request_body.

(** The [data] events of [readBody]: [size] and [chunks] so far. *)
Fixpoint read_chunks (max size : Z) (chunks : list (list N))
    (incoming : list (list N)) : result (list (list N)) :=
  match incoming with
  | [] => Ok chunks
  | chunk :: rest =>
    let size' := (size + Z.of_nat (length chunk))%Z in
    if (max <? size')%Z then Err (js "Request body too large")
    else read_chunks max size' (chunks ++ [chunk]) rest
  end.

Definition readBody (config : api_config) (incoming : list (list N))
    (ending : stream_end) : result request_body :=
  match read_chunks (maxBodyBytes config) 0 [] incoming with
  | Err e => Err e
  | Ok chunks =>
    match ending with
    | Failed e => Err e
    | Ended =>
      let raw := toString_utf8 (concat chunks) in
      if is_empty raw then Ok empty_body
      else
        match JSON_parse raw with
        | Some body => Ok body
        | None => Err (js "Invalid JSON")
        end
    end
  end.

Variable toLowerCase : jsstring -> jsstring.
Variable ttsService : option TTSService.
Variable storyConfig : story_config.
Variable fuel : nat.

(** A thrown handler is caught by the [try] around the routes. *)
Definition routed (handled : result submission) : http_action :=
  match handled with
  | Ok sub => Enqueue sub
  | Err e => Reply 500 e
  end.

Definition handleRequest (config : api_config) (req : request) : http_action :=
  match req_pathname req with
  | None => Unanswered
  | Some pathname =>
    if str_eqb pathname (p_health (paths config)) then HealthReport
    else if str_eqb (req_method req) (js "GET")
            && starts_with (p_audioInfo (paths config)) pathname
    then AudioStream pathname
    else if negb (str_eqb (req_method req) (js "POST"))
    then Reply 404 (js "Not Found")
    else if negb (validateAuth config (req_authorization req))
    then Reply 401 (js "Unauthorized")
    else
      match readBody config (req_chunks req) (req_end req) with
      | Err e => Reply 400 (js "Invalid request body: " ++ e)
      | Ok body =>
        if str_eqb pathname (p_speak (paths config))
        then routed (handleSpeak toLowerCase ttsService storyConfig fuel body)
        else if str_eqb pathname (p_chat (paths config))
        then routed (handleChat toLowerCase ttsService storyConfig fuel body)
        else if str_eqb pathname (p_play (paths config))
        then routed (handlePlay body)
        else Reply 404 (js "Not Found")
      end
  end.

End ReadBody.

(** The paths and the limits of the README. *)
Definition api_example : api_config :=
  {| api_token := js "secret";
     maxBodyBytes := 16384;
     paths := {| p_health := js "/api/health"; p_speak := js "/api/speak";
                 p_chat := js "/api/chat"; p_play := js "/api/play";
                 p_audioInfo := js "/api/audio" |} |}.

(** A parser for the one body the examples send, an object with the text
    [hi]. *)
Definition parse_example (raw : jsstring) : option request_body :=
  if str_eqb raw (js "{" ++ [0x22] ++ js "text" ++ [0x22; 0x3A; 0x22] ++ js "hi"
                  ++ [0x22] ++ js "}")
  then Some (speak_request (js "hi") None None)
  else None.

(** ** What a program writes *)

(** Every write of [p] to the server's fields is by a function in [P]. *)
Fixpoint writes {A : Type} (P : (server -> server) -> Prop) (p : prog A) : Prop :=
  match p with
  | Ret _ | Throw _ | OutOfFuel => True
  | Call c k => forall r, writes P (k r)
  | Now k => forall t, writes P (k t)
  | GetEngine k => forall e, writes P (k e)
  | GetState k => forall s, writes P (k s)
  | SetState f k => P f /\ writes P k
  end.

(** The writes of the speaker operations: the last speak mode and its
    time. *)
Definition speak_write (f : server -> server) : Prop :=
  (exists m, f = set_lastSpeakMode m) \/ (exists t, f = set_lastSpeakAt t).

Definition keeps_queueDepth (f : server -> server) : Prop :=
  forall s, queueDepth (f s) = queueDepth s.

(** [this.queueDepth = Math.max(0, this.queueDepth - 1)] *)
Definition lowers_queueDepth (f : server -> server) : Prop :=
  forall s, queueDepth (f s) = Z.max 0 (queueDepth s - 1).

(** A program that has still to take the depth down, once, before it
    settles. *)
Fixpoint lowers_depth {A : Type} (p : prog A) : Prop :=
  match p with
  | Ret _ | Throw _ => False
  | OutOfFuel => True
  | Call c k => forall r, lowers_depth (k r)
  | Now k => forall t, lowers_depth (k t)
  | GetEngine k => forall e, lowers_depth (k e)
  | GetState k => forall s, lowers_depth (k s)
  | SetState f k =>
    (keeps_queueDepth f /\ lowers_depth k)
    \/ (lowers_queueDepth f /\ writes keeps_queueDepth k)
  end.

Definition is_finished (e : qevent) : bool :=
  match e with Finished _ _ => true | _ => false end.

(** The number of tasks whose promise has settled. *)
Definition finished (l : list qevent) : nat :=
  length (filter (fun e => is_finished e = true) l).

(** The states of the queue of a server that started in [w0]. *)
Inductive reachable_from (E : env) (w0 : world) : loop -> Prop :=
| from_new : reachable_from E w0 (new_loop w0)
| from_enqueue s sub :
    reachable_from E w0 s -> reachable_from E w0 (enqueueTask sub s)
| from_step s s' : reachable_from E w0 s -> lstep E s s' -> reachable_from E w0 s'.

(** Whether an invocation in flight has still to take the depth down. *)
Definition owes (b : bool) (a : activation) : Prop :=
  if b then lowers_depth (a_code a) else writes keeps_queueDepth (a_code a).

(** The depth counts the tasks not yet started and those in flight that
    have not reached the [finally] block. *)
Definition depth_inv (s : loop) : Prop :=
  Forall (fun r => is_Some (r_onFulfilled r) /\ is_Some (r_onRejected r))
    (reactions s)
  /\ (exists owed : list bool,
        Forall2 owes owed (running s)
        /\ queueDepth (fields (lworld s))
           = (Z.of_nat (length (reactions s))
              + Z.of_nat (length (filter (fun b => b = true) owed)))%Z)
  /\ length (submitted s)
     = (length (reactions s) + length (running s) + finished (qlog s))%nat.

(** ** Reading a trace *)

Definition synthesized_text (e : event) : option jsstring :=
  match ev_call e with Synthesize _ text => Some text | _ => None end.

Definition played_url (e : event) : option jsstring :=
  match ev_call e with PlayUrl url _ => Some url | _ => None end.

(** The URL that a successful synthesis returned. *)
Definition synthesized_url (e : event) : option jsstring :=
  match e with
  | Ev c r =>
    match c return result (answer c) -> option jsstring with
    | Synthesize _ _ => fun r => match r with Ok u => Some u | Err _ => None end
    | _ => fun _ => None
    end r
  end.

(** The last lines of [splitTextForStory]: [if (current) chunks.push(current)]. *)
Definition finish_chunks (st : list jsstring * jsstring) : list jsstring :=
  if is_empty (snd st) then fst st else fst st ++ [snd st].

(** ** What the queue reports of its last task *)

(** How a program in flight is going to end. *)
Inductive ending : Type :=
| Returns
| Throws (e : jsstring).

(** A write that leaves [lastTaskType] and [lastTaskError] as they are. *)
Definition keeps_report (f : server -> server) : Prop :=
  forall s, lastTaskType (f s) = lastTaskType s
            /\ lastTaskError (f s) = lastTaskError s.

(** [lastTaskError] as [wrappedTask] leaves it for a task of type [ty]
    that ends as [o]. *)
Definition error_of (ty : jsstring) (o : ending) (err : option task_error) : Prop :=
  match o with
  | Returns => err = None
  | Throws e =>
    exists t, err = Some {| te_type := ty; te_message := error_message e; te_at := t |}
  end.

(** The rest of an invocation that has written type and error already: it
    writes neither again and ends as [o]. *)
Fixpoint ends_as (o : ending) (p : prog value) : Prop :=
  match p with
  | Ret _ => o = Returns
  | Throw e => o = Throws e
  | OutOfFuel => True
  | Call c k => forall r, ends_as o (k r)
  | Now k => forall t, ends_as o (k t)
  | GetEngine k => forall e, ends_as o (k e)
  | GetState k => forall s, ends_as o (k s)
  | SetState f k => keeps_report f /\ ends_as o k
  end.

(** The rest of an invocation that has written the error: it has still to
    write the type. *)
Fixpoint types_then (ty : jsstring) (o : ending) (p : prog value) : Prop :=
  match p with
  | Ret _ | Throw _ => False
  | OutOfFuel => True
  | Call c k => forall r, types_then ty o (k r)
  | Now k => forall t, types_then ty o (k t)
  | GetEngine k => forall e, types_then ty o (k e)
  | GetState k => forall s, types_then ty o (k s)
  | SetState f k =>
    (keeps_report f /\ types_then ty o k)
    \/ ((forall s, lastTaskType (f s) = Some ty
                   /\ lastTaskError (f s) = lastTaskError s)
        /\ ends_as o k)
  end.

(** An invocation whose task is still running: whatever the task writes,
    the error and then the type are written after it. *)
Fixpoint records (ty : jsstring) (p : prog value) : Prop :=
  match p with
  | Ret _ | Throw _ => False
  | OutOfFuel => True
  | Call c k => forall r, records ty (k r)
  | Now k => forall t, records ty (k t)
  | GetEngine k => forall e, records ty (k e)
  | GetState k => forall s, records ty (k s)
  | SetState f k =>
    records ty k
    \/ (exists o, (forall s, error_of ty o (lastTaskError (f s)))
                  /\ types_then ty o k)
  end.

(** Where an invocation of [wrappedTask] for a task of type [ty] stands,
    given the server's fields. *)
Definition report_phase (ty : jsstring) (p : prog value) (f : server) : Prop :=
  records ty p
  \/ (exists o, types_then ty o p /\ error_of ty o (lastTaskError f))
  \/ (exists o, ends_as o p /\ error_of ty o (lastTaskError f)
                /\ lastTaskType f = Some ty).

Definition ending_of (r : result value) : ending :=
  match r with Ok _ => Returns | Err e => Throws e end.

(** The fields describe task [n], which settled as [r]. *)
Definition reports_task (s : loop) (n : nat) (r : result value) : Prop :=
  exists sub,
    submitted s !! n = Some sub
    /\ lastTaskType (fields (lworld s)) = Some (sub_type sub)
    /\ error_of (sub_type sub) (ending_of r) (lastTaskError (fields (lworld s))).

(** The last task that settled, with its result. *)
Definition last_finished (l : list qevent) : option (nat * result value) :=
  last (omap (fun e => match e with Finished k r => Some (k, r) | _ => None end) l).

(** What holds of the report in every state of the queue. *)
Definition report_inv (s : loop) : Prop :=
  (forall k r, promises s !! S k = Some (Resolved r) <-> Finished k r ∈ qlog s)
  /\ match running s with
     | [] =>
       forall n r, last_finished (qlog s) = Some (n, r) -> reports_task s n r
     | a :: _ =>
       exists sub,
         submitted s !! a_task a = Some sub
         /\ report_phase (sub_type sub) (a_code a) (fields (lworld s))
     end.

(** ** More concrete inputs *)

(** Environments in which the speaker is idle whenever it is asked, every
    synthesis returns a URL, and every play succeeds. *)
Definition always_idle (E : env) : Prop :=
  forall h, respond E h GetPlayingStatus = Ok false.

Definition synthesis_answers (E : env) : Prop :=
  forall h provider text, exists u, respond E h (Synthesize provider text) = Ok u.

Definition plays_succeed (E : env) : Prop :=
  forall h u blocking, respond E h (PlayUrl u blocking) = Ok tt.

(** The status polls and pauses in a trace. *)
Definition waits (l : list event) : list event := List.filter is_wait l.

(** The interrupt fails. *)
Definition answers_no_abort (c : call) : result (answer c) :=
  match c with
  | AbortXiaoAI => Err (js "speaker offline")
  | c' => answers_ok c'
  end.

Definition env_no_abort : env := env_of answers_no_abort (Some ready_caps).

(** The bytes of a body with the text [hi], as the stream delivers them in
    two chunks. *)
Definition body_chunks : list (list N) :=
  [js "{" ++ [0x22] ++ js "text" ++ [0x22; 0x3A];
   [0x22] ++ js "hi" ++ [0x22] ++ js "}"].

Definition speak_post (authorization : jsstring) (chunks : list (list N)) : request :=
  {| req_method := js "POST"; req_pathname := Some (js "/api/speak");
     req_authorization := authorization; req_chunks := chunks; req_end := Ended |}.

(** A POST whose request target is [//]: the URL constructor throws. *)
Definition bad_target_post (authorization : jsstring) (chunks : list (list N))
    : request :=
  {| req_method := js "POST"; req_pathname := None;
     req_authorization := authorization; req_chunks := chunks; req_end := Ended |}.

Definition hi_speak : submission :=
  {| sub_type := js "api:speak";
     sub_task :=
       let* mode := speakByText ascii_toLowerCase (Some volcano_service)
                      story_example 4 (js "hi") true false in
       Ret (VStr mode) |}.

(** ** The tasks of the queue, run in turn *)

(** A program that never reads the server's fields. *)
Fixpoint reads_no_field {A : Type} (p : prog A) : Prop :=
  match p with
  | Ret _ | Throw _ | OutOfFuel => True
  | Call c k => forall r, reads_no_field (k r)
  | Now k => forall t, reads_no_field (k t)
  | GetEngine k => forall e, reads_no_field (k e)
  | GetState _ => False
  | SetState _ k => reads_no_field k
  end.

(** Two worlds in which the speaker has been through the same calls and
    the clock shows the same time; the server's fields may differ. *)
Definition same_calls (w w' : world) : Prop :=
  history w = history w' /\ clock w = clock w'.

(** The bodies of the submitted tasks, as the callers passed them. *)
Definition bodies (s : loop) : list (prog value) := sub_task <$> submitted s.

(** The world after the first [n] task bodies have been run from [w0], one
    after the other and each to its end. *)
Definition world_after (E : env) (tasks : list (prog value)) (w0 : world)
    (n : nat) : world :=
  foldl (fun w task => snd (run E task w)) w0 (take n tasks).

(** What the body of task [k] comes to in that run. *)
Definition outcome_in_turn (E : env) (tasks : list (prog value)) (w0 : world)
    (k : nat) : option (outcome value) :=
  (fun task => fst (run E task (world_after E tasks w0 k))) <$> tasks !! k.

(** The queue has done what running the first [n] bodies in turn does:
    these [n] tasks, and no other, have settled, each as its body does in
    that run; the calls made so far are the calls of that run, followed by
    calls of the next body; and when no task is in flight they are exactly
    the calls of that run, made at the same times. *)
Definition executed_in_turn (E : env) (w0 : world) (s : loop) (n : nat) : Prop :=
  (forall k r,
      Finished k r ∈ qlog s
      <-> (k < n)%nat /\ outcome_in_turn E (bodies s) w0 k = Some (Settled r))
  /\ history (world_after E (bodies s) w0 n) `prefix_of` history (lworld s)
  /\ history (lworld s) `prefix_of` history (world_after E (bodies s) w0 (S n))
  /\ (running s = [] -> same_calls (lworld s) (world_after E (bodies s) w0 n)).

(** What is known of the invocation in flight. *)
Definition turn_inv (E : env) (w0 : world) (s : loop) (n : nat) : Prop :=
  (n <= length (submitted s))%nat
  /\ (forall k r,
        Finished k r ∈ qlog s
        <-> (k < n)%nat /\ outcome_in_turn E (bodies s) w0 k = Some (Settled r))
  /\ match running s with
     | [] => same_calls (lworld s) (world_after E (bodies s) w0 n)
     | a :: _ =>
       reads_no_field (a_code a)
       /\ history (world_after E (bodies s) w0 n) `prefix_of` history (lworld s)
       /\ outcome_in_turn E (bodies s) w0 n
          = Some (fst (run E (a_code a) (lworld s)))
       /\ same_calls (snd (run E (a_code a) (lworld s)))
            (world_after E (bodies s) w0 (S n))
     end.

(** * Properties *)

(** ** The provider registry *)

Section RegistryFacts.

Variable toLowerCase : jsstring -> jsstring.

Lemma or_else_nonempty (a b : jsstring) : a ≠ [] -> or_else a b = a.
Proof. destruct a; [congruence | reflexivity]. Qed.

Lemma is_empty_false (s : jsstring) : is_empty s = false -> s ≠ [].
Proof. destruct s; [discriminate | congruence]. Qed.

Lemma registerProvider_aliases name impl s s' :
  registerProvider toLowerCase name impl s = Ok s' -> aliases s' = aliases s.
Proof.
  unfold registerProvider.
  destruct (is_empty (normalize_key toLowerCase name [])); [discriminate |].
  intros [= <-]. reflexivity.
Qed.

(** No alias ever points at the empty name. *)
Lemma built_targets_nonempty s :
  built toLowerCase s ->
  forall a t, aliases s !! a = Some t -> t ≠ [].
Proof.
  induction 1 as [provider s Hnew | s name impl s' _ IH Hreg
                 | s alias target s' _ IH Hreg]; intros a t Hat.
  - unfold new_TTSService, registerBuiltins in Hnew.
    destruct (registerProvider toLowerCase (js "xiaomi") _ _) as [s1 |] eqn:H1;
      [| discriminate].
    apply registerProvider_aliases in H1, Hnew. simpl in H1.
    rewrite Hnew, H1 in Hat.
    apply lookup_singleton_Some in Hat as [_ <-]. vm_compute. discriminate.
  - apply registerProvider_aliases in Hreg. rewrite Hreg in Hat. eauto.
  - unfold registerAlias in Hreg. cbv zeta in Hreg.
    destruct (is_empty (normalize_key toLowerCase alias [])) eqn:Ha;
      [discriminate |].
    destruct (is_empty (normalize_key toLowerCase target [])) eqn:Ht;
      [discriminate |].
    simpl in Hreg. injection Hreg as <-. cbn [aliases] in Hat.
    rewrite lookup_insert in Hat. case_decide.
    + injection Hat as <-. by apply is_empty_false.
    + eauto.
Qed.

(** C8 (as amended).  In every registry the service can build, resolving a
    name whose normalized form is a registered alias returns that alias's
    registered target (one hop); it agrees with resolving the target when
    the target is not itself a registered alias; and resolving a name with
    no registered alias returns the normalized name. *)
Theorem resolve_alias_one_hop s :
  built toLowerCase s ->
  (forall alias t,
      aliases s !! normalize_key toLowerCase alias DEFAULT_PROVIDER = Some t ->
      normalizeProvider toLowerCase s alias = t
      /\ forall target,
           normalize_key toLowerCase target DEFAULT_PROVIDER = t ->
           aliases s !! t = None ->
           normalizeProvider toLowerCase s alias
           = normalizeProvider toLowerCase s target)
  /\ (forall name,
        aliases s !! normalize_key toLowerCase name DEFAULT_PROVIDER = None ->
        normalizeProvider toLowerCase s name
        = normalize_key toLowerCase name DEFAULT_PROVIDER).
Proof.
  intros Hb. split.
  - intros alias t Hat.
    assert (Hres : normalizeProvider toLowerCase s alias = t).
    { unfold normalizeProvider. rewrite Hat.
      apply or_else_nonempty. eapply built_targets_nonempty; eauto. }
    split; [exact Hres |].
    intros target Ht Hnone. rewrite Hres.
    unfold normalizeProvider. rewrite Ht, Hnone. reflexivity.
  - intros name Hnone. unfold normalizeProvider. by rewrite Hnone.
Qed.

End RegistryFacts.

(** ** Story chunking *)

Section Chunking.

Variables first normal : Z.

Lemma foldl_inv {A B : Type} (f : A -> B -> A) (P : list B -> A -> Prop)
    (l : list B) :
  (forall pre a x, P pre a -> P (pre ++ [x]) (f a x)) ->
  forall pre a, P pre a -> P (pre ++ l) (foldl f a l).
Proof.
  intros Hstep. induction l as [| x l IH]; intros pre a HP; simpl.
  - by rewrite app_nil_r.
  - replace (pre ++ x :: l) with ((pre ++ [x]) ++ l) by by rewrite <- app_assoc.
    apply IH, Hstep, HP.
Qed.

Lemma join_app g1 g2 : join (g1 ++ g2) = join g1 ++ join g2.
Proof. unfold join. by rewrite map_app, concat_app. Qed.

Lemma join_single c : join [c] = closed c.
Proof. unfold join. simpl. by rewrite app_nil_r. Qed.

Lemma join_nil_inv g : join g = [] -> g = [].
Proof.
  destruct g as [| c g]; [done |]. unfold join, closed, full_stop. simpl.
  intros H. apply app_eq_nil in H as [H _]. by apply app_eq_nil in H as [_ H].
Qed.

Lemma story_step_inv pre st x :
  story_inv first normal pre st ->
  story_inv first normal (pre ++ [x]) (story_step first normal st x).
Proof.
  intros (gs & cur & Hcat & Hne & -> & Hcur & Hbound & Hcb & Hgreedy).
  unfold story_inv, story_step.
  rewrite map_app, filter_app. simpl map.
  destruct (trim x) as [| c0 cs] eqn:Hx; simpl is_empty; cbv iota.
  { exists gs, cur. rewrite filter_cons_False by (intros H; by apply H).
    rewrite filter_nil, app_nil_r. done. }
  set (c := c0 :: cs) in *.
  assert (Hc : c ≠ []) by done.
  rewrite filter_cons_True by done. rewrite filter_nil.
  rewrite length_map.
  change (if (length gs =? 0)%nat then first else normal)
    with (chunk_limit first normal (length gs)).
  destruct (negb (is_empty (join cur))
            && (chunk_limit first normal (length gs)
                <? str_length (join cur ++ c ++ full_stop))%Z) eqn:Hsplit.
  - (* push the current chunk, start a new one with this sentence *)
    apply andb_prop in Hsplit as [Hnonempty Hover].
    apply Z.ltb_lt in Hover.
    assert (Hcur_ne : cur ≠ []).
    { intros ->. discriminate. }
    exists (gs ++ [cur]), [c]. repeat split.
    + rewrite concat_app. simpl. rewrite app_nil_r, <- app_assoc.
      rewrite app_assoc, Hcat. done.
    + apply Forall_app. split; [done |]. by constructor.
    + rewrite map_app. simpl. by rewrite join_single.
    + done.
    + intros i g Hi. apply lookup_app_Some in Hi as [Hi | [Hlen Hi]].
      * eauto.
      * apply list_lookup_singleton_Some in Hi as [Hi <-].
        replace i with (length gs) by lia.
        destruct Hcb as [Hcb | Hcb]; [| by right].
        left. destruct cur as [| ? [| ? ?]]; simpl in *; [done | done | lia].
    + left. simpl. lia.
    + intros i g s g' Hi Hnext.
      apply lookup_app_Some in Hi as [Hi | [Hlen Hi]].
      * apply (Hgreedy i g s g' Hi).
        apply lookup_lt_Some in Hi.
        rewrite lookup_app_l in Hnext by (rewrite length_app; simpl; lia).
        done.
      * apply list_lookup_singleton_Some in Hi as [Hi <-].
        assert (i = length gs) as -> by lia.
        rewrite lookup_app_r in Hnext by (rewrite length_app; simpl; lia).
        rewrite length_app in Hnext. simpl in Hnext.
        replace (S (length gs) - (length gs + 1))%nat with 0%nat in Hnext by lia.
        simpl in Hnext. injection Hnext as <- <-. exact Hover.
  - (* extend the current chunk *)
    exists gs, (cur ++ [c]). repeat split.
    + by rewrite app_assoc, Hcat.
    + done.
    + by rewrite join_app, join_single.
    + intros H. by apply app_eq_nil in H as [_ H].
    + done.
    + apply andb_false_iff in Hsplit as [Hempty | Hfit].
      * left. apply negb_false_iff in Hempty.
        destruct (join cur) eqn:Hj; [| discriminate].
        apply join_nil_inv in Hj as ->. simpl. lia.
      * right. apply Z.ltb_ge in Hfit.
        by rewrite join_app, join_single.
    + intros i g s g' Hi Hnext.
      pose proof (lookup_lt_Some _ _ _ Hi) as Hlt.
      destruct (decide (S i < length gs)%nat) as [Hin | Hlast].
      * rewrite lookup_app_l in Hnext by done.
        apply (Hgreedy i g s g' Hi). by rewrite lookup_app_l.
      * rewrite lookup_app_r in Hnext by lia.
        replace (S i - length gs)%nat with 0%nat in Hnext by lia.
        simpl in Hnext. destruct cur as [| s0 cur'].
        -- specialize (Hcur eq_refl). subst gs. simpl in Hlt. lia.
        -- simpl in Hnext. injection Hnext as <- _.
           apply (Hgreedy i g s0 cur' Hi).
           rewrite lookup_app_r by lia.
           by replace (S i - length gs)%nat with 0%nat by lia.
Qed.

End Chunking.

(** C5.  [splitTextForStory] groups the trimmed, non-empty sentences of the
    text, in order and whole, into chunks: chunk [i] either holds a single
    sentence or fits the limit of its position ([firstChunkMaxChars] for
    chunk 0, [normalChunkMaxChars] after it), and a chunk is closed only
    when the next sentence would take it over that limit.  On the example
    of the specification the first chunk is the first sentence and the
    second chunk the other two. *)
Theorem story_chunking (text : jsstring) (first normal : Z) :
  splitTextForStory (js "第一句。第二句。第三句。") 5 10
    = [js "第一句。"; js "第二句。第三句。"]
  /\ exists groups : list (list jsstring),
      concat groups = clean_sentences text
      /\ Forall (fun g => g ≠ []) groups
      /\ splitTextForStory text first normal = map join groups
      /\ (forall i g, groups !! i = Some g ->
            length g = 1%nat
            \/ (str_length (join g) <= chunk_limit first normal i)%Z)
      /\ (forall i g s g', groups !! i = Some g -> groups !! S i = Some (s :: g') ->
            (chunk_limit first normal i < str_length (join g ++ closed s))%Z).
Proof.
  split; [vm_compute; reflexivity |].
  unfold splitTextForStory, clean_sentences.
  pose proof (foldl_inv (story_step first normal) (story_inv first normal)
                (split_on is_sentence_end text)
                (story_step_inv first normal) [] ([], [])) as Hinv.
  simpl app in Hinv.
  destruct Hinv as (gs & cur & Hcat & Hne & Hst & Hcur & Hbound & Hcb & Hgreedy).
  { exists [], []. repeat split; try done. left. simpl. lia. }
  rewrite Hst. destruct cur as [| s0 cur'].
  - specialize (Hcur eq_refl). subst gs. exists []. simpl in *.
    repeat split; try done.
  - assert (Hj : is_empty (join (s0 :: cur')) = false).
    { destruct (join (s0 :: cur')) eqn:Hj; [| done].
      by apply join_nil_inv in Hj. }
    rewrite Hj. exists (gs ++ [s0 :: cur']). repeat split.
    + rewrite concat_app. simpl. by rewrite app_nil_r.
    + apply Forall_app. split; [done |]. by constructor.
    + rewrite map_app. reflexivity.
    + intros i g Hi. apply lookup_app_Some in Hi as [Hi | [Hlen Hi]]; [eauto |].
      apply list_lookup_singleton_Some in Hi as [Hi <-].
      replace i with (length gs) by lia.
      destruct Hcb as [Hcb | Hcb]; [| by right].
      left. destruct cur'; simpl in *; [done | lia].
    + intros i g s g' Hi Hnext.
      pose proof (lookup_lt_Some _ _ _ Hnext) as Hlt.
      rewrite length_app in Hlt. simpl in Hlt.
      rewrite lookup_app_l in Hi by lia. eauto.
Qed.

(** ** Running programs *)

Section Running.

Variable E : env.

Lemma run_bind {A B : Type} (p : prog A) (f : A -> prog B) w :
  run E (bind p f) w =
  match run E p w with
  | (Settled (Ok a), w1) => run E (f a) w1
  | (Settled (Err e), w1) => (Settled (Err e), w1)
  | (Diverged, w1) => (Diverged, w1)
  end.
Proof. revert w. induction p; intros w; simpl; auto. Qed.

Lemma run_try_catch {A : Type} (p : prog A) (h : jsstring -> prog A) w :
  run E (try_catch p h) w =
  match run E p w with
  | (Settled (Err e), w1) => run E (h e) w1
  | other => other
  end.
Proof. revert w. induction p; intros w; simpl; auto. Qed.

Lemma run_try_finally {A : Type} (p : prog A) (fin : prog unit) w :
  run E (try_finally p fin) w =
  match run E p w with
  | (Settled r, w1) =>
    match run E fin w1 with
    | (Settled (Ok _), w2) => (Settled r, w2)
    | (Settled (Err e), w2) => (Settled (Err e), w2)
    | (Diverged, w2) => (Diverged, w2)
    end
  | (Diverged, w1) => (Diverged, w1)
  end.
Proof.
  revert w. induction p; intros w; simpl; auto.
  - rewrite run_bind. by destruct (run E fin w) as [[[]|] ?].
  - rewrite run_bind. by destruct (run E fin w) as [[[]|] ?].
Qed.

Lemma run_await c w :
  run E (await c) w
  = (Settled (respond E (history w) c), after_call E w c (respond E (history w) c)).
Proof. unfold await. simpl. by destruct (respond E (history w) c). Qed.

Lemma run_history {A : Type} (p : prog A) w :
  exists l, history (snd (run E p w)) = history w ++ l.
Proof.
  revert w. induction p as [| | | c k IH | k IH | k IH | k IH | f k IH];
    intros w; simpl; try (exists []; by rewrite app_nil_r); eauto.
  - destruct (IH (respond E (history w) c)
                (after_call E w c (respond E (history w) c))) as [l Hl].
    exists (Ev c (respond E (history w) c) :: l).
    rewrite Hl. simpl. by rewrite <- app_assoc.
  - apply (IH (with_fields f w)).
Qed.

Lemma history_run {A : Type} (p : prog A) w :
  history (snd (run E p w)) = history w ++ emitted E p w.
Proof.
  unfold emitted. destruct (run_history p w) as [l ->].
  by rewrite drop_app_length.
Qed.

Lemma emitted_eq {A : Type} (p : prog A) w l :
  history (snd (run E p w)) = history w ++ l -> emitted E p w = l.
Proof. unfold emitted. intros ->. by rewrite drop_app_length. Qed.

Lemma emitted_bind {A B : Type} (p : prog A) (f : A -> prog B) w :
  emitted E (bind p f) w =
  emitted E p w ++
  match run E p w with
  | (Settled (Ok a), w1) => emitted E (f a) w1
  | _ => []
  end.
Proof.
  apply emitted_eq. rewrite run_bind.
  pose proof (history_run p w) as Hp.
  destruct (run E p w) as [[[a | e] |] w1]; simpl in *.
  - rewrite history_run, Hp. by rewrite <- app_assoc.
  - by rewrite app_nil_r.
  - by rewrite app_nil_r.
Qed.

Lemma emitted_try_catch {A : Type} (p : prog A) (h : jsstring -> prog A) w :
  emitted E (try_catch p h) w =
  emitted E p w ++
  match run E p w with
  | (Settled (Err e), w1) => emitted E (h e) w1
  | _ => []
  end.
Proof.
  apply emitted_eq. rewrite run_try_catch.
  pose proof (history_run p w) as Hp.
  destruct (run E p w) as [[[a | e] |] w1]; simpl in *.
  - by rewrite app_nil_r.
  - rewrite history_run, Hp. by rewrite <- app_assoc.
  - by rewrite app_nil_r.
Qed.

Lemma emitted_await c w :
  emitted E (await c) w = [Ev c (respond E (history w) c)].
Proof. apply emitted_eq. by rewrite run_await. Qed.

End Running.

(** ** Speaking *)

Section SpeakFacts.

Variable toLowerCase : jsstring -> jsstring.
Variable ttsService : option TTSService.
Variable storyConfig : story_config.
Variable fuel : nat.
Variable E : env.

Local Abbreviation speakByText' := (speakByText toLowerCase ttsService storyConfig fuel).
Local Abbreviation synthesize' := (synthesize toLowerCase ttsService).

Lemma engine_ready_run w :
  engine_ready E w ->
  exists e, run E getEngineOrThrow w = (Settled (Ok e), w).
Proof.
  intros (e & He & Hna & Hot). exists e.
  unfold getEngineOrThrow. simpl. by rewrite He, Hna, Hot.
Qed.

Lemma engine_run_cases w :
  (exists e, run E getEngineOrThrow w = (Settled (Ok e), w))
  \/ run E getEngineOrThrow w = (Settled (Err engine_not_ready), w).
Proof.
  unfold getEngineOrThrow. simpl.
  destruct (engine_at E (history w)) as [e |]; [| by right].
  destruct (MiNA e && MiOT e); [left; eauto | by right].
Qed.

Lemma emitted_engine w : emitted E getEngineOrThrow w = [].
Proof.
  apply emitted_eq. rewrite app_nil_r.
  by destruct (engine_run_cases w) as [[e ->] | ->].
Qed.

Lemma run_default_voice text w :
  run E (default_voice text) w =
  match respond E (history w) (PlayText text) with
  | Ok _ =>
    (Settled (Ok xiaomi),
     with_fields (set_lastSpeakAt (Some (clock w + elapsed E (history w) (PlayText text))%Z))
       (with_fields (set_lastSpeakMode (Some xiaomi))
          (after_call E w (PlayText text) (respond E (history w) (PlayText text)))))
  | Err e =>
    (Settled (Err e),
     after_call E w (PlayText text) (respond E (history w) (PlayText text)))
  end.
Proof.
  unfold default_voice. rewrite run_bind, run_await.
  by destruct (respond E (history w) (PlayText text)).
Qed.

Lemma emitted_default_voice text w :
  emitted E (default_voice text) w
  = [Ev (PlayText text) (respond E (history w) (PlayText text))].
Proof.
  apply emitted_eq. rewrite run_default_voice.
  by destruct (respond E (history w) (PlayText text)).
Qed.

(** C9.  A speak request with [interrupt: false], against a provider that
    cannot synthesize, makes no call but one text play of the request's
    text (none at all while the engine is not ready), so it never aborts
    the current playback; with the engine ready, when that play succeeds
    the task resolves to mode ["xiaomi"] and records it. *)
Theorem speak_without_synthesis_never_aborts (w : world) (body : request_body) :
  can_synthesize toLowerCase ttsService = Ok false ->
  b_interrupt body = Some false ->
  trim (b_text body) ≠ [] ->
  exists sub,
    handleSpeak toLowerCase ttsService storyConfig fuel body = Ok sub
    /\ sub_type sub = js "api:speak"
    /\ (forall e, e ∈ emitted E (sub_task sub) w -> is_abort e = false)
    /\ (emitted E (sub_task sub) w = []
        \/ exists r, emitted E (sub_task sub) w = [Ev (PlayText (trim (b_text body))) r])
    /\ (engine_ready E w ->
        emitted E (sub_task sub) w
        = [Ev (PlayText (trim (b_text body)))
             (respond E (history w) (PlayText (trim (b_text body))))]
        /\ (respond E (history w) (PlayText (trim (b_text body))) = Ok tt ->
            fst (run E (sub_task sub) w) = Settled (Ok (VStr xiaomi))
            /\ lastSpeakMode (fields (snd (run E (sub_task sub) w))) = Some xiaomi)).
Proof.
  intros Hcan Hint Htext.
  unfold handleSpeak. cbv zeta.
  destruct (trim (b_text body)) as [| c0 cs] eqn:Ht; [done |].
  simpl is_empty. cbv iota. rewrite Hint. simpl not_false.
  set (text := c0 :: cs).
  eexists. split; [reflexivity |]. split; [reflexivity |].
  cbn [sub_task].
  assert (Hrun : forall w0,
    run E (let* mode := speakByText' text false (is_true (b_storyMode body)) in
           Ret (VStr mode)) w0
    = match run E getEngineOrThrow w0 with
      | (Settled (Ok _), _) =>
        match run E (default_voice text) w0 with
        | (Settled (Ok m), w1) => (Settled (Ok (VStr m)), w1)
        | (Settled (Err e), w1) => (Settled (Err e), w1)
        | (Diverged, w1) => (Diverged, w1)
        end
      | (Settled (Err e), _) => (Settled (Err e), w0)
      | (Diverged, _) => (Diverged, w0)
      end).
  { intros w0. rewrite run_bind. unfold speakByText. rewrite run_bind.
    destruct (engine_run_cases w0) as [[e ->] | ->]; [| done].
    simpl bind at 1. rewrite Hcan. reflexivity. }
  assert (Hem : emitted E (let* mode := speakByText' text false
                                          (is_true (b_storyMode body)) in
                           Ret (VStr mode)) w
                = match run E getEngineOrThrow w with
                  | (Settled (Ok _), _) =>
                    [Ev (PlayText text) (respond E (history w) (PlayText text))]
                  | _ => []
                  end).
  { apply emitted_eq. rewrite Hrun.
    destruct (engine_run_cases w) as [[e ->] | ->]; [| by rewrite app_nil_r].
    rewrite run_default_voice.
    by destruct (respond E (history w) (PlayText text)). }
  rewrite Hem. split; [| split].
  - intros e He.
    destruct (engine_run_cases w) as [[e0 Hr] | Hr]; rewrite Hr in He.
    + apply list_elem_of_singleton in He as ->. reflexivity.
    + by apply elem_of_nil in He.
  - destruct (engine_run_cases w) as [[e0 ->] | ->]; [right; eauto | by left].
  - intros Hready. destruct (engine_ready_run w Hready) as [e0 Hr].
    rewrite Hr. split; [reflexivity |].
    intros Hok. rewrite Hrun, Hr, run_default_voice, Hok. done.
Qed.

(** *** Traces of the polling loop *)

Lemma gated_app prev l1 l2 :
  gated prev l1 -> gated (last_or prev l1) l2 -> gated prev (l1 ++ l2).
Proof.
  revert prev. induction l1 as [| e l1 IH]; intros prev H1 H2; simpl in *.
  - exact H2.
  - destruct H1 as [He H1]. split; [exact He |].
    apply IH; [exact H1 |].
    unfold last_or in *. rewrite last_cons in H2.
    by destruct (last l1).
Qed.

Lemma gated_quiet prev l :
  Forall (fun e => is_play_url e = false) l -> gated prev l.
Proof.
  intros H. revert prev. induction H as [| e l He _ IH]; intros prev; simpl.
  - done.
  - split; [congruence | apply IH].
Qed.

Lemma gated_lookup prev l m e :
  gated prev l -> l !! S m = Some e -> is_play_url e = true ->
  l !! m = Some poll_idle.
Proof.
  revert prev m. induction l as [| e0 l IH]; intros prev m Hg Hl He.
  - done.
  - destruct Hg as [_ Hg]. destruct m as [| m]; simpl in *.
    + destruct l as [| e1 l]; [done |]. simpl in *. injection Hl as ->.
      destruct Hg as [Hg _]. by apply Hg.
    + eapply IH; eauto.
Qed.

Lemma paced_app interval l1 l2 :
  paced interval l1 -> paced interval l2 -> paced interval (l1 ++ l2).
Proof.
  induction l1 as [| e l1 IH]; intros H1 H2; simpl in *; [done |].
  destruct H1 as [He H1]. split; [| by apply IH].
  intros Hb. destruct (He Hb) as (e' & Hh & Hc).
  exists e'. split; [| done]. by destruct l1.
Qed.

Lemma paced_quiet interval l :
  Forall (fun e => is_busy_poll e = false) l -> paced interval l.
Proof.
  induction 1 as [| e l He _ IH]; simpl; [done |].
  split; [congruence | done].
Qed.

Lemma paced_lookup interval l m e :
  paced interval l -> l !! m = Some e -> is_busy_poll e = true ->
  exists e', l !! S m = Some e' /\ ev_call e' = Sleep interval.
Proof.
  revert m. induction l as [| e0 l IH]; intros m Hp Hl He; [done |].
  destruct Hp as [H0 Hp]. destruct m as [| m]; simpl in *.
  - injection Hl as ->. destruct (H0 He) as (e' & Hh & Hc).
    exists e'. split; [| done]. by destruct l.
  - eauto.
Qed.

Lemma run_wait_loop_S n start w :
  run E (wait_loop storyConfig (S n) start) w =
  if (clock w - start <? waitTimeoutMs storyConfig)%Z then
    match respond E (history w) GetPlayingStatus with
    | Ok true =>
      let w1 := after_call E w GetPlayingStatus (Ok true) in
      let r := respond E (history w1) (Sleep (pollIntervalMs storyConfig)) in
      match r with
      | Ok _ =>
        run E (wait_loop storyConfig n start)
          (after_call E w1 (Sleep (pollIntervalMs storyConfig)) r)
      | Err e =>
        (Settled (Err e), after_call E w1 (Sleep (pollIntervalMs storyConfig)) r)
      end
    | Ok false => (Settled (Ok tt), after_call E w GetPlayingStatus (Ok false))
    | Err e => (Settled (Err e), after_call E w GetPlayingStatus (Err e))
    end
  else (Settled (Err wait_timeout), w).
Proof.
  simpl.
  destruct (clock w - start <? waitTimeoutMs storyConfig)%Z; [| done].
  simpl.
  destruct (respond E (history w) GetPlayingStatus) as [[|] | e]; simpl; try done.
  destruct (respond E _ (Sleep (pollIntervalMs storyConfig))) as [[] | e]; done.
Qed.

Lemma emitted_wait_loop_S n start w :
  emitted E (wait_loop storyConfig (S n) start) w =
  if (clock w - start <? waitTimeoutMs storyConfig)%Z then
    match respond E (history w) GetPlayingStatus with
    | Ok true =>
      let w1 := after_call E w GetPlayingStatus (Ok true) in
      let r := respond E (history w1) (Sleep (pollIntervalMs storyConfig)) in
      Ev GetPlayingStatus (Ok true) :: Ev (Sleep (pollIntervalMs storyConfig)) r ::
      match r with
      | Ok _ =>
        emitted E (wait_loop storyConfig n start)
          (after_call E w1 (Sleep (pollIntervalMs storyConfig)) r)
      | Err _ => []
      end
    | Ok false => [Ev GetPlayingStatus (Ok false)]
    | Err e => [Ev GetPlayingStatus (Err e)]
    end
  else [].
Proof.
  apply emitted_eq. rewrite run_wait_loop_S.
  destruct (clock w - start <? waitTimeoutMs storyConfig)%Z;
    [| by rewrite app_nil_r].
  destruct (respond E (history w) GetPlayingStatus) as [[|] | e]; try done.
  cbv zeta.
  destruct (respond E _ (Sleep (pollIntervalMs storyConfig))) as [[] | e] eqn:Hr.
  - rewrite history_run. cbn [after_call history]. by rewrite <- !app_assoc.
  - cbn [after_call history snd]. by rewrite <- !app_assoc.
Qed.

(** What the polling loop emits: polls and pauses only, a pause of the
    configured interval after every busy poll, and an idle poll last when
    it returns normally. *)
Lemma wait_loop_trace n start w :
  Forall (fun e => is_wait e = true) (emitted E (wait_loop storyConfig n start) w)
  /\ paced (pollIntervalMs storyConfig) (emitted E (wait_loop storyConfig n start) w)
  /\ (fst (run E (wait_loop storyConfig n start) w) = Settled (Ok tt) ->
      last (emitted E (wait_loop storyConfig n start) w) = Some poll_idle).
Proof.
  revert w. induction n as [| n IH]; intros w.
  { rewrite (emitted_eq E _ w []) by (simpl; by rewrite app_nil_r).
    simpl. done. }
  rewrite emitted_wait_loop_S, run_wait_loop_S.
  destruct (clock w - start <? waitTimeoutMs storyConfig)%Z; [| done].
  destruct (respond E (history w) GetPlayingStatus) as [[|] | e] eqn:Hpoll.
  - cbv zeta.
    destruct (respond E _ (Sleep (pollIntervalMs storyConfig))) as [[] | e] eqn:Hr.
    + match goal with |- context [emitted E _ ?w2] =>
        destruct (IH w2) as (Hall & Hpaced & Hlast) end.
      split; [| split].
      * repeat constructor. exact Hall.
      * split; [intros _; eexists; split; [reflexivity | done] |].
        split; [done | exact Hpaced].
      * intros Hok. specialize (Hlast Hok).
        rewrite !last_cons, Hlast. done.
    + split; [| split].
      * repeat constructor.
      * split; [intros _; eexists; split; [reflexivity | done] |].
        split; [done | done].
      * done.
  - split; [| split]; [repeat constructor | simpl; by split | done].
  - split; [| split]; [repeat constructor | simpl; by split | done].
Qed.

Lemma run_waitForAudioComplete w :
  run E (waitForAudioComplete storyConfig fuel) w =
  match run E getEngineOrThrow w with
  | (Settled (Ok _), _) => run E (wait_loop storyConfig fuel (clock w)) w
  | (Settled (Err e), _) => (Settled (Err e), w)
  | (Diverged, _) => (Diverged, w)
  end.
Proof.
  unfold waitForAudioComplete. rewrite run_bind.
  by destruct (engine_run_cases w) as [[e ->] | ->].
Qed.

Lemma wait_trace w :
  Forall (fun e => is_wait e = true) (emitted E (waitForAudioComplete storyConfig fuel) w)
  /\ paced (pollIntervalMs storyConfig)
       (emitted E (waitForAudioComplete storyConfig fuel) w)
  /\ (fst (run E (waitForAudioComplete storyConfig fuel) w) = Settled (Ok tt) ->
      last (emitted E (waitForAudioComplete storyConfig fuel) w) = Some poll_idle).
Proof.
  unfold emitted. rewrite run_waitForAudioComplete.
  destruct (engine_run_cases w) as [[e ->] | ->].
  - apply wait_loop_trace.
  - simpl. rewrite drop_all. done.
Qed.

(** *** Traces of story playback *)

Local Abbreviation story_loop' := (story_loop toLowerCase ttsService storyConfig fuel).
Local Abbreviation play_chunk' := (play_chunk storyConfig fuel).
Local Abbreviation wait' := (waitForAudioComplete storyConfig fuel).

Lemma synth_cases c w :
  (exists e, run E (synthesize' c) w = (Settled (Err e), w)
             /\ emitted E (synthesize' c) w = [])
  \/ (exists p,
        run E (synthesize' c) w
        = (Settled (respond E (history w) (Synthesize p c)),
           after_call E w (Synthesize p c) (respond E (history w) (Synthesize p c)))
        /\ emitted E (synthesize' c) w
           = [Ev (Synthesize p c) (respond E (history w) (Synthesize p c))]).
Proof.
  unfold synthesize.
  destruct ttsService as [tts |];
    [| left; eexists; split; [reflexivity | by apply emitted_eq; rewrite app_nil_r]].
  destruct (getProviderImpl toLowerCase tts) as [impl | e];
    [| left; eexists; split; [reflexivity | by apply emitted_eq; rewrite app_nil_r]].
  destruct (has_synthesize impl);
    [| left; eexists; split; [reflexivity | by apply emitted_eq; rewrite app_nil_r]].
  right. exists (getProvider toLowerCase tts).
  split; [exact (run_await E (Synthesize _ c) w)
         | exact (emitted_await E (Synthesize _ c) w)].
Qed.

Lemma run_play_chunk_later i u w :
  run E (play_chunk' (S i) u) w =
  match run E wait' w with
  | (Settled (Ok _), w1) =>
    (Settled (respond E (history w1) (PlayUrl u None)),
     after_call E w1 (PlayUrl u None) (respond E (history w1) (PlayUrl u None)))
  | (Settled (Err e), w1) => (Settled (Err e), w1)
  | (Diverged, w1) => (Diverged, w1)
  end.
Proof.
  unfold play_chunk. simpl Nat.eqb. cbv iota. rewrite run_bind.
  destruct (run E wait' w) as [[[[] | e] |] w1]; [| done | done].
  exact (run_await E (PlayUrl u None) w1).
Qed.

Lemma emitted_play_chunk_later i u w :
  emitted E (play_chunk' (S i) u) w =
  emitted E wait' w ++
  match run E wait' w with
  | (Settled (Ok _), w1) => [Ev (PlayUrl u None) (respond E (history w1) (PlayUrl u None))]
  | _ => []
  end.
Proof.
  unfold play_chunk. simpl Nat.eqb. cbv iota. rewrite emitted_bind.
  destruct (run E wait' w) as [[[[] | e] |] w1]; [| done | done].
  by rewrite (emitted_await E (PlayUrl u None) w1).
Qed.

Lemma is_wait_not_play l :
  Forall (fun e => is_wait e = true) l -> Forall (fun e => is_play_url e = false) l.
Proof.
  intros H. eapply Forall_impl; [exact H |].
  intros [c r]. unfold is_wait, is_play_url. simpl.
  by destruct c.
Qed.

Lemma is_wait_not_synthesize l :
  Forall (fun e => is_wait e = true) l -> Forall (fun e => is_synthesize e = false) l.
Proof.
  intros H. eapply Forall_impl; [exact H |].
  intros [c r]. unfold is_wait, is_synthesize. simpl.
  by destruct c.
Qed.

(** A later chunk: polls and pauses, then the play if the wait returned. *)
Lemma play_chunk_later_trace i u w prev :
  gated prev (emitted E (play_chunk' (S i) u) w)
  /\ paced (pollIntervalMs storyConfig) (emitted E (play_chunk' (S i) u) w)
  /\ Forall (fun e => is_synthesize e = false) (emitted E (play_chunk' (S i) u) w).
Proof.
  rewrite emitted_play_chunk_later.
  destruct (wait_trace w) as (Hall & Hpaced & Hlast).
  destruct (run E wait' w) as [[[[] | e] |] w1]; rewrite ?app_nil_r.
  - split; [| split].
    + apply gated_app; [by apply gated_quiet, is_wait_not_play |].
      unfold last_or. rewrite (Hlast eq_refl). simpl. done.
    + apply paced_app; [done |]. simpl. done.
    + apply Forall_app. split; [by apply is_wait_not_synthesize |].
      by repeat constructor.
  - split; [| split];
      [by apply gated_quiet, is_wait_not_play | done | by apply is_wait_not_synthesize].
  - split; [| split];
      [by apply gated_quiet, is_wait_not_play | done | by apply is_wait_not_synthesize].
Qed.

Lemma emitted_story_cons i c rest w :
  emitted E (story_loop' i (c :: rest)) w =
  emitted E (synthesize' c) w ++
  match run E (synthesize' c) w with
  | (Settled (Ok u), w1) =>
    emitted E (play_chunk' i u) w1 ++
    match run E (play_chunk' i u) w1 with
    | (Settled (Ok _), w2) => emitted E (story_loop' (S i) rest) w2
    | _ => []
    end
  | _ => []
  end.
Proof.
  simpl story_loop. rewrite emitted_bind.
  destruct (run E (synthesize' c) w) as [[[u | e] |] w1]; [| done | done].
  by rewrite emitted_bind.
Qed.

Lemma run_story_cons i c rest w :
  run E (story_loop' i (c :: rest)) w =
  match run E (synthesize' c) w with
  | (Settled (Ok u), w1) =>
    match run E (play_chunk' i u) w1 with
    | (Settled (Ok _), w2) => run E (story_loop' (S i) rest) w2
    | (Settled (Err e), w2) => (Settled (Err e), w2)
    | (Diverged, w2) => (Diverged, w2)
    end
  | (Settled (Err e), w1) => (Settled (Err e), w1)
  | (Diverged, w1) => (Diverged, w1)
  end.
Proof.
  simpl story_loop. rewrite run_bind.
  destruct (run E (synthesize' c) w) as [[[u | e] |] w1]; [| done | done].
  by rewrite run_bind.
Qed.

(** From the second chunk on, every play follows an idle poll. *)
Lemma story_later_trace chunks : forall i w prev,
  gated prev (emitted E (story_loop' (S i) chunks) w)
  /\ paced (pollIntervalMs storyConfig) (emitted E (story_loop' (S i) chunks) w).
Proof.
  induction chunks as [| c rest IH]; intros i w prev.
  { rewrite (emitted_eq E _ w []) by (simpl; by rewrite app_nil_r). done. }
  rewrite emitted_story_cons.
  destruct (synth_cases c w) as [(e & -> & ->) | (p & -> & ->)]; [done |].
  destruct (respond E (history w) (Synthesize p c)) as [u | e];
    [| simpl; split; [by split | by split]].
  set (w1 := after_call _ _ _ _).
  set (ev := Ev (Synthesize p c) (Ok u)).
  assert (Hquiet : is_play_url ev = false /\ is_busy_poll ev = false) by done.
  destruct Hquiet as [Hq1 Hq2].
  destruct (play_chunk_later_trace i u w1 (Some ev)) as (Hg & Hp & _).
  change ([ev] ++ ?l) with (ev :: l).
  split.
  - split; [congruence |].
    apply gated_app; [exact Hg |].
    destruct (run E (play_chunk' (S i) u) w1) as [[[[] | e] |] w2]; [| done | done].
    apply IH.
  - split; [congruence |].
    apply paced_app; [exact Hp |].
    destruct (run E (play_chunk' (S i) u) w1) as [[[[] | e] |] w2]; [| done | done].
    apply (IH (S i) w2 None).
Qed.

Local Abbreviation speakStoryMode' :=
  (speakStoryMode toLowerCase ttsService storyConfig fuel).

Lemma emitted_speakStoryMode text w :
  emitted E (speakStoryMode' text) w =
  match run E getEngineOrThrow w with
  | (Settled (Ok _), _) => emitted E (story_loop' 0 (story_chunks storyConfig text)) w
  | _ => []
  end.
Proof.
  unfold speakStoryMode. rewrite emitted_bind, emitted_engine.
  destruct (engine_run_cases w) as [[e ->] | ->]; [| done].
  rewrite emitted_bind. simpl app.
  destruct (run E (story_loop' 0 _) w) as [[[[] | e'] |] w1]; rewrite ?app_nil_r; try done.
  rewrite (emitted_eq E _ w1 []) by (simpl; by rewrite app_nil_r).
  by rewrite app_nil_r.
Qed.

Lemma run_speakStoryMode text w :
  run E (speakStoryMode' text) w =
  match run E getEngineOrThrow w with
  | (Settled (Ok _), _) =>
    match run E (story_loop' 0 (story_chunks storyConfig text)) w with
    | (Settled (Ok _), w1) => (Settled (Ok (js "story")), w1)
    | (Settled (Err e), w1) => (Settled (Err e), w1)
    | (Diverged, w1) => (Diverged, w1)
    end
  | (Settled (Err e), _) => (Settled (Err e), w)
  | (Diverged, _) => (Diverged, w)
  end.
Proof.
  unfold speakStoryMode. rewrite run_bind.
  destruct (engine_run_cases w) as [[e ->] | ->]; [| done].
  rewrite run_bind.
  by destruct (run E (story_loop' 0 _) w) as [[[[] | e'] |] w1].
Qed.

Lemma run_play_chunk_first (u : jsstring) w :
  run E (play_chunk' 0 u) w
  = (Settled (respond E (history w) (PlayUrl u None)),
     after_call E w (PlayUrl u None) (respond E (history w) (PlayUrl u None))).
Proof. exact (run_await E (PlayUrl u None) w). Qed.

Lemma emitted_play_chunk_first (u : jsstring) w :
  emitted E (play_chunk' 0 u) w
  = [Ev (PlayUrl u None) (respond E (history w) (PlayUrl u None))].
Proof. exact (emitted_await E (PlayUrl u None) w). Qed.

Lemma first_play_then_gated interval (e0 e1 : event) (R : list event) :
  is_synthesize e0 = true -> is_play_url e1 = true ->
  gated (Some e1) R -> paced interval R ->
  (forall n e, (e0 :: e1 :: R) !! n = Some e -> is_play_url e = true ->
     (n = 1%nat /\ exists e', (e0 :: e1 :: R) !! 0%nat = Some e'
                              /\ is_synthesize e' = true)
     \/ (exists m, n = S (S m) /\ (e0 :: e1 :: R) !! S m = Some poll_idle))
  /\ paced interval (e0 :: e1 :: R).
Proof.
  intros H0 H1 Hg Hp. split.
  - intros [| [| m]] e He Hplay; simpl in He.
    + injection He as <-. destruct e0 as [[] ?]; done.
    + left. split; [done |]. eexists. split; [reflexivity | done].
    + right. exists m. split; [done |]. simpl.
      destruct m as [| m'].
      * destruct R as [| e2 R']; [done |]. simpl in He. injection He as ->.
        destruct Hg as [Hg _]. specialize (Hg Hplay).
        injection Hg as ->. done.
      * change (R !! m' = Some poll_idle). eapply gated_lookup; eauto.
  - simpl. split; [| split; [| exact Hp]].
    + intros Hb. destruct e0 as [[] ?]; done.
    + intros Hb. destruct e1 as [[] ?]; done.
Qed.

(** The first chunk is played straight after its synthesis; every other
    play follows an idle poll. *)
Lemma story_first_trace chunks w :
  (forall n e, emitted E (story_loop' 0 chunks) w !! n = Some e ->
     is_play_url e = true ->
     (n = 1%nat /\ exists e0, emitted E (story_loop' 0 chunks) w !! 0%nat = Some e0
                              /\ is_synthesize e0 = true)
     \/ (exists m, n = S (S m)
                   /\ emitted E (story_loop' 0 chunks) w !! S m = Some poll_idle))
  /\ paced (pollIntervalMs storyConfig) (emitted E (story_loop' 0 chunks) w).
Proof.
  destruct chunks as [| c rest].
  { rewrite (emitted_eq E _ w []) by (simpl; by rewrite app_nil_r). done. }
  rewrite emitted_story_cons.
  destruct (synth_cases c w) as [(e & -> & ->) | (p & -> & ->)]; [done |].
  destruct (respond E (history w) (Synthesize p c)) as [u | e0].
  2:{ split; [| simpl; by split].
      intros [| n] e He Hplay; simpl in He; [| done].
      injection He as <-. done. }
  set (w1 := after_call _ _ _ _).
  rewrite emitted_play_chunk_first, run_play_chunk_first.
  destruct (respond E (history w1) (PlayUrl u None)) as [[] | e1].
  - apply first_play_then_gated;
      [done | done | apply story_later_trace
      | apply (story_later_trace rest 0%nat _ None)].
  - apply (first_play_then_gated _ _ _ []); done.
Qed.

(** *** The wait runs into its timeout *)

Lemma timer_delay_pos ms : (1 <= timer_delay ms)%Z.
Proof.
  unfold timer_delay.
  destruct (ms <? 1)%Z eqn:H1; simpl; [lia |].
  destruct (2147483647 <? ms)%Z; [lia |].
  apply Z.ltb_ge in H1. lia.
Qed.

Lemma wait_loop_times_out n : forall start w,
  always_busy E -> timers_fire E ->
  (1 <= n)%nat ->
  (waitTimeoutMs storyConfig - (clock w - start)
   <= (Z.of_nat n - 1) * timer_delay (pollIntervalMs storyConfig))%Z ->
  fst (run E (wait_loop storyConfig n start) w) = Settled (Err wait_timeout)
  /\ (waitTimeoutMs storyConfig
      <= clock (snd (run E (wait_loop storyConfig n start) w)) - start)%Z.
Proof.
  induction n as [| n IH]; intros start w Hbusy Hfire Hn Hfuel; [lia |].
  rewrite run_wait_loop_S.
  destruct (clock w - start <? waitTimeoutMs storyConfig)%Z eqn:Hc.
  2:{ apply Z.ltb_ge in Hc. simpl. split; [done | lia]. }
  apply Z.ltb_lt in Hc.
  rewrite Hbusy. cbv zeta. rewrite Hfire.
  pose proof (timer_delay_pos (pollIntervalMs storyConfig)) as Hd.
  set (w2 := after_call E _ (Sleep _) _).
  assert (Hclock : (clock w + timer_delay (pollIntervalMs storyConfig) <= clock w2)%Z).
  { subst w2. unfold after_call, elapsed. simpl. lia. }
  apply IH; [done | done | nia | nia].
Qed.

Lemma wait_times_out w :
  always_ready E -> always_busy E -> timers_fire E ->
  (1 <= fuel)%nat ->
  (waitTimeoutMs storyConfig
   <= (Z.of_nat fuel - 1) * timer_delay (pollIntervalMs storyConfig))%Z ->
  fst (run E wait' w) = Settled (Err wait_timeout)
  /\ (waitTimeoutMs storyConfig <= clock (snd (run E wait' w)) - clock w)%Z.
Proof.
  intros Hready Hbusy Hfire Hn Hfuel.
  rewrite run_waitForAudioComplete.
  destruct (engine_ready_run w (Hready (history w))) as [e ->].
  apply wait_loop_times_out; try done. lia.
Qed.

Lemma synth_not_play c w :
  Forall (fun e => is_play_url e = false) (emitted E (synthesize' c) w).
Proof.
  destruct (synth_cases c w) as [(e & _ & ->) | (p & _ & ->)]; by repeat constructor.
Qed.

Lemma later_chunk_times_out i chunk rest w u w1 :
  always_ready E -> always_busy E -> timers_fire E ->
  (1 <= fuel)%nat ->
  (waitTimeoutMs storyConfig
   <= (Z.of_nat fuel - 1) * timer_delay (pollIntervalMs storyConfig))%Z ->
  run E (synthesize' chunk) w = (Settled (Ok u), w1) ->
  fst (run E (story_loop' (S i) (chunk :: rest)) w) = Settled (Err wait_timeout)
  /\ Forall (fun e => is_play_url e = false)
       (emitted E (story_loop' (S i) (chunk :: rest)) w)
  /\ (waitTimeoutMs storyConfig
      <= clock (snd (run E (story_loop' (S i) (chunk :: rest)) w)) - clock w1)%Z.
Proof.
  intros Hready Hbusy Hfire Hn Hfuel Hsynth.
  pose proof (synth_not_play chunk w) as Hquiet.
  rewrite run_story_cons, emitted_story_cons, Hsynth in *.
  rewrite run_play_chunk_later, emitted_play_chunk_later.
  destruct (wait_times_out w1 Hready Hbusy Hfire Hn Hfuel) as [Hout Hclock].
  destruct (wait_trace w1) as (Hall & _ & _).
  destruct (run E wait' w1) as [[[[] | e] |] w2]; simpl in Hout; try discriminate.
  injection Hout as ->. simpl in Hclock |- *.
  split; [done |]. split; [| done].
  rewrite !app_nil_r. apply Forall_app. split; [done |].
  by apply is_wait_not_play.
Qed.

(** In the trace of story playback, a play is the second call or comes
    straight after an idle poll, and a busy poll is followed by a pause; a
    later chunk runs into the timeout when the speaker keeps playing. *)
Lemma story_trace_gated (w : world) (text : jsstring) :
  (forall n e,
      emitted E (speakStoryMode' text) w !! n = Some e -> is_play_url e = true ->
      (n = 1%nat /\ exists e0, emitted E (speakStoryMode' text) w !! 0%nat = Some e0
                               /\ is_synthesize e0 = true)
      \/ (exists m, n = S (S m)
                    /\ emitted E (speakStoryMode' text) w !! S m = Some poll_idle))
  /\ (forall n e,
        emitted E (speakStoryMode' text) w !! n = Some e -> is_busy_poll e = true ->
        exists e', emitted E (speakStoryMode' text) w !! S n = Some e'
                   /\ ev_call e' = Sleep (pollIntervalMs storyConfig))
  /\ (forall i chunk rest w0 u w1,
        always_ready E -> always_busy E -> timers_fire E ->
        (1 <= fuel)%nat ->
        (waitTimeoutMs storyConfig
         <= (Z.of_nat fuel - 1) * timer_delay (pollIntervalMs storyConfig))%Z ->
        run E (synthesize' chunk) w0 = (Settled (Ok u), w1) ->
        fst (run E (story_loop' (S i) (chunk :: rest)) w0) = Settled (Err wait_timeout)
        /\ Forall (fun e => is_play_url e = false)
             (emitted E (story_loop' (S i) (chunk :: rest)) w0)
        /\ (waitTimeoutMs storyConfig
            <= clock (snd (run E (story_loop' (S i) (chunk :: rest)) w0)) - clock w1)%Z).
Proof.
  rewrite emitted_speakStoryMode.
  split; [| split].
  - destruct (engine_run_cases w) as [[e ->] | ->]; [| done].
    apply story_first_trace.
  - destruct (engine_run_cases w) as [[e ->] | ->]; [| done].
    intros n e0 Hl Hb. eapply paced_lookup; eauto. apply story_first_trace.
  - intros. by eapply later_chunk_times_out.
Qed.

(** *** [speakByText] piece by piece *)

Local Abbreviation speak_external' :=
  (speak_external toLowerCase ttsService storyConfig fuel
     (current_provider toLowerCase ttsService)).

Lemma run_speakByText text interrupt storyMode w :
  run E (speakByText' text interrupt storyMode) w =
  match run E getEngineOrThrow w with
  | (Settled (Ok _), _) =>
    match run E (abort_if interrupt) w with
    | (Settled (Ok _), w1) =>
      match can_synthesize toLowerCase ttsService with
      | Err e => (Settled (Err e), w1)
      | Ok true =>
        match run E (speak_external' text storyMode) w1 with
        | (Settled (Ok mode), w2) => (Settled (Ok mode), w2)
        | (Settled (Err _), w2) => run E (default_voice text) w2
        | (Diverged, w2) => (Diverged, w2)
        end
      | Ok false => run E (default_voice text) w1
      end
    | (Settled (Err e), w1) => (Settled (Err e), w1)
    | (Diverged, w1) => (Diverged, w1)
    end
  | (Settled (Err e), _) => (Settled (Err e), w)
  | (Diverged, _) => (Diverged, w)
  end.
Proof.
  unfold speakByText. rewrite run_bind.
  destruct (engine_run_cases w) as [[e ->] | ->]; [| done].
  rewrite run_bind.
  destruct (run E (abort_if interrupt) w) as [[[[] | e1] |] w1]; [| done | done].
  destruct (can_synthesize toLowerCase ttsService) as [[|] | e2]; [| done | done].
  rewrite run_bind, run_try_catch, run_bind.
  by destruct (run E (speak_external' text storyMode) w1) as [[[mode | e3] |] w2].
Qed.

Lemma emitted_speakByText text interrupt storyMode w :
  emitted E (speakByText' text interrupt storyMode) w =
  match run E getEngineOrThrow w with
  | (Settled (Ok _), _) =>
    emitted E (abort_if interrupt) w ++
    match run E (abort_if interrupt) w with
    | (Settled (Ok _), w1) =>
      match can_synthesize toLowerCase ttsService with
      | Err e => []
      | Ok true =>
        emitted E (speak_external' text storyMode) w1 ++
        match run E (speak_external' text storyMode) w1 with
        | (Settled (Err _), w2) => emitted E (default_voice text) w2
        | _ => []
        end
      | Ok false => emitted E (default_voice text) w1
      end
    | _ => []
    end
  | _ => []
  end.
Proof.
  apply emitted_eq. rewrite run_speakByText.
  destruct (engine_run_cases w) as [[e ->] | ->]; [| by rewrite app_nil_r].
  pose proof (history_run E (abort_if interrupt) w) as Ha.
  destruct (run E (abort_if interrupt) w) as [[[[] | e1] |] w1]; simpl in Ha;
    [| by rewrite app_nil_r | by rewrite app_nil_r].
  destruct (can_synthesize toLowerCase ttsService) as [[|] | e2].
  - pose proof (history_run E (speak_external' text storyMode) w1) as Hx.
    destruct (run E (speak_external' text storyMode) w1) as [[[mode | e3] |] w2];
      simpl in Hx; cbn [snd].
    + by rewrite Hx, Ha, app_nil_r, <- app_assoc.
    + by rewrite history_run, Hx, Ha, <- !app_assoc.
    + by rewrite Hx, Ha, app_nil_r, <- app_assoc.
  - by rewrite history_run, Ha, <- app_assoc.
  - simpl. by rewrite app_nil_r.
Qed.

Lemma run_abort w :
  run E (abort_if true) w
  = (Settled (respond E (history w) AbortXiaoAI),
     after_call E w AbortXiaoAI (respond E (history w) AbortXiaoAI)).
Proof. exact (run_await E AbortXiaoAI w). Qed.

Lemma emitted_abort w :
  emitted E (abort_if true) w = [Ev AbortXiaoAI (respond E (history w) AbortXiaoAI)].
Proof. exact (emitted_await E AbortXiaoAI w). Qed.

Lemma emitted_no_abort w : emitted E (abort_if false) w = [].
Proof. apply emitted_eq. simpl. by rewrite app_nil_r. Qed.

Lemma abort_if_trace interrupt w :
  Forall (fun e => is_abort e = true) (emitted E (abort_if interrupt) w).
Proof.
  destruct interrupt.
  - rewrite emitted_abort. by repeat constructor.
  - by rewrite emitted_no_abort.
Qed.

Lemma run_record_speak mode w :
  exists w', run E (record_speak mode) w = (Settled (Ok mode), w')
             /\ history w' = history w
             /\ lastSpeakMode (fields w') = Some mode.
Proof. eexists. split; [reflexivity |]. done. Qed.

Lemma emitted_record_speak mode w : emitted E (record_speak mode) w = [].
Proof. apply emitted_eq. simpl. by rewrite app_nil_r. Qed.

(** A synthesis settles, emits synthesis calls only, and none of them
    failed when it returns a URL. *)
Lemma synth_facts c w :
  exists out w',
    run E (synthesize' c) w = (Settled out, w')
    /\ Forall (fun e => is_synthesize e = true) (emitted E (synthesize' c) w)
    /\ (forall u, out = Ok u ->
         Forall (fun e => ev_failed e = false) (emitted E (synthesize' c) w))
    /\ (forall e, e ∈ emitted E (synthesize' c) w -> ev_failed e = true ->
         emitted E (synthesize' c) w = [e] /\ exists m, out = Err m /\ ev_error e = Some m).
Proof.
  destruct (synth_cases c w) as [(e & -> & ->) | (p & -> & ->)].
  - eexists _, _. split; [reflexivity |].
    split; [done |]. split; [done |].
    intros e0 He0. by apply elem_of_nil in He0.
  - eexists _, _. split; [reflexivity |].
    split; [by repeat constructor |].
    destruct (respond E (history w) (Synthesize p c)) as [u | m].
    + split; [intros _ _; by repeat constructor |].
      intros e0 He0 Hf. apply list_elem_of_singleton in He0 as ->. done.
    + split; [intros u [=] |].
      intros e0 He0 Hf. apply list_elem_of_singleton in He0 as ->.
      split; [done |]. eauto.
Qed.

Lemma play_facts (u : jsstring) (b : option bool) w :
  run E (await (PlayUrl u b)) w
  = (Settled (respond E (history w) (PlayUrl u b)),
     after_call E w (PlayUrl u b) (respond E (history w) (PlayUrl u b)))
  /\ emitted E (await (PlayUrl u b)) w
     = [Ev (PlayUrl u b) (respond E (history w) (PlayUrl u b))].
Proof. split; [exact (run_await E (PlayUrl u b) w) | exact (emitted_await E (PlayUrl u b) w)]. Qed.

(** The single-shot branch of the [try]: it settles, and when it returns
    a mode none of its calls failed. *)
Lemma speak_external_single text w :
  exists out w',
    run E (speak_external' text false) w = (Settled out, w')
    /\ (forall mode, out = Ok mode ->
         Forall (fun e => ev_failed e = false) (emitted E (speak_external' text false) w)).
Proof.
  unfold speak_external. rewrite run_bind, emitted_bind.
  destruct (synth_facts text w) as (out & w1 & Hrun & _ & Hok & _).
  rewrite Hrun. destruct out as [u | m]; [| eexists _, _; split; [reflexivity | by intros ? [=]]].
  specialize (Hok u eq_refl).
  rewrite run_bind, emitted_bind.
  destruct (play_facts u None w1) as [-> ->].
  destruct (respond E (history w1) (PlayUrl u None)) as [[] | m].
  - eexists _, _. split; [reflexivity |]. intros _ _.
    rewrite emitted_record_speak. apply Forall_app. split; [done |].
    by repeat constructor.
  - eexists _, _. split; [reflexivity |]. by intros ? [=].
Qed.

(** A call of the single-shot branch that failed is its last call, and
    the branch throws. *)
Lemma speak_external_single_failed text w e :
  e ∈ emitted E (speak_external' text false) w -> ev_failed e = true ->
  (exists pre, emitted E (speak_external' text false) w = pre ++ [e])
  /\ exists m w', run E (speak_external' text false) w = (Settled (Err m), w').
Proof.
  unfold speak_external. rewrite run_bind, emitted_bind.
  destruct (synth_cases text w) as [(m & Hrun & Hem) | (p & Hrun & Hem)];
    rewrite Hrun, Hem.
  { intros He. by apply elem_of_nil in He. }
  destruct (respond E (history w) (Synthesize p text)) as [u | m].
  2:{ rewrite app_nil_r. intros He%list_elem_of_singleton Hf. subst e.
      split; [by exists [] | eauto]. }
  rewrite run_bind, emitted_bind.
  destruct (play_facts u None (after_call E w (Synthesize p text) (Ok u))) as [-> ->].
  destruct (respond E _ (PlayUrl u None)) as [[] | m].
  - rewrite emitted_record_speak, app_nil_r.
    intros He Hf. exfalso.
    apply elem_of_app in He as [He | He];
      apply list_elem_of_singleton in He; subst e; discriminate Hf.
  - rewrite app_nil_r. intros He Hf.
    apply elem_of_app in He as [He | He];
      apply list_elem_of_singleton in He; subst e; [discriminate Hf |].
    split; [by eexists [_] | eauto].
Qed.

(** C3 (as amended).  In a single-shot speak against a provider that can
    synthesize, a synthesis or a play of the synthesized URL that fails is
    the last call of the external branch.  The error is caught; the next
    and last call is a play of the text with the speaker's own voice, which
    is outside of the [try]: the task settles as that play does, with mode
    ["xiaomi"], recorded as the last speak mode, when it succeeds, and with
    its error when it fails too. *)
Theorem single_shot_failure_falls_back (w : world) (text : jsstring)
    (interrupt : bool) (e : event) :
  can_synthesize toLowerCase ttsService = Ok true ->
  (is_synthesize e || is_play_url e) = true -> ev_failed e = true ->
  e ∈ emitted E (speakByText' text interrupt false) w ->
  exists pre r,
    emitted E (speakByText' text interrupt false) w
    = pre ++ [e; Ev (PlayText text) r]
    /\ match r with
       | Ok _ =>
         fst (run E (speakByText' text interrupt false) w) = Settled (Ok xiaomi)
         /\ lastSpeakMode (fields (snd (run E (speakByText' text interrupt false) w)))
            = Some xiaomi
       | Err m =>
         fst (run E (speakByText' text interrupt false) w) = Settled (Err m)
       end.
Proof.
  intros Hcan Hkind Hfail He.
  rewrite emitted_speakByText in *. rewrite run_speakByText.
  destruct (engine_run_cases w) as [[e0 Heng] | Heng]; rewrite Heng in *;
    [| by apply elem_of_nil in He].
  pose proof (abort_if_trace interrupt w) as Habort.
  assert (Hnot_abort : e ∉ emitted E (abort_if interrupt) w).
  { intros Hin. rewrite Forall_forall in Habort. specialize (Habort e Hin).
    destruct e as [[] ?]; done. }
  destruct (run E (abort_if interrupt) w) as [[[[] | m] |] w1];
    [| rewrite app_nil_r in He; done | rewrite app_nil_r in He; done].
  rewrite Hcan in *.
  apply elem_of_app in He as [He | He]; [done |].
  assert (He' : e ∈ emitted E (speak_external' text false) w1).
  { apply elem_of_app in He as [He | He]; [done |].
    destruct (run E (speak_external' text false) w1) as [[[mode | m] |] w2];
      [by apply elem_of_nil in He | | by apply elem_of_nil in He].
    rewrite emitted_default_voice in He.
    apply list_elem_of_singleton in He as ->. done. }
  destruct (speak_external_single_failed text w1 e He' Hfail)
    as ((pre & Hpre) & m & w2 & Hr).
  rewrite Hr, Hpre, emitted_default_voice, run_default_voice.
  exists (emitted E (abort_if interrupt) w ++ pre),
         (respond E (history w2) (PlayText text)).
  split; [by rewrite <- !app_assoc |].
  by destruct (respond E (history w2) (PlayText text)) as [[] | m'].
Qed.

(** *** A synthesis that fails in story mode *)

Lemma play_chunk_not_synthesize i (u : jsstring) w :
  Forall (fun e => is_synthesize e = false) (emitted E (play_chunk' i u) w).
Proof.
  destruct i as [| i].
  - rewrite emitted_play_chunk_first. by repeat constructor.
  - apply (play_chunk_later_trace i u w None).
Qed.

(** A failed synthesis is the last call of the loop, and the loop throws
    its error: the remaining chunks are neither synthesized nor played. *)
Lemma story_failed_synth chunks : forall i w e,
  e ∈ emitted E (story_loop' i chunks) w ->
  is_synthesize e = true -> ev_failed e = true ->
  (exists pre, emitted E (story_loop' i chunks) w = pre ++ [e])
  /\ exists m w', run E (story_loop' i chunks) w = (Settled (Err m), w').
Proof.
  induction chunks as [| c rest IH]; intros i w e He Hs Hf.
  { rewrite (emitted_eq E _ w []) in He by (simpl; by rewrite app_nil_r).
    by apply elem_of_nil in He. }
  rewrite emitted_story_cons in He |- *. rewrite run_story_cons.
  destruct (synth_facts c w) as (out & w1 & Hrun & _ & _ & Hfail).
  rewrite Hrun in *.
  apply elem_of_app in He as [He | He].
  { destruct (Hfail e He Hf) as (Hone & m & -> & _).
    split; [exists []; by rewrite Hone | eauto]. }
  destruct out as [u | m]; [| by apply elem_of_nil in He].
  pose proof (play_chunk_not_synthesize i u w1) as Hquiet.
  apply elem_of_app in He as [He | He].
  { rewrite Forall_forall in Hquiet. rewrite (Hquiet e He) in Hs. done. }
  destruct (run E (play_chunk' i u) w1) as [[[[] | m] |] w2];
    [| by apply elem_of_nil in He | by apply elem_of_nil in He].
  destruct (IH (S i) w2 e He Hs Hf) as ((pre & Hpre) & m & w' & Hr).
  split; [| eauto].
  eexists. rewrite Hpre, !app_assoc. reflexivity.
Qed.

Lemma speak_external_story_failed text w e :
  e ∈ emitted E (speak_external' text true) w ->
  is_synthesize e = true -> ev_failed e = true ->
  (exists pre, emitted E (speak_external' text true) w = pre ++ [e])
  /\ exists m w', run E (speak_external' text true) w = (Settled (Err m), w').
Proof.
  unfold speak_external. rewrite emitted_bind, run_bind.
  rewrite emitted_speakStoryMode, run_speakStoryMode.
  destruct (engine_run_cases w) as [[e0 ->] | ->];
    [| intros He; by apply elem_of_nil in He].
  intros He Hs Hf.
  assert (He' : e ∈ emitted E (story_loop' 0 (story_chunks storyConfig text)) w).
  { apply elem_of_app in He as [He | He]; [done |].
    destruct (run E (story_loop' 0 _) w) as [[[[] | m] |] w1];
      [| by apply elem_of_nil in He | by apply elem_of_nil in He].
    rewrite emitted_record_speak in He. by apply elem_of_nil in He. }
  destruct (story_failed_synth _ 0%nat w e He' Hs Hf) as ((pre & Hpre) & m & w' & Hr).
  rewrite Hr. split; [| eauto].
  exists pre. by rewrite Hpre, app_nil_r.
Qed.

Lemma speak_story_failure (w : world) (text : jsstring) (interrupt : bool)
    (e : event) :
  can_synthesize toLowerCase ttsService = Ok true ->
  e ∈ emitted E (speakByText' text interrupt true) w ->
  is_synthesize e = true -> ev_failed e = true ->
  exists pre r,
    emitted E (speakByText' text interrupt true) w
    = pre ++ [e; Ev (PlayText text) r]
    /\ fst (run E (speakByText' text interrupt true) w)
       = match r with
         | Ok _ => Settled (Ok xiaomi)
         | Err m => Settled (Err m)
         end.
Proof.
  intros Hcan He Hs Hf.
  rewrite emitted_speakByText in *. rewrite run_speakByText.
  destruct (engine_run_cases w) as [[e0 Heng] | Heng]; rewrite Heng in *;
    [| by apply elem_of_nil in He].
  pose proof (abort_if_trace interrupt w) as Habort.
  assert (Hnot_abort : e ∉ emitted E (abort_if interrupt) w).
  { intros Hin. rewrite Forall_forall in Habort. specialize (Habort e Hin).
    destruct e as [[] ?]; done. }
  destruct (run E (abort_if interrupt) w) as [[[[] | m] |] w1];
    [| rewrite app_nil_r in He; done | rewrite app_nil_r in He; done].
  rewrite Hcan in *.
  apply elem_of_app in He as [He | He]; [done |].
  assert (He' : e ∈ emitted E (speak_external' text true) w1).
  { apply elem_of_app in He as [He | He]; [done |].
    destruct (run E (speak_external' text true) w1) as [[[mode | m] |] w2];
      [by apply elem_of_nil in He | | by apply elem_of_nil in He].
    rewrite emitted_default_voice in He.
    apply list_elem_of_singleton in He as ->. done. }
  destruct (speak_external_story_failed text w1 e He' Hs Hf)
    as ((pre & Hpre) & m & w2 & Hr).
  rewrite Hr, Hpre, emitted_default_voice, run_default_voice.
  exists (emitted E (abort_if interrupt) w ++ pre),
         (respond E (history w2) (PlayText text)).
  split; [by rewrite <- !app_assoc |].
  by destruct (respond E (history w2) (PlayText text)) as [[] | m'].
Qed.

Local Abbreviation askAndSpeak' :=
  (askAndSpeak toLowerCase ttsService storyConfig fuel).

Lemma run_ask (text : jsstring) w :
  run E (await (AskAI text)) w
  = (Settled (respond E (history w) (AskAI text)),
     after_call E w (AskAI text) (respond E (history w) (AskAI text)))
  /\ emitted E (await (AskAI text)) w
     = [Ev (AskAI text) (respond E (history w) (AskAI text))].
Proof.
  split; [exact (run_await E (AskAI text) w) | exact (emitted_await E (AskAI text) w)].
Qed.

(** A chat request plays the reply through [speakByText], without a
    second interrupt. *)
Lemma run_askAndSpeak text interrupt storyMode w :
  run E (askAndSpeak' text interrupt storyMode) w =
  match run E getEngineOrThrow w with
  | (Settled (Ok _), _) =>
    match run E (abort_if interrupt) w with
    | (Settled (Ok _), w1) =>
      let w2 := after_call E w1 (AskAI text) (respond E (history w1) (AskAI text)) in
      match respond E (history w1) (AskAI text) with
      | Ok replyText =>
        if is_empty replyText then (Settled (Ok (VChat None [])), w2)
        else
          match run E (speakByText' replyText false storyMode) w2 with
          | (Settled (Ok mode), w3) => (Settled (Ok (VChat (Some mode) replyText)), w3)
          | (Settled (Err m), w3) => (Settled (Err m), w3)
          | (Diverged, w3) => (Diverged, w3)
          end
      | Err m => (Settled (Err m), w2)
      end
    | (Settled (Err m), w1) => (Settled (Err m), w1)
    | (Diverged, w1) => (Diverged, w1)
    end
  | (Settled (Err m), _) => (Settled (Err m), w)
  | (Diverged, _) => (Diverged, w)
  end.
Proof.
  unfold askAndSpeak. rewrite run_bind.
  destruct (engine_run_cases w) as [[e0 ->] | ->]; [| done].
  rewrite run_bind.
  destruct (run E (abort_if interrupt) w) as [[[[] | m] |] w1]; [| done | done].
  rewrite run_bind. destruct (run_ask text w1) as [-> _]. cbv zeta.
  destruct (respond E (history w1) (AskAI text)) as [reply | m]; [| done].
  destruct (is_empty reply); [done |].
  rewrite run_bind.
  by destruct (run E (speakByText' reply false storyMode) _) as [[[mode | m] |] w3].
Qed.

Lemma emitted_askAndSpeak text interrupt storyMode w :
  emitted E (askAndSpeak' text interrupt storyMode) w =
  match run E getEngineOrThrow w with
  | (Settled (Ok _), _) =>
    emitted E (abort_if interrupt) w ++
    match run E (abort_if interrupt) w with
    | (Settled (Ok _), w1) =>
      let w2 := after_call E w1 (AskAI text) (respond E (history w1) (AskAI text)) in
      Ev (AskAI text) (respond E (history w1) (AskAI text)) ::
      match respond E (history w1) (AskAI text) with
      | Ok replyText =>
        if is_empty replyText then []
        else emitted E (speakByText' replyText false storyMode) w2
      | Err _ => []
      end
    | _ => []
    end
  | _ => []
  end.
Proof.
  apply emitted_eq. rewrite run_askAndSpeak.
  destruct (engine_run_cases w) as [[e0 ->] | ->]; [| by rewrite app_nil_r].
  pose proof (history_run E (abort_if interrupt) w) as Ha.
  destruct (run E (abort_if interrupt) w) as [[[[] | m] |] w1]; simpl in Ha;
    [| by rewrite app_nil_r | by rewrite app_nil_r].
  cbv zeta.
  destruct (respond E (history w1) (AskAI text)) as [reply | m].
  - destruct (is_empty reply).
    + cbn [snd after_call history]. by rewrite Ha, <- app_assoc.
    + pose proof (history_run E (speakByText' reply false storyMode)
                    (after_call E w1 (AskAI text) (Ok reply))) as Hs.
      destruct (run E (speakByText' reply false storyMode) _) as [[[mode | m] |] w3];
        cbn [snd] in Hs |- *; rewrite Hs; cbn [after_call history];
        by rewrite Ha, <- !app_assoc.
  - cbn [snd after_call history]. by rewrite Ha, <- app_assoc.
Qed.

Lemma chat_story_failure (w : world) (text : jsstring) (interrupt : bool)
    (e : event) :
  can_synthesize toLowerCase ttsService = Ok true ->
  e ∈ emitted E (askAndSpeak' text interrupt true) w ->
  is_synthesize e = true -> ev_failed e = true ->
  exists pre replyText r,
    emitted E (askAndSpeak' text interrupt true) w
    = pre ++ [e; Ev (PlayText replyText) r]
    /\ fst (run E (askAndSpeak' text interrupt true) w)
       = match r with
         | Ok _ => Settled (Ok (VChat (Some xiaomi) replyText))
         | Err m => Settled (Err m)
         end.
Proof.
  intros Hcan He Hs Hf.
  rewrite emitted_askAndSpeak in He |- *. rewrite run_askAndSpeak.
  destruct (engine_run_cases w) as [[e0 Heng] | Heng]; rewrite Heng in He |- *;
    [| by apply elem_of_nil in He].
  pose proof (abort_if_trace interrupt w) as Habort.
  apply elem_of_app in He as [He | He].
  { rewrite Forall_forall in Habort. specialize (Habort e He).
    destruct e as [[] ?]; done. }
  destruct (run E (abort_if interrupt) w) as [[[[] | m] |] w1];
    [| by apply elem_of_nil in He | by apply elem_of_nil in He].
  cbv zeta in He |- *.
  apply elem_of_cons in He as [-> | He]; [done |].
  destruct (respond E (history w1) (AskAI text)) as [reply | m];
    [| by apply elem_of_nil in He].
  destruct (is_empty reply); [by apply elem_of_nil in He |].
  destruct (speak_story_failure _ reply false e Hcan He Hs Hf)
    as (pre & r & Hpre & Hres).
  exists (emitted E (abort_if interrupt) w ++ Ev (AskAI text) (Ok reply) :: pre),
         reply, r.
  rewrite Hpre. split; [by rewrite <- !app_assoc |].
  destruct (run E (speakByText' reply false true) _) as [[[mode | m] |] w3];
    simpl in Hres |- *.
  - destruct r as [[] | m']; [| done]. by injection Hres as ->.
  - destruct r as [[] | m']; [done |]. by injection Hres as ->.
  - destruct r; done.
Qed.

(** C2 (as amended).  In a story-mode speak or chat against a provider
    that can synthesize, a synthesis that fails ends the story: no further
    chunk is synthesized or played.  The error is caught in [speakByText];
    the next and last call is a play of the whole text with the speaker's
    own voice, and the task settles as that play does, with mode ["xiaomi"]
    when it succeeds. *)
Theorem story_synthesis_failure_falls_back (w : world) (text : jsstring)
    (interrupt : bool) (e : event) :
  can_synthesize toLowerCase ttsService = Ok true ->
  is_synthesize e = true -> ev_failed e = true ->
  (e ∈ emitted E (speakByText' text interrupt true) w ->
   exists pre r,
     emitted E (speakByText' text interrupt true) w
     = pre ++ [e; Ev (PlayText text) r]
     /\ fst (run E (speakByText' text interrupt true) w)
        = match r with
          | Ok _ => Settled (Ok xiaomi)
          | Err m => Settled (Err m)
          end)
  /\ (e ∈ emitted E (askAndSpeak' text interrupt true) w ->
      exists pre replyText r,
        emitted E (askAndSpeak' text interrupt true) w
        = pre ++ [e; Ev (PlayText replyText) r]
        /\ fst (run E (askAndSpeak' text interrupt true) w)
           = match r with
             | Ok _ => Settled (Ok (VChat (Some xiaomi) replyText))
             | Err m => Settled (Err m)
             end).
Proof.
  intros Hcan Hs Hf. split; intros He.
  - by apply speak_story_failure.
  - by apply chat_story_failure.
Qed.

(** *** Requests while the engine is not ready *)

Lemma engine_unavailable_run w :
  engine_unavailable E w ->
  run E getEngineOrThrow w = (Settled (Err engine_not_ready), w).
Proof.
  unfold engine_unavailable, getEngineOrThrow. simpl.
  destruct (engine_at E (history w)) as [e |]; [| done].
  by intros ->.
Qed.

(** What [wrappedTask] leaves behind when the task throws [msg] without
    having changed anything. *)
Lemma run_wrappedTask_throws taskType (task : prog value) msg w :
  run E task w = (Settled (Err msg), w) ->
  run E (wrappedTask taskType task) w =
  (Settled (Err msg),
   with_fields
     (fun f =>
        set_lastTaskFinishedAt (Some (clock w))
          (set_lastTaskType (Some taskType)
             (set_queueDepth (Z.max 0 (queueDepth f - 1))
                (set_lastTaskError
                   (Some {| te_type := taskType;
                            te_message := error_message msg;
                            te_at := clock w |}) f)))) w).
Proof.
  intros Hrun. unfold wrappedTask.
  rewrite run_try_finally, run_try_catch, run_bind, Hrun. simpl.
  unfold with_fields. simpl. reflexivity.
Qed.

(** C4 (as amended).  A speak, chat or play request that passes validation
    is enqueued whether or not the engine is ready: the queue depth goes up
    by one and the task joins the chain.  With the engine unavailable when
    the queue runs the task, the task makes no call and throws "Engine not
    ready"; the queue records the error with the task's type, the type and
    time of the last task, and takes the depth down again, and the error
    reaches the caller as the task's rejection. *)
Theorem engine_not_ready_fails_in_queue (body : request_body) (sub : submission)
    (s : loop) (w : world) :
  handleSpeak toLowerCase ttsService storyConfig fuel body = Ok sub
  \/ handleChat toLowerCase ttsService storyConfig fuel body = Ok sub
  \/ handlePlay body = Ok sub ->
  engine_unavailable E w ->
  (queueDepth (fields (lworld (enqueueTask sub s)))
     = (queueDepth (fields (lworld s)) + 1)%Z
   /\ submitted (enqueueTask sub s) = submitted s ++ [sub]
   /\ taskQueue (enqueueTask sub s) = length (promises s)
   /\ promises (enqueueTask sub s) !! taskQueue (enqueueTask sub s) = Some Pending)
  /\ exists w',
      run E (wrappedTask (sub_type sub) (sub_task sub)) w
        = (Settled (Err engine_not_ready), w')
      /\ history w' = history w
      /\ lastTaskError (fields w')
         = Some {| te_type := sub_type sub; te_message := engine_not_ready;
                   te_at := clock w |}
      /\ lastTaskType (fields w') = Some (sub_type sub)
      /\ lastTaskFinishedAt (fields w') = Some (clock w)
      /\ queueDepth (fields w') = Z.max 0 (queueDepth (fields w) - 1).
Proof.
  intros Hsub Hdown.
  assert (Htype : or_else (sub_type sub) (js "task") = sub_type sub
                  /\ run E (sub_task sub) w = (Settled (Err engine_not_ready), w)).
  { pose proof (engine_unavailable_run w Hdown) as Heng.
    destruct Hsub as [H | [H | H]].
    - unfold handleSpeak in H. cbv zeta in H.
      destruct (is_empty (trim (b_text body))); [discriminate |].
      injection H as <-. split; [reflexivity |].
      change (run E (let* mode := speakByText' (trim (b_text body))
                                    (not_false (b_interrupt body))
                                    (is_true (b_storyMode body)) in
                     Ret (VStr mode)) w
              = (Settled (Err engine_not_ready), w)).
      rewrite run_bind, run_speakByText, Heng. reflexivity.
    - unfold handleChat in H. cbv zeta in H.
      destruct (is_empty (trim (b_text body))); [discriminate |].
      injection H as <-. split; [reflexivity |].
      change (run E (let* _ := getEngineOrThrow in
                     let* _ := abort_if (not_false (b_interrupt body)) in
                     let* replyText := await (AskAI (trim (b_text body))) in
                     if is_empty replyText then Ret (VChat None [])
                     else
                       let* mode := speakByText' replyText false
                                      (is_true (b_storyMode body)) in
                       Ret (VChat (Some mode) replyText)) w
              = (Settled (Err engine_not_ready), w)).
      rewrite run_bind, Heng. reflexivity.
    - unfold handlePlay in H. cbv zeta in H.
      destruct (is_empty (trim (b_url body))); [discriminate |].
      injection H as <-. split; [reflexivity |].
      change (run E (let* mode :=
                       (let* _ := getEngineOrThrow in
                        let* _ := abort_if (not_false (b_interrupt body)) in
                        let* _ := await (PlayUrl (trim (b_url body))
                                           (Some (is_true (b_blocking body)))) in
                        Ret (js "url")) in
                     Ret (VStr mode)) w
              = (Settled (Err engine_not_ready), w)).
      rewrite !run_bind, Heng. reflexivity. }
  destruct Htype as [Htype Hrun]. split.
  - unfold enqueueTask.
    cbn [queueDepth fields lworld submitted taskQueue promises with_fields
         set_queueDepth].
    rewrite Htype. repeat split.
    + by destruct sub.
    + by rewrite lookup_app_r, Nat.sub_diag.
  - eexists. split; [by apply run_wrappedTask_throws |].
    repeat split.
Qed.

(** *** Speaking never asks the AI *)

Lemma story_loop_no_ask chunks : forall i w,
  Forall (fun e => is_ask e = false) (emitted E (story_loop' i chunks) w).
Proof.
  induction chunks as [| c rest IH]; intros i w.
  { by rewrite (emitted_eq E _ w []) by (simpl; by rewrite app_nil_r). }
  rewrite emitted_story_cons.
  destruct (synth_facts c w) as (out & w1 & Hrun & Hsynth & _ & _).
  rewrite Hrun. apply Forall_app. split.
  { eapply Forall_impl; [exact Hsynth |]. intros [[] ?]; done. }
  destruct out as [u | m]; [| done].
  apply Forall_app. split.
  - destruct i as [| i].
    + rewrite emitted_play_chunk_first. by repeat constructor.
    + rewrite emitted_play_chunk_later. apply Forall_app. split.
      * destruct (wait_trace w1) as (Hall & _ & _).
        eapply Forall_impl; [exact Hall |]. intros [[] ?]; done.
      * destruct (run E wait' w1) as [[[[] | m] |] w2]; by repeat constructor.
  - destruct (run E (play_chunk' i u) w1) as [[[[] | m] |] w2]; [apply IH | done | done].
Qed.

Lemma speakByText_no_ask text interrupt storyMode w :
  Forall (fun e => is_ask e = false)
    (emitted E (speakByText' text interrupt storyMode) w).
Proof.
  rewrite emitted_speakByText.
  destruct (engine_run_cases w) as [[e0 ->] | ->]; [| done].
  apply Forall_app. split.
  { pose proof (abort_if_trace interrupt w) as H.
    eapply Forall_impl; [exact H |]. intros [[] ?]; done. }
  destruct (run E (abort_if interrupt) w) as [[[[] | m] |] w1]; [| done | done].
  assert (Hdefault : forall w', Forall (fun e => is_ask e = false)
                                  (emitted E (default_voice text) w')).
  { intros w'. rewrite emitted_default_voice. by repeat constructor. }
  destruct (can_synthesize toLowerCase ttsService) as [[|] | m]; [| done | done].
  apply Forall_app. split.
  - unfold speak_external. destruct storyMode.
    + rewrite emitted_bind, emitted_speakStoryMode. apply Forall_app. split.
      * destruct (engine_run_cases w1) as [[e1 ->] | ->]; [| done].
        apply story_loop_no_ask.
      * destruct (run E (speakStoryMode' text) w1) as [[[? | m] |] w2]; try done.
        by rewrite emitted_record_speak.
    + rewrite emitted_bind.
      destruct (synth_facts text w1) as (out & w2 & Hrun & Hsynth & _ & _).
      rewrite Hrun. apply Forall_app. split.
      { eapply Forall_impl; [exact Hsynth |]. intros [[] ?]; done. }
      destruct out as [u | m]; [| done].
      rewrite emitted_bind. destruct (play_facts u None w2) as [-> ->].
      apply Forall_app. split; [by repeat constructor |].
      destruct (respond E (history w2) (PlayUrl u None)) as [[] | m]; [| done].
      by rewrite emitted_record_speak.
  - destruct (run E (speak_external' text storyMode) w1) as [[[? | m] |] w2]; done.
Qed.

End SpeakFacts.

(** ** The voice interpreter *)

Lemma starts_with_app pre s :
  starts_with pre s = true -> s = pre ++ drop (length pre) s.
Proof.
  revert s. induction pre as [| a pre IH]; intros [| b s]; simpl; try done.
  intros H. apply andb_prop in H as [Hab Hrest].
  apply N.eqb_eq in Hab as ->. f_equal. by apply IH.
Qed.

(** [indexOf] finds the first occurrence. *)
Lemma indexOf_first sub s : forall i,
  indexOf sub s = Some i ->
  s = take i s ++ sub ++ drop (i + length sub) s
  /\ forall j, (j < i)%nat -> starts_with sub (drop j s) = false.
Proof.
  induction s as [| c s IH]; intros i; simpl.
  - destruct (starts_with sub []) eqn:Hs; [| done].
    intros [= <-]. split; [| lia]. simpl.
    by apply starts_with_app in Hs.
  - destruct (starts_with sub (c :: s)) eqn:Hs.
    + intros [= <-]. split; [| lia]. simpl take. simpl app at 1.
      by apply starts_with_app in Hs.
    + destruct (indexOf sub s) as [i' |] eqn:Hi; [| done].
      simpl. intros [= <-]. destruct (IH i' eq_refl) as [Heq Hmin].
      split.
      * simpl. by rewrite <- Heq.
      * intros [| j] Hj; [exact Hs |]. simpl. apply Hmin. lia.
Qed.

Section VoiceFacts.

Variable toLowerCase : jsstring -> jsstring.
Variable ttsService : option TTSService.
Variable storyConfig : story_config.
Variable wakeupConfig : wakeup_config.
Variable fuel : nat.

Local Abbreviation handle' :=
  (handle toLowerCase ttsService storyConfig wakeupConfig fuel).
Local Abbreviation chat_task' := (chat_task toLowerCase ttsService storyConfig fuel).
Local Abbreviation speak_task' := (speak_task toLowerCase ttsService storyConfig fuel).

Lemma handle_keyword_query caps text k :
  isStopCommand wakeupConfig (normalizeText text) = false ->
  isEnterAIModeCommand wakeupConfig (normalizeText text) = false ->
  isExitAIModeCommand wakeupConfig (normalizeText text) = false ->
  findMatchedKeyword wakeupConfig text = Some k ->
  k ≠ [] ->
  exists i,
    indexOf k text = Some i
    /\ text = take i text ++ k ++ drop (i + length k) text
    /\ (forall j, (j < i)%nat -> starts_with k (drop j text) = false)
    /\ handle' (Some caps) false text =
       (false,
        let intent := drop_while is_intent_lead (trim (drop (i + length k) text)) in
        if is_empty intent then HandledOnly
        else Background {| sub_type := js "voice:chat";
                           sub_task := chat_task' intent |}).
Proof.
  intros Hstop Henter Hexit Hfind Hk.
  assert (Hinc : includes k text = true).
  { unfold findMatchedKeyword in Hfind. by apply find_some in Hfind as [_ H]. }
  unfold includes in Hinc.
  destruct (indexOf k text) as [i |] eqn:Hi; [| done].
  exists i. destruct (indexOf_first k text i Hi) as [Heq Hmin].
  split; [done |]. split; [done |]. split; [done |].
  unfold handle. rewrite Hstop, Henter, Hexit, Hfind.
  destruct k as [| k0 ks]; [done |].
  simpl is_empty. simpl negb. simpl orb. cbv iota beta.
  unfold extractUserIntent, after_keyword. rewrite Hi.
  cbv zeta. by destruct (is_empty _).
Qed.

(** [Array.prototype.find]: the first element that satisfies the test. *)
Lemma find_first {A : Type} (f : A -> bool) (l : list A) (x : A) :
  find f l = Some x
  <-> exists pre post,
        l = pre ++ x :: post /\ f x = true /\ Forall (fun y => f y = false) pre.
Proof.
  induction l as [| y l IH]; simpl.
  - split; [done |]. intros (pre & post & H & _). by destruct pre.
  - destruct (f y) eqn:Hy.
    + split.
      * intros [= ->]. by exists [], l.
      * intros (pre & post & Hl & Hx & Hpre).
        destruct pre as [| z pre]; simpl in Hl.
        -- by injection Hl as ->.
        -- injection Hl as -> _. apply Forall_cons in Hpre as [Hz _]. congruence.
    + rewrite IH. split.
      * intros (pre & post & -> & Hx & Hpre). exists (y :: pre), post.
        split; [done |]. split; [done |]. by constructor.
      * intros (pre & post & Hl & Hx & Hpre).
        destruct pre as [| z pre]; simpl in Hl.
        -- injection Hl as -> _. congruence.
        -- injection Hl as -> ->. apply Forall_cons in Hpre as [_ Hpre]. eauto.
Qed.

Lemma includes_empty (text : jsstring) : includes [] text = true.
Proof. unfold includes. by destruct text. Qed.

(** The empty keyword is found in every text and counts as no match. *)
Lemma handle_empty_keyword caps text :
  isStopCommand wakeupConfig (normalizeText text) = false ->
  isEnterAIModeCommand wakeupConfig (normalizeText text) = false ->
  isExitAIModeCommand wakeupConfig (normalizeText text) = false ->
  findMatchedKeyword wakeupConfig text = Some [] ->
  handle' (Some caps) false text = (false, Ignored).
Proof.
  intros Hstop Henter Hexit Hfind. unfold handle.
  by rewrite Hstop, Henter, Hexit, Hfind.
Qed.

Lemma handle_exit_phrase caps aiMode text :
  isStopCommand wakeupConfig (normalizeText text) = false ->
  isEnterAIModeCommand wakeupConfig (normalizeText text) = false ->
  isExitAIModeCommand wakeupConfig (normalizeText text) = true ->
  handle' (Some caps) aiMode text =
  (false, Awaited {| sub_type := js "voice:exit-ai-mode";
                     sub_task := speak_task' (exitMessage wakeupConfig) |}).
Proof.
  intros Hstop Henter Hexit. unfold handle.
  by rewrite Hstop, Henter, Hexit.
Qed.

Lemma speak_task_no_ask E message w :
  Forall (fun e => is_ask e = false) (emitted E (speak_task' message) w).
Proof.
  unfold speak_task. rewrite emitted_bind.
  apply Forall_app. split; [apply speakByText_no_ask |].
  destruct (run E _ w) as [[[mode | m] |] w1]; try done.
  by rewrite (emitted_eq E _ w1 []) by (simpl; by rewrite app_nil_r).
Qed.

End VoiceFacts.

(** C7 (as amended).  The wake keyword of an utterance is the first
    keyword of the configuration that occurs in the raw text; the empty
    keyword occurs in every text.  With the engine there and conversation
    mode off, an utterance that is not taken as a stop, enter or exit
    command and whose wake keyword is not empty is an AI query: its intent
    is what follows the first occurrence of the keyword, trimmed and with
    leading punctuation and white space removed; an empty intent is handled
    with nothing queued, any other is queued as one background
    [voice:chat] task.  When the wake keyword is the empty one, the
    utterance is left to the speaker like one without a keyword.  With
    keywords ["请"], "请告诉我天气" has intent "告诉我天气". *)
Theorem keyword_query_intent (toLowerCase : jsstring -> jsstring)
    (ttsService : option TTSService) (storyConfig : story_config)
    (wakeupConfig : wakeup_config) (fuel : nat) (caps : engine_caps) :
  (forall text k,
      findMatchedKeyword wakeupConfig text = Some k
      <-> exists pre post,
            keywords wakeupConfig = pre ++ k :: post
            /\ includes k text = true
            /\ Forall (fun k' => includes k' text = false) pre)
  /\ (forall text, includes [] text = true)
  /\ (forall text k,
      isStopCommand wakeupConfig (normalizeText text) = false ->
      isEnterAIModeCommand wakeupConfig (normalizeText text) = false ->
      isExitAIModeCommand wakeupConfig (normalizeText text) = false ->
      findMatchedKeyword wakeupConfig text = Some k ->
      k ≠ [] ->
      exists i,
        indexOf k text = Some i
        /\ text = take i text ++ k ++ drop (i + length k) text
        /\ (forall j, (j < i)%nat -> starts_with k (drop j text) = false)
        /\ handle toLowerCase ttsService storyConfig wakeupConfig fuel
             (Some caps) false text =
           (false,
            let intent :=
              drop_while is_intent_lead (trim (drop (i + length k) text)) in
            if is_empty intent then HandledOnly
            else Background
                   {| sub_type := js "voice:chat";
                      sub_task := chat_task toLowerCase ttsService storyConfig
                                    fuel intent |}))
  /\ (forall text,
      isStopCommand wakeupConfig (normalizeText text) = false ->
      isEnterAIModeCommand wakeupConfig (normalizeText text) = false ->
      isExitAIModeCommand wakeupConfig (normalizeText text) = false ->
      findMatchedKeyword wakeupConfig text = Some [] ->
      handle toLowerCase ttsService storyConfig wakeupConfig fuel
        (Some caps) false text = (false, Ignored))
  /\ (keywords wakeupConfig = [js "请"] ->
      isStopCommand wakeupConfig (normalizeText (js "请告诉我天气")) = false ->
      isEnterAIModeCommand wakeupConfig (normalizeText (js "请告诉我天气")) = false ->
      isExitAIModeCommand wakeupConfig (normalizeText (js "请告诉我天气")) = false ->
      handle toLowerCase ttsService storyConfig wakeupConfig fuel
        (Some caps) false (js "请告诉我天气") =
      (false,
       Background
         {| sub_type := js "voice:chat";
            sub_task := chat_task toLowerCase ttsService storyConfig fuel
                          (js "告诉我天气") |})).
Proof.
  split; [| split; [| split; [| split]]].
  - intros text k.
    exact (find_first (fun keyword => includes keyword text)
             (keywords wakeupConfig) k).
  - apply includes_empty.
  - intros text k. apply handle_keyword_query.
  - intros text. apply handle_empty_keyword.
  - intros Hkw Hstop Henter Hexit.
    assert (Hfind : findMatchedKeyword wakeupConfig (js "请告诉我天气")
                    = Some (js "请")).
    { unfold findMatchedKeyword. rewrite Hkw. vm_compute. reflexivity. }
    destruct (handle_keyword_query toLowerCase ttsService storyConfig
                wakeupConfig fuel caps _ _ Hstop Henter Hexit Hfind)
      as (i & Hi & _ & _ & ->).
    { vm_compute. discriminate. }
    assert (i = 0%nat) as ->.
    { vm_compute in Hi. by injection Hi. }
    f_equal.
Qed.

(** C10 (as amended).  With the engine there, an utterance that normalizes
    to an exit phrase and is not first taken as a stop command or as an
    enter phrase is handled the same way whether conversation mode is on
    or off: the flag is set to false and exactly one task, of type
    [voice:exit-ai-mode], is enqueued and awaited; the task speaks the
    configured exit message, interrupting, and never asks the AI. *)
Theorem exit_phrase_in_any_mode (toLowerCase : jsstring -> jsstring)
    (ttsService : option TTSService) (storyConfig : story_config)
    (wakeupConfig : wakeup_config) (fuel : nat) (caps : engine_caps)
    (aiMode : bool) (text : jsstring) :
  isStopCommand wakeupConfig (normalizeText text) = false ->
  isEnterAIModeCommand wakeupConfig (normalizeText text) = false ->
  isExitAIModeCommand wakeupConfig (normalizeText text) = true ->
  exists task,
    handle toLowerCase ttsService storyConfig wakeupConfig fuel
      (Some caps) aiMode text
    = (false, Awaited {| sub_type := js "voice:exit-ai-mode"; sub_task := task |})
    /\ task = (let* mode := speakByText toLowerCase ttsService storyConfig fuel
                              (exitMessage wakeupConfig) true false in
               Ret (VStr mode))
    /\ forall E w, Forall (fun e => is_ask e = false) (emitted E task w).
Proof.
  intros Hstop Henter Hexit. eexists. split; [| split].
  - by apply handle_exit_phrase.
  - reflexivity.
  - intros E w. apply speak_task_no_ask.
Qed.

(** ** The task queue *)

Lemma settles_bind {A B : Type} (E : env) (p : prog A) (f : A -> prog B) :
  forall h t,
  settles E p h t -> (forall a, always_settles E (f a)) -> settles E (bind p f) h t.
Proof. induction p; simpl; intros h t Hp Hf; auto. by apply Hf. Qed.

Lemma settles_try_catch {A : Type} (E : env) (p : prog A) (hd : jsstring -> prog A) :
  forall h t,
  settles E p h t -> (forall e, always_settles E (hd e)) ->
  settles E (try_catch p hd) h t.
Proof. induction p; simpl; intros h t Hp Hh; auto. by apply Hh. Qed.

Lemma settles_try_finally {A : Type} (E : env) (p : prog A) (fin : prog unit) :
  forall h t,
  settles E p h t -> always_settles E fin -> settles E (try_finally p fin) h t.
Proof.
  induction p; simpl; intros h t Hp Hf; auto.
  - apply settles_bind; [apply Hf | done].
  - apply settles_bind; [apply Hf | done].
Qed.

Lemma always_settles_bind {A B : Type} (E : env) (p : prog A) (f : A -> prog B) :
  always_settles E p -> (forall a, always_settles E (f a)) ->
  always_settles E (bind p f).
Proof. intros Hp Hf h t. by apply settles_bind. Qed.

Lemma always_settles_try_catch {A : Type} (E : env) (p : prog A)
    (hd : jsstring -> prog A) :
  always_settles E p -> (forall e, always_settles E (hd e)) ->
  always_settles E (try_catch p hd).
Proof. intros Hp Hh h t. by apply settles_try_catch. Qed.

Lemma always_settles_await (E : env) c : always_settles E (await c).
Proof. intros h t. simpl. by destruct (respond E h c). Qed.

Lemma always_settles_wrappedTask (E : env) taskType (task : prog value) :
  always_settles E task -> always_settles E (wrappedTask taskType task).
Proof.
  intros Ht h t. unfold wrappedTask.
  apply settles_try_finally; [apply settles_try_catch |].
  - apply settles_bind; [apply Ht |]. by intros a h' t'.
  - by intros e h' t'.
  - by intros h' t'.
Qed.

Lemma settles_step {A : Type} (E : env) (p p' : prog A) w w' :
  settles E p (history w) (clock w) -> step_prog E p w = Some (p', w') ->
  settles E p' (history w') (clock w').
Proof. destruct p; simpl; intros Ht [= <- <-]; auto. Qed.

Lemma settles_progress (E : env) (p : prog value) w :
  settles E p (history w) (clock w) ->
  (exists p' w', step_prog E p w = Some (p', w')) \/ (exists r, settled p = Some r).
Proof. destruct p; simpl; intros Ht; try done; eauto. Qed.

Lemma scan_snoc l e :
  scan (l ++ [e]) = scan l ≫= fun st => scan_event st e.
Proof. unfold scan. by rewrite foldl_app. Qed.

Lemma seq_snoc (n k : nat) : seq n (S k) = seq n k ++ [(n + k)%nat].
Proof. by rewrite seq_S. Qed.

(** *** The tasks of the server settle *)

Section SettleFacts.

Variable toLowerCase : jsstring -> jsstring.
Variable ttsService : option TTSService.
Variable storyConfig : story_config.
Variable fuel : nat.
Variable E : env.

(** The polling loop has fuel for more iterations than the timeout has
    milliseconds: a timer never fires in less than one. *)
Hypothesis fuel_pos : (1 <= fuel)%nat.
Hypothesis fuel_enough : (waitTimeoutMs storyConfig < Z.of_nat fuel)%Z.

Lemma elapsed_nonneg h c : (0 <= elapsed E h c)%Z.
Proof.
  unfold elapsed. destruct c; try lia.
  pose proof (timer_delay_pos ms). lia.
Qed.

Lemma elapsed_sleep h ms : (1 <= elapsed E h (Sleep ms))%Z.
Proof. unfold elapsed. pose proof (timer_delay_pos ms). lia. Qed.

Lemma settles_wait_loop n : forall start h t,
  (1 <= n)%nat ->
  (waitTimeoutMs storyConfig - (t - start) < Z.of_nat n)%Z ->
  settles E (wait_loop storyConfig n start) h t.
Proof.
  induction n as [| n IH]; intros start h t Hn Hlt; [lia |].
  simpl. destruct (t - start <? waitTimeoutMs storyConfig)%Z eqn:Hc; [| done].
  apply Z.ltb_lt in Hc. simpl.
  destruct (respond E h GetPlayingStatus) as [[|] | m]; simpl; try done.
  set (h1 := h ++ [Ev GetPlayingStatus (Ok true)]).
  destruct (respond E h1 (Sleep (pollIntervalMs storyConfig))) as [[] | m];
    simpl; [| done].
  pose proof (elapsed_nonneg h GetPlayingStatus).
  pose proof (elapsed_sleep h1 (pollIntervalMs storyConfig)).
  apply IH; lia.
Qed.

Lemma always_settles_engine : always_settles E getEngineOrThrow.
Proof.
  intros h t. simpl. destruct (engine_at E h) as [e |]; [| done].
  by destruct (MiNA e && MiOT e).
Qed.

Lemma always_settles_wait : always_settles E (waitForAudioComplete storyConfig fuel).
Proof.
  apply always_settles_bind; [apply always_settles_engine |].
  intros _ h t. simpl. apply settles_wait_loop; [done | lia].
Qed.

Lemma always_settles_synthesize c :
  always_settles E (synthesize toLowerCase ttsService c).
Proof.
  unfold synthesize. destruct ttsService as [tts |]; [| done].
  destruct (getProviderImpl toLowerCase tts) as [impl | m]; [| done].
  destruct (has_synthesize impl); [| done].
  exact (always_settles_await E (Synthesize _ c)).
Qed.

Lemma always_settles_play_chunk i u :
  always_settles E (play_chunk storyConfig fuel i u).
Proof.
  unfold play_chunk.
  destruct (i =? 0)%nat; [exact (always_settles_await E (PlayUrl u None)) |].
  apply always_settles_bind; [apply always_settles_wait |].
  intros _. exact (always_settles_await E (PlayUrl u None)).
Qed.

Lemma always_settles_story_loop chunks : forall i,
  always_settles E (story_loop toLowerCase ttsService storyConfig fuel i chunks).
Proof.
  induction chunks as [| c rest IH]; intros i; [done |].
  simpl. apply always_settles_bind; [apply always_settles_synthesize |].
  intros u. apply always_settles_bind; [apply always_settles_play_chunk |].
  intros _. apply IH.
Qed.

Lemma always_settles_record_speak mode : always_settles E (record_speak mode).
Proof. by intros h t. Qed.

Lemma always_settles_default_voice text : always_settles E (default_voice text).
Proof.
  apply always_settles_bind; [exact (always_settles_await E (PlayText text)) |].
  by intros _ h t.
Qed.

Lemma always_settles_abort_if interrupt : always_settles E (abort_if interrupt).
Proof.
  destruct interrupt; [exact (always_settles_await E AbortXiaoAI) | done].
Qed.

Lemma always_settles_speakByText text interrupt storyMode :
  always_settles E
    (speakByText toLowerCase ttsService storyConfig fuel text interrupt storyMode).
Proof.
  unfold speakByText.
  apply always_settles_bind; [apply always_settles_engine |]. intros _.
  apply always_settles_bind; [apply always_settles_abort_if |]. intros _.
  destruct (can_synthesize toLowerCase ttsService) as [can | m]; [| done].
  apply always_settles_bind.
  - destruct can; [| done].
    apply always_settles_try_catch; [| done].
    apply always_settles_bind; [| done].
    unfold speak_external. destruct storyMode.
    + apply always_settles_bind; [| intros _; apply always_settles_record_speak].
      unfold speakStoryMode.
      apply always_settles_bind; [apply always_settles_engine |]. intros _.
      apply always_settles_bind; [apply always_settles_story_loop | done].
    + apply always_settles_bind; [apply always_settles_synthesize |]. intros u.
      apply always_settles_bind;
        [exact (always_settles_await E (PlayUrl u None)) |]. intros _.
      apply always_settles_record_speak.
  - intros [mode |]; [done | apply always_settles_default_voice].
Qed.

Lemma always_settles_askAndSpeak text interrupt storyMode :
  always_settles E
    (askAndSpeak toLowerCase ttsService storyConfig fuel text interrupt storyMode).
Proof.
  unfold askAndSpeak.
  apply always_settles_bind; [apply always_settles_engine |]. intros _.
  apply always_settles_bind; [apply always_settles_abort_if |]. intros _.
  apply always_settles_bind; [exact (always_settles_await E (AskAI text)) |].
  intros reply.
  destruct (is_empty reply); [done |].
  apply always_settles_bind; [apply always_settles_speakByText | done].
Qed.

Lemma always_settles_playByUrl url interrupt blocking :
  always_settles E (playByUrl url interrupt blocking).
Proof.
  unfold playByUrl.
  apply always_settles_bind; [apply always_settles_engine |]. intros _.
  apply always_settles_bind; [apply always_settles_abort_if |]. intros _.
  apply always_settles_bind;
    [exact (always_settles_await E (PlayUrl url (Some blocking))) | done].
Qed.

Lemma handleSpeak_inv body sub :
  handleSpeak toLowerCase ttsService storyConfig fuel body = Ok sub ->
  sub = {| sub_type := js "api:speak";
           sub_task :=
             let* mode := speakByText toLowerCase ttsService storyConfig fuel
                            (trim (b_text body)) (not_false (b_interrupt body))
                            (is_true (b_storyMode body)) in
             Ret (VStr mode) |}.
Proof.
  unfold handleSpeak. cbv zeta.
  destruct (is_empty (trim (b_text body))); [discriminate |].
  intros [= <-]. reflexivity.
Qed.

Lemma handleChat_inv body sub :
  handleChat toLowerCase ttsService storyConfig fuel body = Ok sub ->
  sub = {| sub_type := js "api:chat";
           sub_task :=
             askAndSpeak toLowerCase ttsService storyConfig fuel
               (trim (b_text body)) (not_false (b_interrupt body))
               (is_true (b_storyMode body)) |}.
Proof.
  unfold handleChat. cbv zeta.
  destruct (is_empty (trim (b_text body))); [discriminate |].
  intros [= <-]. reflexivity.
Qed.

Lemma handlePlay_inv body sub :
  handlePlay body = Ok sub ->
  sub = {| sub_type := js "api:play";
           sub_task :=
             let* mode := playByUrl (trim (b_url body))
                            (not_false (b_interrupt body))
                            (is_true (b_blocking body)) in
             Ret (VStr mode) |}.
Proof.
  unfold handlePlay. cbv zeta.
  destruct (is_empty (trim (b_url body))); [discriminate |].
  intros [= <-]. reflexivity.
Qed.

(** Every task the HTTP handlers and the voice interpreter submit
    settles. *)
Lemma handler_tasks_settle body sub :
  handleSpeak toLowerCase ttsService storyConfig fuel body = Ok sub
  \/ handleChat toLowerCase ttsService storyConfig fuel body = Ok sub
  \/ handlePlay body = Ok sub ->
  always_settles E (sub_task sub).
Proof.
  intros [H | [H | H]].
  - apply handleSpeak_inv in H as ->. cbn [sub_task].
    apply always_settles_bind; [apply always_settles_speakByText | done].
  - apply handleChat_inv in H as ->. apply always_settles_askAndSpeak.
  - apply handlePlay_inv in H as ->. cbn [sub_task].
    apply always_settles_bind; [apply always_settles_playByUrl | done].
Qed.

Lemma voice_tasks_settle wakeupConfig engine aiMode text sub :
  snd (handle toLowerCase ttsService storyConfig wakeupConfig fuel engine aiMode text)
  = Awaited sub
  \/ snd (handle toLowerCase ttsService storyConfig wakeupConfig fuel engine aiMode text)
     = Background sub ->
  always_settles E (sub_task sub).
Proof.
  assert (Hspeak : forall m, always_settles E
            (speak_task toLowerCase ttsService storyConfig fuel m)).
  { intros m. apply always_settles_bind; [apply always_settles_speakByText | done]. }
  assert (Hstop : forall caps, always_settles E (stop_task caps)).
  { intros caps. apply always_settles_bind.
    - apply always_settles_try_catch;
        [exact (always_settles_await E AbortXiaoAI) | done].
    - intros _. apply always_settles_bind; [| done].
      apply always_settles_try_catch; [| done].
      destruct (MiNA caps); [exact (always_settles_await E MiNAStop) | done]. }
  assert (Hchat : forall u, always_settles E
            (chat_task toLowerCase ttsService storyConfig fuel u)).
  { intros u. apply always_settles_try_catch; [| done].
    apply always_settles_bind; [exact (always_settles_await E AbortXiaoAI) |].
    intros _.
    apply always_settles_bind; [exact (always_settles_await E (AskAI _)) |].
    intros reply.
    destruct (is_empty reply); [done |].
    apply always_settles_bind; [apply always_settles_speakByText | done]. }
  unfold handle. destruct engine as [caps |]; [| by intros [H | H]].
  destruct (isStopCommand _ _); [intros [[= <-] | [=]]; apply Hstop |].
  destruct (isEnterAIModeCommand _ _); [intros [[= <-] | [=]]; apply Hspeak |].
  destruct (isExitAIModeCommand _ _); [intros [[= <-] | [=]]; apply Hspeak |].
  cbv zeta.
  destruct (negb _); [by intros [H | H] |].
  destruct (is_empty _); [by intros [H | H] |].
  intros [[=] | [= <-]]. apply Hchat.
Qed.

End SettleFacts.

Lemma next_step_sound (E : env) s s' : next_step E s = Some s' -> lstep E s s'.
Proof.
  unfold next_step.
  destruct (running s) as [| a rest] eqn:Hrun.
  - destruct (reactions s) as [| r rs] eqn:Hr; [done |].
    destruct (promises s !! r_source r) as [[| res] |] eqn:Hp; try done.
    destruct (handler_for r res) as [task |] eqn:Hh.
    + destruct (submitted s !! task) as [sub |] eqn:Hs; [| done].
      intros [= <-].
      pose proof (step_fire E s [] r rs res task sub Hr Hp Hh Hs) as Hstep.
      by rewrite Hrun in Hstep.
    + intros [= <-].
      pose proof (step_pass E s [] r rs res Hr Hp Hh) as Hstep.
      by rewrite Hrun in Hstep.
  - destruct (settled (a_code a)) as [res |] eqn:Hs.
    + intros [= <-]. by apply (step_settle E s [] a rest res).
    + destruct (step_prog E (a_code a) (lworld s)) as [[p' w'] |] eqn:Hst; [| done].
      intros [= <-]. by apply (step_run E s [] a rest p' w').
Qed.

Lemma drain_reachable (E : env) n : forall s,
  reachable E s -> reachable E (drain E n s).
Proof.
  induction n as [| n IH]; intros s Hs; simpl; [done |].
  destruct (next_step E s) as [s' |] eqn:Hn; [| done].
  apply IH. eapply reach_step; [exact Hs |]. by apply next_step_sound.
Qed.

Section QueueFacts.

Variable E : env.

Lemma idle_new w : idle_at E (new_loop w) 0.
Proof.
  unfold idle_at, chain_inv. simpl.
  repeat split; try done; try lia; intros i Hi; try lia.
  assert (i = 0%nat) as -> by lia. eauto.
Qed.

Lemma chain_enqueue s sub a b :
  chain_inv E s a b -> always_settles E (sub_task sub) ->
  chain_inv E (enqueueTask sub s) a b.
Proof.
  intros (Hlen & Htail & Hle & Hreact & Htot & Hres & Hpend & Hfin) Hsub.
  unfold chain_inv, enqueueTask.
  cbn [promises taskQueue reactions submitted qlog].
  rewrite !length_app. simpl length.
  split; [lia |]. split; [lia |]. split; [lia |]. split; [| split; [| split; [| split]]].
  - replace (length (submitted s) + 1 - a)%nat
      with (S (length (submitted s) - a)) by lia.
    rewrite seq_snoc, fmap_app, <- Hreact. f_equal. simpl.
    unfold chain_reaction. rewrite Htail, Hlen. do 2 f_equal; f_equal; lia.
  - apply Forall_app. split; [done |]. by constructor.
  - intros i Hi. destruct (Hres i Hi) as [r Hr]. exists r.
    rewrite lookup_app_l; [done |]. by eapply lookup_lt_Some.
  - intros i H1 H2.
    destruct (decide (i <= length (submitted s))%nat) as [Hold | Hnew].
    + rewrite lookup_app_l by lia. by apply Hpend.
    + rewrite lookup_app_r by lia.
      by replace (i - length (promises s))%nat with 0%nat by lia.
  - done.
Qed.

Lemma idle_enqueue s sub n :
  idle_at E s n -> always_settles E (sub_task sub) ->
  idle_at E (enqueueTask sub s) n.
Proof.
  intros (Hc & Hrun & Hscan) Hsub. split; [by apply chain_enqueue | done].
Qed.

Lemma busy_enqueue s sub n p :
  busy_at E s n p -> always_settles E (sub_task sub) ->
  busy_at E (enqueueTask sub s) n p.
Proof.
  intros (Hc & Hrun & Htot & Hscan) Hsub. split; [by apply chain_enqueue | done].
Qed.

(** The pending reactions are those of the tasks not yet started, and
    only the first of them can have a settled source, when no task is
    executing. *)
Lemma reaction_in_chain s a b rs1 r rs2 res :
  chain_inv E s a b -> (b <= a)%nat ->
  reactions s = rs1 ++ r :: rs2 ->
  promises s !! r_source r = Some (Resolved res) ->
  a = b /\ rs1 = [] /\ r = chain_reaction a
  /\ (a < length (submitted s))%nat
  /\ rs2 = chain_reaction <$> seq (S a) (length (submitted s) - S a).
Proof.
  intros (Hlen & Htail & Hle & Hreact & Htot & Hres & Hpend & Hfin) Hba Hsplit Hsrc.
  rewrite Hreact in Hsplit.
  assert (Hr : (chain_reaction <$> seq a (length (submitted s) - a))
               !! length rs1 = Some r).
  { rewrite Hsplit. by rewrite list_lookup_middle. }
  rewrite list_lookup_fmap in Hr.
  destruct (seq a (length (submitted s) - a) !! length rs1) as [k |] eqn:Hk;
    [| done].
  simpl in Hr. injection Hr as <-.
  apply lookup_seq in Hk as [-> Hlt].
  simpl in Hsrc.
  destruct (decide (b < a + length rs1)%nat) as [Hgt | Hngt].
  { rewrite Hpend in Hsrc by lia. done. }
  assert (a = b) as <- by lia.
  assert (length rs1 = 0%nat) as Hnil by lia.
  apply nil_length_inv in Hnil as ->.
  split; [done |]. split; [done |]. simpl in *.
  rewrite Nat.add_0_r. split; [done |]. split; [lia |].
  replace (length (submitted s) - a)%nat with (S (length (submitted s) - S a))
    in Hsplit by lia.
  simpl in Hsplit. by injection Hsplit.
Qed.

Lemma handler_chain k res : handler_for (chain_reaction k) res = Some k.
Proof. by destruct res. Qed.

Lemma singleton_split {A : Type} (l1 l2 : list A) (x y : A) :
  [y] = l1 ++ x :: l2 -> l1 = [] /\ l2 = [] /\ x = y.
Proof.
  destruct l1 as [| z l1]; simpl.
  - intros [= -> <-]. done.
  - intros [= -> H]. by destruct l1.
Qed.

(** With no task executing, the only step is to start the next task. *)
Lemma idle_step s n s' :
  idle_at E s n -> lstep E s s' ->
  exists sub,
    submitted s !! n = Some sub
    /\ busy_at E s' n (wrappedTask (sub_type sub) (sub_task sub))
    /\ submitted s' = submitted s.
Proof.
  intros (Hc & Hrun & Hscan) Hstep.
  destruct Hstep as [s rs1 r rs2 res task sub Hr Hp Hh Hs
                    | s rs1 r rs2 res Hr Hp Hh
                    | s as1 a as2 p' w' Ha Hst
                    | s as1 a as2 res Ha Hst].
  - destruct (reaction_in_chain s n n rs1 r rs2 res Hc (le_n n) Hr Hp)
      as (_ & -> & -> & Hlt & ->).
    rewrite handler_chain in Hh. injection Hh as <-.
    exists sub. split; [done |]. split; [| done].
    destruct Hc as (Hlen & Htail & Hle & Hreact & Htot & Hres & Hpend & Hfin).
    split; [| split; [| split]].
    + unfold chain_inv. cbn [promises taskQueue reactions submitted qlog].
      repeat split; try done.
      intros k Hk. destruct (Hfin k Hk) as [r0 Hr0]. exists r0.
      apply elem_of_app. by left.
    + cbn [running]. by rewrite Hrun.
    + apply always_settles_wrappedTask.
      rewrite Forall_forall in Htot. apply Htot.
      by eapply list_elem_of_lookup_2.
    + cbn [qlog]. rewrite scan_snoc, Hscan. simpl. by rewrite Nat.eqb_refl.
  - destruct (reaction_in_chain s n n rs1 r rs2 res Hc (le_n n) Hr Hp)
      as (_ & -> & -> & Hlt & ->).
    by rewrite handler_chain in Hh.
  - rewrite Hrun in Ha. by destruct as1.
  - rewrite Hrun in Ha. by destruct as1.
Qed.

(** While a task executes, the only steps are its own, until it settles
    its promise. *)
Lemma busy_step s n p s' :
  busy_at E s n p -> lstep E s s' ->
  submitted s' = submitted s
  /\ ((exists p' w', step_prog E p (lworld s) = Some (p', w') /\ busy_at E s' n p')
      \/ (exists res, settled p = Some res /\ idle_at E s' (S n))).
Proof.
  intros (Hc & Hrun & Htot & Hscan) Hstep.
  destruct Hstep as [s rs1 r rs2 res task sub Hr Hp Hh Hs
                    | s rs1 r rs2 res Hr Hp Hh
                    | s as1 a as2 p' w' Ha Hst
                    | s as1 a as2 res Ha Hst].
  - destruct (reaction_in_chain s (S n) n rs1 r rs2 res Hc (Nat.le_succ_diag_r n) Hr Hp)
      as (Habs & _). lia.
  - destruct (reaction_in_chain s (S n) n rs1 r rs2 res Hc (Nat.le_succ_diag_r n) Hr Hp)
      as (Habs & _). lia.
  - rewrite Hrun in Ha. apply singleton_split in Ha as (-> & -> & ->).
    cbn [a_code a_task a_promise] in *.
    split; [done |]. left. exists p', w'. split; [done |].
    destruct Hc as (Hlen & Htail & Hle & Hreact & Htot' & Hres & Hpend & Hfin).
    split; [| split; [| split]].
    + unfold chain_inv. cbn [promises taskQueue reactions submitted qlog].
      repeat split; try done.
      intros k Hk. destruct (Hfin k Hk) as [r0 Hr0]. exists r0.
      apply elem_of_app. by left.
    + done.
    + by eapply settles_step.
    + cbn [qlog]. rewrite scan_snoc, Hscan. simpl. by rewrite Nat.eqb_refl.
  - rewrite Hrun in Ha. apply singleton_split in Ha as (-> & -> & ->).
    cbn [a_code a_task a_promise] in *.
    split; [done |]. right. exists res. split; [done |].
    destruct Hc as (Hlen & Htail & Hle & Hreact & Htot' & Hres & Hpend & Hfin).
    split; [| split].
    + unfold chain_inv. cbn [promises taskQueue reactions submitted qlog].
      rewrite length_insert.
      split; [done |]. split; [done |]. split; [done |]. split; [done |].
      split; [done |]. split; [| split].
      * intros i Hi. destruct (decide (i = S n)) as [-> | Hne].
        -- exists res. apply list_lookup_insert_eq. lia.
        -- rewrite list_lookup_insert_ne by done. apply Hres. lia.
      * intros i H1 H2. rewrite list_lookup_insert_ne by lia. apply Hpend; lia.
      * intros k Hk. destruct (decide (k = n)) as [-> | Hne].
        -- exists res. apply elem_of_app. right. by apply list_elem_of_singleton.
        -- destruct (Hfin k) as [r0 Hr0]; [lia |]. exists r0.
           apply elem_of_app. by left.
    + done.
    + cbn [qlog]. rewrite scan_snoc, Hscan. simpl. by rewrite Nat.eqb_refl.
Qed.

Lemma idle_progress s n :
  idle_at E s n -> (n < length (submitted s))%nat -> exists s', lstep E s s'.
Proof.
  intros ((Hlen & Htail & Hle & Hreact & Htot & Hres & Hpend & Hfin) & Hrun & Hscan) Hlt.
  destruct (Hres n (le_n n)) as [res Hp].
  destruct (lookup_lt_is_Some_2 (submitted s) n Hlt) as [sub Hsub].
  replace (length (submitted s) - n)%nat with (S (length (submitted s) - S n))
    in Hreact by lia.
  simpl in Hreact.
  eexists. eapply (step_fire E s [] (chain_reaction n) _ res n sub); try done.
  apply handler_chain.
Qed.

Lemma busy_progress s n p : busy_at E s n p -> exists s', lstep E s s'.
Proof.
  intros (Hc & Hrun & Htot & Hscan).
  destruct (settles_progress E p (lworld s) Htot) as [(p' & w' & Hst) | (res & Hst)].
  - eexists. by eapply (step_run E s [] _ [] p' w').
  - eexists. by eapply (step_settle E s [] _ [] res).
Qed.

(** A task that has been started runs to its end, whatever it does. *)
Lemma busy_eventually (Q : loop -> Prop) (p : prog value) : forall s n,
  busy_at E s n p ->
  (forall s', idle_at E s' (S n) -> submitted s' = submitted s -> eventually E Q s') ->
  eventually E Q s.
Proof.
  induction p as [a | m | | c k IH | k IH | k IH | k IH | f k IH];
    intros s n Hb Hk; (apply ev_later; [by eapply busy_progress |]);
    intros s' Hstep;
    destruct (busy_step s n _ s' Hb Hstep)
      as [Hsub [(p' & w' & Hsp & Hb') | (res & Hset & Hidle)]];
    try discriminate; try (by apply Hk).
  - simpl in Hsp. injection Hsp as <- <-.
    eapply IH; [exact Hb' |]. intros s'' Hi Hs. apply Hk; congruence.
  - simpl in Hsp. injection Hsp as <- <-.
    eapply IH; [exact Hb' |]. intros s'' Hi Hs. apply Hk; congruence.
  - simpl in Hsp. injection Hsp as <- <-.
    eapply IH; [exact Hb' |]. intros s'' Hi Hs. apply Hk; congruence.
  - simpl in Hsp. injection Hsp as <- <-.
    eapply IH; [exact Hb' |]. intros s'' Hi Hs. apply Hk; congruence.
  - simpl in Hsp. injection Hsp as <- <-.
    eapply IH; [exact Hb' |]. intros s'' Hi Hs. apply Hk; congruence.
Qed.

Lemma idle_eventually s0 : forall m s n,
  idle_at E s n -> submitted s = submitted s0 ->
  (length (submitted s0) - n)%nat = m ->
  eventually E (drained s0) s.
Proof.
  induction m as [| m IH]; intros s n Hi Hs Hm.
  - apply ev_now.
    destruct Hi as ((Hlen & Htail & Hle & Hreact & Htot & Hres & Hpend & Hfin)
                    & Hrun & Hscan).
    rewrite Hs in *. assert (n = length (submitted s0)) as -> by lia.
    unfold drained. repeat split; try done.
    + by rewrite Hreact, Nat.sub_diag.
    + rewrite Htail. by apply Hres.
  - apply ev_later.
    + eapply idle_progress; [exact Hi |]. rewrite Hs. lia.
    + intros s' Hstep.
      destruct (idle_step s n s' Hi Hstep) as (sub & Hsub & Hb & Hs').
      eapply busy_eventually; [exact Hb |].
      intros s'' Hi'' Hs''. eapply (IH s'' (S n)); [done | congruence | lia].
Qed.

Lemma reachable_inv s :
  reachable E s -> exists n, idle_at E s n \/ exists p, busy_at E s n p.
Proof.
  induction 1 as [w | s sub _ [n [Hi | [p Hb]]] Htot | s s' _ [n [Hi | [p Hb]]] Hstep].
  - exists 0%nat. left. apply idle_new.
  - exists n. left. by apply idle_enqueue.
  - exists n. right. exists p. by apply busy_enqueue.
  - destruct (idle_step s n s' Hi Hstep) as (sub & _ & Hb & _). eauto.
  - destruct (busy_step s n p s' Hb Hstep) as [_ [(p' & w' & _ & Hb') | (res & _ & Hi)]];
      eauto.
Qed.

(** The log of every reachable state reads as tasks started in submission
    order, each started only after the one before it has finished; at most
    one task is executing; and from every reachable state every run of the
    loop gets all the submitted tasks to their end and the tail of the
    chain settled, whether the tasks return or throw. *)
Lemma queue_order_and_liveness (s : loop) :
  reachable E s ->
  (exists n cur, scan (qlog s) = Some (n, cur))
  /\ (length (running s) <= 1)%nat
  /\ eventually E (drained s) s.
Proof.
  intros Hreach.
  destruct (reachable_inv s Hreach) as [n [Hi | [p Hb]]].
  - split; [| split].
    + destruct Hi as (_ & _ & Hscan). eauto.
    + destruct Hi as (_ & -> & _). simpl. lia.
    + by eapply idle_eventually.
  - split; [| split].
    + destruct Hb as (_ & _ & _ & Hscan). eauto.
    + destruct Hb as (_ & -> & _). simpl. lia.
    + eapply busy_eventually; [exact Hb |].
      intros s' Hi Hs. by eapply idle_eventually.
Qed.

End QueueFacts.

(** ** The theorems on concrete inputs *)

Lemma default_service_built : built ascii_toLowerCase xiaomi_service.
Proof. eapply (built_new _ []). vm_compute. reflexivity. Qed.

Lemma resolve_alias_witness :
  normalizeProvider ascii_toLowerCase xiaomi_service (js " DouBao ") = js "volcano"
  /\ normalizeProvider ascii_toLowerCase xiaomi_service (js " DouBao ")
     = normalizeProvider ascii_toLowerCase xiaomi_service (js "Volcano")
  /\ normalizeProvider ascii_toLowerCase xiaomi_service (js "Edge ") = js "edge".
Proof.
  destruct (resolve_alias_one_hop ascii_toLowerCase xiaomi_service
              default_service_built) as [Halias Hplain].
  destruct (Halias (js " DouBao ") (js "volcano")) as [H1 H2];
    [vm_compute; reflexivity |].
  split; [exact H1 |]. split.
  - apply H2; vm_compute; reflexivity.
  - apply (Hplain (js "Edge ")). vm_compute. reflexivity.
Defined.

(** C8, as stated, fails when the target of an alias is itself an alias:
    after registering "db" for "doubao", "db" resolves to "doubao" and
    "doubao" to "volcano". *)
Lemma alias_of_alias_counterexample :
  exists s,
    registerAlias ascii_toLowerCase (js "db") (js "doubao") xiaomi_service = Ok s
    /\ built ascii_toLowerCase s
    /\ aliases s !! js "db" = Some (js "doubao")
    /\ normalizeProvider ascii_toLowerCase s (js "db") = js "doubao"
    /\ normalizeProvider ascii_toLowerCase s (js "doubao") = js "volcano"
    /\ normalizeProvider ascii_toLowerCase s (js "db")
       ≠ normalizeProvider ascii_toLowerCase s (js "doubao").
Proof.
  destruct (registerAlias ascii_toLowerCase (js "db") (js "doubao") xiaomi_service)
    as [s |] eqn:Hreg; [| vm_compute in Hreg; discriminate].
  exists s. split; [reflexivity |].
  split; [eapply built_alias; [apply default_service_built | exact Hreg] |].
  vm_compute in Hreg. injection Hreg as <-.
  repeat split; try (vm_compute; reflexivity).
  vm_compute. discriminate.
Qed.

Lemma speak_without_synthesis_witness :
  exists sub,
    handleSpeak ascii_toLowerCase (Some xiaomi_service) story_example 4
      (speak_request (js " 你好 ") (Some false) None) = Ok sub
    /\ emitted env_ok (sub_task sub) world0 = [Ev (PlayText (js "你好")) (Ok tt)]
    /\ fst (run env_ok (sub_task sub) world0) = Settled (Ok (VStr xiaomi)).
Proof.
  destruct (speak_without_synthesis_never_aborts ascii_toLowerCase
              (Some xiaomi_service) story_example 4 env_ok world0
              (speak_request (js " 你好 ") (Some false) None))
    as (sub & Hsub & _ & _ & _ & Hready).
  - vm_compute. reflexivity.
  - reflexivity.
  - vm_compute. discriminate.
  - exists sub. split; [exact Hsub |].
    destruct Hready as [Hem Hres]; [exists ready_caps; done |].
    split; [exact Hem |]. by apply Hres.
Defined.

Lemma single_shot_fallback_witness :
  let request := speakByText ascii_toLowerCase (Some volcano_service) story_example 4
                   (js "你好") true false in
  (exists pre r,
     emitted env_no_synthesis request world0
     = pre ++ [Ev (Synthesize (js "volcano") (js "你好"))
                 (Err (js "TTS HTTP 请求失败: 500"));
               Ev (PlayText (js "你好")) r]
     /\ match r with
        | Ok _ =>
          fst (run env_no_synthesis request world0) = Settled (Ok xiaomi)
          /\ lastSpeakMode (fields (snd (run env_no_synthesis request world0)))
             = Some xiaomi
        | Err m => fst (run env_no_synthesis request world0) = Settled (Err m)
        end)
  /\ fst (run env_no_synthesis request world0) = Settled (Ok xiaomi).
Proof.
  split; [| vm_compute; reflexivity].
  apply (single_shot_failure_falls_back ascii_toLowerCase
           (Some volcano_service) story_example 4 env_no_synthesis world0
           (js "你好") true
           (Ev (Synthesize (js "volcano") (js "你好"))
              (Err (js "TTS HTTP 请求失败: 500")))).
  - vm_compute. reflexivity.
  - reflexivity.
  - reflexivity.
  - apply list_elem_of_In. vm_compute. right. left. reflexivity.
Defined.

(** C3, as stated, fails when the speaker's own voice fails too: the
    fallback play is outside of the [try], and the caller gets its error. *)
Lemma single_shot_double_failure_counterexample :
  exists sub,
    handleSpeak ascii_toLowerCase (Some volcano_service) story_example 4
      (speak_request (js "你好") (Some false) None) = Ok sub
    /\ emitted env_mute (sub_task sub) world0
       = [Ev (Synthesize (js "volcano") (js "你好"))
            (Err (js "TTS HTTP 请求失败: 500"));
          Ev (PlayText (js "你好")) (Err (js "speaker offline"))]
    /\ fst (run env_mute (sub_task sub) world0)
       = Settled (Err (js "speaker offline")).
Proof.
  eexists. split; [reflexivity |]. split; vm_compute; reflexivity.
Qed.

Lemma story_fallback_witness :
  exists pre r,
    emitted env_no_synthesis
      (speakByText ascii_toLowerCase (Some volcano_service) story_example 4
         (js "第一句。第二句。第三句。") true true) world0
    = pre ++ [Ev (Synthesize (js "volcano") (js "第一句。"))
                (Err (js "TTS HTTP 请求失败: 500"));
              Ev (PlayText (js "第一句。第二句。第三句。")) r]
    /\ fst (run env_no_synthesis
              (speakByText ascii_toLowerCase (Some volcano_service) story_example 4
                 (js "第一句。第二句。第三句。") true true) world0)
       = match r with
         | Ok _ => Settled (Ok xiaomi)
         | Err m => Settled (Err m)
         end.
Proof.
  destruct (story_synthesis_failure_falls_back ascii_toLowerCase
              (Some volcano_service) story_example 4 env_no_synthesis world0
              (js "第一句。第二句。第三句。") true
              (Ev (Synthesize (js "volcano") (js "第一句。"))
                 (Err (js "TTS HTTP 请求失败: 500")))) as [Hspeak _].
  - vm_compute. reflexivity.
  - reflexivity.
  - reflexivity.
  - apply Hspeak. apply list_elem_of_In. vm_compute. right. left. reflexivity.
Defined.

(** C2, as stated, fails: with the synthesis backend down, a story-mode
    speak request still resolves successfully, with mode ["xiaomi"], after a
    failed synthesis. *)
Lemma story_failure_counterexample :
  exists sub,
    handleSpeak ascii_toLowerCase (Some volcano_service) story_example 4
      (speak_request (js "第一句。第二句。第三句。") None (Some true)) = Ok sub
    /\ emitted env_no_synthesis (sub_task sub) world0
       = [Ev AbortXiaoAI (Ok tt);
          Ev (Synthesize (js "volcano") (js "第一句。"))
            (Err (js "TTS HTTP 请求失败: 500"));
          Ev (PlayText (js "第一句。第二句。第三句。")) (Ok tt)]
    /\ fst (run env_no_synthesis (sub_task sub) world0) = Settled (Ok (VStr xiaomi)).
Proof.
  eexists. split; [reflexivity |]. split; vm_compute; reflexivity.
Qed.


Lemma engine_not_ready_witness :
  queueDepth (fields (lworld (enqueueTask hello_speak (new_loop world0)))) = 1%Z
  /\ exists w',
      run env_no_engine (wrappedTask (js "api:speak") (sub_task hello_speak)) world0
        = (Settled (Err engine_not_ready), w')
      /\ history w' = []
      /\ lastTaskError (fields w')
         = Some {| te_type := js "api:speak"; te_message := engine_not_ready;
                   te_at := 1000 |}.
Proof.
  destruct (engine_not_ready_fails_in_queue ascii_toLowerCase
              (Some volcano_service) story_example 4 env_no_engine
              (speak_request (js "你好") None None) hello_speak
              (new_loop world0) world0)
    as ((Hdepth & _) & w' & Hrun & Hhist & Herr & _).
  - left. reflexivity.
  - exact I.
  - split; [exact Hdepth |]. exists w'. done.
Defined.

(** C4, as stated, fails: with the engine missing, a speak request is
    enqueued all the same (the depth goes from 0 to 1), and running the
    task writes the queue's status. *)
Lemma engine_not_ready_counterexample :
  handleSpeak ascii_toLowerCase (Some volcano_service) story_example 4
    (speak_request (js "你好") None None) = Ok hello_speak
  /\ engine_unavailable env_no_engine world0
  /\ queueDepth (fields world0) = 0%Z
  /\ queueDepth (fields (lworld (enqueueTask hello_speak (new_loop world0)))) = 1%Z
  /\ length (submitted (enqueueTask hello_speak (new_loop world0))) = 1%nat
  /\ lastTaskType (fields world0) = None
  /\ lastTaskType
       (fields (snd (run env_no_engine
                       (wrappedTask (js "api:speak") (sub_task hello_speak))
                       world0)))
     = Some (js "api:speak")
  /\ lastTaskError
       (fields (snd (run env_no_engine
                       (wrappedTask (js "api:speak") (sub_task hello_speak))
                       world0)))
     = Some {| te_type := js "api:speak"; te_message := js "Engine not ready";
               te_at := 1000 |}.
Proof. repeat split; vm_compute; reflexivity. Qed.

Lemma keyword_query_witness :
  handle ascii_toLowerCase (Some volcano_service) story_example wakeup_example 4
    (Some ready_caps) false (js "请告诉我天气")
  = (false,
     Background
       {| sub_type := js "voice:chat";
          sub_task := chat_task ascii_toLowerCase (Some volcano_service)
                        story_example 4 (js "告诉我天气") |})
  /\ (exists i,
      indexOf (js "请") (js "小爱，请， 讲个故事 ") = Some i
      /\ handle ascii_toLowerCase (Some volcano_service) story_example
           wakeup_example 4 (Some ready_caps) false (js "小爱，请， 讲个故事 ")
         = (false,
            let intent :=
              drop_while is_intent_lead
                (trim (drop (i + length (js "请")) (js "小爱，请， 讲个故事 "))) in
            if is_empty intent then HandledOnly
            else Background
                   {| sub_type := js "voice:chat";
                      sub_task := chat_task ascii_toLowerCase (Some volcano_service)
                                    story_example 4 intent |})
      /\ drop_while is_intent_lead
           (trim (drop (i + length (js "请")) (js "小爱，请， 讲个故事 ")))
         = js "讲个故事")
  /\ handle ascii_toLowerCase (Some volcano_service) story_example wakeup_blank 4
       (Some ready_caps) false (js "请告诉我天气")
     = (false, Ignored).
Proof.
  destruct (keyword_query_intent ascii_toLowerCase (Some volcano_service)
              story_example wakeup_example 4 ready_caps)
    as (_ & _ & Hgen & _ & Hex).
  destruct (keyword_query_intent ascii_toLowerCase (Some volcano_service)
              story_example wakeup_blank 4 ready_caps)
    as (_ & _ & _ & Hblank & _).
  split; [| split].
  3:{ apply Hblank; vm_compute; reflexivity. }
  - assert (H1 : keywords wakeup_example = [js "请"]) by reflexivity.
    assert (H2 : isStopCommand wakeup_example (normalizeText (js "请告诉我天气"))
                 = false) by (vm_compute; reflexivity).
    assert (H3 : isEnterAIModeCommand wakeup_example
                   (normalizeText (js "请告诉我天气")) = false)
      by (vm_compute; reflexivity).
    assert (H4 : isExitAIModeCommand wakeup_example
                   (normalizeText (js "请告诉我天气")) = false)
      by (vm_compute; reflexivity).
    exact (Hex H1 H2 H3 H4).
  - assert (H2 : isStopCommand wakeup_example
                   (normalizeText (js "小爱，请， 讲个故事 ")) = false)
      by (vm_compute; reflexivity).
    assert (H3 : isEnterAIModeCommand wakeup_example
                   (normalizeText (js "小爱，请， 讲个故事 ")) = false)
      by (vm_compute; reflexivity).
    assert (H4 : isExitAIModeCommand wakeup_example
                   (normalizeText (js "小爱，请， 讲个故事 ")) = false)
      by (vm_compute; reflexivity).
    assert (H5 : findMatchedKeyword wakeup_example (js "小爱，请， 讲个故事 ")
                 = Some (js "请")) by (vm_compute; reflexivity).
    assert (H6 : js "请" ≠ []) by (vm_compute; discriminate).
    destruct (Hgen (js "小爱，请， 讲个故事 ") (js "请") H2 H3 H4 H5 H6)
      as (i & Hi & _ & _ & Hh).
    exists i. split; [exact Hi |]. split; [exact Hh |].
    assert (i = 3%nat) as ->.
    { vm_compute in Hi. by injection Hi. }
    vm_compute. reflexivity.
Defined.

(** C7, as stated, fails on an utterance that contains a wake keyword and
    a stop keyword: "请停下" is handled as a stop command, not as an AI
    query. *)
Lemma keyword_with_stop_counterexample :
  findMatchedKeyword wakeup_example (js "请停下") = Some (js "请")
  /\ handle ascii_toLowerCase (Some volcano_service) story_example wakeup_example 4
       (Some ready_caps) false (js "请停下")
     = (false, Awaited {| sub_type := js "voice:stop";
                          sub_task := stop_task ready_caps |}).
Proof. split; vm_compute; reflexivity. Qed.

Lemma exit_phrase_witness :
  exists task,
    handle ascii_toLowerCase (Some volcano_service) story_example wakeup_example 4
      (Some ready_caps) false (js " 退出豆包。")
    = (false, Awaited {| sub_type := js "voice:exit-ai-mode"; sub_task := task |})
    /\ task = (let* mode := speakByText ascii_toLowerCase (Some volcano_service)
                              story_example 4 (exitMessage wakeup_example)
                              true false in
               Ret (VStr mode))
    /\ forall E w, Forall (fun e => is_ask e = false) (emitted E task w).
Proof.
  destruct (exit_phrase_in_any_mode ascii_toLowerCase (Some volcano_service)
              story_example wakeup_example 4 ready_caps false (js " 退出豆包。"))
    as (task & Hh & Ht & Hno).
  - vm_compute. reflexivity.
  - vm_compute. reflexivity.
  - vm_compute. reflexivity.
  - exists task. split; [exact Hh |]. split; [exact Ht | exact Hno].
Defined.

(** C10, as stated, fails when a stop keyword occurs in the exit phrase:
    the utterance is handled as a stop command, the conversation flag stays
    on and no exit task is enqueued. *)
Lemma exit_phrase_with_stop_counterexample :
  isExitAIModeCommand wakeup_overlap (normalizeText (js "退出豆包")) = true
  /\ handle ascii_toLowerCase (Some volcano_service) story_example wakeup_overlap 4
       (Some ready_caps) true (js "退出豆包")
     = (true, Awaited {| sub_type := js "voice:stop";
                         sub_task := stop_task ready_caps |}).
Proof. split; vm_compute; reflexivity. Qed.

(** The queue at work: the first task throws, the second one still runs
    and resolves; both promises of the chain are settled at the end. *)
Example queue_after_failure :
  promises (drain env_ok 100 two_submitted)
  = [Resolved (Ok VUndefined); Resolved (Err (js "boom"));
     Resolved (Ok (VStr (js "tts:volcano:story")))]
  /\ scan (qlog (drain env_ok 100 two_submitted)) = Some (2%nat, None)
  /\ queueDepth (fields (lworld (drain env_ok 100 two_submitted))) = 0%Z
  /\ next_step env_ok (drain env_ok 100 two_submitted) = None.
Proof. repeat split; vm_compute; reflexivity. Qed.


(** ** The registry and the configuration *)

Lemma or_else_idem (a b : jsstring) : or_else (or_else a b) b = or_else a b.
Proof. destruct a; [by destruct b | reflexivity]. Qed.

Section FreshService.

Variable toLowerCase : jsstring -> jsstring.

(** The case mapping leaves the two built-in names as they are. *)
Hypothesis lower_xiaomi : toLowerCase (js "xiaomi") = js "xiaomi".
Hypothesis lower_volcano : toLowerCase (js "volcano") = js "volcano".

Lemma key_xiaomi : normalize_key toLowerCase (js "xiaomi") [] = js "xiaomi".
Proof.
  unfold normalize_key.
  replace (trim (or_else (js "xiaomi") [])) with (js "xiaomi")
    by (vm_compute; reflexivity).
  exact lower_xiaomi.
Qed.

Lemma key_volcano : normalize_key toLowerCase (js "volcano") [] = js "volcano".
Proof.
  unfold normalize_key.
  replace (trim (or_else (js "volcano") [])) with (js "volcano")
    by (vm_compute; reflexivity).
  exact lower_volcano.
Qed.

Lemma new_TTSService_eq provider :
  new_TTSService toLowerCase provider
  = Ok {| config_provider := provider;
          providers := <[js "volcano" := {| has_synthesize := true |}]>
                         (<[js "xiaomi" := {| has_synthesize := false |}]> ∅);
          aliases := {[ js "doubao" := js "volcano" ]} |}.
Proof.
  unfold new_TTSService, registerBuiltins, registerProvider.
  rewrite key_xiaomi.
  replace (is_empty (js "xiaomi")) with false by (vm_compute; reflexivity).
  cbv zeta. rewrite key_volcano.
  replace (is_empty (js "volcano")) with false by (vm_compute; reflexivity).
  reflexivity.
Qed.

Lemma getProvider_raw s :
  getProvider toLowerCase s
  = normalizeProvider toLowerCase s (config_provider s).
Proof.
  unfold getProvider, normalizeProvider, normalize_key.
  by rewrite or_else_idem.
Qed.

End FreshService.

(** X1.  On a freshly constructed service, the configured provider name
    decides alone how [speakByText] goes on: a name that normalizes to
    "volcano" or "doubao" selects the volcano provider, which can
    synthesize; "xiaomi" or no name selects the speaker's own voice; every
    other name, a blank one included, makes [getProviderImpl] and
    [canSynthesize] throw. *)
Theorem fresh_service_providers (toLowerCase : jsstring -> jsstring)
    (provider : jsstring) :
  toLowerCase (js "xiaomi") = js "xiaomi" ->
  toLowerCase (js "volcano") = js "volcano" ->
  exists s,
    new_TTSService toLowerCase provider = Ok s
    /\ let raw := normalize_key toLowerCase provider DEFAULT_PROVIDER in
       (raw = js "volcano" \/ raw = js "doubao" ->
        getProvider toLowerCase s = js "volcano"
        /\ canSynthesize toLowerCase s = Ok true)
       /\ (raw = js "xiaomi" ->
           getProvider toLowerCase s = js "xiaomi"
           /\ canSynthesize toLowerCase s = Ok false)
       /\ (raw ≠ js "volcano" -> raw ≠ js "doubao" -> raw ≠ js "xiaomi" ->
           getProvider toLowerCase s = raw
           /\ getProviderImpl toLowerCase s = Err (unsupported_provider raw)
           /\ canSynthesize toLowerCase s = Err (unsupported_provider raw)).
Proof.
  intros Hx Hv. eexists. split; [by apply new_TTSService_eq |].
  cbv zeta.
  set (raw := normalize_key toLowerCase provider DEFAULT_PROVIDER).
  assert (Hget : forall s, config_provider s = provider ->
            getProvider toLowerCase s
            = match aliases s !! raw with
              | Some target => or_else target raw
              | None => raw
              end).
  { intros s Hs. rewrite getProvider_raw, Hs. reflexivity. }
  unfold canSynthesize, getProviderImpl.
  rewrite Hget by reflexivity. cbn [aliases providers].
  split; [| split].
  - intros [Hr | Hr]; rewrite Hr.
    + rewrite lookup_singleton_ne by (vm_compute; discriminate).
      by rewrite lookup_insert_eq.
    + rewrite lookup_singleton_eq.
      replace (or_else (js "volcano") (js "doubao")) with (js "volcano")
        by (vm_compute; reflexivity).
      by rewrite lookup_insert_eq.
  - intros Hr. rewrite Hr.
    rewrite lookup_singleton_ne by (vm_compute; discriminate).
    rewrite lookup_insert_ne by (vm_compute; discriminate).
    by rewrite lookup_insert_eq.
  - intros H1 H2 H3.
    rewrite lookup_singleton_ne by congruence.
    rewrite lookup_insert_ne by congruence.
    rewrite lookup_insert_ne by congruence.
    by rewrite lookup_empty.
Qed.

(** X2.  Registering a provider makes it the implementation that the
    service selects for that name, unless the name is a registered alias:
    then the alias still wins, and the implementation selected for the name
    is the one it was before. *)
Theorem register_then_select (toLowerCase : jsstring -> jsstring)
    (name : jsstring) (impl : provider_impl) (s s' : TTSService) :
  registerProvider toLowerCase name impl s = Ok s' ->
  name ≠ [] ->
  config_provider s = name ->
  let key := normalize_key toLowerCase name [] in
  providers s' !! key = Some impl
  /\ (forall k, k ≠ key -> providers s' !! k = providers s !! k)
  /\ (aliases s !! key = None ->
      getProvider toLowerCase s' = key
      /\ getProviderImpl toLowerCase s' = Ok impl
      /\ canSynthesize toLowerCase s' = Ok (has_synthesize impl))
  /\ (forall target,
        aliases s !! key = Some target -> target ≠ [] -> target ≠ key ->
        getProvider toLowerCase s' = target
        /\ getProviderImpl toLowerCase s' = getProviderImpl toLowerCase s).
Proof.
  intros Hreg Hname Hcfg. cbv zeta.
  set (key := normalize_key toLowerCase name []).
  pose proof (registerProvider_aliases toLowerCase _ _ _ _ Hreg) as Hal.
  unfold registerProvider in Hreg. cbv zeta in Hreg. fold key in Hreg.
  destruct (is_empty key); [discriminate |].
  injection Hreg as <-.
  assert (Hraw : forall t : TTSService, config_provider t = name ->
            getProvider toLowerCase t
            = match aliases t !! key with
              | Some target => or_else target key
              | None => key
              end).
  { intros t Ht. unfold getProvider, normalizeProvider, normalize_key.
    rewrite or_else_idem, Ht.
    unfold key, normalize_key. by rewrite !or_else_nonempty. }
  split; [cbn [providers]; by rewrite lookup_insert_eq |].
  split; [intros k Hk; cbn [providers]; by rewrite lookup_insert_ne |].
  split.
  - intros Hnone.
    assert (Hg : getProvider toLowerCase
                   {| config_provider := config_provider s;
                      providers := <[key := impl]> (providers s);
                      aliases := aliases s |} = key).
    { rewrite Hraw by done. cbn [aliases]. by rewrite Hnone. }
    split; [exact Hg |].
    unfold canSynthesize, getProviderImpl. rewrite Hg. cbn [providers].
    by rewrite lookup_insert_eq.
  - intros target Hsome Hne Hdiff.
    assert (Hg : getProvider toLowerCase
                   {| config_provider := config_provider s;
                      providers := <[key := impl]> (providers s);
                      aliases := aliases s |} = target).
    { rewrite Hraw by done. cbn [aliases]. rewrite Hsome.
      by apply or_else_nonempty. }
    assert (Hg0 : getProvider toLowerCase s = target).
    { rewrite Hraw by done. rewrite Hsome. by apply or_else_nonempty. }
    split; [exact Hg |].
    unfold getProviderImpl. rewrite Hg, Hg0. cbn [providers].
    by rewrite lookup_insert_ne.
Qed.

(** X3.  What the configuration loader takes as the provider is what a
    freshly constructed service resolves the same name to, so the
    validation at load time looks at the provider that will be used. *)
Theorem loader_resolves_as_service (toLowerCase : jsstring -> jsstring)
    (configured provider : jsstring) (s : TTSService) :
  new_TTSService toLowerCase configured = Ok s ->
  normalizeProvider toLowerCase s provider
  = normalizeTTSProvider toLowerCase provider.
Proof.
  intros Hnew. unfold new_TTSService, registerBuiltins in Hnew.
  destruct (registerProvider toLowerCase (js "xiaomi") _ _) as [s1 |] eqn:H1;
    [| discriminate].
  apply registerProvider_aliases in H1, Hnew. cbn [aliases] in H1.
  unfold normalizeProvider, normalizeTTSProvider, normalize_key.
  rewrite Hnew, H1.
  change DEFAULT_PROVIDER with (js "xiaomi").
  set (raw := toLowerCase (trim (or_else provider (js "xiaomi")))).
  unfold str_eqb. case_bool_decide as Hraw.
  - rewrite Hraw, lookup_singleton_eq. vm_compute. reflexivity.
  - by rewrite lookup_singleton_ne.
Qed.

(** X4.  For a configuration whose provider is volcano, the check made
    before each synthesis accepts exactly what the check at load time
    accepted, provided the endpoint is set: the endpoint is the one setting
    that is only looked at when the first synthesis is attempted. *)
Theorem endpoint_is_checked_late (toLowerCase : jsstring -> jsstring)
    (c : tts_config) :
  normalizeTTSProvider toLowerCase (or_else (tts_provider c) (js "xiaomi"))
    = js "volcano" ->
  (validateVolcanoConfig toLowerCase c = Ok tt
   <-> validateTTSConfig toLowerCase c = Ok tt /\ endpoint (volcano c) ≠ [])
  /\ (validateTTSConfig toLowerCase c = Ok tt -> endpoint (volcano c) = [] ->
      validateVolcanoConfig toLowerCase c = Err (js "缺少 tts.volcano.endpoint")).
Proof.
  intros Hp. unfold validateVolcanoConfig, validateTTSConfig. cbv zeta.
  rewrite Hp.
  replace (str_eqb (js "volcano") (js "volcano")) with true
    by (vm_compute; reflexivity).
  assert (Hno : forall (a b d : jsstring),
            (@Err unit a = Ok tt <-> @Err unit b = Ok tt /\ endpoint (volcano c) ≠ [])
            /\ (@Err unit b = Ok tt -> endpoint (volcano c) = [] ->
                @Err unit a = Err d)).
  { intros a b d. split; [split |]; [intros H | intros [H _] | intros H];
      discriminate H. }
  destruct (publicBaseURL c) as [| b bs]; cbn [is_empty]; [apply Hno |].
  destruct (endpoint (volcano c)) as [| e es]; cbn [is_empty].
  - split; [split; [intros H; discriminate H | by intros [_ ?]] | reflexivity].
  - destruct (str_eqb (auth_mode toLowerCase (volcano c)) (js "api_key")
              && is_empty (apiKey (volcano c)));
      [split; [split; [intros H | intros [H _]] | intros H]; discriminate H |].
    destruct (str_eqb (auth_mode toLowerCase (volcano c)) (js "token")
              && (is_empty (appId (volcano c)) || is_empty (token (volcano c))));
      [split; [split; [intros H | intros [H _]] | intros H]; discriminate H |].
    split; [split; [intros _; split; [reflexivity | discriminate]
                   | reflexivity]
           | intros _ H; discriminate H].
Qed.

(** ** The HTTP front end *)

Lemma drop_while_split (p : N -> bool) (s : jsstring) :
  exists ws, s = ws ++ drop_while p s
             /\ Forall (fun c => p c = true) ws
             /\ (forall c, head (drop_while p s) = Some c -> p c = false).
Proof.
  induction s as [| c s (ws & Hs & Hws & Hhd)]; simpl.
  - exists []. done.
  - destruct (p c) eqn:Hc.
    + exists (c :: ws). split; [by rewrite <- app_comm_cons, <- Hs |].
      split; [by constructor | done].
    + exists []. split; [done |]. split; [done |].
      simpl. by intros ? [= <-].
Qed.

Lemma drop_while_stable (p : N -> bool) (ws s : jsstring) :
  Forall (fun c => p c = true) ws ->
  (forall c, head s = Some c -> p c = false) ->
  drop_while p (ws ++ s) = s.
Proof.
  intros Hws Hs. induction Hws as [| c ws Hc _ IH]; simpl.
  - destruct s as [| c s]; [done |]. simpl. by rewrite (Hs c).
  - by rewrite Hc.
Qed.

Lemma strip_bearer_match scheme sp rest :
  bearer_word scheme -> is_space sp = true ->
  strip_bearer (scheme ++ sp :: rest) = drop_while is_space rest.
Proof.
  intros Hw Hsp. unfold bearer_word in Hw.
  change (js "bearer") with [0x62; 0x65; 0x61; 0x72; 0x65; 0x72] in Hw.
  repeat (apply Forall2_cons_inv_l in Hw as (? & ? & ? & Hw & ->)).
  apply Forall2_nil_inv_l in Hw as ->.
  simpl app. unfold strip_bearer.
  by repeat match goal with H : letter_ci _ _ = true |- _ => rewrite H; clear H end;
     rewrite Hsp.
Qed.

Lemma strip_bearer_cases auth :
  (exists scheme sp rest,
      auth = scheme ++ sp :: rest /\ bearer_word scheme /\ is_space sp = true
      /\ strip_bearer auth = drop_while is_space rest)
  \/ ((forall scheme sp rest,
         auth = scheme ++ sp :: rest -> bearer_word scheme -> is_space sp = false)
      /\ strip_bearer auth = auth).
Proof.
  assert (Hshort : forall scheme sp rest,
            bearer_word scheme -> auth = scheme ++ sp :: rest ->
            exists b e a r e' r',
              auth = b :: e :: a :: r :: e' :: r' :: sp :: rest
              /\ scheme = [b; e; a; r; e'; r']).
  { intros scheme sp rest Hw ->. unfold bearer_word in Hw.
    change (js "bearer") with [0x62; 0x65; 0x61; 0x72; 0x65; 0x72] in Hw.
    repeat (apply Forall2_cons_inv_l in Hw as (? & ? & ? & Hw & ->)).
    apply Forall2_nil_inv_l in Hw as ->. by eexists _, _, _, _, _, _. }
  destruct auth as [| b [| e [| a [| r [| e' [| r' [| sp rest]]]]]]];
    try (right; split; [| reflexivity];
         intros scheme sp0 rest0 Heq Hw;
         destruct (Hshort scheme sp0 rest0 Hw Heq) as (? & ? & ? & ? & ? & ? & [=] & _)).
  unfold strip_bearer.
  destruct (letter_ci 98 b && letter_ci 101 e && letter_ci 97 a
            && letter_ci 114 r && letter_ci 101 e' && letter_ci 114 r'
            && is_space sp) eqn:Hm.
  - left. exists [b; e; a; r; e'; r'], sp, rest.
    repeat (apply andb_prop in Hm as [Hm ?]).
    split; [done |]. split; [| done].
    unfold bearer_word.
    change (js "bearer") with [0x62; 0x65; 0x61; 0x72; 0x65; 0x72].
    by repeat constructor.
  - right. split; [| reflexivity].
    intros scheme sp0 rest0 Heq Hw.
    destruct (Hshort scheme sp0 rest0 Hw Heq) as (? & ? & ? & ? & ? & ? & Heq' & ->).
    injection Heq' as <- <- <- <- <- <- <- <-.
    unfold bearer_word in Hw.
    change (js "bearer") with [0x62; 0x65; 0x61; 0x72; 0x65; 0x72] in Hw.
    repeat (apply Forall2_cons_1 in Hw as [? Hw]).
    destruct (is_space sp); [| done].
    by repeat match goal with H : letter_ci _ _ = true |- _ =>
                rewrite H in Hm; clear H end.
Qed.

(** X5.  Without a configured token every request is authorized.  With
    one, a request without the header is refused, and the header is
    accepted in exactly two forms: the bare token (when the token does not
    itself read as "Bearer" and white space), or the word "Bearer" in any
    letter case, one or more white-space characters, and the token (when
    the token does not begin with white space). *)
Theorem bearer_token_forms (config : api_config) (authorization : jsstring) :
  (api_token config = [] -> validateAuth config authorization = true)
  /\ (api_token config ≠ [] ->
      validateAuth config [] = false
      /\ (validateAuth config authorization = true
          <-> (authorization = api_token config
               /\ strip_bearer (api_token config) = api_token config)
              \/ exists scheme ws,
                   authorization = scheme ++ ws ++ api_token config
                   /\ bearer_word scheme
                   /\ ws ≠ [] /\ Forall (fun c => is_space c = true) ws
                   /\ forall c, head (api_token config) = Some c ->
                                is_space c = false)).
Proof.
  unfold validateAuth. split; [by intros -> |].
  intros Htok. destruct (api_token config) as [| t0 ts] eqn:Ht; [done |].
  cbn [is_empty]. split.
  { unfold str_eqb. by rewrite bool_decide_eq_false. }
  unfold str_eqb. rewrite bool_decide_eq_true. split.
  - intros Hs.
    destruct (strip_bearer_cases authorization)
      as [(scheme & sp & rest & Hauth & Hw & Hsp & Hstrip) | [_ Hsame]].
    + right. rewrite Hstrip in Hs.
      destruct (drop_while_split is_space rest) as (ws & Hrest & Hws & Hhd).
      rewrite Hs in Hrest, Hhd.
      exists scheme, (sp :: ws). split; [by rewrite Hauth, Hrest |].
      split; [done |]. split; [done |]. split; [by constructor | done].
    + left. rewrite Hsame in Hs. split; [done |]. by rewrite <- Hs at 1 2.
  - intros [[-> Hbare] | (scheme & ws & -> & Hw & Hne & Hws & Hhd)]; [done |].
    destruct ws as [| sp ws]; [done |].
    apply Forall_cons in Hws as [Hsp Hws].
    rewrite <- app_comm_cons, strip_bearer_match by done.
    by apply drop_while_stable.
Qed.

Section HttpFacts.

Variable toString_utf8 : list N -> jsstring.
Variable JSON_parse : jsstring -> option request_body.
Variable toLowerCase : jsstring -> jsstring.
Variable ttsService : option TTSService.
Variable storyConfig : story_config.
Variable fuel : nat.

Local Abbreviation readBody' := (readBody toString_utf8 JSON_parse).
Local Abbreviation handleRequest' :=
  (handleRequest toString_utf8 JSON_parse toLowerCase ttsService storyConfig fuel).

Lemma read_chunks_total max : forall incoming size chunks,
  (size <= max)%Z ->
  read_chunks max size chunks incoming
  = if (max <? size + Z.of_nat (length (concat incoming)))%Z
    then Err (js "Request body too large")
    else Ok (chunks ++ incoming).
Proof.
  induction incoming as [| chunk rest IH]; intros size chunks Hsize; simpl.
  - rewrite Z.add_0_r, app_nil_r.
    destruct (Z.ltb_spec max size); [lia | reflexivity].
  - rewrite length_app, Nat2Z.inj_add.
    destruct (Z.ltb_spec max (size + Z.of_nat (length chunk))) as [Hbig | Hfit].
    + destruct (Z.ltb_spec max
                  (size + (Z.of_nat (length chunk)
                           + Z.of_nat (length (concat rest))))); [reflexivity | lia].
    + rewrite IH by lia. rewrite Z.add_assoc, <- app_assoc. reflexivity.
Qed.

(** X6.  [readBody] refuses a body as too large exactly when it has more
    than [maxBodyBytes] bytes in total, a body of exactly that size being
    accepted; otherwise an [error] event rejects with its message, an empty
    body reads as the empty object, and anything else is parsed.  The result
    depends on the bytes only, not on how the stream cut them into
    chunks. *)
Theorem body_limit_counts_bytes (config : api_config)
    (incoming : list (list N)) (ending : stream_end) :
  (0 <= maxBodyBytes config)%Z ->
  readBody' config incoming ending
  = (if (maxBodyBytes config <? Z.of_nat (length (concat incoming)))%Z
     then Err (js "Request body too large")
     else
       match ending with
       | Failed e => Err e
       | Ended =>
         if is_empty (toString_utf8 (concat incoming)) then Ok empty_body
         else
           match JSON_parse (toString_utf8 (concat incoming)) with
           | Some body => Ok body
           | None => Err (js "Invalid JSON")
           end
       end)
  /\ forall incoming',
       concat incoming' = concat incoming ->
       readBody' config incoming' ending = readBody' config incoming ending.
Proof.
  intros Hmax.
  assert (Hform : forall inc,
    readBody' config inc ending
    = (if (maxBodyBytes config <? Z.of_nat (length (concat inc)))%Z
       then Err (js "Request body too large")
       else
         match ending with
         | Failed e => Err e
         | Ended =>
           if is_empty (toString_utf8 (concat inc)) then Ok empty_body
           else
             match JSON_parse (toString_utf8 (concat inc)) with
             | Some body => Ok body
             | None => Err (js "Invalid JSON")
             end
         end)).
  { intros inc. unfold readBody. rewrite read_chunks_total by exact Hmax.
    rewrite Z.add_0_l.
    by destruct (maxBodyBytes config <? Z.of_nat (length (concat inc)))%Z. }
  split; [apply Hform |].
  intros incoming' Heq. by rewrite !Hform, Heq.
Qed.

Lemma str_eqb_eq (a b : jsstring) : str_eqb a b = true -> a = b.
Proof. unfold str_eqb. by rewrite bool_decide_eq_true. Qed.

Lemma routed_enqueue handled sub :
  routed handled = Enqueue sub -> handled = Ok sub.
Proof. destruct handled; simpl; [by intros [= ->] | discriminate]. Qed.

(** X7.  A task is enqueued for an HTTP request only if the request is a
    POST that passed [validateAuth], its path is one of the three
    configured routes and not the health path, its body could be read, and
    the route's handler accepted the body; the task is then the one that
    handler builds. *)
Theorem only_authorized_posts_enqueue (config : api_config) (req : request)
    (sub : submission) :
  handleRequest' config req = Enqueue sub ->
  req_method req = js "POST"
  /\ validateAuth config (req_authorization req) = true
  /\ req_pathname req ≠ Some (p_health (paths config))
  /\ exists body,
       readBody' config (req_chunks req) (req_end req) = Ok body
       /\ ((req_pathname req = Some (p_speak (paths config))
            /\ handleSpeak toLowerCase ttsService storyConfig fuel body = Ok sub)
           \/ (req_pathname req = Some (p_chat (paths config))
               /\ handleChat toLowerCase ttsService storyConfig fuel body = Ok sub)
           \/ (req_pathname req = Some (p_play (paths config))
               /\ handlePlay body = Ok sub)).
Proof.
  intros H. unfold handleRequest in H.
  destruct (req_pathname req) as [pathname |]; [| discriminate H].
  destruct (str_eqb pathname (p_health (paths config))) eqn:Hhealth;
    [discriminate H |].
  destruct (str_eqb (req_method req) (js "GET")
            && starts_with (p_audioInfo (paths config)) pathname);
    [discriminate H |].
  destruct (str_eqb (req_method req) (js "POST")) eqn:Hpost;
    [| discriminate H].
  destruct (validateAuth config (req_authorization req)) eqn:Hauth;
    [| discriminate H].
  cbn [negb] in H.
  destruct (readBody' config (req_chunks req) (req_end req)) as [body | err];
    [| discriminate H].
  split; [by apply str_eqb_eq |]. split; [reflexivity |].
  split.
  { intros [= ->]. unfold str_eqb in Hhealth.
    by apply bool_decide_eq_false in Hhealth. }
  exists body. split; [reflexivity |].
  destruct (str_eqb pathname (p_speak (paths config))) eqn:Hspeak.
  { apply str_eqb_eq in Hspeak as ->. apply routed_enqueue in H. by left. }
  destruct (str_eqb pathname (p_chat (paths config))) eqn:Hchat.
  { apply str_eqb_eq in Hchat as ->. apply routed_enqueue in H. right. by left. }
  destruct (str_eqb pathname (p_play (paths config))) eqn:Hplay;
    [| discriminate H].
  apply str_eqb_eq in Hplay as ->. apply routed_enqueue in H. right. by right.
Qed.

(** X8.  A request that fails [validateAuth] is dealt with without its
    body being looked at: what [handleRequest] does is the same whatever
    the body is.  It leaves the request unanswered when its URL does not
    parse; otherwise it answers with the health report (on the health path,
    with any method), an audio file (a GET under the audio path), 404 (any
    other method than POST) or 401 (a POST).  The health report and the
    audio files are thus served without credentials, and no task is
    enqueued. *)
Theorem unauthorized_request_is_not_read (config : api_config) (req : request) :
  validateAuth config (req_authorization req) = false ->
  (forall chunks ending,
      handleRequest' config
        {| req_method := req_method req; req_pathname := req_pathname req;
           req_authorization := req_authorization req;
           req_chunks := chunks; req_end := ending |}
      = handleRequest' config req)
  /\ match req_pathname req with
     | None => handleRequest' config req = Unanswered
     | Some pathname =>
       (pathname = p_health (paths config)
        /\ handleRequest' config req = HealthReport)
       \/ (pathname ≠ p_health (paths config)
           /\ req_method req = js "GET"
           /\ starts_with (p_audioInfo (paths config)) pathname = true
           /\ handleRequest' config req = AudioStream pathname)
       \/ (pathname ≠ p_health (paths config)
           /\ req_method req ≠ js "POST"
           /\ handleRequest' config req = Reply 404 (js "Not Found"))
       \/ (pathname ≠ p_health (paths config)
           /\ req_method req = js "POST"
           /\ handleRequest' config req = Reply 401 (js "Unauthorized"))
     end.
Proof.
  intros Hauth.
  assert (Hform : forall chunks ending,
    handleRequest' config
      {| req_method := req_method req; req_pathname := req_pathname req;
         req_authorization := req_authorization req;
         req_chunks := chunks; req_end := ending |}
    = match req_pathname req with
      | None => Unanswered
      | Some pathname =>
        if str_eqb pathname (p_health (paths config)) then HealthReport
        else if str_eqb (req_method req) (js "GET")
                && starts_with (p_audioInfo (paths config)) pathname
        then AudioStream pathname
        else if negb (str_eqb (req_method req) (js "POST"))
        then Reply 404 (js "Not Found")
        else Reply 401 (js "Unauthorized")
      end).
  { intros chunks ending. unfold handleRequest.
    cbn [req_method req_pathname req_authorization]. rewrite Hauth. reflexivity. }
  assert (Hreq : handleRequest' config req
                 = handleRequest' config
                     {| req_method := req_method req; req_pathname := req_pathname req;
                        req_authorization := req_authorization req;
                        req_chunks := req_chunks req; req_end := req_end req |})
    by (by destruct req).
  split; [intros chunks ending; by rewrite Hreq, !Hform |].
  rewrite Hreq, Hform.
  destruct (req_pathname req) as [pathname |]; [| reflexivity].
  destruct (str_eqb pathname (p_health (paths config))) eqn:Hhealth.
  { left. split; [by apply str_eqb_eq | reflexivity]. }
  assert (Hne : pathname ≠ p_health (paths config)).
  { unfold str_eqb in Hhealth. by apply bool_decide_eq_false in Hhealth. }
  destruct (str_eqb (req_method req) (js "GET")
            && starts_with (p_audioInfo (paths config)) pathname) eqn:Haudio.
  { right. left. apply andb_prop in Haudio as [Hget Hpre].
    apply str_eqb_eq in Hget. done. }
  destruct (str_eqb (req_method req) (js "POST")) eqn:Hpost; cbn [negb].
  - right. right. right. apply str_eqb_eq in Hpost. done.
  - right. right. left. split; [exact Hne |]. split; [| reflexivity].
    unfold str_eqb in Hpost. by apply bool_decide_eq_false in Hpost.
Qed.

(** X9.  The errors that [handleRequest] answers by itself are these: 404
    "Not Found", 401 "Unauthorized", 400 for a body that could not be read,
    with the reason, and 500 when the handler of the route refused the
    body, which is how a missing [text] or [url] is reported; in that case
    nothing was enqueued. *)
Theorem request_errors (config : api_config) (req : request) (status : Z)
    (error : jsstring) :
  handleRequest' config req = Reply status error ->
  (status = 404%Z /\ error = js "Not Found")
  \/ (status = 401%Z /\ error = js "Unauthorized"
      /\ validateAuth config (req_authorization req) = false)
  \/ (status = 400%Z
      /\ exists e, readBody' config (req_chunks req) (req_end req) = Err e
                   /\ error = js "Invalid request body: " ++ e)
  \/ (status = 500%Z
      /\ exists body,
           readBody' config (req_chunks req) (req_end req) = Ok body
           /\ ((error = js "text is required" /\ trim (b_text body) = []
                /\ (req_pathname req = Some (p_speak (paths config))
                    \/ req_pathname req = Some (p_chat (paths config))))
               \/ (error = js "url is required" /\ trim (b_url body) = []
                   /\ req_pathname req = Some (p_play (paths config))))).
Proof.
  intros H. unfold handleRequest in H.
  destruct (req_pathname req) as [pathname |]; [| discriminate H].
  destruct (str_eqb pathname (p_health (paths config)));
    [discriminate H |].
  destruct (str_eqb (req_method req) (js "GET")
            && starts_with (p_audioInfo (paths config)) pathname);
    [discriminate H |].
  destruct (negb (str_eqb (req_method req) (js "POST")));
    [injection H as <- <-; by left |].
  destruct (negb (validateAuth config (req_authorization req))) eqn:Hauth.
  { injection H as <- <-. right. left. by apply negb_true_iff in Hauth. }
  destruct (readBody' config (req_chunks req) (req_end req)) as [body | err].
  2:{ injection H as <- <-. right. right. left. split; [reflexivity |]. eauto. }
  destruct (str_eqb pathname (p_speak (paths config))) eqn:Hspeak.
  { apply str_eqb_eq in Hspeak as ->. right. right. right.
    unfold handleSpeak in H. cbv zeta in H.
    destruct (trim (b_text body)) eqn:Ht; cbn [is_empty routed] in H; [| discriminate H].
    injection H as <- <-. split; [reflexivity |].
    exists body. split; [reflexivity |]. left. auto. }
  destruct (str_eqb pathname (p_chat (paths config))) eqn:Hchat.
  { apply str_eqb_eq in Hchat as ->. right. right. right.
    unfold handleChat in H. cbv zeta in H.
    destruct (trim (b_text body)) eqn:Ht; cbn [is_empty routed] in H; [| discriminate H].
    injection H as <- <-. split; [reflexivity |].
    exists body. split; [reflexivity |]. left. auto. }
  destruct (str_eqb pathname (p_play (paths config))) eqn:Hplay.
  { apply str_eqb_eq in Hplay as ->. right. right. right.
    unfold handlePlay in H. cbv zeta in H.
    destruct (trim (b_url body)) eqn:Ht; cbn [is_empty routed] in H; [| discriminate H].
    injection H as <- <-. split; [reflexivity |].
    exists body. split; [reflexivity |]. right. auto. }
  injection H as <- <-. by left.
Qed.

End HttpFacts.

(** ** The fields a task writes *)

Lemma writes_impl {A : Type} (P Q : (server -> server) -> Prop) (p : prog A) :
  (forall f, P f -> Q f) -> writes P p -> writes Q p.
Proof. intros HPQ. induction p; simpl; intros Hp; auto. destruct Hp; auto. Qed.

Lemma writes_bind {A B : Type} P (p : prog A) (f : A -> prog B) :
  writes P p -> (forall a, writes P (f a)) -> writes P (bind p f).
Proof. induction p; simpl; intros Hp Hf; auto. destruct Hp; auto. Qed.

Lemma writes_try_catch {A : Type} P (p : prog A) (h : jsstring -> prog A) :
  writes P p -> (forall e, writes P (h e)) -> writes P (try_catch p h).
Proof. induction p; simpl; intros Hp Hh; auto. destruct Hp; auto. Qed.

Lemma writes_await P c : writes P (await c).
Proof. simpl. by intros [a | e]. Qed.

Lemma writes_run {A : Type} (E : env) P (R : server -> server -> Prop)
    (p : prog A) :
  (forall s, R s s) -> (forall f s s', P f -> R s s' -> R s (f s')) ->
  forall w, writes P p -> R (fields w) (fields (snd (run E p w))).
Proof.
  intros Hrefl Hstep.
  assert (Hgen : forall w s0, writes P p -> R s0 (fields w) ->
                   R s0 (fields (snd (run E p w)))).
  { induction p as [| | | c k IH | k IH | k IH | k IH | f k IH];
      intros w s0 Hp H0; simpl; auto.
    destruct Hp as [Hf Hk]. apply IH; [exact Hk |]. simpl. auto. }
  intros w Hp. by apply Hgen.
Qed.

Section WriteFacts.

Variable toLowerCase : jsstring -> jsstring.
Variable ttsService : option TTSService.
Variable storyConfig : story_config.
Variable fuel : nat.

Lemma writes_engine P : writes P getEngineOrThrow.
Proof. simpl. intros [e |]; [by destruct (MiNA e && MiOT e) | done]. Qed.

Lemma writes_abort_if P interrupt : writes P (abort_if interrupt).
Proof. destruct interrupt; [exact (writes_await P AbortXiaoAI) | done]. Qed.

Lemma writes_wait_loop P n : forall start,
  writes P (wait_loop storyConfig n start).
Proof.
  induction n as [| n IH]; intros start; [done |].
  simpl. intros t. destruct (t - start <? waitTimeoutMs storyConfig)%Z; [| done].
  simpl. intros [[|] | m]; simpl; [| done | done].
  intros [[] | m]; simpl; [apply IH | done].
Qed.

Lemma writes_wait P : writes P (waitForAudioComplete storyConfig fuel).
Proof.
  apply writes_bind; [apply writes_engine |].
  intros _ t. apply writes_wait_loop.
Qed.

Lemma writes_synthesize P c : writes P (synthesize toLowerCase ttsService c).
Proof.
  unfold synthesize. destruct ttsService as [tts |]; [| done].
  destruct (getProviderImpl toLowerCase tts) as [impl | m]; [| done].
  destruct (has_synthesize impl); [| done].
  exact (writes_await P (Synthesize _ c)).
Qed.

Lemma writes_play_chunk P i u : writes P (play_chunk storyConfig fuel i u).
Proof.
  unfold play_chunk.
  destruct (i =? 0)%nat; [exact (writes_await P (PlayUrl u None)) |].
  apply writes_bind; [apply writes_wait |].
  intros _. exact (writes_await P (PlayUrl u None)).
Qed.

Lemma writes_story_loop P chunks : forall i,
  writes P (story_loop toLowerCase ttsService storyConfig fuel i chunks).
Proof.
  induction chunks as [| c rest IH]; intros i; [done |].
  simpl. apply writes_bind; [apply writes_synthesize |].
  intros u. apply writes_bind; [apply writes_play_chunk |].
  intros _. apply IH.
Qed.

Lemma writes_record_speak mode : writes speak_write (record_speak mode).
Proof.
  simpl. split; [left; eauto |]. intros t. split; [right; eauto | done].
Qed.

Lemma writes_default_voice text : writes speak_write (default_voice text).
Proof.
  apply writes_bind; [exact (writes_await _ (PlayText text)) |].
  intros _. simpl. split; [left; eauto |]. intros t. split; [right; eauto | done].
Qed.

Lemma writes_speakByText text interrupt storyMode :
  writes speak_write
    (speakByText toLowerCase ttsService storyConfig fuel text interrupt storyMode).
Proof.
  unfold speakByText.
  apply writes_bind; [apply writes_engine |]. intros _.
  apply writes_bind; [apply writes_abort_if |]. intros _.
  destruct (can_synthesize toLowerCase ttsService) as [can | m]; [| done].
  apply writes_bind.
  - destruct can; [| done].
    apply writes_try_catch; [| done].
    apply writes_bind; [| done].
    unfold speak_external. destruct storyMode.
    + apply writes_bind; [| intros _; apply writes_record_speak].
      unfold speakStoryMode.
      apply writes_bind; [apply writes_engine |]. intros _.
      apply writes_bind; [apply writes_story_loop | done].
    + apply writes_bind; [apply writes_synthesize |]. intros u.
      apply writes_bind; [exact (writes_await _ (PlayUrl u None)) |]. intros _.
      apply writes_record_speak.
  - intros [mode |]; [done | apply writes_default_voice].
Qed.

Lemma writes_askAndSpeak text interrupt storyMode :
  writes speak_write
    (askAndSpeak toLowerCase ttsService storyConfig fuel text interrupt storyMode).
Proof.
  unfold askAndSpeak.
  apply writes_bind; [apply writes_engine |]. intros _.
  apply writes_bind; [apply writes_abort_if |]. intros _.
  apply writes_bind; [exact (writes_await _ (AskAI text)) |].
  intros reply.
  destruct (is_empty reply); [done |].
  apply writes_bind; [apply writes_speakByText | done].
Qed.

Lemma writes_playByUrl P url interrupt blocking :
  writes P (playByUrl url interrupt blocking).
Proof.
  unfold playByUrl.
  apply writes_bind; [apply writes_engine |]. intros _.
  apply writes_bind; [apply writes_abort_if |]. intros _.
  apply writes_bind; [exact (writes_await _ (PlayUrl url (Some blocking))) | done].
Qed.

Lemma writes_stop_task P caps : writes P (stop_task caps).
Proof.
  apply writes_bind.
  - apply writes_try_catch; [exact (writes_await _ AbortXiaoAI) | done].
  - intros _. apply writes_bind; [| done].
    apply writes_try_catch; [| done].
    destruct (MiNA caps); [exact (writes_await _ MiNAStop) | done].
Qed.

Lemma writes_chat_task userText :
  writes speak_write
    (chat_task toLowerCase ttsService storyConfig fuel userText).
Proof.
  apply writes_try_catch; [| done].
  apply writes_bind; [exact (writes_await _ AbortXiaoAI) |]. intros _.
  apply writes_bind; [exact (writes_await _ (AskAI _)) |]. intros reply.
  destruct (is_empty reply); [done |].
  apply writes_bind; [apply writes_speakByText | done].
Qed.

(** Every task that the HTTP handlers and the voice interpreter submit
    writes the last speak mode and its time only. *)
Lemma handler_tasks_write body sub :
  handleSpeak toLowerCase ttsService storyConfig fuel body = Ok sub
  \/ handleChat toLowerCase ttsService storyConfig fuel body = Ok sub
  \/ handlePlay body = Ok sub ->
  writes speak_write (sub_task sub).
Proof.
  intros [H | [H | H]].
  - apply handleSpeak_inv in H as ->. cbn [sub_task].
    apply writes_bind; [apply writes_speakByText | done].
  - apply handleChat_inv in H as ->. apply writes_askAndSpeak.
  - apply handlePlay_inv in H as ->. cbn [sub_task].
    apply writes_bind; [apply writes_playByUrl | done].
Qed.

Lemma voice_tasks_write wakeupConfig engine aiMode text sub :
  snd (handle toLowerCase ttsService storyConfig wakeupConfig fuel engine aiMode text)
  = Awaited sub
  \/ snd (handle toLowerCase ttsService storyConfig wakeupConfig fuel engine aiMode text)
     = Background sub ->
  writes speak_write (sub_task sub).
Proof.
  assert (Hspeak : forall m, writes speak_write
            (speak_task toLowerCase ttsService storyConfig fuel m)).
  { intros m. apply writes_bind; [apply writes_speakByText | done]. }
  unfold handle. destruct engine as [caps |]; [| by intros [H | H]].
  destruct (isStopCommand _ _); [intros [[= <-] | [=]]; apply writes_stop_task |].
  destruct (isEnterAIModeCommand _ _); [intros [[= <-] | [=]]; apply Hspeak |].
  destruct (isExitAIModeCommand _ _); [intros [[= <-] | [=]]; apply Hspeak |].
  cbv zeta.
  destruct (negb _); [by intros [H | H] |].
  destruct (is_empty _); [by intros [H | H] |].
  intros [[=] | [= <-]]. apply writes_chat_task.
Qed.

End WriteFacts.

Lemma speak_write_keeps_depth f : speak_write f -> keeps_queueDepth f.
Proof. by intros [[m ->] | [t ->]] s. Qed.

(** ** The queue depth *)

Lemma lowers_bind {A B : Type} (p : prog A) (f : A -> prog B) :
  lowers_depth p -> (forall a, writes keeps_queueDepth (f a)) ->
  lowers_depth (bind p f).
Proof.
  induction p; simpl; intros Hp Hf; auto; try done.
  destruct Hp as [[Hk Hp] | [Hl Hp]]; [left; auto | right].
  split; [exact Hl |]. by apply writes_bind.
Qed.

Lemma lowers_try_finally {A : Type} (p : prog A) (fin : prog unit) :
  writes keeps_queueDepth p -> lowers_depth fin ->
  lowers_depth (try_finally p fin).
Proof.
  induction p; simpl; intros Hp Hf; auto.
  - by apply lowers_bind.
  - by apply lowers_bind.
  - destruct Hp as [Hk Hp]. left. auto.
Qed.

Lemma lowers_wrappedTask taskType (task : prog value) :
  writes keeps_queueDepth task -> lowers_depth (wrappedTask taskType task).
Proof.
  intros Ht. unfold wrappedTask. apply lowers_try_finally.
  - apply writes_try_catch.
    + apply writes_bind; [exact Ht |]. intros r. simpl. by split.
    + intros e t. simpl. by split.
  - simpl. right. split; [by intros s |]. split; [by intros s |].
    intros t. by split.
Qed.

Lemma keeps_step {A : Type} (E : env) (p p' : prog A) w w' :
  writes keeps_queueDepth p -> step_prog E p w = Some (p', w') ->
  writes keeps_queueDepth p'
  /\ queueDepth (fields w') = queueDepth (fields w).
Proof.
  destruct p; simpl; intros Hp [= <- <-]; auto.
  destruct Hp as [Hf Hk]. split; [exact Hk | apply Hf].
Qed.

Lemma lowers_step {A : Type} (E : env) (p p' : prog A) w w' :
  lowers_depth p -> step_prog E p w = Some (p', w') ->
  (lowers_depth p' /\ queueDepth (fields w') = queueDepth (fields w))
  \/ (writes keeps_queueDepth p'
      /\ queueDepth (fields w') = Z.max 0 (queueDepth (fields w) - 1)).
Proof.
  destruct p; simpl; intros Hp [= <- <-]; auto.
  destruct Hp as [[Hf Hk] | [Hf Hk]]; [left | right]; (split; [exact Hk | apply Hf]).
Qed.

Lemma lowers_unsettled (p : prog value) : lowers_depth p -> settled p = None.
Proof. by destruct p. Qed.

Lemma finished_snoc l e :
  finished (l ++ [e]) = (finished l + if is_finished e then 1 else 0)%nat.
Proof.
  unfold finished. rewrite filter_app, length_app. f_equal.
  destruct e; simpl; try done.
Qed.

Lemma lstep_submitted E s s' : lstep E s s' -> submitted s' = submitted s.
Proof. by destruct 1. Qed.

Lemma owed_count_app (o1 o2 : list bool) :
  length (filter (fun b => b = true) (o1 ++ o2))
  = (length (filter (fun b => b = true) o1)
     + length (filter (fun b => b = true) o2))%nat.
Proof. by rewrite filter_app, length_app. Qed.

Lemma depth_inv_step E s s' :
  Forall (fun sub => writes keeps_queueDepth (sub_task sub)) (submitted s) ->
  depth_inv s -> lstep E s s' -> depth_inv s'.
Proof.
  intros Hsub (Hre & (owed & Howed & Hdepth) & Hcount) Hstep.
  destruct Hstep as [s rs1 r rs2 res task sub Hr Hp Hh Hs
                    | s rs1 r rs2 res Hr Hp Hh
                    | s as1 a as2 p' w' Hrun Hst
                    | s as1 a as2 res Hrun Hset];
    unfold depth_inv; cbn [reactions running lworld submitted qlog].
  - rewrite Hr in Hre, Hdepth, Hcount.
    rewrite length_app in Hdepth, Hcount. cbn [length] in Hdepth, Hcount.
    split; [| split].
    + apply Forall_app in Hre as [H1 H2]. apply Forall_cons in H2 as [_ H2].
      by apply Forall_app.
    + exists (owed ++ [true]). split.
      * apply Forall2_app; [exact Howed |]. constructor; [| constructor].
        unfold owes. cbn [a_code]. apply lowers_wrappedTask.
        rewrite Forall_forall in Hsub. apply Hsub.
        by apply list_elem_of_lookup_2 in Hs.
      * rewrite owed_count_app, length_app. simpl. lia.
    + rewrite finished_snoc, !length_app. simpl. lia.
  - rewrite Hr in Hre. apply Forall_app in Hre as [_ H2].
    apply Forall_cons in H2 as [[[? Hf] [? Hj]] _].
    destruct res; simpl in Hh; congruence.
  - rewrite Hrun in Howed, Hcount.
    apply Forall2_app_inv_r in Howed as (o1 & o2' & Ho1 & Ho2 & ->).
    apply Forall2_cons_inv_r in Ho2 as (b & o2 & Hb & Ho2 & ->).
    rewrite owed_count_app in Hdepth.
    split; [exact Hre |]. split.
    + destruct b.
      * unfold owes in Hb.
        destruct (lowers_step E _ _ _ _ Hb Hst) as [[Hp' Hd] | [Hp' Hd]].
        -- exists (o1 ++ true :: o2). split.
           ++ apply Forall2_app; [exact Ho1 |]. by constructor.
           ++ rewrite owed_count_app, Hd, Hdepth. reflexivity.
        -- exists (o1 ++ false :: o2). split.
           ++ apply Forall2_app; [exact Ho1 |]. by constructor.
           ++ rewrite owed_count_app, Hd, Hdepth.
              rewrite filter_cons_True by done.
              rewrite filter_cons_False by done. simpl. lia.
      * unfold owes in Hb.
        destruct (keeps_step E _ _ _ _ Hb Hst) as [Hp' Hd].
        exists (o1 ++ false :: o2). split.
        -- apply Forall2_app; [exact Ho1 |]. by constructor.
        -- rewrite owed_count_app, Hd, Hdepth. reflexivity.
    + rewrite finished_snoc. rewrite !length_app in *. simpl in *. lia.
  - rewrite Hrun in Howed, Hcount.
    apply Forall2_app_inv_r in Howed as (o1 & o2' & Ho1 & Ho2 & ->).
    apply Forall2_cons_inv_r in Ho2 as (b & o2 & Hb & Ho2 & ->).
    rewrite owed_count_app in Hdepth.
    destruct b.
    { unfold owes in Hb. apply lowers_unsettled in Hb. congruence. }
    rewrite filter_cons_False in Hdepth by done.
    split; [exact Hre |]. split.
    + exists (o1 ++ o2). split; [by apply Forall2_app |].
      by rewrite owed_count_app.
    + rewrite finished_snoc. rewrite !length_app in *. simpl in *. lia.
Qed.

Lemma depth_inv_enqueue s sub : depth_inv s -> depth_inv (enqueueTask sub s).
Proof.
  intros (Hre & (owed & Howed & Hdepth) & Hcount).
  unfold depth_inv, enqueueTask.
  cbn [reactions running lworld submitted qlog with_fields fields
       queueDepth set_queueDepth].
  split; [| split].
  - apply Forall_app. split; [exact Hre |]. repeat constructor; by eexists.
  - exists owed. split; [exact Howed |]. rewrite length_app. simpl. lia.
  - rewrite !length_app. simpl. lia.
Qed.

Lemma depth_inv_reachable E w0 s :
  reachable_from E w0 s -> queueDepth (fields w0) = 0%Z ->
  Forall (fun sub => writes keeps_queueDepth (sub_task sub)) (submitted s) ->
  depth_inv s.
Proof.
  intros Hreach H0.
  induction Hreach as [| s sub _ IH | s s' _ IH Hstep]; intros Hsub.
  - unfold depth_inv. simpl. split; [done |]. split; [| done].
    exists []. by split.
  - apply depth_inv_enqueue. apply IH.
    unfold enqueueTask in Hsub. cbn [submitted] in Hsub.
    by apply Forall_app in Hsub as [Hsub _].
  - rewrite (lstep_submitted _ _ _ Hstep) in Hsub.
    eapply depth_inv_step; eauto.
Qed.

(** X10.  On a server that starts with depth 0 and whose tasks do not
    write the depth themselves, [queueDepth] is at every moment the number
    of submitted tasks that have not settled, less those in flight that
    have already passed the [finally] block of [wrappedTask]: it is never
    negative, never more than the number of unsettled tasks, and equal to
    it whenever no task is in flight. *)
Theorem queue_depth_counts_unsettled (E : env) (w0 : world) (s : loop) :
  reachable_from E w0 s ->
  queueDepth (fields w0) = 0%Z ->
  Forall (fun sub => writes keeps_queueDepth (sub_task sub)) (submitted s) ->
  let unsettled :=
    (Z.of_nat (length (submitted s)) - Z.of_nat (finished (qlog s)))%Z in
  (0 <= queueDepth (fields (lworld s)))%Z
  /\ (unsettled - Z.of_nat (length (running s))
      <= queueDepth (fields (lworld s)) <= unsettled)%Z
  /\ (running s = [] -> queueDepth (fields (lworld s)) = unsettled).
Proof.
  intros Hreach H0 Hsub.
  destruct (depth_inv_reachable E w0 s Hreach H0 Hsub)
    as (_ & (owed & Howed & Hdepth) & Hcount).
  cbv zeta.
  assert (Hle : (length (filter (fun b => b = true) owed) <= length (running s))%nat).
  { rewrite <- (Forall2_length _ _ _ Howed). apply length_filter. }
  split; [lia |]. split; [lia |].
  intros Hrun. rewrite Hrun in Hle, Hcount. simpl in *. lia.
Qed.

(** X11.  A task submitted by an HTTP handler or by the voice interpreter
    writes no field of the server but the last speak mode and its time:
    running it leaves the conversation flag, the queue depth and the
    queue's record of the last task as they were. *)
Theorem tasks_write_speak_fields_only (toLowerCase : jsstring -> jsstring)
    (ttsService : option TTSService) (storyConfig : story_config)
    (wakeupConfig : wakeup_config) (fuel : nat) (E : env) (w : world)
    (sub : submission) :
  (exists body,
      handleSpeak toLowerCase ttsService storyConfig fuel body = Ok sub
      \/ handleChat toLowerCase ttsService storyConfig fuel body = Ok sub
      \/ handlePlay body = Ok sub)
  \/ (exists engine aiMode text,
        snd (handle toLowerCase ttsService storyConfig wakeupConfig fuel
               engine aiMode text) = Awaited sub
        \/ snd (handle toLowerCase ttsService storyConfig wakeupConfig fuel
                  engine aiMode text) = Background sub) ->
  let after := fields (snd (run E (sub_task sub) w)) in
  aiConversationMode after = aiConversationMode (fields w)
  /\ queueDepth after = queueDepth (fields w)
  /\ lastTaskType after = lastTaskType (fields w)
  /\ lastTaskError after = lastTaskError (fields w)
  /\ lastTaskFinishedAt after = lastTaskFinishedAt (fields w).
Proof.
  intros Hsub.
  assert (Hw : writes speak_write (sub_task sub)).
  { destruct Hsub as [[body H] | (engine & aiMode & text & H)].
    - by eapply handler_tasks_write.
    - by eapply voice_tasks_write. }
  cbv zeta.
  apply (writes_run E speak_write
           (fun s s' =>
              aiConversationMode s' = aiConversationMode s
              /\ queueDepth s' = queueDepth s
              /\ lastTaskType s' = lastTaskType s
              /\ lastTaskError s' = lastTaskError s
              /\ lastTaskFinishedAt s' = lastTaskFinishedAt s)); [done | | exact Hw].
  intros f s s' [[m ->] | [t ->]] H; exact H.
Qed.

(** X12.  [wrappedTask] is transparent: it makes the calls of the task and
    settles as the task does, with the same value or error.  On the way out
    it clears [lastTaskError] after a success and records type, message and
    time after a failure, takes the depth down by one, not below 0, and
    notes the task's type and the time. *)
Theorem wrapped_task_is_transparent (E : env) (taskType : jsstring)
    (task : prog value) (w : world) :
  let w1 := snd (run E task w) in
  let w' := snd (run E (wrappedTask taskType task) w) in
  fst (run E (wrappedTask taskType task) w) = fst (run E task w)
  /\ history w' = history w1
  /\ clock w' = clock w1
  /\ forall r, fst (run E task w) = Settled r ->
       lastTaskError (fields w')
       = match r with
         | Ok _ => None
         | Err e => Some {| te_type := taskType; te_message := error_message e;
                            te_at := clock w1 |}
         end
       /\ queueDepth (fields w') = Z.max 0 (queueDepth (fields w1) - 1)
       /\ lastTaskType (fields w') = Some taskType
       /\ lastTaskFinishedAt (fields w') = Some (clock w1)
       /\ lastSpeakMode (fields w') = lastSpeakMode (fields w1)
       /\ lastSpeakAt (fields w') = lastSpeakAt (fields w1)
       /\ aiConversationMode (fields w') = aiConversationMode (fields w1).
Proof.
  cbv zeta. unfold wrappedTask.
  rewrite run_try_finally, run_try_catch, run_bind.
  destruct (run E task w) as [[[v | e] |] w1]; simpl.
  - do 3 (split; [reflexivity |]). intros r [= <-]. repeat split.
  - do 3 (split; [reflexivity |]). intros r [= <-]. repeat split.
  - do 3 (split; [reflexivity |]). intros r [=].
Qed.

(** ** More on speaking *)

Section SpeakMore.

Variable toLowerCase : jsstring -> jsstring.
Variable ttsService : option TTSService.
Variable storyConfig : story_config.
Variable fuel : nat.
Variable E : env.

Local Abbreviation speakByText' := (speakByText toLowerCase ttsService storyConfig fuel).
Local Abbreviation askAndSpeak' := (askAndSpeak toLowerCase ttsService storyConfig fuel).
Local Abbreviation story_loop' := (story_loop toLowerCase ttsService storyConfig fuel).
Local Abbreviation speakStoryMode' :=
  (speakStoryMode toLowerCase ttsService storyConfig fuel).

Lemma run_playByUrl url interrupt blocking w :
  run E (playByUrl url interrupt blocking) w =
  match run E getEngineOrThrow w with
  | (Settled (Ok _), _) =>
    match run E (abort_if interrupt) w with
    | (Settled (Ok _), w1) =>
      match respond E (history w1) (PlayUrl url (Some blocking)) with
      | Ok _ =>
        (Settled (Ok (js "url")),
         after_call E w1 (PlayUrl url (Some blocking))
           (respond E (history w1) (PlayUrl url (Some blocking))))
      | Err m =>
        (Settled (Err m),
         after_call E w1 (PlayUrl url (Some blocking))
           (respond E (history w1) (PlayUrl url (Some blocking))))
      end
    | (Settled (Err m), w1) => (Settled (Err m), w1)
    | (Diverged, w1) => (Diverged, w1)
    end
  | (Settled (Err m), _) => (Settled (Err m), w)
  | (Diverged, _) => (Diverged, w)
  end.
Proof.
  unfold playByUrl. rewrite run_bind.
  destruct (engine_run_cases E w) as [[e0 ->] | ->]; [| done].
  rewrite run_bind.
  destruct (run E (abort_if interrupt) w) as [[[[] | m] |] w1]; [| done | done].
  rewrite run_bind. destruct (play_facts E url (Some blocking) w1) as [-> _].
  by destruct (respond E (history w1) (PlayUrl url (Some blocking))).
Qed.

(** X13.  The interrupt is not covered by any [try]: when
    [abortXiaoAI] fails, a speak, chat or play request fails with that
    error, and the abort is the only call it has made; nothing is spoken,
    asked or played, and the speaker's own voice is not used as a
    fallback. *)
Theorem failed_interrupt_fails_request (w : world) (m : jsstring) :
  engine_ready E w ->
  respond E (history w) AbortXiaoAI = Err m ->
  (forall text storyMode,
      fst (run E (speakByText' text true storyMode) w) = Settled (Err m)
      /\ emitted E (speakByText' text true storyMode) w = [Ev AbortXiaoAI (Err m)])
  /\ (forall text storyMode,
        fst (run E (askAndSpeak' text true storyMode) w) = Settled (Err m)
        /\ emitted E (askAndSpeak' text true storyMode) w = [Ev AbortXiaoAI (Err m)])
  /\ (forall url blocking,
        fst (run E (playByUrl url true blocking) w) = Settled (Err m)
        /\ emitted E (playByUrl url true blocking) w = [Ev AbortXiaoAI (Err m)]).
Proof.
  intros Hready Habort.
  destruct (engine_ready_run E w Hready) as [e0 Heng].
  split; [| split].
  - intros text storyMode.
    rewrite run_speakByText, emitted_speakByText, Heng, run_abort, emitted_abort, Habort.
    done.
  - intros text storyMode.
    rewrite run_askAndSpeak, emitted_askAndSpeak, Heng, run_abort, emitted_abort, Habort.
    done.
  - intros url blocking. split.
    + by rewrite run_playByUrl, Heng, run_abort, Habort.
    + apply emitted_eq. by rewrite run_playByUrl, Heng, run_abort, Habort.
Qed.

Lemma run_abort_if_fields interrupt w o w1 :
  run E (abort_if interrupt) w = (o, w1) -> fields w1 = fields w.
Proof.
  destruct interrupt.
  - rewrite run_abort. by intros [= _ <-].
  - simpl. by intros [= _ <-].
Qed.

(** X14.  A play request makes one play call, for the given URL and with
    the given blocking flag, after the interrupt if one was asked for; it
    settles as that call does, an error reaching the caller as it is, and
    it writes none of the server's fields. *)
Theorem play_passes_through (w w1 : world) (url : jsstring)
    (interrupt blocking : bool) :
  engine_ready E w ->
  run E (abort_if interrupt) w = (Settled (Ok tt), w1) ->
  emitted E (playByUrl url interrupt blocking) w
  = emitted E (abort_if interrupt) w
    ++ [Ev (PlayUrl url (Some blocking))
          (respond E (history w1) (PlayUrl url (Some blocking)))]
  /\ fst (run E (playByUrl url interrupt blocking) w)
     = match respond E (history w1) (PlayUrl url (Some blocking)) with
       | Ok _ => Settled (Ok (js "url"))
       | Err m => Settled (Err m)
       end
  /\ fields (snd (run E (playByUrl url interrupt blocking) w)) = fields w.
Proof.
  intros Hready Habort.
  destruct (engine_ready_run E w Hready) as [e0 Heng].
  pose proof (history_run E (abort_if interrupt) w) as Hh.
  pose proof (run_abort_if_fields _ _ _ _ Habort) as Hf.
  rewrite Habort in Hh. cbn [snd] in Hh.
  split; [| split].
  - apply emitted_eq. rewrite run_playByUrl, Heng, Habort.
    destruct (respond E (history w1) (PlayUrl url (Some blocking)));
      cbn [snd after_call history]; by rewrite Hh, <- app_assoc.
  - rewrite run_playByUrl, Heng, Habort.
    by destruct (respond E (history w1) (PlayUrl url (Some blocking))).
  - rewrite run_playByUrl, Heng, Habort.
    by destruct (respond E (history w1) (PlayUrl url (Some blocking))).
Qed.

(** X15.  With a provider that can synthesize, a single-shot speak whose
    synthesis and play succeed plays exactly the URL that the synthesis
    returned, makes no other call after the interrupt, in particular no
    play with the speaker's own voice, and resolves to the mode "tts:" and
    the provider's name, which it records. *)
Theorem single_shot_plays_synthesized_url (tts : TTSService) (w w1 : world)
    (text u : jsstring) (interrupt : bool) :
  ttsService = Some tts ->
  canSynthesize toLowerCase tts = Ok true ->
  engine_ready E w ->
  run E (abort_if interrupt) w = (Settled (Ok tt), w1) ->
  respond E (history w1) (Synthesize (getProvider toLowerCase tts) text) = Ok u ->
  respond E (history w1 ++ [Ev (Synthesize (getProvider toLowerCase tts) text) (Ok u)])
    (PlayUrl u None) = Ok tt ->
  let mode := js "tts:" ++ or_else (getProvider toLowerCase tts) xiaomi in
  fst (run E (speakByText' text interrupt false) w) = Settled (Ok mode)
  /\ emitted E (speakByText' text interrupt false) w
     = emitted E (abort_if interrupt) w
       ++ [Ev (Synthesize (getProvider toLowerCase tts) text) (Ok u);
           Ev (PlayUrl u None) (Ok tt)]
  /\ lastSpeakMode (fields (snd (run E (speakByText' text interrupt false) w)))
     = Some mode.
Proof.
  intros Hts Hcan Hready Habort Hsynth Hplay. cbv zeta.
  destruct (engine_ready_run E w Hready) as [e0 Heng].
  assert (Hcs : can_synthesize toLowerCase ttsService = Ok true).
  { unfold can_synthesize. by rewrite Hts. }
  assert (Hprov : current_provider toLowerCase ttsService
                  = or_else (getProvider toLowerCase tts) xiaomi).
  { unfold current_provider. by rewrite Hts. }
  assert (Hsyn : synthesize toLowerCase ttsService text
                 = await (Synthesize (getProvider toLowerCase tts) text)).
  { unfold synthesize. rewrite Hts.
    unfold canSynthesize in Hcan.
    destruct (getProviderImpl toLowerCase tts) as [impl | m]; [| discriminate].
    injection Hcan as ->. reflexivity. }
  set (p := getProvider toLowerCase tts) in *.
  set (w2 := after_call E w1 (Synthesize p text) (Ok u)).
  set (w3 := after_call E w2 (PlayUrl u None) (Ok tt)).
  assert (Hext : run E (speak_external toLowerCase ttsService storyConfig fuel
                          (current_provider toLowerCase ttsService) text false) w1
                 = run E (record_speak (js "tts:" ++ or_else p xiaomi)) w3).
  { assert (Hrs : run E (synthesize toLowerCase ttsService text) w1
                  = (Settled (Ok u), w2)).
    { rewrite Hsyn. unfold w2. rewrite <- Hsynth.
      exact (run_await E (Synthesize p text) w1). }
    unfold speak_external. rewrite Hprov, run_bind, Hrs.
    rewrite run_bind. destruct (play_facts E u None w2) as [-> _].
    cbn [history after_call w2]. rewrite Hplay. reflexivity. }
  assert (Hrun : run E (speakByText' text interrupt false) w
                 = run E (record_speak (js "tts:" ++ or_else p xiaomi)) w3).
  { rewrite run_speakByText, Heng, Habort, Hcs, Hext. reflexivity. }
  split; [by rewrite Hrun |]. split; [| by rewrite Hrun].
  apply emitted_eq. rewrite Hrun.
  pose proof (history_run E (abort_if interrupt) w) as Hh.
  rewrite Habort in Hh. cbn [snd] in Hh.
  cbn [run record_speak bind modify snd with_fields history w3 w2 after_call].
  by rewrite Hh, <- !app_assoc.
Qed.

(** X16.  When the configured provider was never registered,
    [canSynthesize] throws outside of the [try]: every speak request fails
    with its error, and apart from the interrupt it makes no call.  The
    speaker's own voice is not used as a fallback. *)
Theorem unregistered_provider_fails_speak (e : jsstring) (w : world)
    (text : jsstring) (interrupt storyMode : bool) :
  can_synthesize toLowerCase ttsService = Err e ->
  Forall (fun ev => is_abort ev = true)
    (emitted E (speakByText' text interrupt storyMode) w)
  /\ (exists m, fst (run E (speakByText' text interrupt storyMode) w)
               = Settled (Err m))
  /\ (engine_ready E w ->
      fst (run E (abort_if interrupt) w) = Settled (Ok tt) ->
      fst (run E (speakByText' text interrupt storyMode) w) = Settled (Err e)).
Proof.
  intros Hcan. rewrite run_speakByText, emitted_speakByText, Hcan.
  pose proof (abort_if_trace E interrupt w) as Htrace.
  assert (Hab : exists r w1, run E (abort_if interrupt) w = (Settled r, w1)).
  { destruct interrupt; [rewrite run_abort; eauto | simpl; eauto]. }
  destruct Hab as (r & w1 & Hab). rewrite Hab in *.
  destruct (engine_run_cases E w) as [[e0 Heng] | Heng]; rewrite Heng.
  - split; [| split].
    + destruct r as [[] | m]; by rewrite app_nil_r.
    + destruct r as [[] | m]; eauto.
    + intros _ Hok. simpl in Hok. by injection Hok as ->.
  - split; [done |]. split; [eauto |].
    intros Hready. destruct (engine_ready_run E w Hready) as [e0 Heng'].
    congruence.
Qed.

Lemma omap_quiet (f : event -> option jsstring) (l : list event) :
  Forall (fun e => f e = None) l -> omap f l = [].
Proof. induction 1 as [| e l He _ IH]; simpl; [done |]. by rewrite He. Qed.

Lemma omap_step (f : event -> option jsstring) (e : event) (l : list event) :
  omap f (e :: l)
  = match f e with Some x => x :: omap f l | None => omap f l end.
Proof. reflexivity. Qed.

Lemma wait_reads w :
  omap synthesized_text (emitted E (waitForAudioComplete storyConfig fuel) w) = []
  /\ omap synthesized_url (emitted E (waitForAudioComplete storyConfig fuel) w) = []
  /\ omap played_url (emitted E (waitForAudioComplete storyConfig fuel) w) = [].
Proof.
  destruct (wait_trace storyConfig fuel E w) as (Hall & _ & _).
  split; [| split]; apply omap_quiet; (eapply Forall_impl; [exact Hall |]);
    intros [[] ?]; done.
Qed.

Lemma play_chunk_reads i (u : jsstring) w :
  omap synthesized_text (emitted E (play_chunk storyConfig fuel i u) w) = []
  /\ omap synthesized_url (emitted E (play_chunk storyConfig fuel i u) w) = []
  /\ (omap played_url (emitted E (play_chunk storyConfig fuel i u) w) = [u]
      \/ (omap played_url (emitted E (play_chunk storyConfig fuel i u) w) = []
          /\ fst (run E (play_chunk storyConfig fuel i u) w) ≠ Settled (Ok tt))).
Proof.
  destruct i as [| i].
  - rewrite emitted_play_chunk_first. split; [done |]. split; [done |]. by left.
  - rewrite emitted_play_chunk_later, run_play_chunk_later.
    destruct (wait_reads w) as (H1 & H2 & H3).
    rewrite !omap_app, H1, H2, H3.
    destruct (run E (waitForAudioComplete storyConfig fuel) w) as [[[[] | m] |] w1];
      simpl; (split; [done |]); (split; [done |]); [by left | by right | by right].
Qed.

Lemma story_loop_reads chunks : forall i w,
  omap synthesized_text (emitted E (story_loop' i chunks) w) `prefix_of` chunks
  /\ omap played_url (emitted E (story_loop' i chunks) w)
     `prefix_of` omap synthesized_url (emitted E (story_loop' i chunks) w)
  /\ (fst (run E (story_loop' i chunks) w) = Settled (Ok tt) ->
      omap synthesized_text (emitted E (story_loop' i chunks) w) = chunks
      /\ omap played_url (emitted E (story_loop' i chunks) w)
         = omap synthesized_url (emitted E (story_loop' i chunks) w)
      /\ length (omap played_url (emitted E (story_loop' i chunks) w))
         = length chunks).
Proof.
  induction chunks as [| c rest IH]; intros i w.
  { rewrite (emitted_eq E _ w []) by (simpl; by rewrite app_nil_r). simpl. done. }
  rewrite emitted_story_cons, run_story_cons.
  destruct (synth_cases toLowerCase ttsService E c w)
    as [(e & -> & ->) | (p & -> & ->)].
  { simpl. split; [apply prefix_nil |]. split; [done | done]. }
  destruct (respond E (history w) (Synthesize p c)) as [u | m].
  2:{ simpl. split; [by apply prefix_cons, prefix_nil |]. split; [done | done]. }
  set (w1 := after_call E w (Synthesize p c) (Ok u)).
  change ([Ev (Synthesize p c) (Ok u)] ++ ?l) with (Ev (Synthesize p c) (Ok u) :: l).
  rewrite !omap_step. cbn [synthesized_text played_url synthesized_url ev_call].
  destruct (play_chunk_reads i u w1) as (H1 & H2 & H3).
  rewrite !omap_app, H1, H2. cbn [app].
  destruct (run E (play_chunk storyConfig fuel i u) w1) as [[[[] | m] |] w2] eqn:Hplay.
  - destruct H3 as [H3 | [_ H3]]; [| done]. rewrite H3.
    destruct (IH (S i) w2) as (Ht & Hp & Hok).
    split; [by apply prefix_cons |]. split; [by apply prefix_cons |].
    intros Hdone. destruct (Hok Hdone) as (-> & -> & Hlen).
    split; [done |]. split; [done |]. simpl. by rewrite <- Hlen.
  - simpl. rewrite !app_nil_r.
    split; [by apply prefix_cons, prefix_nil |]. split; [| done].
    destruct H3 as [-> | [-> _]]; [done | apply prefix_nil].
  - simpl. rewrite !app_nil_r.
    split; [by apply prefix_cons, prefix_nil |]. split; [| done].
    destruct H3 as [-> | [-> _]]; [done | apply prefix_nil].
Qed.

(** X17.  Story mode synthesizes the chunks of [splitTextForStory] and
    nothing else, in their order and one at a time: the texts sent to the
    synthesis are always an initial part of the chunk list, and every URL
    played is one that a synthesis returned, in the order they were
    returned.  When the story returns normally, every chunk was synthesized
    and the URL of every chunk was played, once. *)
Theorem story_synthesizes_chunks_in_order (text : jsstring) (w : world) :
  let trace := emitted E (speakStoryMode' text) w in
  let chunks := story_chunks storyConfig text in
  omap synthesized_text trace `prefix_of` chunks
  /\ omap played_url trace `prefix_of` omap synthesized_url trace
  /\ (fst (run E (speakStoryMode' text) w) = Settled (Ok (js "story")) ->
      omap synthesized_text trace = chunks
      /\ omap played_url trace = omap synthesized_url trace
      /\ length (omap played_url trace) = length chunks).
Proof.
  cbv zeta. rewrite emitted_speakStoryMode, run_speakStoryMode.
  destruct (engine_run_cases E w) as [[e0 ->] | ->].
  - destruct (story_loop_reads (story_chunks storyConfig text) 0%nat w)
      as (Ht & Hp & Hok).
    split; [exact Ht |]. split; [exact Hp |].
    intros Hdone. apply Hok.
    by destruct (run E (story_loop' 0 _) w) as [[[[] | m] |] w1].
  - simpl. split; [apply prefix_nil |]. split; [done | done].
Qed.

End SpeakMore.

(** ** More on story chunking *)

Lemma drop_while_id (p : N -> bool) (s : jsstring) :
  (forall c, head s = Some c -> p c = false) -> drop_while p s = s.
Proof. destruct s as [| c s]; [done |]. simpl. intros H. by rewrite (H c). Qed.

Lemma drop_while_head (p : N -> bool) (s : jsstring) :
  forall c, head (drop_while p s) = Some c -> p c = false.
Proof. destruct (drop_while_split p s) as (ws & _ & _ & H). exact H. Qed.

Lemma trim_ends (s : jsstring) :
  (forall c, head (trim s) = Some c -> is_space c = false)
  /\ (forall c, head (rev (trim s)) = Some c -> is_space c = false).
Proof.
  unfold trim. set (A := drop_while is_space s).
  pose proof (drop_while_head is_space s) as HA. fold A in HA.
  set (B := drop_while is_space (rev A)).
  pose proof (drop_while_head is_space (rev A)) as HB. fold B in HB.
  split; [| by rewrite rev_involutive].
  destruct (drop_while_split is_space (rev A)) as (ws & Hsplit & _ & _).
  fold B in Hsplit.
  assert (HAB : A = rev B ++ rev ws).
  { rewrite <- (rev_involutive A), Hsplit, rev_app_distr. reflexivity. }
  intros c Hc. apply HA. rewrite HAB.
  destruct (rev B) as [| b bs]; [done |]. exact Hc.
Qed.

Lemma trim_fixed (s : jsstring) :
  (forall c, head s = Some c -> is_space c = false) ->
  (forall c, head (rev s) = Some c -> is_space c = false) ->
  trim s = s.
Proof.
  intros H1 H2. unfold trim.
  rewrite (drop_while_id _ s H1), (drop_while_id _ (rev s) H2).
  apply rev_involutive.
Qed.

Lemma trim_idem (s : jsstring) : trim (trim s) = trim s.
Proof. destruct (trim_ends s). by apply trim_fixed. Qed.

Lemma story_step_trim first normal st x :
  story_step first normal st (trim x) = story_step first normal st x.
Proof. unfold story_step. by rewrite trim_idem. Qed.

Lemma story_step_blank first normal st x :
  trim x = [] -> story_step first normal st x = st.
Proof. unfold story_step. intros ->. by destruct st. Qed.

Lemma foldl_clean first normal (l : list jsstring) : forall st,
  foldl (story_step first normal) st l
  = foldl (story_step first normal) st (filter (fun s => s ≠ []) (map trim l)).
Proof.
  induction l as [| x l IH]; intros st; [done |].
  simpl map. destruct (decide (trim x = [])) as [Hx | Hx].
  - rewrite filter_cons_False by (intros H; by apply H).
    simpl. rewrite story_step_blank by done. apply IH.
  - rewrite filter_cons_True by done. simpl.
    rewrite story_step_trim. apply IH.
Qed.

Lemma split_by_clean text first normal :
  splitTextForStory text first normal
  = finish_chunks (foldl (story_step first normal) ([], []) (clean_sentences text)).
Proof.
  unfold splitTextForStory, clean_sentences, finish_chunks.
  rewrite <- foldl_clean.
  by destruct (foldl _ _ _) as [chunks current].
Qed.

Lemma split_no_sentence text first normal :
  clean_sentences text = [] -> splitTextForStory text first normal = [].
Proof. intros H. by rewrite split_by_clean, H. Qed.

(** The groups of sentences that make up the chunks. *)
Lemma story_groups text first normal :
  exists groups : list (list jsstring),
    concat groups = clean_sentences text
    /\ Forall (fun g => g ≠ []) groups
    /\ splitTextForStory text first normal = map join groups.
Proof.
  unfold splitTextForStory, clean_sentences.
  pose proof (foldl_inv (story_step first normal) (story_inv first normal)
                (split_on is_sentence_end text)
                (story_step_inv first normal) [] ([], [])) as Hinv.
  simpl app in Hinv.
  destruct Hinv as (gs & cur & Hcat & Hne & Hst & Hcur & _).
  { exists [], []. repeat split; try done. left. simpl. lia. }
  rewrite Hst. destruct cur as [| s0 cur'].
  - specialize (Hcur eq_refl). subst gs. exists []. simpl in *. done.
  - assert (Hj : is_empty (join (s0 :: cur')) = false).
    { destruct (join (s0 :: cur')) eqn:Hj; [| done].
      by apply join_nil_inv in Hj. }
    rewrite Hj. exists (gs ++ [s0 :: cur']). repeat split.
    + rewrite concat_app. simpl. by rewrite app_nil_r.
    + apply Forall_app. split; [done |]. by constructor.
    + rewrite map_app. reflexivity.
Qed.

Lemma join_concat (groups : list (list jsstring)) :
  concat (map join groups) = join (concat groups).
Proof.
  induction groups as [| g gs IH]; [done |].
  simpl. by rewrite join_app, IH.
Qed.

Lemma split_on_segments (p : N -> bool) (s : jsstring) :
  Forall (Forall (fun c => p c = false)) (split_on p s).
Proof.
  induction s as [| c s IH]; simpl; [by repeat constructor |].
  destruct (split_on p s) as [| seg segs]; [by repeat constructor |].
  apply Forall_cons in IH as [Hseg Hsegs].
  destruct (p c) eqn:Hc; repeat constructor; done.
Qed.

Lemma split_on_nonempty (p : N -> bool) (s : jsstring) : split_on p s ≠ [].
Proof.
  destruct s as [| c s]; simpl; [done |].
  destruct (split_on p s); [done |]. by destruct (p c).
Qed.

Lemma split_on_closed (p : N -> bool) (seg rest : jsstring) (t : N) :
  Forall (fun c => p c = false) seg -> p t = true ->
  split_on p (seg ++ t :: rest) = seg :: split_on p rest.
Proof.
  intros Hseg Ht. induction Hseg as [| c seg Hc _ IH]; simpl.
  - pose proof (split_on_nonempty p rest).
    destruct (split_on p rest); [done |]. by rewrite Ht.
  - rewrite IH, Hc. reflexivity.
Qed.

Lemma split_on_join (cs : list jsstring) :
  Forall (Forall (fun c => is_sentence_end c = false)) cs ->
  split_on is_sentence_end (join cs) = cs ++ [[]].
Proof.
  induction 1 as [| c cs Hc _ IH]; [done |].
  unfold join in *. simpl. unfold closed at 1, full_stop.
  rewrite <- app_assoc. simpl.
  rewrite split_on_closed by done. by rewrite IH.
Qed.

Lemma drop_while_Forall (P : N -> Prop) (p : N -> bool) (s : jsstring) :
  Forall P s -> Forall P (drop_while p s).
Proof.
  induction 1 as [| c s Hc Hs IH]; simpl; [done |].
  destruct (p c); [done | by constructor].
Qed.

Lemma trim_Forall (P : N -> Prop) (s : jsstring) : Forall P s -> Forall P (trim s).
Proof.
  intros H. unfold trim.
  apply Forall_rev, drop_while_Forall, Forall_rev, drop_while_Forall, H.
Qed.

Lemma clean_sentences_facts text :
  Forall (fun c => c ≠ [] /\ trim c = c
                   /\ Forall (fun x => is_sentence_end x = false) c)
    (clean_sentences text).
Proof.
  unfold clean_sentences.
  pose proof (split_on_segments is_sentence_end text) as Hseg.
  induction Hseg as [| seg segs Hs _ IH]; [done |].
  simpl map. destruct (decide (trim seg = [])) as [Hx | Hx].
  - by rewrite filter_cons_False by (intros H; by apply H).
  - rewrite filter_cons_True by done. constructor; [| exact IH].
    split; [done |]. split; [apply trim_idem | by apply trim_Forall].
Qed.

Lemma clean_sentences_join text :
  clean_sentences (join (clean_sentences text)) = clean_sentences text.
Proof.
  pose proof (clean_sentences_facts text) as Hf.
  set (cs := clean_sentences text) in *.
  unfold clean_sentences at 1. rewrite split_on_join.
  2:{ eapply Forall_impl; [exact Hf |]. by intros c (_ & _ & H). }
  rewrite map_app, filter_app. simpl map.
  replace (trim []) with (@nil N) by reflexivity.
  rewrite (filter_cons_False _ []) by (intros H; by apply H).
  rewrite filter_nil, app_nil_r.
  induction Hf as [| c cs' (Hne & Htrim & _) _ IH]; [done |].
  simpl map. rewrite Htrim, filter_cons_True by done. by rewrite IH.
Qed.

(** X18.  The chunks put together are the sentences of the text, each
    closed by a full stop, and splitting that text again gives the same
    chunks: the chunking of an already chunked story is stable. *)
Theorem chunks_resplit_to_themselves (text : jsstring) (first normal : Z) :
  concat (splitTextForStory text first normal) = join (clean_sentences text)
  /\ splitTextForStory (concat (splitTextForStory text first normal)) first normal
     = splitTextForStory text first normal.
Proof.
  assert (Hcat : concat (splitTextForStory text first normal)
                 = join (clean_sentences text)).
  { destruct (story_groups text first normal) as (groups & Hg & _ & ->).
    by rewrite join_concat, Hg. }
  split; [exact Hcat |].
  rewrite Hcat, (split_by_clean (join _)), clean_sentences_join.
  by rewrite <- split_by_clean.
Qed.

Lemma fold_fits first normal (cs : list jsstring) :
  Forall (fun c => c ≠ [] /\ trim c = c
                   /\ Forall (fun x => is_sentence_end x = false) c) cs ->
  forall cur,
    (str_length (cur ++ join cs) <= first)%Z ->
    foldl (story_step first normal) ([], cur) cs = ([], cur ++ join cs).
Proof.
  induction 1 as [| c cs (Hne & Htrim & _) _ IH]; intros cur Hfit.
  { unfold join. simpl. by rewrite app_nil_r. }
  assert (Hjoin : join (c :: cs) = (c ++ full_stop) ++ join cs) by reflexivity.
  rewrite Hjoin in Hfit.
  assert (Hstep : story_step first normal ([], cur) c = ([], cur ++ c ++ full_stop)).
  { unfold story_step. rewrite Htrim.
    destruct c as [| c0 c']; [done |]. cbn [is_empty length Nat.eqb].
    assert (Hsmall : (first <? str_length (cur ++ (c0 :: c') ++ full_stop))%Z = false).
    { apply Z.ltb_ge. unfold str_length in *.
      rewrite !length_app in *. lia. }
    by rewrite Hsmall, andb_false_r. }
  cbn [foldl]. rewrite Hstep.
  rewrite IH by (by rewrite <- !app_assoc in *).
  by rewrite Hjoin, <- !app_assoc.
Qed.

(** X19.  A text whose sentences, closed by their full stops, fit the
    limit of the first chunk together is not split: it makes one chunk
    (and none when it has no sentence at all). *)
Theorem short_text_is_one_chunk (text : jsstring) (first normal : Z) :
  (str_length (join (clean_sentences text)) <= first)%Z ->
  splitTextForStory text first normal
  = match clean_sentences text with
    | [] => []
    | _ :: _ => [join (clean_sentences text)]
    end.
Proof.
  intros Hfit. rewrite split_by_clean.
  rewrite (fold_fits first normal _ (clean_sentences_facts text) []) by exact Hfit.
  unfold finish_chunks. simpl.
  destruct (clean_sentences text) as [| c cs] eqn:Hcs; [done |].
  destruct (join (c :: cs)) eqn:Hj; [by apply join_nil_inv in Hj | done].
Qed.

(** ** Stories and chats *)

Section StoryMore.

Variable toLowerCase : jsstring -> jsstring.
Variable ttsService : option TTSService.
Variable storyConfig : story_config.
Variable fuel : nat.
Variable E : env.

Local Abbreviation speakByText' := (speakByText toLowerCase ttsService storyConfig fuel).
Local Abbreviation askAndSpeak' := (askAndSpeak toLowerCase ttsService storyConfig fuel).
Local Abbreviation story_loop' := (story_loop toLowerCase ttsService storyConfig fuel).
Local Abbreviation speakStoryMode' :=
  (speakStoryMode toLowerCase ttsService storyConfig fuel).
Local Abbreviation speak_external' :=
  (speak_external toLowerCase ttsService storyConfig fuel
     (current_provider toLowerCase ttsService)).

Lemma always_ready_at w : always_ready E -> engine_ready E w.
Proof. intros H. apply (H (history w)). Qed.

(** X20.  A story whose text has no sentence, only sentence marks and
    white space, is reported as told although nothing was said: with a
    provider that can synthesize, the request makes no call after the
    interrupt and resolves to the story mode of the provider. *)
Theorem story_without_sentences_is_silent (text : jsstring) (interrupt : bool)
    (w w1 : world) :
  always_ready E ->
  can_synthesize toLowerCase ttsService = Ok true ->
  clean_sentences text = [] ->
  run E (abort_if interrupt) w = (Settled (Ok tt), w1) ->
  fst (run E (speakByText' text interrupt true) w)
  = Settled (Ok (js "tts:" ++ current_provider toLowerCase ttsService ++ js ":story"))
  /\ emitted E (speakByText' text interrupt true) w
     = emitted E (abort_if interrupt) w.
Proof.
  intros Hready Hcan Hclean Habort.
  destruct (engine_ready_run E w (always_ready_at w Hready)) as [e0 Heng].
  destruct (engine_ready_run E w1 (always_ready_at w1 Hready)) as [e1 Heng1].
  assert (Hchunks : story_chunks storyConfig text = []).
  { unfold story_chunks. cbv zeta. by apply split_no_sentence. }
  assert (Hstory : run E (speakStoryMode' text) w1 = (Settled (Ok (js "story")), w1)).
  { rewrite run_speakStoryMode, Heng1, Hchunks. reflexivity. }
  destruct (run_record_speak E
              (js "tts:" ++ current_provider toLowerCase ttsService ++ js ":story") w1)
    as (w2 & Hrec & Hhist & _).
  assert (Hext : run E (speak_external' text true) w1
                 = (Settled (Ok (js "tts:" ++ current_provider toLowerCase ttsService
                                 ++ js ":story")), w2)).
  { unfold speak_external. rewrite run_bind, Hstory. exact Hrec. }
  assert (Hrun : run E (speakByText' text interrupt true) w
                 = (Settled (Ok (js "tts:" ++ current_provider toLowerCase ttsService
                                 ++ js ":story")), w2)).
  { by rewrite run_speakByText, Heng, Habort, Hcan, Hext. }
  split; [by rewrite Hrun |].
  apply emitted_eq. rewrite Hrun. cbn [snd]. rewrite Hhist.
  pose proof (history_run E (abort_if interrupt) w) as Hh.
  by rewrite Habort in Hh.
Qed.

Lemma story_loop_no_abort chunks : forall i w,
  Forall (fun e => is_abort e = false) (emitted E (story_loop' i chunks) w).
Proof.
  induction chunks as [| c rest IH]; intros i w.
  { by rewrite (emitted_eq E _ w []) by (simpl; by rewrite app_nil_r). }
  rewrite emitted_story_cons.
  destruct (synth_facts toLowerCase ttsService E c w)
    as (out & w1 & Hrun & Hsynth & _ & _).
  rewrite Hrun. apply Forall_app. split.
  { eapply Forall_impl; [exact Hsynth |]. intros [[] ?]; done. }
  destruct out as [u | m]; [| done].
  apply Forall_app. split.
  - destruct i as [| i].
    + rewrite emitted_play_chunk_first. by repeat constructor.
    + rewrite emitted_play_chunk_later. apply Forall_app. split.
      * destruct (wait_trace storyConfig fuel E w1) as (Hall & _ & _).
        eapply Forall_impl; [exact Hall |]. intros [[] ?]; done.
      * destruct (run E (waitForAudioComplete storyConfig fuel) w1)
          as [[[[] | m] |] w2]; by repeat constructor.
  - destruct (run E (play_chunk storyConfig fuel i u) w1) as [[[[] | m] |] w2];
      [apply IH | done | done].
Qed.

Lemma speakByText_no_abort text storyMode w :
  Forall (fun e => is_abort e = false)
    (emitted E (speakByText' text false storyMode) w).
Proof.
  rewrite emitted_speakByText.
  destruct (engine_run_cases E w) as [[e0 ->] | ->]; [| done].
  rewrite emitted_no_abort. simpl app. simpl run.
  assert (Hdefault : forall w', Forall (fun e => is_abort e = false)
                                  (emitted E (default_voice text) w')).
  { intros w'. rewrite emitted_default_voice. by repeat constructor. }
  destruct (can_synthesize toLowerCase ttsService) as [[|] | m]; [| done | done].
  apply Forall_app. split.
  - unfold speak_external. destruct storyMode.
    + rewrite emitted_bind, emitted_speakStoryMode. apply Forall_app. split.
      * destruct (engine_run_cases E w) as [[e1 ->] | ->]; [| done].
        apply story_loop_no_abort.
      * destruct (run E (speakStoryMode' text) w) as [[[? | m] |] w2]; try done.
        by rewrite emitted_record_speak.
    + rewrite emitted_bind.
      destruct (synth_facts toLowerCase ttsService E text w)
        as (out & w2 & Hrun & Hsynth & _ & _).
      rewrite Hrun. apply Forall_app. split.
      { eapply Forall_impl; [exact Hsynth |]. intros [[] ?]; done. }
      destruct out as [u | m]; [| done].
      rewrite emitted_bind. destruct (play_facts E u None w2) as [-> ->].
      apply Forall_app. split; [by repeat constructor |].
      destruct (respond E (history w2) (PlayUrl u None)) as [[] | m]; [| done].
      by rewrite emitted_record_speak.
  - destruct (run E (speak_external' text storyMode) w) as [[[? | m] |] w2]; done.
Qed.

(** X21.  A chat request asks the AI once, after the interrupt.  When the
    AI fails the request fails with its error, and when the reply is empty
    it resolves to no mode and an empty reply: in both cases nothing is
    spoken.  Otherwise the reply is spoken by [speakByText] without a
    second interrupt. *)
Theorem chat_asks_once (text : jsstring) (interrupt storyMode : bool)
    (w w1 : world) :
  engine_ready E w ->
  run E (abort_if interrupt) w = (Settled (Ok tt), w1) ->
  let trace := emitted E (askAndSpeak' text interrupt storyMode) w in
  let w2 := after_call E w1 (AskAI text) (respond E (history w1) (AskAI text)) in
  length (filter (fun e => is_ask e = true) trace) = 1%nat
  /\ match respond E (history w1) (AskAI text) with
     | Err m =>
       fst (run E (askAndSpeak' text interrupt storyMode) w) = Settled (Err m)
       /\ trace = emitted E (abort_if interrupt) w ++ [Ev (AskAI text) (Err m)]
     | Ok reply =>
       if is_empty reply then
         fst (run E (askAndSpeak' text interrupt storyMode) w)
         = Settled (Ok (VChat None []))
         /\ trace = emitted E (abort_if interrupt) w ++ [Ev (AskAI text) (Ok reply)]
       else
         trace = emitted E (abort_if interrupt) w
                 ++ Ev (AskAI text) (Ok reply)
                    :: emitted E (speakByText' reply false storyMode) w2
         /\ Forall (fun e => is_abort e = false)
              (emitted E (speakByText' reply false storyMode) w2)
     end.
Proof.
  intros Hready Habort. cbv zeta.
  destruct (engine_ready_run E w Hready) as [e0 Heng].
  rewrite emitted_askAndSpeak, run_askAndSpeak, Heng, Habort. cbv zeta.
  assert (Hquiet : filter (fun e => is_ask e = true) (emitted E (abort_if interrupt) w)
                   = []).
  { pose proof (abort_if_trace E interrupt w) as Ha.
    induction Ha as [| e l He _ IH]; [done |].
    rewrite filter_cons_False; [exact IH |]. destruct e as [[] ?]; done. }
  rewrite filter_app, Hquiet. cbn [app].
  rewrite filter_cons_True by done. cbn [length]. split.
  - f_equal.
    destruct (respond E (history w1) (AskAI text)) as [reply | m]; [| done].
    destruct (is_empty reply); [done |].
    pose proof (speakByText_no_ask toLowerCase ttsService storyConfig fuel E
                  reply false storyMode
                  (after_call E w1 (AskAI text) (Ok reply))) as Hno.
    induction Hno as [| e l He _ IH]; [done |].
    rewrite filter_cons_False; [exact IH |]. by rewrite He.
  - destruct (respond E (history w1) (AskAI text)) as [reply | m]; [| done].
    destruct (is_empty reply); [done |].
    split; [done | apply speakByText_no_abort].
Qed.

Lemma waits_app (l1 l2 : list event) : waits (l1 ++ l2) = waits l1 ++ waits l2.
Proof. apply List.filter_app. Qed.

Lemma waits_quiet (l : list event) :
  Forall (fun e => is_wait e = false) l -> waits l = [].
Proof.
  unfold waits. induction 1 as [| e l He _ IH]; simpl; [done |]. by rewrite He.
Qed.

Lemma wait_idle w :
  always_ready E -> always_idle E ->
  (0 < waitTimeoutMs storyConfig)%Z -> (1 <= fuel)%nat ->
  run E (waitForAudioComplete storyConfig fuel) w
  = (Settled (Ok tt), after_call E w GetPlayingStatus (Ok false))
  /\ emitted E (waitForAudioComplete storyConfig fuel) w = [poll_idle].
Proof.
  intros Hready Hidle Htime Hfuel.
  destruct (engine_ready_run E w (always_ready_at w Hready)) as [e0 Heng].
  assert (Hrun : run E (waitForAudioComplete storyConfig fuel) w
                 = (Settled (Ok tt), after_call E w GetPlayingStatus (Ok false))).
  { rewrite run_waitForAudioComplete, Heng.
    destruct fuel as [| n]; [lia |].
    rewrite run_wait_loop_S, Z.sub_diag.
    replace (0 <? waitTimeoutMs storyConfig)%Z with true
      by (symmetry; apply Z.ltb_lt; lia).
    by rewrite (Hidle (history w)). }
  split; [exact Hrun |].
  apply emitted_eq. by rewrite Hrun.
Qed.

Lemma synthesize_answers c w :
  can_synthesize toLowerCase ttsService = Ok true -> synthesis_answers E ->
  exists p u,
    run E (synthesize toLowerCase ttsService c) w
    = (Settled (Ok u), after_call E w (Synthesize p c) (Ok u))
    /\ emitted E (synthesize toLowerCase ttsService c) w = [Ev (Synthesize p c) (Ok u)].
Proof.
  intros Hcan Hsyn.
  unfold can_synthesize in Hcan.
  destruct ttsService as [tts |] eqn:Hts; [| discriminate].
  unfold canSynthesize in Hcan.
  assert (Heq : synthesize toLowerCase (Some tts) c
                = await (Synthesize (getProvider toLowerCase tts) c)).
  { unfold synthesize.
    destruct (getProviderImpl toLowerCase tts) as [impl | m]; [| discriminate].
    injection Hcan as ->. reflexivity. }
  set (p := getProvider toLowerCase tts) in *.
  destruct (Hsyn (history w) p c) as [u Hu].
  exists p, u.
  assert (Hrun : run E (synthesize toLowerCase (Some tts) c) w
                 = (Settled (Ok u), after_call E w (Synthesize p c) (Ok u))).
  { rewrite Heq, <- Hu. exact (run_await E (Synthesize p c) w). }
  split; [exact Hrun |].
  apply emitted_eq. by rewrite Hrun.
Qed.

Lemma story_loop_completes chunks :
  always_ready E -> always_idle E -> synthesis_answers E -> plays_succeed E ->
  can_synthesize toLowerCase ttsService = Ok true ->
  (0 < waitTimeoutMs storyConfig)%Z -> (1 <= fuel)%nat ->
  forall i w,
    fst (run E (story_loop' i chunks) w) = Settled (Ok tt)
    /\ waits (emitted E (story_loop' i chunks) w)
       = replicate (if (i =? 0)%nat then Nat.pred (length chunks) else length chunks)
           poll_idle.
Proof.
  intros Hready Hidle Hsyn Hplay Hcan Htime Hfuel.
  induction chunks as [| c rest IH]; intros i w.
  { rewrite (emitted_eq E _ w []) by (simpl; by rewrite app_nil_r).
    simpl. by destruct (i =? 0)%nat. }
  rewrite emitted_story_cons, run_story_cons.
  destruct (synthesize_answers c w Hcan Hsyn) as (p & u & Hrun & Hem).
  rewrite Hrun, Hem.
  set (w1 := after_call E w (Synthesize p c) (Ok u)).
  destruct (IH (S i)) with (w := after_call E
              (if (i =? 0)%nat then w1 else after_call E w1 GetPlayingStatus (Ok false))
              (PlayUrl u None) (Ok tt)) as [Hok Hwaits].
  destruct i as [| i].
  - rewrite run_play_chunk_first, emitted_play_chunk_first.
    rewrite (Hplay (history w1) u None).
    simpl Nat.eqb in Hok, Hwaits |- *. cbv iota in Hok, Hwaits |- *.
    split; [exact Hok |].
    rewrite !waits_app, Hwaits. reflexivity.
  - rewrite run_play_chunk_later, emitted_play_chunk_later.
    destruct (wait_idle w1 Hready Hidle Htime Hfuel) as [Hw Hwe].
    rewrite Hw, Hwe.
    rewrite (Hplay (history (after_call E w1 GetPlayingStatus (Ok false))) u None).
    simpl Nat.eqb in Hok, Hwaits |- *. cbv iota in Hok, Hwaits |- *.
    split; [exact Hok |].
    rewrite !waits_app, Hwaits. reflexivity.
Qed.

(** X30.  A story goes through when nothing is in its way: with a provider
    that can synthesize, an engine that stays ready, a speaker that is idle
    whenever it is asked, every synthesis and play succeeding, a positive
    [waitTimeoutMs] and room for one iteration of the wait loop, a story
    request resolves to the story mode of the provider, every chunk is
    synthesized, and the waiting costs one status poll for each chunk after
    the first and no pause. *)
Theorem story_goes_through_with_idle_speaker (text : jsstring) (interrupt : bool)
    (w w1 : world) :
  always_ready E -> always_idle E -> synthesis_answers E -> plays_succeed E ->
  can_synthesize toLowerCase ttsService = Ok true ->
  (0 < waitTimeoutMs storyConfig)%Z -> (1 <= fuel)%nat ->
  run E (abort_if interrupt) w = (Settled (Ok tt), w1) ->
  let trace := emitted E (speakByText' text interrupt true) w in
  let chunks := story_chunks storyConfig text in
  fst (run E (speakByText' text interrupt true) w)
  = Settled (Ok (js "tts:" ++ current_provider toLowerCase ttsService ++ js ":story"))
  /\ omap synthesized_text trace = chunks
  /\ length (omap played_url trace) = length chunks
  /\ waits trace = replicate (Nat.pred (length chunks)) poll_idle.
Proof.
  intros Hready Hidle Hsyn Hplay Hcan Htime Hfuel Habort. cbv zeta.
  destruct (engine_ready_run E w (always_ready_at w Hready)) as [e0 Heng].
  destruct (engine_ready_run E w1 (always_ready_at w1 Hready)) as [e1 Heng1].
  destruct (story_loop_completes (story_chunks storyConfig text)
              Hready Hidle Hsyn Hplay Hcan Htime Hfuel 0%nat w1) as [Hok Hwaits].
  simpl Nat.eqb in Hwaits. cbv iota in Hwaits.
  destruct (story_loop_reads toLowerCase ttsService storyConfig fuel E
              (story_chunks storyConfig text) 0%nat w1) as (_ & _ & Hreads).
  destruct (Hreads Hok) as (Htexts & _ & Hlen).
  destruct (run E (story_loop' 0 (story_chunks storyConfig text)) w1)
    as [out w2] eqn:Hloop.
  simpl in Hok. subst out.
  assert (Hstory : run E (speakStoryMode' text) w1 = (Settled (Ok (js "story")), w2)).
  { by rewrite run_speakStoryMode, Heng1, Hloop. }
  assert (Hstory_em : emitted E (speakStoryMode' text) w1
                      = emitted E (story_loop' 0 (story_chunks storyConfig text)) w1).
  { by rewrite emitted_speakStoryMode, Heng1. }
  set (mode := js "tts:" ++ current_provider toLowerCase ttsService ++ js ":story").
  destruct (run_record_speak E mode w2) as (w3 & Hrec & Hhist & _).
  assert (Hext : run E (speak_external' text true) w1 = (Settled (Ok mode), w3)).
  { unfold speak_external. rewrite run_bind, Hstory. exact Hrec. }
  assert (Hext_em : emitted E (speak_external' text true) w1
                    = emitted E (story_loop' 0 (story_chunks storyConfig text)) w1).
  { unfold speak_external.
    rewrite emitted_bind, Hstory, emitted_record_speak, app_nil_r. exact Hstory_em. }
  split.
  { by rewrite run_speakByText, Heng, Habort, Hcan, Hext. }
  assert (Hquiet : Forall (fun e => is_abort e = true) (emitted E (abort_if interrupt) w)).
  { apply (abort_if_trace E). }
  assert (Hem : emitted E (speakByText' text interrupt true) w
                = emitted E (abort_if interrupt) w
                  ++ emitted E (story_loop' 0 (story_chunks storyConfig text)) w1).
  { rewrite emitted_speakByText, Heng, Habort, Hcan, Hext, Hext_em.
    by rewrite app_nil_r. }
  rewrite Hem, !omap_app, waits_app.
  rewrite (omap_quiet synthesized_text (emitted E (abort_if interrupt) w)),
          (omap_quiet played_url (emitted E (abort_if interrupt) w)).
  2,3: eapply Forall_impl; [exact Hquiet |]; intros [[] ?]; done.
  replace (waits (emitted E (abort_if interrupt) w)) with (@nil event).
  2:{ symmetry. apply waits_quiet.
      eapply Forall_impl; [exact Hquiet |]. intros [[] ?]; done. }
  done.
Qed.

(** *** Story playback, chunk by chunk *)

(** The first calls of the loop: the synthesis of the first chunk and, when
    it returned a URL, the play of that URL. *)
Lemma story_head_trace c rest w :
  emitted E (story_loop' 0 (c :: rest)) w = []
  \/ exists p r0 tail,
       emitted E (story_loop' 0 (c :: rest)) w
       = Ev (Synthesize p c) r0 ::
         match r0 with
         | Ok u0 =>
           Ev (PlayUrl u0 None)
              (respond E (history w ++ [Ev (Synthesize p c) r0]) (PlayUrl u0 None))
           :: tail
         | Err _ => []
         end.
Proof.
  rewrite emitted_story_cons.
  destruct (synth_cases toLowerCase ttsService E c w)
    as [(e & -> & ->) | (p & -> & ->)]; [by left |].
  right. exists p, (respond E (history w) (Synthesize p c)).
  destruct (respond E (history w) (Synthesize p c)) as [u | m];
    [| by exists []].
  rewrite emitted_play_chunk_first. eexists. reflexivity.
Qed.

Lemma synthesize_is_call :
  can_synthesize toLowerCase ttsService = Ok true ->
  exists p, forall c, synthesize toLowerCase ttsService c = await (Synthesize p c).
Proof.
  unfold can_synthesize, synthesize.
  destruct ttsService as [tts |]; [| discriminate].
  unfold canSynthesize.
  destruct (getProviderImpl toLowerCase tts) as [impl | m]; [| discriminate].
  intros [= ->]. by exists (getProvider toLowerCase tts).
Qed.

(** With a speaker that keeps playing, a later chunk is synthesized and
    then only waited for. *)
Lemma later_chunk_waits_only i chunk rest w :
  always_ready E -> always_busy E -> timers_fire E -> synthesis_answers E ->
  can_synthesize toLowerCase ttsService = Ok true ->
  (1 <= fuel)%nat ->
  (waitTimeoutMs storyConfig
   <= (Z.of_nat fuel - 1) * timer_delay (pollIntervalMs storyConfig))%Z ->
  fst (run E (story_loop' (S i) (chunk :: rest)) w) = Settled (Err wait_timeout)
  /\ (exists p u l,
        emitted E (story_loop' (S i) (chunk :: rest)) w
        = Ev (Synthesize p chunk) (Ok u) :: l
        /\ Forall (fun e => is_wait e = true) l)
  /\ (waitTimeoutMs storyConfig
      <= clock (snd (run E (story_loop' (S i) (chunk :: rest)) w)) - clock w)%Z.
Proof.
  intros Hready Hbusy Hfire Hsyn Hcan Hn Hfuel.
  destruct (synthesize_answers chunk w Hcan Hsyn) as (p & u & Hrun & Hem).
  destruct (later_chunk_times_out toLowerCase ttsService storyConfig fuel E
              i chunk rest w u _ Hready Hbusy Hfire Hn Hfuel Hrun)
    as (Hres & _ & Hclock).
  split; [exact Hres |]. split.
  - exists p, u. rewrite emitted_story_cons, Hrun, Hem.
    rewrite emitted_play_chunk_later, run_play_chunk_later.
    destruct (wait_times_out storyConfig fuel E
                (after_call E w (Synthesize p chunk) (Ok u))
                Hready Hbusy Hfire Hn Hfuel) as [Hout _].
    destruct (wait_trace storyConfig fuel E
                (after_call E w (Synthesize p chunk) (Ok u))) as (Hall & _ & _).
    destruct (run E (waitForAudioComplete storyConfig fuel) _)
      as [[[[] | e] |] w2]; simpl in Hout; try discriminate.
    eexists. split; [reflexivity |]. by rewrite !app_nil_r.
  - etrans; [exact Hclock |].
    cbn [after_call clock].
    assert (0 <= elapsed E (history w) (Synthesize p chunk))%Z
      by (unfold elapsed; lia).
    lia.
Qed.

(** C6.  Story playback, as [speakStoryMode] makes its calls.  The first
    chunk is synthesized first and, when that gave a URL, played at once:
    the second call is never a poll.  Every other play comes immediately
    after a status poll that found the speaker idle, and every poll that
    finds it playing is followed by a pause of [pollIntervalMs].  With a
    speaker that keeps reporting that it is playing, the second chunk is
    synthesized but not played: playback fails with the wait-timeout error
    once [waitTimeoutMs] have gone by, after the one play of the first chunk
    (a fuel of [waitTimeoutMs / pollIntervalMs + 1] iterations suffices for
    the loop to get there); and so does the loop at any later chunk, from
    wherever it has got to.  With a speaker that is idle whenever it is
    asked, every chunk is played, each later one after exactly one poll. *)
Theorem story_playback_waits_for_idle (w : world) (text : jsstring) :
  let trace := emitted E (speakStoryMode' text) w in
  let first := firstChunkMaxChars storyConfig in
  let normal := if (normalChunkMaxChars storyConfig =? 0)%Z then first
                else normalChunkMaxChars storyConfig in
  let chunks := splitTextForStory text first normal in
  (forall e1, trace !! 1%nat = Some e1 ->
     exists p c0 u0 r1,
       head chunks = Some c0
       /\ trace !! 0%nat = Some (Ev (Synthesize p c0) (Ok u0))
       /\ e1 = Ev (PlayUrl u0 None) r1)
  /\ (engine_ready E w ->
      can_synthesize toLowerCase ttsService = Ok true ->
      forall c0, head chunks = Some c0 ->
      exists p r0,
        trace !! 0%nat = Some (Ev (Synthesize p c0) r0)
        /\ forall u0, r0 = Ok u0 ->
             exists r1, trace !! 1%nat = Some (Ev (PlayUrl u0 None) r1))
  /\ (forall n e,
        trace !! n = Some e -> is_play_url e = true ->
        n = 1%nat \/ exists m, n = S (S m) /\ trace !! S m = Some poll_idle)
  /\ (forall n e,
        trace !! n = Some e -> is_busy_poll e = true ->
        exists e', trace !! S n = Some e'
                   /\ ev_call e' = Sleep (pollIntervalMs storyConfig))
  /\ (forall c0 c1 rest,
        always_ready E -> always_busy E -> timers_fire E ->
        synthesis_answers E -> plays_succeed E ->
        can_synthesize toLowerCase ttsService = Ok true ->
        (1 <= fuel)%nat ->
        (waitTimeoutMs storyConfig
         <= (Z.of_nat fuel - 1) * timer_delay (pollIntervalMs storyConfig))%Z ->
        chunks = c0 :: c1 :: rest ->
        fst (run E (speakStoryMode' text) w) = Settled (Err wait_timeout)
        /\ omap synthesized_text trace = [c0; c1]
        /\ (exists u0 u1, omap synthesized_url trace = [u0; u1]
                          /\ omap played_url trace = [u0])
        /\ (waitTimeoutMs storyConfig
            <= clock (snd (run E (speakStoryMode' text) w)) - clock w)%Z)
  /\ (forall i chunk rest w' u w1,
        always_ready E -> always_busy E -> timers_fire E ->
        (1 <= fuel)%nat ->
        (waitTimeoutMs storyConfig
         <= (Z.of_nat fuel - 1) * timer_delay (pollIntervalMs storyConfig))%Z ->
        run E (synthesize toLowerCase ttsService chunk) w' = (Settled (Ok u), w1) ->
        fst (run E (story_loop' (S i) (chunk :: rest)) w') = Settled (Err wait_timeout)
        /\ Forall (fun e => is_play_url e = false)
             (emitted E (story_loop' (S i) (chunk :: rest)) w')
        /\ (waitTimeoutMs storyConfig
            <= clock (snd (run E (story_loop' (S i) (chunk :: rest)) w')) - clock w1)%Z)
  /\ (always_ready E -> always_idle E ->
      synthesis_answers E -> plays_succeed E ->
      can_synthesize toLowerCase ttsService = Ok true ->
      (0 < waitTimeoutMs storyConfig)%Z -> (1 <= fuel)%nat ->
      fst (run E (speakStoryMode' text) w) = Settled (Ok (js "story"))
      /\ omap synthesized_text trace = chunks
      /\ omap played_url trace = omap synthesized_url trace
      /\ length (omap played_url trace) = length chunks
      /\ waits trace = replicate (Nat.pred (length chunks)) poll_idle).
Proof.
  cbv zeta.
  change (splitTextForStory text (firstChunkMaxChars storyConfig)
            (if (normalChunkMaxChars storyConfig =? 0)%Z
             then firstChunkMaxChars storyConfig
             else normalChunkMaxChars storyConfig))
    with (story_chunks storyConfig text).
  destruct (story_trace_gated toLowerCase ttsService storyConfig fuel E w text)
    as (Hgate & Hpace & Hlater).
  split; [| split; [| split; [| split; [| split; [| split]]]]].
  - intros e1 H1. rewrite emitted_speakStoryMode in *.
    destruct (engine_run_cases E w) as [[e0 Heng] | Heng]; rewrite Heng in *;
      [| done].
    destruct (story_chunks storyConfig text) as [| c rest].
    { rewrite (emitted_eq E _ w []) in H1 by (simpl; by rewrite app_nil_r). done. }
    destruct (story_head_trace c rest w) as [Hnil | (p & r0 & tail & Hhead)].
    { by rewrite Hnil in H1. }
    rewrite Hhead in *. destruct r0 as [u0 | m]; [| done].
    simpl in H1. injection H1 as <-. exists p, c, u0. eexists. done.
  - intros Hready Hcan c0 Hc0. rewrite emitted_speakStoryMode.
    destruct (engine_ready_run E w Hready) as [e0 ->].
    destruct (story_chunks storyConfig text) as [| c rest]; [done |].
    injection Hc0 as ->.
    destruct (synthesize_is_call Hcan) as [p Hp].
    assert (Hem : emitted E (synthesize toLowerCase ttsService c0) w
                  = [Ev (Synthesize p c0) (respond E (history w) (Synthesize p c0))])
      by (rewrite Hp; exact (emitted_await E (Synthesize p c0) w)).
    assert (Hrun : run E (synthesize toLowerCase ttsService c0) w
                   = (Settled (respond E (history w) (Synthesize p c0)),
                      after_call E w (Synthesize p c0)
                        (respond E (history w) (Synthesize p c0))))
      by (rewrite Hp; exact (run_await E (Synthesize p c0) w)).
    rewrite emitted_story_cons, Hem, Hrun.
    exists p, (respond E (history w) (Synthesize p c0)).
    split; [reflexivity |]. intros u0 ->.
    rewrite emitted_play_chunk_first. eexists. reflexivity.
  - intros n e Hn Hplay. destruct (Hgate n e Hn Hplay) as [[-> _] | H]; auto.
  - exact Hpace.
  - intros c0 c1 rest Hready Hbusy Hfire Hsyn Hplay Hcan Hn Hfuel Hchunks.
    rewrite emitted_speakStoryMode, run_speakStoryMode.
    destruct (engine_ready_run E w (always_ready_at w Hready)) as [e0 ->].
    rewrite Hchunks, emitted_story_cons, run_story_cons.
    destruct (synthesize_answers c0 w Hcan Hsyn) as (p0 & u0 & Hrun0 & Hem0).
    rewrite Hrun0, Hem0, run_play_chunk_first, emitted_play_chunk_first.
    set (w1 := after_call E w (Synthesize p0 c0) (Ok u0)).
    rewrite (Hplay (history w1) u0 None).
    set (w2 := after_call E w1 (PlayUrl u0 None) (Ok tt)).
    destruct (later_chunk_waits_only 0 c1 rest w2 Hready Hbusy Hfire Hsyn Hcan
                Hn Hfuel) as (Hres & (p1 & u1 & l & Hl & Hwait) & Hclock).
    destruct (run E (story_loop' 1 (c1 :: rest)) w2) as [out w3] eqn:Hloop.
    simpl in Hres. subst out. rewrite Hl. cbn [fst snd] in *.
    split; [reflexivity |].
    assert (Hq : forall f : event -> option jsstring,
               (forall e, is_wait e = true -> f e = None) -> omap f l = []).
    { intros f Hf. apply omap_quiet. eapply Forall_impl; [exact Hwait |]. exact Hf. }
    split; [| split].
    + cbn [app]. rewrite !omap_step. cbn [synthesized_text ev_call].
      rewrite Hq; [done |]. intros [[] ?]; done.
    + exists u0, u1. cbn [app]. rewrite !omap_step.
      cbn [synthesized_url played_url ev_call].
      rewrite !Hq; [done | |]; intros [[] ?]; done.
    + etrans; [exact Hclock |].
      assert (0 <= elapsed E (history w) (Synthesize p0 c0))%Z
        by (unfold elapsed; lia).
      assert (0 <= elapsed E (history w1) (PlayUrl u0 None))%Z
        by (unfold elapsed; lia).
      subst w2 w1. cbn [after_call clock]. lia.
  - exact Hlater.
  - intros Hready Hidle Hsyn Hplay Hcan Htime Hfuel.
    rewrite emitted_speakStoryMode, run_speakStoryMode.
    destruct (engine_ready_run E w (always_ready_at w Hready)) as [e0 ->].
    destruct (story_loop_completes (story_chunks storyConfig text)
                Hready Hidle Hsyn Hplay Hcan Htime Hfuel 0%nat w) as [Hok Hwaits].
    simpl Nat.eqb in Hwaits. cbv iota in Hwaits.
    destruct (story_loop_reads toLowerCase ttsService storyConfig fuel E
                (story_chunks storyConfig text) 0%nat w) as (_ & _ & Hreads).
    destruct (Hreads Hok) as (Htexts & Hurls & Hlen).
    destruct (run E (story_loop' 0 (story_chunks storyConfig text)) w)
      as [out w1] eqn:Hloop.
    simpl in Hok. subst out. done.
Qed.

End StoryMore.

(** ** More on the voice interpreter *)

Lemma remove_all_spec (p : N -> bool) (s : jsstring) :
  Forall (fun c => p c = false) (remove_all p s).
Proof.
  unfold remove_all. induction s as [| c s IH]; [done |].
  destruct (p c) eqn:Hc.
  - by rewrite filter_cons_False by congruence.
  - rewrite filter_cons_True by done. by constructor.
Qed.

Lemma remove_all_id (p : N -> bool) (s : jsstring) :
  Forall (fun c => p c = false) s -> remove_all p s = s.
Proof.
  unfold remove_all. induction 1 as [| c s Hc _ IH]; [done |].
  rewrite filter_cons_True by done. by rewrite IH.
Qed.

Lemma remove_all_Forall (P : N -> Prop) (p : N -> bool) (s : jsstring) :
  Forall P s -> Forall P (remove_all p s).
Proof.
  unfold remove_all. induction 1 as [| c s Hc _ IH]; [done |].
  destruct (p c) eqn:Hpc.
  - by rewrite filter_cons_False by congruence.
  - rewrite filter_cons_True by done. by constructor.
Qed.

Lemma trim_no_space (s : jsstring) :
  Forall (fun c => is_space c = false) s -> trim s = s.
Proof.
  intros H. apply trim_fixed.
  - intros c Hc. destruct s as [| c0 s]; [done |].
    injection Hc as ->. by apply Forall_cons in H as [H _].
  - intros c Hc. apply Forall_rev in H.
    destruct (rev s) as [| c0 r]; [done |].
    injection Hc as ->. by apply Forall_cons in H as [H _].
Qed.

(** X22.  A normalized text holds no white space and none of the eight
    punctuation marks, wherever they stood in the utterance, and
    normalizing it again changes nothing; so the stop keywords and the
    enter and exit phrases match whatever punctuation and spacing the
    utterance or the configuration carries. *)
Theorem normalized_text_is_plain (text : jsstring) :
  Forall (fun c => is_space c = false /\ is_punct c = false) (normalizeText text)
  /\ normalizeText (normalizeText text) = normalizeText text.
Proof.
  assert (Hs : Forall (fun c => is_space c = false) (normalizeText text)).
  { unfold normalizeText. apply remove_all_Forall, remove_all_spec. }
  assert (Hp : Forall (fun c => is_punct c = false) (normalizeText text)).
  { unfold normalizeText. apply remove_all_spec. }
  split.
  - rewrite Forall_forall in Hs, Hp. apply Forall_forall. intros c Hc. auto.
  - unfold normalizeText at 1.
    rewrite (trim_no_space _ Hs), (remove_all_id _ _ Hs).
    by apply remove_all_id.
Qed.

Lemma starts_with_prefix (sub b : jsstring) : starts_with sub (sub ++ b) = true.
Proof. induction sub as [| c sub IH]; [done |]. simpl. by rewrite N.eqb_refl. Qed.

Lemma includes_infix (sub s : jsstring) :
  includes sub s = true <-> exists a b, s = a ++ sub ++ b.
Proof.
  unfold includes. split.
  - destruct (indexOf sub s) as [i |] eqn:Hi; [| done]. intros _.
    destruct (indexOf_first sub s i Hi) as [Heq _]. eauto.
  - intros (a & b & ->). induction a as [| c a IH].
    + simpl app. destruct sub as [| s0 sub'].
      * by destruct b.
      * cbn [indexOf app]. fold (app (A := N)).
        change (s0 :: sub' ++ b) with ((s0 :: sub') ++ b).
        by rewrite starts_with_prefix.
    + simpl. destruct (starts_with sub (c :: a ++ sub ++ b)); [done |].
      by destruct (indexOf sub (a ++ sub ++ b)).
Qed.

Lemma run_wrappedTask_returns (E : env) taskType (task : prog value) w :
  fst (run E (wrappedTask taskType task) w) = fst (run E task w)
  /\ forall v, fst (run E task w) = Settled (Ok v) ->
       lastTaskError (fields (snd (run E (wrappedTask taskType task) w))) = None.
Proof.
  unfold wrappedTask. rewrite run_try_finally, run_try_catch, run_bind.
  destruct (run E task w) as [[[v | e] |] w1]; simpl; (split; [reflexivity |]);
    by intros v' [=].
Qed.

Section VoiceMore.

Variable toLowerCase : jsstring -> jsstring.
Variable ttsService : option TTSService.
Variable storyConfig : story_config.
Variable wakeupConfig : wakeup_config.
Variable fuel : nat.

Local Abbreviation handle' :=
  (handle toLowerCase ttsService storyConfig wakeupConfig fuel).
Local Abbreviation chat_task' := (chat_task toLowerCase ttsService storyConfig fuel).

Lemma isStopCommand_spec normalizedText :
  isStopCommand wakeupConfig normalizedText = true
  <-> exists keyword a b,
        keyword ∈ stopKeywords wakeupConfig
        /\ normalizedText = a ++ normalizeText keyword ++ b.
Proof.
  unfold isStopCommand. rewrite existsb_exists. split.
  - intros (k & Hk & Hinc). apply includes_infix in Hinc as (a & b & Heq).
    exists k, a, b. split; [by apply list_elem_of_In | exact Heq].
  - intros (k & a & b & Hk & Heq). exists k.
    split; [by apply list_elem_of_In |]. apply includes_infix. eauto.
Qed.

(** X23.  With the engine there, an utterance is taken as a stop command,
    before anything else is looked at and leaving the conversation flag as
    it is, exactly when the normalized form of some stop keyword occurs
    somewhere in the normalized utterance.  A stop keyword that normalizes
    to the empty string, one made of punctuation and spaces only, therefore
    turns every utterance into a stop command. *)
Theorem stop_command_is_a_substring_match (caps : engine_caps) (aiMode : bool)
    (text : jsstring) :
  (handle' (Some caps) aiMode text
   = (aiMode, Awaited {| sub_type := js "voice:stop"; sub_task := stop_task caps |})
   <-> exists keyword a b,
         keyword ∈ stopKeywords wakeupConfig
         /\ normalizeText text = a ++ normalizeText keyword ++ b)
  /\ ((exists keyword, keyword ∈ stopKeywords wakeupConfig
                       /\ normalizeText keyword = []) ->
      handle' (Some caps) aiMode text
      = (aiMode, Awaited {| sub_type := js "voice:stop"; sub_task := stop_task caps |})).
Proof.
  assert (Hiff : handle' (Some caps) aiMode text
                 = (aiMode, Awaited {| sub_type := js "voice:stop";
                                       sub_task := stop_task caps |})
                 <-> isStopCommand wakeupConfig (normalizeText text) = true).
  { unfold handle.
    destruct (isStopCommand wakeupConfig (normalizeText text)); [done |].
    split; [| done].
    destruct (isEnterAIModeCommand _ _); [intros [= _ H]; discriminate H |].
    destruct (isExitAIModeCommand _ _); [intros [= _ H]; discriminate H |].
    cbv zeta. destruct (negb _); [intros [=] |].
    destruct (is_empty _); [intros [=] | intros [= H]; discriminate H]. }
  split.
  - rewrite Hiff. apply isStopCommand_spec.
  - intros (k & Hk & Hempty). apply Hiff, isStopCommand_spec.
    exists k, [], (normalizeText text). by rewrite Hempty.
Qed.

(** X24.  An utterance is left to the speaker's own assistant exactly when
    the engine is there, the utterance is no stop, enter or exit command,
    conversation mode is off and no wake keyword occurs in it.  In
    conversation mode no utterance is left out: without a wake keyword the
    whole utterance, as it was heard, is the query. *)
Theorem utterance_left_to_speaker (engine : option engine_caps) (aiMode : bool)
    (text : jsstring) :
  (snd (handle' engine aiMode text) = Ignored
   <-> engine ≠ None
       /\ isStopCommand wakeupConfig (normalizeText text) = false
       /\ isEnterAIModeCommand wakeupConfig (normalizeText text) = false
       /\ isExitAIModeCommand wakeupConfig (normalizeText text) = false
       /\ aiMode = false
       /\ forall k, findMatchedKeyword wakeupConfig text = Some k -> k = [])
  /\ (engine ≠ None -> aiMode = true ->
      isStopCommand wakeupConfig (normalizeText text) = false ->
      isEnterAIModeCommand wakeupConfig (normalizeText text) = false ->
      isExitAIModeCommand wakeupConfig (normalizeText text) = false ->
      findMatchedKeyword wakeupConfig text = None ->
      handle' engine aiMode text
      = (true, if is_empty text then HandledOnly
               else Background {| sub_type := js "voice:chat";
                                  sub_task := chat_task' text |})).
Proof.
  unfold handle. destruct engine as [caps |].
  2:{ split; [| done]. split; [done | by intros [H _]]. }
  destruct (isStopCommand wakeupConfig (normalizeText text)).
  { split; [| done]. split; [done | by intros (_ & H & _)]. }
  destruct (isEnterAIModeCommand wakeupConfig (normalizeText text)).
  { split; [| done]. split; [done | by intros (_ & _ & H & _)]. }
  destruct (isExitAIModeCommand wakeupConfig (normalizeText text)).
  { split; [| done]. split; [done | by intros (_ & _ & _ & H & _)]. }
  cbv zeta. split.
  - destruct aiMode; cbn [orb negb].
    + split; [| by intros (_ & _ & _ & _ & H & _)].
      by destruct (is_empty _).
    + destruct (findMatchedKeyword wakeupConfig text) as [[| k0 ks] |];
        cbn [is_empty negb orb].
      * split; [intros _; split_and!; try done; by intros k [= <-] | done].
      * split; [by destruct (is_empty _) |].
        intros (_ & _ & _ & _ & _ & H). by specialize (H _ eq_refl).
      * split; [intros _; split_and!; try done | done].
  - intros _ -> _ _ _ ->. cbn [orb negb]. by destruct (is_empty text).
Qed.

Lemma drop_while_nil_iff (p : N -> bool) (s : jsstring) :
  drop_while p s = [] <-> Forall (fun c => p c = true) s.
Proof.
  induction s as [| c s IH]; simpl; [done |].
  destruct (p c) eqn:Hc.
  - rewrite IH. split; [by constructor | by intros [_ H]%Forall_cons].
  - split; [done |]. intros [H _]%Forall_cons. congruence.
Qed.

Lemma trim_split (s : jsstring) :
  exists ws1 ws2,
    s = ws1 ++ trim s ++ ws2
    /\ Forall (fun c => is_space c = true) ws1
    /\ Forall (fun c => is_space c = true) ws2.
Proof.
  unfold trim.
  destruct (drop_while_split is_space s) as (ws1 & Hs & Hws1 & _).
  destruct (drop_while_split is_space (rev (drop_while is_space s)))
    as (ws2 & Hr & Hws2 & _).
  exists ws1, (rev ws2). split; [| split; [done | by apply Forall_rev]].
  rewrite <- rev_app_distr, <- Hr, rev_involutive. exact Hs.
Qed.

Lemma space_is_lead c : is_space c = true -> is_intent_lead c = true.
Proof. unfold is_intent_lead. intros ->. by rewrite !orb_true_r. Qed.

Lemma head_rev_last {A : Type} (l : list A) : head (rev l) = last l.
Proof.
  rewrite <- (rev_involutive l) at 2.
  destruct (rev l) as [| c r]; [done |].
  simpl. by rewrite last_snoc.
Qed.

Lemma drop_while_last (p : N -> bool) (s : jsstring) c :
  last (drop_while p s) = Some c -> last s = Some c.
Proof.
  destruct (drop_while_split p s) as (ws & Hs & _ & _).
  intros Hl. rewrite Hs, last_app, Hl. reflexivity.
Qed.

(** X25.  The intent taken from an utterance never begins with white
    space, a colon or one of the punctuation marks, and never ends with
    white space.  It is empty exactly when nothing but such characters
    follows the wake keyword.  For an utterance that is no command and
    whose wake keyword, the first configured keyword found in it, is not
    empty, that is exactly when the utterance is reported as handled with
    nothing queued, in either mode.  When the wake keyword is the empty
    one, no intent is extracted: the utterance is reported as handled with
    nothing queued only in conversation mode and when it is empty itself. *)
Theorem intent_is_empty_iff (caps : engine_caps) (aiMode : bool)
    (text k : jsstring) :
  (extractUserIntent text k = []
   <-> Forall (fun c => is_intent_lead c = true) (after_keyword text k))
  /\ (forall c, head (extractUserIntent text k) = Some c -> is_intent_lead c = false)
  /\ (forall c, last (extractUserIntent text k) = Some c -> is_space c = false)
  /\ (isStopCommand wakeupConfig (normalizeText text) = false ->
      isEnterAIModeCommand wakeupConfig (normalizeText text) = false ->
      isExitAIModeCommand wakeupConfig (normalizeText text) = false ->
      findMatchedKeyword wakeupConfig text = Some k -> k ≠ [] ->
      (handle' (Some caps) aiMode text = (aiMode, HandledOnly)
       <-> Forall (fun c => is_intent_lead c = true) (after_keyword text k)))
  /\ (isStopCommand wakeupConfig (normalizeText text) = false ->
      isEnterAIModeCommand wakeupConfig (normalizeText text) = false ->
      isExitAIModeCommand wakeupConfig (normalizeText text) = false ->
      findMatchedKeyword wakeupConfig text = Some [] ->
      (handle' (Some caps) aiMode text = (aiMode, HandledOnly)
       <-> aiMode = true /\ text = [])).
Proof.
  assert (Hempty : extractUserIntent text k = []
                   <-> Forall (fun c => is_intent_lead c = true)
                         (after_keyword text k)).
  { unfold extractUserIntent. rewrite drop_while_nil_iff.
    destruct (trim_split (after_keyword text k)) as (ws1 & ws2 & Heq & H1 & H2).
    split.
    - intros Ht. rewrite Heq. rewrite !Forall_app. split; [| split; [done |]].
      + eapply Forall_impl; [exact H1 |]. apply space_is_lead.
      + eapply Forall_impl; [exact H2 |]. apply space_is_lead.
    - apply trim_Forall. }
  split; [exact Hempty |]. split; [| split; [| split]].
  - unfold extractUserIntent. apply drop_while_head.
  - unfold extractUserIntent. intros c Hc. apply drop_while_last in Hc.
    rewrite <- head_rev_last in Hc.
    by destruct (trim_ends (after_keyword text k)) as [_ H]; apply H.
  - intros Hstop Henter Hexit Hfind Hk. rewrite <- Hempty.
    unfold handle. rewrite Hstop, Henter, Hexit, Hfind.
    destruct k as [| k0 ks]; [done |].
    cbn [is_empty negb]. rewrite orb_true_r. cbn [negb].
    destruct (extractUserIntent text (k0 :: ks)); cbn [is_empty]; [done |].
    split; [intros [=] | done].
  - intros Hstop Henter Hexit Hfind.
    unfold handle. rewrite Hstop, Henter, Hexit, Hfind.
    cbn [is_empty negb]. rewrite orb_false_r.
    destruct aiMode; cbn [negb].
    + destruct text as [| c text']; cbn [is_empty].
      * done.
      * split; [intros [=] | intros [_ [=]]].
    + split; [intros [=] | intros [[=] _]].
Qed.

(** X26.  The task of a voice query never rejects: whatever fails in it,
    the interrupt, the AI or the speaking of the reply, is caught and
    logged, so the queue never records an error for it.  Its first call is
    the interrupt, and when that fails the query is dropped without the AI
    being asked.  The task of a stop command never rejects either: it
    always makes the interrupt call and, whatever that answers, goes on to
    [MiNA.stop], which it calls exactly when the engine has its [MiNA];
    without it the TypeError is caught and nothing more is called. *)
Theorem voice_tasks_never_reject (E : env) (w : world) (userText : jsstring) :
  (fst (run E (chat_task' userText) w) = Settled (Ok VUndefined)
   \/ fst (run E (chat_task' userText) w) = Diverged)
  /\ head (emitted E (chat_task' userText) w)
     = Some (Ev AbortXiaoAI (respond E (history w) AbortXiaoAI))
  /\ (forall m, respond E (history w) AbortXiaoAI = Err m ->
        emitted E (chat_task' userText) w = [Ev AbortXiaoAI (Err m)])
  /\ (forall r,
        fst (run E (wrappedTask (js "voice:chat") (chat_task' userText)) w)
        = Settled r ->
        r = Ok VUndefined
        /\ lastTaskError
             (fields (snd (run E (wrappedTask (js "voice:chat")
                                    (chat_task' userText)) w))) = None)
  /\ (forall caps, fst (run E (stop_task caps) w) = Settled (Ok VUndefined))
  /\ (forall caps, exists r1 r2,
        emitted E (stop_task caps) w
        = Ev AbortXiaoAI r1 :: (if MiNA caps then [Ev MiNAStop r2] else [])).
Proof.
  set (body :=
    let* _ := await AbortXiaoAI in
    let storyMode := isStoryRequest storyConfig userText in
    let aiText := if storyMode then userText ++ [0x0A] ++ systemPrompt storyConfig
                  else userText in
    let* replyText := await (AskAI aiText) in
    if is_empty replyText then Ret VUndefined
    else
      let* _ := speakByText toLowerCase ttsService storyConfig fuel
                  replyText false storyMode in
      Ret VUndefined).
  assert (Hchat : chat_task' userText = try_catch body (fun _ => Ret VUndefined))
    by reflexivity.
  assert (Hbody : forall v, fst (run E body w) = Settled (Ok v) -> v = VUndefined).
  { intros v. unfold body. rewrite run_bind, run_abort. cbn [fst snd].
    destruct (respond E (history w) AbortXiaoAI) as [[] | m]; [| done].
    cbv zeta. rewrite run_bind.
    match goal with |- context [run E (await (AskAI ?t)) ?w1] =>
      destruct (run_ask E t w1) as [-> _];
      destruct (respond E (history w1) (AskAI t)) as [reply | m]; [| done]
    end.
    destruct (is_empty reply); [by intros [= <-] |].
    rewrite run_bind.
    match goal with |- context [run E (speakByText ?a ?b ?c ?d ?e ?f ?g) ?w2] =>
      destruct (run E (speakByText a b c d e f g) w2) as [[[mode | m] |] w3]
    end; [by intros [= <-] | done | done]. }
  assert (Hres : fst (run E (chat_task' userText) w) = Settled (Ok VUndefined)
                 \/ fst (run E (chat_task' userText) w) = Diverged).
  { rewrite Hchat, run_try_catch.
    destruct (run E body w) as [[[v | m] |] w1] eqn:Hb; cbn [fst].
    - left. f_equal. f_equal. by apply Hbody.
    - by left.
    - by right. }
  assert (Hem : exists rest,
            emitted E body w
            = Ev AbortXiaoAI (respond E (history w) AbortXiaoAI) :: rest
            /\ forall m, respond E (history w) AbortXiaoAI = Err m ->
                  rest = [] /\ exists w1, run E body w = (Settled (Err m), w1)).
  { unfold body. rewrite emitted_bind, run_bind.
    change (await AbortXiaoAI) with (abort_if true).
    rewrite emitted_abort, run_abort.
    destruct (respond E (history w) AbortXiaoAI) as [[] | m0].
    - eexists. split; [reflexivity |]. intros m [=].
    - exists []. split; [reflexivity |]. intros m [= <-]. eauto. }
  destruct Hem as (rest & Hem & Hfail).
  split; [exact Hres |]. split; [| split; [| split; [| split]]].
  - rewrite Hchat, emitted_try_catch, Hem. reflexivity.
  - intros m Hm. destruct (Hfail m Hm) as (-> & w1 & Hrun).
    rewrite Hchat, emitted_try_catch, Hem, Hrun, Hm.
    by rewrite (emitted_eq E _ _ []) by (simpl; by rewrite app_nil_r).
  - intros r Hr.
    destruct (run_wrappedTask_returns E (js "voice:chat")
                (chat_task' userText) w) as (Hfst & Hfields).
    rewrite Hfst in Hr.
    destruct Hres as [Hres | Hres]; rewrite Hres in Hr; [| discriminate].
    injection Hr as <-. split; [done |]. by apply (Hfields VUndefined).
  - intros caps. unfold stop_task. rewrite run_bind, run_try_catch, run_abort.
    destruct (MiNA caps);
      destruct (respond E (history w) AbortXiaoAI) as [[] | m]; simpl; try done;
      match goal with |- context [respond E ?h MiNAStop] =>
        by destruct (respond E h MiNAStop) as [[] | m']
      end.
  - intros caps.
    exists (respond E (history w) AbortXiaoAI),
           (respond E (history w ++ [Ev AbortXiaoAI (respond E (history w) AbortXiaoAI)])
              MiNAStop).
    unfold stop_task. apply emitted_eq.
    rewrite run_bind, run_try_catch, run_abort.
    destruct (MiNA caps);
      destruct (respond E (history w) AbortXiaoAI) as [[] | m]; simpl;
      try reflexivity;
      match goal with |- context [respond E ?h MiNAStop] =>
        destruct (respond E h MiNAStop) as [[] | m']
      end; simpl; rewrite <- app_assoc; simpl; reflexivity.
Qed.

(** X29.  With the engine there, an utterance switches conversation mode
    on, whatever the mode was, exactly when it is no stop command and its
    normalized form is that of a configured enter phrase; a phrase that is
    configured for entering and for leaving enters.  The flag is set before
    the announcement is queued, so it is on also when the announcement
    fails; the announcement is spoken with an interrupt and never asks the
    AI. *)
Theorem enter_phrase_switches_mode_on (caps : engine_caps) (aiMode : bool)
    (text : jsstring) :
  (handle' (Some caps) aiMode text
   = (true, Awaited {| sub_type := js "voice:enter-ai-mode";
                       sub_task := speak_task toLowerCase ttsService storyConfig
                                     fuel (enterMessage wakeupConfig) |})
   <-> isStopCommand wakeupConfig (normalizeText text) = false
       /\ exists phrase, phrase ∈ enterAIMode wakeupConfig
                         /\ normalizeText text = normalizeText phrase)
  /\ speak_task toLowerCase ttsService storyConfig fuel (enterMessage wakeupConfig)
     = (let* mode := speakByText toLowerCase ttsService storyConfig fuel
                       (enterMessage wakeupConfig) true false in
        Ret (VStr mode))
  /\ forall E w,
       Forall (fun e => is_ask e = false)
         (emitted E (speak_task toLowerCase ttsService storyConfig fuel
                       (enterMessage wakeupConfig)) w).
Proof.
  split; [| split; [reflexivity | intros E w; apply speak_task_no_ask]].
  assert (Henter : isEnterAIModeCommand wakeupConfig (normalizeText text) = true
                   <-> exists phrase, phrase ∈ enterAIMode wakeupConfig
                                      /\ normalizeText text = normalizeText phrase).
  { unfold isEnterAIModeCommand. rewrite existsb_exists. split.
    - intros (k & Hk & Heq). apply str_eqb_eq in Heq.
      exists k. split; [by apply list_elem_of_In | exact Heq].
    - intros (k & Hk & Heq). exists k. split; [by apply list_elem_of_In |].
      unfold str_eqb. by apply bool_decide_eq_true. }
  rewrite <- Henter. unfold handle.
  destruct (isStopCommand wakeupConfig (normalizeText text)).
  { split; [intros [= _ H]; discriminate H | by intros [H _]]. }
  destruct (isEnterAIModeCommand wakeupConfig (normalizeText text)); [done |].
  split; [| by intros [_ H]].
  destruct (isExitAIModeCommand _ _); [intros [= H]; discriminate H |].
  cbv zeta. destruct (negb _); [intros [= _ H]; discriminate H |].
  destruct (is_empty _); intros [= _ H]; discriminate H.
Qed.

End VoiceMore.

(** ** The queue's report of the last task *)

Lemma records_wrappedTask ty (task : prog value) : records ty (wrappedTask ty task).
Proof.
  unfold wrappedTask.
  induction task as [v | e | | c k IH | k IH | k IH | k IH | f k IH]; simpl; auto.
  - right. exists Returns. split; [done |].
    left. split; [done |]. right. split; [done |]. intros t. by split.
  - intros t. right. exists (Throws e). split; [intros s; simpl; eauto |].
    left. split; [done |]. right. split; [done |]. intros t'. by split.
Qed.

Lemma report_phase_step (E : env) ty (p p' : prog value) w w' :
  report_phase ty p (fields w) -> step_prog E p w = Some (p', w') ->
  report_phase ty p' (fields w').
Proof.
  intros Hph Hst.
  destruct p as [v | e | | c k | k | k | k | f k]; simpl in Hst; try discriminate;
    injection Hst as <- <-.
  - destruct Hph as [H | [(o & H & He) | (o & H & He & Ht)]]; simpl in *.
    + left. apply H.
    + right. left. exists o. split; [apply H | exact He].
    + right. right. exists o. split; [apply H | done].
  - destruct Hph as [H | [(o & H & He) | (o & H & He & Ht)]]; simpl in *.
    + left. apply H.
    + right. left. exists o. split; [apply H | exact He].
    + right. right. exists o. split; [apply H | done].
  - destruct Hph as [H | [(o & H & He) | (o & H & He & Ht)]]; simpl in *.
    + left. apply H.
    + right. left. exists o. split; [apply H | exact He].
    + right. right. exists o. split; [apply H | done].
  - destruct Hph as [H | [(o & H & He) | (o & H & He & Ht)]]; simpl in *.
    + left. apply H.
    + right. left. exists o. split; [apply H | exact He].
    + right. right. exists o. split; [apply H | done].
  - destruct Hph as [H | [(o & H & He) | (o & H & He & Ht)]]; simpl in *.
    + destruct H as [H | (o & Hf & H)]; [by left |].
      right. left. exists o. split; [exact H | apply Hf].
    + destruct H as [[Hk H] | [Hf H]].
      * right. left. exists o. split; [exact H |].
        destruct (Hk (fields w)) as [_ ->]. exact He.
      * right. right. exists o. split; [exact H |].
        destruct (Hf (fields w)) as [-> ->]. done.
    + destruct H as [Hk H]. right. right. exists o. split; [exact H |].
      destruct (Hk (fields w)) as [-> ->]. done.
Qed.

Lemma report_phase_settled ty (p : prog value) f res :
  report_phase ty p f -> settled p = Some res ->
  lastTaskType f = Some ty /\ error_of ty (ending_of res) (lastTaskError f).
Proof.
  intros [H | [(o & H & He) | (o & H & He & Ht)]] Hs;
    destruct p; simpl in *; try done; injection Hs as <-; simpl; by subst o.
Qed.

Lemma last_finished_snoc l e :
  last_finished (l ++ [e])
  = match e with
    | Finished k r => Some (k, r)
    | _ => last_finished l
    end.
Proof.
  unfold last_finished. rewrite omap_app.
  destruct e; simpl; rewrite ?app_nil_r; try done.
  by rewrite last_snoc.
Qed.

Section QueueReport.

Variable E : env.

(** The steps of the loop on a reachable state: the next task starts, the
    task in flight takes a step, or it settles its promise. *)
Lemma queue_step_cases s s' :
  reachable E s -> lstep E s s' ->
  submitted s' = submitted s
  /\ ((exists n sub,
         idle_at E s n /\ submitted s !! n = Some sub
         /\ promises s' = promises s /\ lworld s' = lworld s
         /\ qlog s' = qlog s ++ [Started n]
         /\ running s' = [{| a_task := n; a_promise := S n;
                             a_code := wrappedTask (sub_type sub) (sub_task sub) |}])
      \/ (exists n p p' w',
            busy_at E s n p /\ step_prog E p (lworld s) = Some (p', w')
            /\ promises s' = promises s /\ lworld s' = w'
            /\ qlog s' = qlog s ++ [Stepped n]
            /\ running s' = [{| a_task := n; a_promise := S n; a_code := p' |}])
      \/ (exists n p res,
            busy_at E s n p /\ settled p = Some res
            /\ promises s' = <[S n := Resolved res]> (promises s)
            /\ lworld s' = lworld s
            /\ qlog s' = qlog s ++ [Finished n res]
            /\ running s' = [])).
Proof.
  intros Hreach Hstep.
  split; [by eapply lstep_submitted |].
  destruct (reachable_inv E s Hreach) as [n [Hi | [p Hb]]].
  - pose proof Hi as (Hc & Hrun & Hscan).
    destruct Hstep as [s rs1 r rs2 res task sub Hr Hp Hh Hs
                      | s rs1 r rs2 res Hr Hp Hh
                      | s as1 a as2 p' w' Ha Hst
                      | s as1 a as2 res Ha Hst].
    + destruct (reaction_in_chain E s n n rs1 r rs2 res Hc (le_n n) Hr Hp)
        as (_ & -> & -> & Hlt & ->).
      rewrite handler_chain in Hh. injection Hh as <-.
      left. exists n, sub. cbn [promises lworld qlog running]. rewrite Hrun.
      split_and!; done.
    + destruct (reaction_in_chain E s n n rs1 r rs2 res Hc (le_n n) Hr Hp)
        as (_ & -> & -> & Hlt & ->).
      by rewrite handler_chain in Hh.
    + rewrite Hrun in Ha. by destruct as1.
    + rewrite Hrun in Ha. by destruct as1.
  - pose proof Hb as (Hc & Hrun & Htot & Hscan).
    destruct Hstep as [s rs1 r rs2 res task sub Hr Hp Hh Hs
                      | s rs1 r rs2 res Hr Hp Hh
                      | s as1 a as2 p' w' Ha Hst
                      | s as1 a as2 res Ha Hst].
    + destruct (reaction_in_chain E s (S n) n rs1 r rs2 res Hc
                  (Nat.le_succ_diag_r n) Hr Hp) as (Habs & _). lia.
    + destruct (reaction_in_chain E s (S n) n rs1 r rs2 res Hc
                  (Nat.le_succ_diag_r n) Hr Hp) as (Habs & _). lia.
    + rewrite Hrun in Ha. apply singleton_split in Ha as (-> & -> & ->).
      cbn [a_code a_task a_promise] in *.
      right. left. exists n, p, p', w'. split_and!; done.
    + rewrite Hrun in Ha. apply singleton_split in Ha as (-> & -> & ->).
      cbn [a_code a_task a_promise] in *.
      right. right. exists n, p, res. split_and!; done.
Qed.

Lemma report_inv_reachable s : reachable E s -> report_inv s.
Proof.
  induction 1 as [w | s sub Hreach IH Htot | s s' Hreach IH Hstep].
  - split; [| by intros n r [=]].
    intros k r. simpl. split; [by destruct k | by intros H%elem_of_nil].
  - destruct IH as [Hroute Hrep]. split.
    + intros k r. unfold enqueueTask. cbn [promises qlog].
      rewrite <- Hroute. split.
      * intros Hl. apply lookup_app_Some in Hl as [Hl | [Hlen Hl]]; [done |].
        apply list_lookup_singleton_Some in Hl as [_ [=]].
      * intros Hl. by apply lookup_app_l_Some.
    + unfold enqueueTask. cbn [running qlog submitted lworld fields with_fields].
      destruct (running s) as [| a rest].
      * intros n r Hl. destruct (Hrep n r Hl) as (sub0 & Hs & Ht & He).
        exists sub0. split; [by apply lookup_app_l_Some | done].
      * destruct Hrep as (sub0 & Hs & Hph). exists sub0.
        split; [by apply lookup_app_l_Some | exact Hph].
  - destruct IH as [Hroute Hrep].
    destruct (queue_step_cases s s' Hreach Hstep)
      as [Hsub [(n & sub & Hi & Hs & Hp & Hw & Hq & Hr)
               | [(n & p & p' & w' & Hb & Hst & Hp & Hw & Hq & Hr)
                 | (n & p & res & Hb & Hset & Hp & Hw & Hq & Hr)]]].
    + split.
      * intros k r. rewrite Hp, Hq, Hroute, elem_of_app.
        split; [by left | intros [H | H]; [done |]].
        by apply list_elem_of_singleton in H.
      * rewrite Hr, Hsub. cbn [a_task a_code]. exists sub. split; [exact Hs |].
        left. apply records_wrappedTask.
    + split.
      * intros k r. rewrite Hp, Hq, Hroute, elem_of_app.
        split; [by left | intros [H | H]; [done |]].
        by apply list_elem_of_singleton in H.
      * destruct Hb as (_ & Hrun & _). rewrite Hrun in Hrep. rewrite Hr, Hsub, Hw.
        cbn [a_task a_code] in *. destruct Hrep as (sub & Hs & Hph).
        exists sub. split; [exact Hs |]. by eapply report_phase_step.
    + destruct Hb as (Hc & Hrun & _).
      destruct Hc as (Hlen & _ & Hle & _ & _ & _ & Hpend & _).
      assert (Hpending : promises s !! S n = Some Pending) by (apply Hpend; lia).
      rewrite Hrun in Hrep. cbn [a_task a_code] in Hrep.
      destruct Hrep as (sub & Hs & Hph).
      split.
      * intros k r. rewrite Hp, Hq, elem_of_app, list_elem_of_singleton.
        destruct (decide (k = n)) as [-> | Hne].
        -- rewrite list_lookup_insert_eq by (by eapply lookup_lt_Some).
           split; [intros [= ->]; by right |].
           intros [H | [= ->]]; [| done].
           apply Hroute in H. congruence.
        -- rewrite list_lookup_insert_ne by lia. rewrite Hroute.
           split; [by left | intros [H | [= ? ?]]; done].
      * rewrite Hr, Hq. intros m r. rewrite last_finished_snoc. intros [= <- <-].
        destruct (report_phase_settled _ _ _ _ Hph Hset) as [Ht He].
        exists sub. rewrite Hsub, Hw. done.
Qed.

(** X27.  Every caller gets the outcome of its own task: the promise that
    [enqueueTask] returned for a task settles with the value or the error
    that this very task ended with, so an error of one task does not reach
    the callers behind it in the queue; and a task settles once. *)
Theorem each_caller_gets_its_own_result (s : loop) (k : nat) :
  reachable E s ->
  (forall r, promises s !! S k = Some (Resolved r) <-> Finished k r ∈ qlog s)
  /\ (forall r r', Finished k r ∈ qlog s -> Finished k r' ∈ qlog s -> r = r').
Proof.
  intros Hreach. destruct (report_inv_reachable s Hreach) as [Hroute _].
  split; [apply Hroute |].
  intros r r' H1 H2. apply Hroute in H1, H2. congruence.
Qed.

(** X28.  Whenever no task is in flight, what the server reports of its
    last task is about the task that settled last: [lastTaskType] is the
    type it was submitted with, and [lastTaskError] is empty if it
    returned, and holds the type and the message of its error if it threw.
    So a failure stays in the report only until the next task returns. *)
Theorem report_is_about_the_last_task (s : loop) (n : nat) (r : result value) :
  reachable E s ->
  running s = [] ->
  last_finished (qlog s) = Some (n, r) ->
  exists sub,
    submitted s !! n = Some sub
    /\ lastTaskType (fields (lworld s)) = Some (sub_type sub)
    /\ match r with
       | Ok _ => lastTaskError (fields (lworld s)) = None
       | Err e =>
         exists t, lastTaskError (fields (lworld s))
                   = Some {| te_type := sub_type sub;
                             te_message := error_message e; te_at := t |}
       end.
Proof.
  intros Hreach Hrun Hlast.
  destruct (report_inv_reachable s Hreach) as [_ Hrep].
  rewrite Hrun in Hrep. destruct (Hrep n r Hlast) as (sub & Hs & Ht & He).
  exists sub. split; [exact Hs |]. split; [exact Ht |]. by destruct r.
Qed.

End QueueReport.

(** ** The further theorems on concrete inputs *)

Lemma fresh_service_witness :
  exists s,
    new_TTSService ascii_toLowerCase (js " DouBao ") = Ok s
    /\ getProvider ascii_toLowerCase s = js "volcano"
    /\ canSynthesize ascii_toLowerCase s = Ok true.
Proof.
  destruct (fresh_service_providers ascii_toLowerCase (js " DouBao "))
    as (s & Hs & Hv & _).
  - vm_compute. reflexivity.
  - vm_compute. reflexivity.
  - exists s. split; [exact Hs |]. apply Hv. right. vm_compute. reflexivity.
Defined.

Lemma register_then_select_witness :
  exists s',
    registerProvider ascii_toLowerCase (js "Edge") {| has_synthesize := true |}
      (service_for (js "Edge")) = Ok s'
    /\ getProviderImpl ascii_toLowerCase (service_for (js "Edge"))
       = Err (unsupported_provider (js "edge"))
    /\ getProviderImpl ascii_toLowerCase s' = Ok {| has_synthesize := true |}
    /\ canSynthesize ascii_toLowerCase s' = Ok true.
Proof.
  destruct (registerProvider ascii_toLowerCase (js "Edge")
              {| has_synthesize := true |} (service_for (js "Edge")))
    as [s' |] eqn:Hreg; [| vm_compute in Hreg; discriminate].
  exists s'. split; [reflexivity |]. split; [vm_compute; reflexivity |].
  destruct (register_then_select ascii_toLowerCase (js "Edge")
              {| has_synthesize := true |} (service_for (js "Edge")) s' Hreg)
    as (_ & _ & Hsel & _).
  - vm_compute. discriminate.
  - vm_compute. reflexivity.
  - destruct Hsel as (_ & Himpl & Hcan); [vm_compute; reflexivity |].
    split; [exact Himpl | exact Hcan].
Defined.

Lemma loader_resolves_witness :
  normalizeProvider ascii_toLowerCase xiaomi_service (js " DouBao ")
  = normalizeTTSProvider ascii_toLowerCase (js " DouBao ").
Proof.
  apply (loader_resolves_as_service ascii_toLowerCase [] (js " DouBao ")
           xiaomi_service).
  vm_compute. reflexivity.
Defined.

Lemma endpoint_witness :
  validateTTSConfig ascii_toLowerCase volcano_example = Ok tt
  /\ validateVolcanoConfig ascii_toLowerCase volcano_example
     = Err (js "缺少 tts.volcano.endpoint")
  /\ validateVolcanoConfig ascii_toLowerCase volcano_complete = Ok tt.
Proof.
  destruct (endpoint_is_checked_late ascii_toLowerCase volcano_example)
    as [_ Hlate]; [vm_compute; reflexivity |].
  destruct (endpoint_is_checked_late ascii_toLowerCase volcano_complete)
    as [Hiff _]; [vm_compute; reflexivity |].
  assert (H1 : validateTTSConfig ascii_toLowerCase volcano_example = Ok tt)
    by (vm_compute; reflexivity).
  split; [exact H1 |]. split.
  - apply Hlate; [exact H1 | reflexivity].
  - apply Hiff. split; [vm_compute; reflexivity | vm_compute; discriminate].
Defined.

Lemma body_limit_witness :
  readBody utf16_of_utf8 parse_example api_example body_chunks Ended
  = Ok (speak_request (js "hi") None None)
  /\ readBody utf16_of_utf8 parse_example api_example [concat body_chunks] Ended
     = readBody utf16_of_utf8 parse_example api_example body_chunks Ended.
Proof.
  destruct (body_limit_counts_bytes utf16_of_utf8 parse_example api_example
              body_chunks Ended) as [Hform Hsame].
  - vm_compute. discriminate.
  - split.
    + rewrite Hform. vm_compute. reflexivity.
    + apply Hsame. vm_compute. reflexivity.
Defined.

Lemma authorized_post_witness :
  validateAuth api_example (js "bearer   secret") = true
  /\ exists body,
      readBody utf16_of_utf8 parse_example api_example body_chunks Ended = Ok body
      /\ handleSpeak ascii_toLowerCase (Some volcano_service) story_example 4 body
         = Ok hi_speak.
Proof.
  destruct (only_authorized_posts_enqueue utf16_of_utf8 parse_example
              ascii_toLowerCase (Some volcano_service) story_example 4
              api_example (speak_post (js "bearer   secret") body_chunks) hi_speak)
    as (_ & Hauth & _ & body & Hbody & Hroute).
  - vm_compute. reflexivity.
  - split; [exact Hauth |]. exists body. split; [exact Hbody |].
    destruct Hroute as [[_ H] | [[Hp _] | [Hp _]]];
      [exact H | vm_compute in Hp; discriminate | vm_compute in Hp; discriminate].
Defined.

Lemma unauthorized_witness :
  handleRequest utf16_of_utf8 parse_example ascii_toLowerCase
    (Some volcano_service) story_example 4 api_example
    (speak_post (js "Bearer wrong") body_chunks)
  = Reply 401 (js "Unauthorized")
  /\ handleRequest utf16_of_utf8 parse_example ascii_toLowerCase
       (Some volcano_service) story_example 4 api_example
       (speak_post (js "Bearer wrong") [])
     = handleRequest utf16_of_utf8 parse_example ascii_toLowerCase
         (Some volcano_service) story_example 4 api_example
         (speak_post (js "Bearer wrong") body_chunks)
  /\ handleRequest utf16_of_utf8 parse_example ascii_toLowerCase
       (Some volcano_service) story_example 4 api_example
       (bad_target_post (js "Bearer wrong") body_chunks)
     = Unanswered.
Proof.
  destruct (unauthorized_request_is_not_read utf16_of_utf8 parse_example
              ascii_toLowerCase (Some volcano_service) story_example 4
              api_example (speak_post (js "Bearer wrong") body_chunks))
    as [Hsame Hcases].
  - vm_compute. reflexivity.
  - split; [| split; [exact (Hsame [] Ended) |]].
    + cbn [speak_post req_pathname] in Hcases.
      destruct Hcases as [[Hp _] | [(_ & Hm & _) | [(_ & Hm & _) | (_ & _ & H)]]].
      * vm_compute in Hp. discriminate.
      * vm_compute in Hm. discriminate.
      * exfalso. apply Hm. reflexivity.
      * exact H.
    + destruct (unauthorized_request_is_not_read utf16_of_utf8 parse_example
                  ascii_toLowerCase (Some volcano_service) story_example 4
                  api_example (bad_target_post (js "Bearer wrong") body_chunks))
        as [_ Hbad].
      * vm_compute. reflexivity.
      * exact Hbad.
Defined.

Lemma request_errors_witness :
  exists body,
    readBody utf16_of_utf8 parse_example api_example [] Ended = Ok body
    /\ trim (b_text body) = []
    /\ handleRequest utf16_of_utf8 parse_example ascii_toLowerCase
         (Some volcano_service) story_example 4 api_example
         (speak_post (js "Bearer secret") [])
       = Reply 500 (js "text is required").
Proof.
  assert (Hreq : handleRequest utf16_of_utf8 parse_example ascii_toLowerCase
                   (Some volcano_service) story_example 4 api_example
                   (speak_post (js "Bearer secret") [])
                 = Reply 500 (js "text is required"))
    by (vm_compute; reflexivity).
  destruct (request_errors utf16_of_utf8 parse_example ascii_toLowerCase
              (Some volcano_service) story_example 4 api_example
              (speak_post (js "Bearer secret") []) 500 (js "text is required") Hreq)
    as [[H _] | [[H _] | [[H _] | (_ & body & Hbody & Hwhy)]]];
    try (exfalso; lia).
  exists body. split; [exact Hbody |]. split; [| exact Hreq].
  destruct Hwhy as [(_ & Ht & _) | (_ & _ & Hp)]; [exact Ht |].
  vm_compute in Hp. discriminate.
Defined.

Lemma drain_reachable_from (E : env) (w0 : world) n : forall s,
  reachable_from E w0 s -> reachable_from E w0 (drain E n s).
Proof.
  induction n as [| n IH]; intros s Hs; simpl; [done |].
  destruct (next_step E s) as [s' |] eqn:Hn; [| done].
  apply IH. eapply from_step; [exact Hs |]. by apply next_step_sound.
Qed.

Lemma drain_submitted (E : env) n : forall s,
  submitted (drain E n s) = submitted s.
Proof.
  induction n as [| n IH]; intros s; simpl; [done |].
  destruct (next_step E s) as [s' |] eqn:Hn; [| done].
  rewrite IH. by apply (lstep_submitted E), next_step_sound.
Qed.

Lemma queue_depth_witness :
  queueDepth (fields (lworld two_submitted)) = 2%Z
  /\ queueDepth (fields (lworld (drain env_ok 100 two_submitted))) = 0%Z.
Proof.
  assert (Hreach : reachable_from env_ok world0 two_submitted)
    by (apply from_enqueue, from_enqueue, from_new).
  assert (Hkeep : Forall (fun sub => writes keeps_queueDepth (sub_task sub))
                    (submitted two_submitted)).
  { unfold two_submitted, enqueueTask. cbn [submitted new_loop app sub_task].
    repeat constructor.
    apply writes_bind; [| done].
    eapply writes_impl; [apply speak_write_keeps_depth | apply writes_speakByText]. }
  destruct (queue_depth_counts_unsettled env_ok world0 two_submitted
              Hreach eq_refl Hkeep) as (_ & _ & Hidle).
  destruct (queue_depth_counts_unsettled env_ok world0
              (drain env_ok 100 two_submitted)) as (_ & _ & Hdone).
  - by apply drain_reachable_from.
  - reflexivity.
  - by rewrite drain_submitted.
  - split.
    + rewrite Hidle by reflexivity. vm_compute. reflexivity.
    + rewrite Hdone by (vm_compute; reflexivity).
      rewrite drain_submitted. vm_compute. reflexivity.
Defined.

Lemma tasks_write_witness :
  aiConversationMode (fields (snd (run env_ok (sub_task hello_speak) world0))) = false
  /\ queueDepth (fields (snd (run env_ok (sub_task hello_speak) world0))) = 0%Z
  /\ lastTaskType (fields (snd (run env_ok (sub_task hello_speak) world0))) = None.
Proof.
  destruct (tasks_write_speak_fields_only ascii_toLowerCase (Some volcano_service)
              story_example wakeup_example 4 env_ok world0 hello_speak)
    as (Hmode & Hdepth & Htype & _).
  - left. exists (speak_request (js "你好") None None). left.
    vm_compute. reflexivity.
  - split; [exact Hmode |]. split; [exact Hdepth | exact Htype].
Defined.

Lemma failed_interrupt_witness :
  fst (run env_no_abort
         (speakByText ascii_toLowerCase (Some volcano_service) story_example 4
            (js "你好") true false) world0)
  = Settled (Err (js "speaker offline"))
  /\ emitted env_no_abort
       (speakByText ascii_toLowerCase (Some volcano_service) story_example 4
          (js "你好") true false) world0
     = [Ev AbortXiaoAI (Err (js "speaker offline"))].
Proof.
  destruct (failed_interrupt_fails_request ascii_toLowerCase
              (Some volcano_service) story_example 4 env_no_abort world0
              (js "speaker offline")) as (Hspeak & _ & _).
  - exists ready_caps. done.
  - reflexivity.
  - exact (Hspeak (js "你好") false).
Defined.

Lemma play_witness :
  emitted env_ok (playByUrl (js "http://host/a.mp3") true false) world0
  = [Ev AbortXiaoAI (Ok tt); Ev (PlayUrl (js "http://host/a.mp3") (Some false)) (Ok tt)]
  /\ fst (run env_ok (playByUrl (js "http://host/a.mp3") true false) world0)
     = Settled (Ok (js "url"))
  /\ fields (snd (run env_ok (playByUrl (js "http://host/a.mp3") true false) world0))
     = new_server.
Proof.
  destruct (play_passes_through env_ok world0
              (after_call env_ok world0 AbortXiaoAI (Ok tt))
              (js "http://host/a.mp3") true false) as (Hem & Hres & Hf).
  - exists ready_caps. done.
  - reflexivity.
  - split; [exact Hem |]. split; [exact Hres | exact Hf].
Defined.

Lemma single_shot_witness :
  fst (run env_ok
         (speakByText ascii_toLowerCase (Some volcano_service) story_example 4
            (js "hi") false false) world0)
  = Settled (Ok (js "tts:volcano"))
  /\ emitted env_ok
       (speakByText ascii_toLowerCase (Some volcano_service) story_example 4
          (js "hi") false false) world0
     = [Ev (Synthesize (js "volcano") (js "hi")) (Ok (js "http://host/api/audio/hi"));
        Ev (PlayUrl (js "http://host/api/audio/hi") None) (Ok tt)].
Proof.
  destruct (single_shot_plays_synthesized_url ascii_toLowerCase
              (Some volcano_service) story_example 4 env_ok volcano_service
              world0 world0 (js "hi") (js "http://host/api/audio/hi") false)
    as (Hres & Hem & _).
  - reflexivity.
  - vm_compute. reflexivity.
  - exists ready_caps. done.
  - reflexivity.
  - vm_compute. reflexivity.
  - reflexivity.
  - split.
    + rewrite Hres. vm_compute. reflexivity.
    + rewrite Hem. vm_compute. reflexivity.
Defined.

Lemma unregistered_provider_witness :
  fst (run env_ok
         (speakByText ascii_toLowerCase (Some (service_for (js "Edge")))
            story_example 4 (js "hi") true false) world0)
  = Settled (Err (unsupported_provider (js "edge")))
  /\ Forall (fun ev => is_abort ev = true)
       (emitted env_ok
          (speakByText ascii_toLowerCase (Some (service_for (js "Edge")))
             story_example 4 (js "hi") true false) world0).
Proof.
  destruct (unregistered_provider_fails_speak ascii_toLowerCase
              (Some (service_for (js "Edge"))) story_example 4 env_ok
              (unsupported_provider (js "edge")) world0 (js "hi") true false)
    as (Hquiet & _ & Hres).
  - vm_compute. reflexivity.
  - split; [| exact Hquiet]. apply Hres; [exists ready_caps; done | reflexivity].
Defined.

Lemma short_text_witness :
  splitTextForStory (js " 你好！ ") 5 10 = [js "你好。"].
Proof.
  rewrite (short_text_is_one_chunk (js " 你好！ ") 5 10).
  - vm_compute. reflexivity.
  - vm_compute. discriminate.
Defined.

Lemma silent_story_witness :
  handleSpeak ascii_toLowerCase (Some volcano_service) story_example 4
    (speak_request (js "。！") (Some false) (Some true)) ≠ Err (js "text is required")
  /\ fst (run env_ok
            (speakByText ascii_toLowerCase (Some volcano_service) story_example 4
               (js "。！") false true) world0)
     = Settled (Ok (js "tts:volcano:story"))
  /\ emitted env_ok
       (speakByText ascii_toLowerCase (Some volcano_service) story_example 4
          (js "。！") false true) world0 = [].
Proof.
  destruct (story_without_sentences_is_silent ascii_toLowerCase
              (Some volcano_service) story_example 4 env_ok (js "。！") false
              world0 world0) as (Hres & Hem).
  - intros h. exists ready_caps. done.
  - vm_compute. reflexivity.
  - vm_compute. reflexivity.
  - reflexivity.
  - split; [vm_compute; discriminate |]. split.
    + rewrite Hres. vm_compute. reflexivity.
    + rewrite Hem. reflexivity.
Defined.

Lemma chat_witness :
  length (filter (fun e => is_ask e = true)
            (emitted env_ok
               (askAndSpeak ascii_toLowerCase (Some volcano_service) story_example 4
                  (js "hi") false false) world0)) = 1%nat.
Proof.
  destruct (chat_asks_once ascii_toLowerCase (Some volcano_service)
              story_example 4 env_ok (js "hi") false false world0 world0)
    as (Hone & _).
  - exists ready_caps. done.
  - reflexivity.
  - exact Hone.
Defined.

Lemma two_submitted_reachable : reachable env_ok two_submitted.
Proof.
  apply reach_enqueue; [apply reach_enqueue; [apply reach_new |] |].
  - intros h t. exact I.
  - apply (handler_tasks_settle ascii_toLowerCase (Some volcano_service)
             quick_story 4 env_ok)
      with (body := speak_request (js "你好") None (Some true)).
    + lia.
    + vm_compute. reflexivity.
    + left. reflexivity.
Qed.

Lemma own_result_witness :
  Finished 0 (Err (js "boom")) ∈ qlog (drain env_ok 100 two_submitted)
  /\ Finished 1 (Ok (VStr (js "tts:volcano:story")))
     ∈ qlog (drain env_ok 100 two_submitted).
Proof.
  assert (Hreach : reachable env_ok (drain env_ok 100 two_submitted))
    by apply drain_reachable, two_submitted_reachable.
  destruct (each_caller_gets_its_own_result env_ok _ 0%nat Hreach) as [H0 _].
  destruct (each_caller_gets_its_own_result env_ok _ 1%nat Hreach) as [H1 _].
  split.
  - apply H0. vm_compute. reflexivity.
  - apply H1. vm_compute. reflexivity.
Defined.

Lemma last_task_witness :
  exists sub,
    submitted (drain env_ok 100 two_submitted) !! 1%nat = Some sub
    /\ lastTaskType (fields (lworld (drain env_ok 100 two_submitted)))
       = Some (sub_type sub)
    /\ lastTaskError (fields (lworld (drain env_ok 100 two_submitted))) = None.
Proof.
  apply (report_is_about_the_last_task env_ok (drain env_ok 100 two_submitted)
           1%nat (Ok (VStr (js "tts:volcano:story")))).
  - apply drain_reachable, two_submitted_reachable.
  - vm_compute. reflexivity.
  - vm_compute. reflexivity.
Defined.

Lemma story_goes_through_witness :
  let request := speakByText ascii_toLowerCase (Some volcano_service) story_example 4
                   (js "从前有座山。山里有座庙。") true true in
  fst (run env_ok request world0) = Settled (Ok (js "tts:volcano:story"))
  /\ omap synthesized_text (emitted env_ok request world0)
     = [js "从前有座山。"; js "山里有座庙。"]
  /\ waits (emitted env_ok request world0) = [poll_idle].
Proof.
  destruct (story_goes_through_with_idle_speaker ascii_toLowerCase
              (Some volcano_service) story_example 4 env_ok
              (js "从前有座山。山里有座庙。") true world0
              (after_call env_ok world0 AbortXiaoAI (Ok tt)))
    as (Hres & Htexts & _ & Hwaits).
  - intros h. exists ready_caps. done.
  - intros h. reflexivity.
  - intros h provider text. eexists. reflexivity.
  - intros h u blocking. reflexivity.
  - vm_compute. reflexivity.
  - reflexivity.
  - lia.
  - reflexivity.
  - cbv zeta. split; [| split].
    + rewrite Hres. vm_compute. reflexivity.
    + rewrite Htexts. vm_compute. reflexivity.
    + rewrite Hwaits. vm_compute. reflexivity.
Defined.

Lemma story_wait_witness :
  let story := speakStoryMode ascii_toLowerCase (Some volcano_service) story_example 4
                 (js "第一句。第二句。第三句。") in
  fst (run env_busy story world0) = Settled (Err wait_timeout)
  /\ omap synthesized_text (emitted env_busy story world0)
     = [js "第一句。"; js "第二句。第三句。"]
  /\ omap played_url (emitted env_busy story world0)
     = [js "http://host/api/audio/第一句。"].
Proof.
  destruct (story_playback_waits_for_idle ascii_toLowerCase
              (Some volcano_service) story_example 4 env_busy world0
              (js "第一句。第二句。第三句。")) as (_ & _ & _ & _ & Htimeout & _ & _).
  destruct (Htimeout (js "第一句。") (js "第二句。第三句。") [])
    as (Hres & Htexts & (u0 & u1 & Hurls & Hplayed) & _).
  - intros h. exists ready_caps. done.
  - intros h. reflexivity.
  - intros h ms. reflexivity.
  - intros h provider text. eexists. reflexivity.
  - intros h u blocking. reflexivity.
  - vm_compute. reflexivity.
  - lia.
  - vm_compute. discriminate.
  - vm_compute. reflexivity.
  - cbv zeta. split; [exact Hres |]. split; [exact Htexts |].
    rewrite Hplayed. f_equal.
    assert (Hu : omap synthesized_url
                   (emitted env_busy
                      (speakStoryMode ascii_toLowerCase (Some volcano_service)
                         story_example 4 (js "第一句。第二句。第三句。")) world0)
                 = [js "http://host/api/audio/第一句。";
                    js "http://host/api/audio/第二句。第三句。"])
      by (vm_compute; reflexivity).
    rewrite Hurls in Hu. by injection Hu.
Defined.

(** ** The queue runs the task bodies in turn *)

Lemma same_calls_refl w : same_calls w w.
Proof. by split. Qed.

Lemma same_calls_sym w w' : same_calls w w' -> same_calls w' w.
Proof. intros [H1 H2]. by split. Qed.

Lemma same_calls_trans w1 w2 w3 :
  same_calls w1 w2 -> same_calls w2 w3 -> same_calls w1 w3.
Proof. intros [H1 H2] [H3 H4]. split; congruence. Qed.

Lemma same_calls_fields f w : same_calls (with_fields f w) w.
Proof. by split. Qed.

(** A program that reads no field does the same in two worlds that differ
    in the fields only. *)
Lemma run_same_calls {A : Type} (E : env) (p : prog A) : forall w w',
  reads_no_field p -> same_calls w w' ->
  fst (run E p w) = fst (run E p w')
  /\ same_calls (snd (run E p w)) (snd (run E p w')).
Proof.
  induction p as [| | | c k IH | k IH | k IH | k IH | f k IH];
    intros w w' Hp [Hh Hc]; simpl; try done.
  - rewrite Hh. apply IH; [apply Hp |].
    split; simpl; [by rewrite Hh | by rewrite Hh, Hc].
  - rewrite Hc. by apply IH.
  - rewrite Hh. by apply IH.
  - by apply IH.
Qed.

Lemma reads_step {A : Type} (E : env) (p p' : prog A) w w' :
  reads_no_field p -> step_prog E p w = Some (p', w') -> reads_no_field p'.
Proof. destruct p; simpl; intros Hp [= <- <-]; auto. done. Qed.

Lemma run_step {A : Type} (E : env) (p p' : prog A) w w' :
  step_prog E p w = Some (p', w') -> run E p w = run E p' w'.
Proof. destruct p; simpl; intros [= <- <-]; reflexivity. Qed.

Lemma step_history {A : Type} (E : env) (p p' : prog A) w w' :
  step_prog E p w = Some (p', w') -> history w `prefix_of` history w'.
Proof.
  destruct p; simpl; intros [= <- <-]; try done.
  by apply prefix_app_r.
Qed.

Lemma settled_run (E : env) (p : prog value) w res :
  settled p = Some res -> run E p w = (Settled res, w).
Proof. destruct p; simpl; intros [= <-]; reflexivity. Qed.

Lemma run_prefix {A : Type} (E : env) (p : prog A) w :
  history w `prefix_of` history (snd (run E p w)).
Proof. destruct (run_history E p w) as [l ->]. by apply prefix_app_r. Qed.

Lemma reads_bind {A B : Type} (p : prog A) (f : A -> prog B) :
  reads_no_field p -> (forall a, reads_no_field (f a)) -> reads_no_field (bind p f).
Proof. induction p; simpl; intros Hp Hf; auto. Qed.

Lemma reads_try_catch {A : Type} (p : prog A) (h : jsstring -> prog A) :
  reads_no_field p -> (forall e, reads_no_field (h e)) ->
  reads_no_field (try_catch p h).
Proof. induction p; simpl; intros Hp Hh; auto. Qed.

Lemma reads_try_finally {A : Type} (p : prog A) (fin : prog unit) :
  reads_no_field p -> reads_no_field fin -> reads_no_field (try_finally p fin).
Proof.
  induction p; simpl; intros Hp Hf; auto; by apply reads_bind.
Qed.

Lemma reads_await c : reads_no_field (await c).
Proof. simpl. by intros [a | e]. Qed.

Lemma reads_wrappedTask ty (task : prog value) :
  reads_no_field task -> reads_no_field (wrappedTask ty task).
Proof.
  intros Ht. unfold wrappedTask. apply reads_try_finally; [| done].
  apply reads_try_catch; [by apply reads_bind | done].
Qed.

(** [wrappedTask] makes the calls of the task, at the same times, and
    settles as the task does. *)
Lemma wrappedTask_same_calls (E : env) ty (task : prog value) w :
  fst (run E (wrappedTask ty task) w) = fst (run E task w)
  /\ same_calls (snd (run E (wrappedTask ty task) w)) (snd (run E task w)).
Proof.
  unfold wrappedTask. rewrite run_try_finally, run_try_catch, run_bind.
  by destruct (run E task w) as [[[v | e] |] w1].
Qed.

Section TasksReadNoField.

Variable toLowerCase : jsstring -> jsstring.
Variable ttsService : option TTSService.
Variable storyConfig : story_config.
Variable fuel : nat.

Lemma reads_engine : reads_no_field getEngineOrThrow.
Proof. simpl. intros [e |]; [by destruct (MiNA e && MiOT e) | done]. Qed.

Lemma reads_abort_if interrupt : reads_no_field (abort_if interrupt).
Proof. destruct interrupt; [exact (reads_await AbortXiaoAI) | done]. Qed.

Lemma reads_wait_loop n : forall start,
  reads_no_field (wait_loop storyConfig n start).
Proof.
  induction n as [| n IH]; intros start; [done |].
  simpl. intros t. destruct (t - start <? waitTimeoutMs storyConfig)%Z; [| done].
  simpl. intros [[|] | m]; simpl; [| done | done].
  intros [[] | m]; simpl; [apply IH | done].
Qed.

Lemma reads_wait : reads_no_field (waitForAudioComplete storyConfig fuel).
Proof.
  apply reads_bind; [apply reads_engine |].
  intros _ t. apply reads_wait_loop.
Qed.

Lemma reads_synthesize c : reads_no_field (synthesize toLowerCase ttsService c).
Proof.
  unfold synthesize. destruct ttsService as [tts |]; [| done].
  destruct (getProviderImpl toLowerCase tts) as [impl | m]; [| done].
  destruct (has_synthesize impl); [| done].
  exact (reads_await (Synthesize _ c)).
Qed.

Lemma reads_play_chunk i u : reads_no_field (play_chunk storyConfig fuel i u).
Proof.
  unfold play_chunk.
  destruct (i =? 0)%nat; [exact (reads_await (PlayUrl u None)) |].
  apply reads_bind; [apply reads_wait |].
  intros _. exact (reads_await (PlayUrl u None)).
Qed.

Lemma reads_story_loop chunks : forall i,
  reads_no_field (story_loop toLowerCase ttsService storyConfig fuel i chunks).
Proof.
  induction chunks as [| c rest IH]; intros i; [done |].
  simpl. apply reads_bind; [apply reads_synthesize |].
  intros u. apply reads_bind; [apply reads_play_chunk |].
  intros _. apply IH.
Qed.

Lemma reads_speakByText text interrupt storyMode :
  reads_no_field
    (speakByText toLowerCase ttsService storyConfig fuel text interrupt storyMode).
Proof.
  unfold speakByText.
  apply reads_bind; [apply reads_engine |]. intros _.
  apply reads_bind; [apply reads_abort_if |]. intros _.
  destruct (can_synthesize toLowerCase ttsService) as [can | m]; [| done].
  apply reads_bind.
  - destruct can; [| done].
    apply reads_try_catch; [| done].
    apply reads_bind; [| done].
    unfold speak_external. destruct storyMode.
    + apply reads_bind; [| done].
      unfold speakStoryMode.
      apply reads_bind; [apply reads_engine |]. intros _.
      apply reads_bind; [apply reads_story_loop | done].
    + apply reads_bind; [apply reads_synthesize |]. intros u.
      apply reads_bind; [exact (reads_await (PlayUrl u None)) | done].
  - intros [mode |]; [done |].
    apply reads_bind; [exact (reads_await (PlayText text)) | done].
Qed.

Lemma reads_askAndSpeak text interrupt storyMode :
  reads_no_field
    (askAndSpeak toLowerCase ttsService storyConfig fuel text interrupt storyMode).
Proof.
  unfold askAndSpeak.
  apply reads_bind; [apply reads_engine |]. intros _.
  apply reads_bind; [apply reads_abort_if |]. intros _.
  apply reads_bind; [exact (reads_await (AskAI text)) |].
  intros reply.
  destruct (is_empty reply); [done |].
  apply reads_bind; [apply reads_speakByText | done].
Qed.

Lemma reads_playByUrl url interrupt blocking :
  reads_no_field (playByUrl url interrupt blocking).
Proof.
  unfold playByUrl.
  apply reads_bind; [apply reads_engine |]. intros _.
  apply reads_bind; [apply reads_abort_if |]. intros _.
  apply reads_bind; [exact (reads_await (PlayUrl url (Some blocking))) | done].
Qed.

(** No task that the HTTP handlers and the voice interpreter submit reads
    a field of the server. *)
Lemma handler_tasks_read_no_field body sub :
  handleSpeak toLowerCase ttsService storyConfig fuel body = Ok sub
  \/ handleChat toLowerCase ttsService storyConfig fuel body = Ok sub
  \/ handlePlay body = Ok sub ->
  reads_no_field (sub_task sub).
Proof.
  intros [H | [H | H]].
  - apply handleSpeak_inv in H as ->. cbn [sub_task].
    apply reads_bind; [apply reads_speakByText | done].
  - apply handleChat_inv in H as ->. apply reads_askAndSpeak.
  - apply handlePlay_inv in H as ->. cbn [sub_task].
    apply reads_bind; [apply reads_playByUrl | done].
Qed.

Lemma voice_tasks_read_no_field wakeupConfig engine aiMode text sub :
  snd (handle toLowerCase ttsService storyConfig wakeupConfig fuel engine aiMode text)
  = Awaited sub
  \/ snd (handle toLowerCase ttsService storyConfig wakeupConfig fuel engine aiMode text)
     = Background sub ->
  reads_no_field (sub_task sub).
Proof.
  assert (Hspeak : forall m, reads_no_field
            (speak_task toLowerCase ttsService storyConfig fuel m)).
  { intros m. apply reads_bind; [apply reads_speakByText | done]. }
  assert (Hstop : forall caps, reads_no_field (stop_task caps)).
  { intros caps. apply reads_bind.
    - apply reads_try_catch; [exact (reads_await AbortXiaoAI) | done].
    - intros _. apply reads_bind; [| done].
      apply reads_try_catch; [| done].
      destruct (MiNA caps); [exact (reads_await MiNAStop) | done]. }
  assert (Hchat : forall u, reads_no_field
            (chat_task toLowerCase ttsService storyConfig fuel u)).
  { intros u. apply reads_try_catch; [| done].
    apply reads_bind; [exact (reads_await AbortXiaoAI) |]. intros _.
    apply reads_bind; [exact (reads_await (AskAI _)) |]. intros reply.
    destruct (is_empty reply); [done |].
    apply reads_bind; [apply reads_speakByText | done]. }
  unfold handle. destruct engine as [caps |]; [| by intros [H | H]].
  destruct (isStopCommand _ _); [intros [[= <-] | [=]]; apply Hstop |].
  destruct (isEnterAIModeCommand _ _); [intros [[= <-] | [=]]; apply Hspeak |].
  destruct (isExitAIModeCommand _ _); [intros [[= <-] | [=]]; apply Hspeak |].
  cbv zeta.
  destruct (negb _); [by intros [H | H] |].
  destruct (is_empty _); [by intros [H | H] |].
  intros [[=] | [= <-]]. apply Hchat.
Qed.

End TasksReadNoField.

Section QueueTurns.

Variable E : env.
Variable w0 : world.

Lemma world_after_app tasks x n :
  (n <= length tasks)%nat ->
  world_after E (tasks ++ [x]) w0 n = world_after E tasks w0 n.
Proof. intros Hn. unfold world_after. by rewrite take_app_le. Qed.

Lemma outcome_in_turn_app tasks x k :
  (k < length tasks)%nat ->
  outcome_in_turn E (tasks ++ [x]) w0 k = outcome_in_turn E tasks w0 k.
Proof.
  intros Hk. unfold outcome_in_turn.
  rewrite lookup_app_l by done. by rewrite world_after_app by lia.
Qed.

Lemma world_after_S tasks n task :
  tasks !! n = Some task ->
  world_after E tasks w0 (S n) = snd (run E task (world_after E tasks w0 n)).
Proof.
  intros Hn. unfold world_after.
  rewrite (take_S_r _ _ _ Hn), foldl_app. reflexivity.
Qed.

Lemma world_after_end tasks n :
  (length tasks <= n)%nat ->
  world_after E tasks w0 (S n) = world_after E tasks w0 n.
Proof. intros Hn. unfold world_after. by rewrite !take_ge by lia. Qed.

Lemma world_after_mono tasks n :
  history (world_after E tasks w0 n)
  `prefix_of` history (world_after E tasks w0 (S n)).
Proof.
  destruct (tasks !! n) as [task |] eqn:Hn.
  - rewrite (world_after_S _ _ _ Hn). apply run_prefix.
  - apply lookup_ge_None in Hn. by rewrite world_after_end.
Qed.

Lemma outcome_in_turn_lt tasks k o :
  outcome_in_turn E tasks w0 k = Some o -> (k < length tasks)%nat.
Proof.
  unfold outcome_in_turn. intros H.
  destruct (tasks !! k) eqn:Hk; [| done]. by eapply lookup_lt_Some.
Qed.

Lemma bodies_enqueue sub s : bodies (enqueueTask sub s) = bodies s ++ [sub_task sub].
Proof. unfold bodies, enqueueTask. simpl. by rewrite fmap_app. Qed.

Lemma bodies_length s : length (bodies s) = length (submitted s).
Proof. unfold bodies. by rewrite length_fmap. Qed.

Lemma reachable_of_from s :
  reachable_from E w0 s ->
  Forall (fun sub => always_settles E (sub_task sub)) (submitted s) ->
  reachable E s.
Proof.
  induction 1 as [| s sub Hr IH | s s' Hr IH Hstep]; intros Hall.
  - apply reach_new.
  - simpl in Hall. apply Forall_app in Hall as [Hold Hnew].
    rewrite Forall_singleton in Hnew. simpl in Hnew.
    apply reach_enqueue; [by apply IH | done].
  - rewrite (lstep_submitted E s s' Hstep) in Hall.
    eapply reach_step; [by apply IH | done].
Qed.

(** The phase of the queue is read off its log. *)
Lemma phase_unique s n m :
  (idle_at E s n \/ exists p, busy_at E s n p) ->
  (idle_at E s m \/ exists p, busy_at E s m p) ->
  n = m /\ (idle_at E s n <-> idle_at E s m).
Proof.
  intros [(_ & Hr & Hs) | (p & _ & Hr & _ & Hs)]
         [(_ & Hr' & Hs') | (p' & _ & Hr' & _ & Hs')];
    rewrite Hs in Hs'; try discriminate Hs'.
  - by injection Hs' as ->.
  - injection Hs' as ->. split; [done |].
    split; intros (_ & Hr'' & _); rewrite Hr in Hr''; discriminate.
Qed.

Lemma turn_inv_new : turn_inv E w0 (new_loop w0) 0.
Proof.
  split; [simpl; lia |]. split; [| apply same_calls_refl].
  intros k r. simpl. split; [by intros H%elem_of_nil | intros [H _]; lia].
Qed.

Lemma turn_inv_enqueue s sub n :
  turn_inv E w0 s n -> turn_inv E w0 (enqueueTask sub s) n.
Proof.
  intros (Hn & Hfin & Hrun).
  assert (Hlen : length (submitted (enqueueTask sub s)) = S (length (submitted s))).
  { simpl. rewrite length_app. simpl. lia. }
  split; [lia |]. split.
  - intros k r. rewrite bodies_enqueue.
    change (qlog (enqueueTask sub s)) with (qlog s). rewrite Hfin.
    split; intros [Hk Ho]; (split; [done |]).
    + rewrite outcome_in_turn_app; [done |]. rewrite bodies_length. lia.
    + rewrite outcome_in_turn_app in Ho; [done |]. rewrite bodies_length. lia.
  - change (running (enqueueTask sub s)) with (running s).
    rewrite bodies_enqueue.
    set (bump := fun f => set_queueDepth (queueDepth f + 1) f).
    change (lworld (enqueueTask sub s)) with (with_fields bump (lworld s)).
    destruct (running s) as [| a rest].
    + rewrite world_after_app by (rewrite bodies_length; lia).
      eapply same_calls_trans; [apply same_calls_fields | exact Hrun].
    + destruct Hrun as (Hreads & Hpre & Hout & Hsame).
      pose proof (outcome_in_turn_lt _ _ _ Hout) as Hlt.
      destruct (run_same_calls E (a_code a) (with_fields bump (lworld s)) (lworld s)
                  Hreads (same_calls_fields _ _)) as [Hfst Hsnd].
      split; [done |]. split; [| split].
      * by rewrite world_after_app by lia.
      * rewrite outcome_in_turn_app by done. by rewrite Hfst.
      * rewrite world_after_app by lia.
        eapply same_calls_trans; [exact Hsnd | exact Hsame].
Qed.

Lemma finished_snoc_iff (l : list qevent) e k r :
  Finished k r ∈ l ++ [e] <-> Finished k r ∈ l \/ e = Finished k r.
Proof.
  rewrite elem_of_app, list_elem_of_singleton. split; intros [H | H]; auto.
Qed.

Lemma turn_inv_step s s' n :
  reachable E s ->
  Forall (fun sub => reads_no_field (sub_task sub)) (submitted s) ->
  lstep E s s' ->
  (idle_at E s n \/ exists p, busy_at E s n p) ->
  turn_inv E w0 s n ->
  exists n', (idle_at E s' n' \/ exists p, busy_at E s' n' p)
             /\ turn_inv E w0 s' n'.
Proof.
  intros Hreach Hreads Hstep Hphase (Hn & Hfin & Hrun).
  destruct (queue_step_cases E s s' Hreach Hstep) as [Hsub Hcases].
  assert (Hbodies : bodies s' = bodies s) by (unfold bodies; by rewrite Hsub).
  destruct Hcases as [(m & sub & Hi & Hlook & _ & Hw & Hlog & Hr')
                     | [(m & p & p' & w' & Hb & Hsp & _ & Hw & Hlog & Hr')
                       | (m & p & res & Hb & Hset & _ & Hw & Hlog & Hr')]].
  - (* the next task starts *)
    destruct (phase_unique s n m Hphase (or_introl Hi)) as [-> _].
    destruct (idle_step E s m s' Hi Hstep) as (sub' & Hlook' & Hb' & _).
    exists m. split; [right; eauto |].
    destruct Hi as (_ & Hidle & _). rewrite Hidle in Hrun.
    assert (Hbody : bodies s !! m = Some (sub_task sub)).
    { unfold bodies. by rewrite list_lookup_fmap, Hlook. }
    assert (Hr : reads_no_field (sub_task sub)).
    { rewrite Forall_forall in Hreads. apply Hreads.
      by eapply list_elem_of_lookup_2. }
    destruct (wrappedTask_same_calls E (sub_type sub) (sub_task sub) (lworld s))
      as [Hfst Hsame].
    destruct (run_same_calls E (sub_task sub) (lworld s)
                (world_after E (bodies s) w0 m) Hr Hrun) as [Hfst' Hsame'].
    split; [by rewrite Hsub |]. split.
    + intros k r. rewrite Hlog, finished_snoc_iff, Hbodies, Hfin.
      split; [intros [H | H]; [done | discriminate H] | by left].
    + rewrite Hr', Hw, Hbodies. cbn [a_code].
      split; [by apply reads_wrappedTask |]. split; [| split].
      * destruct Hrun as [-> _]. done.
      * unfold outcome_in_turn. rewrite Hbody. simpl. by rewrite Hfst, Hfst'.
      * rewrite (world_after_S _ _ _ Hbody).
        eapply same_calls_trans; [exact Hsame | exact Hsame'].
  - (* the task in flight takes a step *)
    destruct (phase_unique s n m Hphase (or_intror (ex_intro _ p Hb))) as [-> _].
    destruct (busy_step E s m p s' Hb Hstep)
      as [_ [(p'' & w'' & Hsp' & Hb') | (res & Hset & _)]].
    2:{ destruct p; simpl in Hsp, Hset; discriminate. }
    rewrite Hsp in Hsp'. injection Hsp' as <- <-.
    exists m. split; [right; eauto |].
    destruct Hb as (_ & Hbusy & _). rewrite Hbusy in Hrun. cbn [a_code] in Hrun.
    destruct Hrun as (Hreads' & Hpre & Hout & Hsame).
    split; [by rewrite Hsub |]. split.
    + intros k r. rewrite Hlog, finished_snoc_iff, Hbodies, Hfin.
      split; [intros [H | H]; [done | discriminate H] | by left].
    + rewrite Hr', Hw, Hbodies. cbn [a_code].
      rewrite <- (run_step E p p' (lworld s) w' Hsp).
      split; [by eapply reads_step |]. split; [| done].
      etrans; [exact Hpre | by eapply step_history].
  - (* the task in flight settles *)
    destruct (phase_unique s n m Hphase (or_intror (ex_intro _ p Hb))) as [-> _].
    destruct (busy_step E s m p s' Hb Hstep)
      as [_ [(p'' & w'' & Hsp' & _) | (res' & _ & Hi')]].
    { destruct p; simpl in Hsp', Hset; discriminate. }
    exists (S m). split; [by left |].
    destruct Hb as (_ & Hbusy & _). rewrite Hbusy in Hrun. cbn [a_code] in Hrun.
    destruct Hrun as (Hreads' & Hpre & Hout & Hsame).
    rewrite (settled_run E p (lworld s) res Hset) in Hout, Hsame.
    cbn [fst snd] in Hout, Hsame.
    pose proof (outcome_in_turn_lt _ _ _ Hout) as Hlt. rewrite bodies_length in Hlt.
    split; [rewrite Hsub; lia |]. split.
    + intros k r. rewrite Hlog, finished_snoc_iff, Hbodies, Hfin. split.
      * intros [[Hk Ho] | [= -> ->]]; [split; [lia | done] | split; [lia | done]].
      * intros [Hk Ho]. destruct (decide (k = m)) as [-> | Hne].
        -- right. rewrite Hout in Ho. by injection Ho as ->.
        -- left. split; [lia | done].
    + rewrite Hr', Hw, Hbodies. exact Hsame.
Qed.

(** What holds of every state of a server started in [w0] whose tasks
    settle and read no field. *)
Lemma turns_reachable s :
  reachable_from E w0 s ->
  Forall (fun sub => always_settles E (sub_task sub)) (submitted s) ->
  Forall (fun sub => reads_no_field (sub_task sub)) (submitted s) ->
  exists n, (idle_at E s n \/ exists p, busy_at E s n p) /\ turn_inv E w0 s n.
Proof.
  induction 1 as [| s sub Hr IH | s s' Hr IH Hstep]; intros Hsettle Hreads.
  - exists 0%nat. split; [left; apply idle_new | apply turn_inv_new].
  - simpl in Hsettle, Hreads.
    apply Forall_app in Hsettle as [Hs Hs'], Hreads as [Hrd Hrd'].
    rewrite Forall_singleton in Hs'. simpl in Hs'.
    destruct (IH Hs Hrd) as (n & Hphase & Hinv).
    exists n. split; [| by apply turn_inv_enqueue].
    destruct Hphase as [Hi | [p Hb]];
      [left; by apply idle_enqueue | right; exists p; by apply busy_enqueue].
  - rewrite (lstep_submitted E s s' Hstep) in Hsettle, Hreads.
    destruct (IH Hsettle Hreads) as (n & Hphase & Hinv).
    eapply turn_inv_step; eauto. by apply reachable_of_from.
Qed.

Lemma turn_inv_executed s n :
  turn_inv E w0 s n -> executed_in_turn E w0 s n.
Proof.
  intros (Hn & Hfin & Hrun). split; [exact Hfin |].
  destruct (running s) as [| a rest].
  - destruct Hrun as [Hh Hc].
    split; [by rewrite Hh |]. split; [| by intros _].
    rewrite Hh. apply world_after_mono.
  - destruct Hrun as (_ & Hpre & _ & [Hh _]).
    split; [exact Hpre |]. split; [| done].
    rewrite <- Hh. apply run_prefix.
Qed.

Lemma eventually_among (P Q : loop -> Prop) s :
  (forall s', rtc (lstep E) s s' -> P s' -> Q s') ->
  eventually E P s -> eventually E Q s.
Proof.
  intros HPQ Hev. induction Hev as [s HP | s Hex _ IH].
  - apply ev_now. by apply HPQ.
  - apply ev_later; [exact Hex |].
    intros s' Hstep. apply IH; [exact Hstep |].
    intros s'' Hsteps. apply HPQ. by eapply rtc_l.
Qed.

Lemma steps_from s s' :
  rtc (lstep E) s s' ->
  reachable_from E w0 s -> reachable_from E w0 s' /\ submitted s' = submitted s.
Proof.
  induction 1 as [| s s1 s2 Hstep _ IH]; intros Hr; [done |].
  destruct IH as [Hr2 Hs2]; [by eapply from_step |].
  split; [done |]. by rewrite Hs2, (lstep_submitted E s s1 Hstep).
Qed.

(** C1.  Whatever the callers submit, and whenever they do between the
    steps of the event loop, for tasks that settle: [enqueueTask] records
    the task behind those submitted before and starts nothing by itself; at
    most one task is in flight, and it is started after all the tasks
    before it have finished, in submission order; and from every state
    every run of the event loop gets all the submitted tasks to their end
    and the tail of the chain settled, whether the tasks return or throw.
    For tasks that read no field of the server (as those of the HTTP
    handlers and of the voice interpreter), what is executed is what
    running the task bodies one after the other does: at every moment the
    tasks that have settled are the first [n] submitted, each with the
    outcome that its body has in that run; the calls made so far are the
    calls of these [n] bodies, in submission order, followed by calls of
    task [n] only; and when the loop has come to rest the calls made are
    those of all the bodies in turn. *)
Theorem task_queue_is_serial_and_live (s : loop) :
  reachable_from E w0 s ->
  Forall (fun sub => always_settles E (sub_task sub)) (submitted s) ->
  (forall sub,
      submitted (enqueueTask sub s)
      = submitted s ++ [{| sub_type := or_else (sub_type sub) (js "task");
                           sub_task := sub_task sub |}]
      /\ running (enqueueTask sub s) = running s
      /\ qlog (enqueueTask sub s) = qlog s)
  /\ (exists n,
        (running s = [] /\ scan (qlog s) = Some (n, None))
        \/ (exists a, running s = [a] /\ a_task a = n
                      /\ scan (qlog s) = Some (S n, Some n)))
  /\ eventually E (drained s) s
  /\ (Forall (fun sub => reads_no_field (sub_task sub)) (submitted s) ->
      (exists n,
         executed_in_turn E w0 s n
         /\ ((running s = [] /\ scan (qlog s) = Some (n, None))
             \/ (exists a, running s = [a] /\ a_task a = n
                           /\ scan (qlog s) = Some (S n, Some n))))
      /\ eventually E
           (fun s' => drained s s'
                      /\ executed_in_turn E w0 s' (length (submitted s))) s).
Proof.
  intros Hfrom Hsettle.
  pose proof (reachable_of_from s Hfrom Hsettle) as Hreach.
  assert (Hshape : forall n,
            idle_at E s n \/ (exists p, busy_at E s n p) ->
            (running s = [] /\ scan (qlog s) = Some (n, None))
            \/ (exists a, running s = [a] /\ a_task a = n
                          /\ scan (qlog s) = Some (S n, Some n))).
  { intros n [(_ & Hr & Hs) | (p & _ & Hr & _ & Hs)];
      [by left | right; eexists; by rewrite Hr]. }
  destruct (queue_order_and_liveness E s Hreach) as (_ & _ & Hev).
  split; [done |]. split; [| split; [exact Hev |]].
  { destruct (reachable_inv E s Hreach) as [n Hphase]. exists n. by apply Hshape. }
  intros Hreads.
  destruct (turns_reachable s Hfrom Hsettle Hreads) as (n & Hphase & Hinv).
  split.
  - exists n. split; [by apply turn_inv_executed | by apply Hshape].
  - eapply eventually_among; [| exact Hev].
    intros s' Hsteps Hdrained. split; [exact Hdrained |].
    destruct (steps_from s s' Hsteps Hfrom) as [Hfrom' Hsub].
    destruct Hdrained as (_ & Hr' & _ & Hs' & _).
    rewrite <- Hsub in Hsettle, Hreads.
    destruct (turns_reachable s' Hfrom' Hsettle Hreads) as (m & Hphase' & Hinv').
    apply turn_inv_executed.
    destruct Hphase' as [(_ & _ & Hsm) | (p & _ & Hrm & _)];
      [| rewrite Hr' in Hrm; discriminate].
    rewrite Hs' in Hsm. by injection Hsm as <-.
Qed.

End QueueTurns.

Lemma task_queue_witness :
  eventually env_ok
    (fun s' => drained two_submitted s'
               /\ executed_in_turn env_ok world0 s' 2) two_submitted
  /\ outcome_in_turn env_ok (bodies two_submitted) world0 0
     = Some (Settled (Err (js "boom")))
  /\ outcome_in_turn env_ok (bodies two_submitted) world0 1
     = Some (Settled (Ok (VStr (js "tts:volcano:story"))))
  /\ history (world_after env_ok (bodies two_submitted) world0 2)
     = [Ev AbortXiaoAI (Ok tt);
        Ev (Synthesize (js "volcano") (js "你好。"))
          (Ok (js "http://host/api/audio/你好。"));
        Ev (PlayUrl (js "http://host/api/audio/你好。") None) (Ok tt)]
  /\ history (lworld (drain env_ok 100 two_submitted))
     = history (world_after env_ok (bodies two_submitted) world0 2)
  /\ filter (fun e => is_finished e = true) (qlog (drain env_ok 100 two_submitted))
     = [Finished 0 (Err (js "boom"));
        Finished 1 (Ok (VStr (js "tts:volcano:story")))].
Proof.
  destruct (task_queue_is_serial_and_live env_ok world0 two_submitted)
    as (_ & _ & _ & Hturn).
  - apply from_enqueue, from_enqueue, from_new.
  - constructor; [| constructor; [| constructor]].
    + intros h t. exact I.
    + apply (handler_tasks_settle ascii_toLowerCase (Some volcano_service)
               quick_story 4 env_ok)
        with (body := speak_request (js "你好") None (Some true)).
      * lia.
      * vm_compute. reflexivity.
      * left. reflexivity.
  - destruct Hturn as [_ Hev].
    + constructor; [| constructor; [| constructor]].
      * exact I.
      * apply (handler_tasks_read_no_field ascii_toLowerCase
                 (Some volcano_service) quick_story 4
                 (speak_request (js "你好") None (Some true))).
        left. reflexivity.
    + split; [exact Hev |]. repeat split; vm_compute; reflexivity.
Defined.
